(** * threlte-mcp: the command-correlation bridge

    A shallow embedding of the two halves of the bridge and of what drives
    them:

    - [BridgeServer] (src/src/bridge-server.ts): the control-plane side, which
      numbers requests, keeps the pending-request table, arms one deadline
      timer per request and matches inbound messages to pending requests;
      [Waiting] is its wait for a game client;
    - [MCPBridge] (client/MCPBridge.ts): the runtime side, which interprets
      command envelopes against a three.js scene graph and advances the
      camera tween once per frame; [Connection] is its socket and its
      reconnect timer;
    - [ToolServer] (src/src/bridge-server.ts): the handler of tool calls, which
      turns a call into commands for the bridge; [Wire] is the [JSON] round
      trip between the two sides;
    - [Gltf] (src/src/gltf-tools.ts): the analysis and the validation of a
      loaded glTF document.

    JavaScript numbers are idealised as exact rationals ([Q]); a request
    counter is an unbounded natural number ([N]). *)

From Stdlib Require Import Ascii String QArith Qminmax Lqa.
From stdpp Require Import base option list strings gmap fin_maps pretty.

Set Default Proof Using "Type".
Open Scope string_scope.

(** ** JavaScript values *)

Module Js.

(** What [JSON.parse] can return, plus [undefined] and [NaN], which occur in
    objects handed to [JSON.stringify].  An object is the list of its own
    properties in insertion order. *)
#[warnings="-register-all"]
Inductive JsVal :=
  | VUndefined
  | VNull
  | VBool (b : bool)
  | VNum (q : Q)
  | VNaN
  | VStr (s : string)
  | VArr (items : list JsVal)
  | VObj (props : list (string * JsVal)).

(** An [Error] object, identified by its [message]. *)
Record Error := mkError { message : string }.

(** [props[key]]: the first property with that key. *)
Fixpoint obj_get (key : string) (props : list (string * JsVal)) : option JsVal :=
  match props with
  | [] => None
  | (k, v) :: rest => if String.eqb k key then Some v else obj_get key rest
  end.

(** [key in obj] for a plain object. *)
Definition obj_has (key : string) (props : list (string * JsVal)) : bool :=
  match obj_get key props with Some _ => true | None => false end.

(** The rest pattern [const { key, ...rest } = obj]. *)
Fixpoint obj_remove (key : string) (props : list (string * JsVal))
  : list (string * JsVal) :=
  match props with
  | [] => []
  | (k, v) :: rest =>
      if String.eqb k key then obj_remove key rest
      else (k, v) :: obj_remove key rest
  end.

(** Assignment [obj[key] = v]: an existing property keeps its place. *)
Fixpoint obj_set (key : string) (v : JsVal) (props : list (string * JsVal))
  : list (string * JsVal) :=
  match props with
  | [] => [(key, v)]
  | (k, w) :: rest =>
      if String.eqb k key then (k, v) :: rest
      else (k, w) :: obj_set key v rest
  end.

(** Object spread [{ ...a, ...b }]. *)
Definition obj_spread (a b : list (string * JsVal)) : list (string * JsVal) :=
  foldl (fun acc kv => obj_set kv.1 kv.2 acc) a b.

(** [typeof v === 'object' && v !== null && key in v].  An array is an
    object too, but owns only its indices and [length]. *)
Definition has_prop (key : string) (v : JsVal) : bool :=
  match v with
  | VObj props => obj_has key props
  | _ => false
  end.

(** [WebSocket.readyState]. *)
Inductive ReadyState := CONNECTING | OPEN | CLOSING | CLOSED.

Definition ReadyState_eqb (a b : ReadyState) : bool :=
  match a, b with
  | CONNECTING, CONNECTING | OPEN, OPEN | CLOSING, CLOSING | CLOSED, CLOSED => true
  | _, _ => false
  end.

(** [ws !== null && ws.readyState === WebSocket.OPEN]. *)
Definition is_open (ws : option ReadyState) : bool :=
  match ws with
  | Some rs => ReadyState_eqb rs OPEN
  | None => false
  end.

(** A [string | undefined] in a boolean position. *)
Definition truthy (s : option string) : bool :=
  match s with
  | Some s => negb (String.eqb s "")
  | None => false
  end.

(** [a || b] on [string | undefined]. *)
Definition js_or (a b : option string) : option string :=
  if truthy a then a else b.

(** A [string | undefined] inside a template literal. *)
Definition show (s : option string) : string :=
  match s with Some s => s | None => "undefined" end.

Definition val_of_string (s : option string) : JsVal :=
  match s with Some s => VStr s | None => VUndefined end.

(** [s.split(sep)] for a one-character separator. *)
Fixpoint split (sep : ascii) (s : string) : list string :=
  match s with
  | EmptyString => [""]
  | String c rest =>
      if Ascii.eqb c sep then "" :: split sep rest
      else match split sep rest with
           | [] => [String c ""]
           | part :: parts => String c part :: parts
           end
  end.

(** [hay.includes(needle)]. *)
Fixpoint includes (needle hay : string) : bool :=
  String.prefix needle hay ||
  match hay with
  | EmptyString => false
  | String _ rest => includes needle rest
  end.

(** [s.toLowerCase()] on the ASCII letters. *)
Definition lower_ascii (c : ascii) : ascii :=
  let n := nat_of_ascii c in
  if (65 <=? n)%nat && (n <=? 90)%nat then ascii_of_nat (n + 32) else c.

Fixpoint toLowerCase (s : string) : string :=
  match s with
  | EmptyString => EmptyString
  | String c rest => String (lower_ascii c) (toLowerCase rest)
  end.

End Js.

(** ** The control-plane side: [BridgeServer] *)

Module BridgeServer.
Import Js.

(** [MCPCommand]: the [action] tag and the other own properties. *)
Record MCPCommand := mkCommand {
  action : string;
  params : list (string * JsVal)
}.

(** How a promise was settled. *)
Inductive Settlement :=
  | Fulfilled (value : JsVal)
  | Rejected (reason : Error).

(** [PendingRequest]: [resolve] and [reject] are the two capabilities of one
    promise, named here by the promise's handle; [timeout] is the handle
    [setTimeout] returned. *)
Record PendingRequest := mkPending {
  promise : N;
  timeout : N
}.

(** The closure [setTimeout] holds for one request: it captured [requestId],
    [command], [resolve] and [reject]. *)
Record TimerClosure := mkTimer {
  t_requestId : string;
  t_command : MCPCommand;
  t_promise : N
}.

(** The fields of the class, followed by the part of the JavaScript runtime
    the class acts on: the armed timers, the log of every [resolve] and
    [reject] call, and the frames handed to [client.send].  The fields
    [wss], [port], [commandTimeout], [listening], [lastError] and
    [startupError] are left out: none of the methods below reads them. *)
Record BridgeServer := mkServer {
  client : option ReadyState;
  pendingRequests : gmap string PendingRequest;
  requestId : N;
  lastSceneState : JsVal;
  timers : gmap N TimerClosure;
  settled : list (N * Settlement);
  outbox : list JsVal
}.

Definition initial : BridgeServer :=
  {| client := None; pendingRequests := ∅; requestId := 0%N;
     lastSceneState := VNull; timers := ∅; settled := []; outbox := [] |}.

Definition set_client (c : option ReadyState) (s : BridgeServer) : BridgeServer :=
  {| client := c; pendingRequests := pendingRequests s; requestId := requestId s;
     lastSceneState := lastSceneState s; timers := timers s;
     settled := settled s; outbox := outbox s |}.

Definition set_pendingRequests (p : gmap string PendingRequest) (s : BridgeServer)
  : BridgeServer :=
  {| client := client s; pendingRequests := p; requestId := requestId s;
     lastSceneState := lastSceneState s; timers := timers s;
     settled := settled s; outbox := outbox s |}.

Definition set_requestId (n : N) (s : BridgeServer) : BridgeServer :=
  {| client := client s; pendingRequests := pendingRequests s; requestId := n;
     lastSceneState := lastSceneState s; timers := timers s;
     settled := settled s; outbox := outbox s |}.

Definition set_lastSceneState (v : JsVal) (s : BridgeServer) : BridgeServer :=
  {| client := client s; pendingRequests := pendingRequests s;
     requestId := requestId s; lastSceneState := v; timers := timers s;
     settled := settled s; outbox := outbox s |}.

(** [setTimeout(closure, commandTimeout)], with [h] the handle returned. *)
Definition setTimeout (h : N) (c : TimerClosure) (s : BridgeServer) : BridgeServer :=
  {| client := client s; pendingRequests := pendingRequests s;
     requestId := requestId s; lastSceneState := lastSceneState s;
     timers := <[h := c]> (timers s); settled := settled s; outbox := outbox s |}.

Definition clearTimeout (h : N) (s : BridgeServer) : BridgeServer :=
  {| client := client s; pendingRequests := pendingRequests s;
     requestId := requestId s; lastSceneState := lastSceneState s;
     timers := delete h (timers s); settled := settled s; outbox := outbox s |}.

(** A call of [resolve] or [reject] on promise [p]. *)
Definition settle (p : N) (o : Settlement) (s : BridgeServer) : BridgeServer :=
  {| client := client s; pendingRequests := pendingRequests s;
     requestId := requestId s; lastSceneState := lastSceneState s;
     timers := timers s; settled := settled s ++ [(p, o)]; outbox := outbox s |}.

Definition resolve (p : N) (v : JsVal) : BridgeServer → BridgeServer :=
  settle p (Fulfilled v).

Definition reject (p : N) (e : Error) : BridgeServer → BridgeServer :=
  settle p (Rejected e).

(** [client.send(frame)] when it returns normally. *)
Definition send (frame : JsVal) (s : BridgeServer) : BridgeServer :=
  {| client := client s; pendingRequests := pendingRequests s;
     requestId := requestId s; lastSceneState := lastSceneState s;
     timers := timers s; settled := settled s; outbox := outbox s ++ [frame] |}.

(** The state a promise is in: the first call of [resolve] or [reject] wins. *)
Definition outcome (p : N) (s : BridgeServer) : option Settlement :=
  snd <$> head (filter (λ e, e.1 = p) (settled s)).

Definition isConnected (s : BridgeServer) : bool := is_open (client s).

(** [const { requestId, ...data } = message], guarded by
    ['requestId' in message]. *)
Definition message_requestId (message : JsVal) : option JsVal :=
  match message with
  | VObj props => obj_get "requestId" props
  | _ => None
  end.

Definition message_data (message : JsVal) : JsVal :=
  match message with
  | VObj props => VObj (obj_remove "requestId" props)
  | other => other
  end.

(** [this.pendingRequests.get(requestId)]: the keys are strings, so only a
    string can hit. *)
Definition pending_get (requestId : JsVal) (s : BridgeServer) : option PendingRequest :=
  match requestId with
  | VStr k => pendingRequests s !! k
  | _ => None
  end.

Definition pending_delete (requestId : JsVal) (s : BridgeServer) : BridgeServer :=
  match requestId with
  | VStr k => set_pendingRequests (delete k (pendingRequests s)) s
  | _ => s
  end.

Definition handleMessage (message : JsVal) (s : BridgeServer) : BridgeServer :=
  let s1 := if has_prop "data" message then set_lastSceneState message s else s in
  match message_requestId message with
  | Some requestId =>
      match pending_get requestId s1 with
      | Some pending =>
          resolve (promise pending) (message_data message)
            (pending_delete requestId (clearTimeout (timeout pending) s1))
      | None => s1
      end
  | None => s1
  end.

(** The identifier [`req_${n}`]. *)
Definition request_name (n : N) : string := "req_" +:+ pretty n.

(** The two actions answered from the cache when their deadline passes. *)
Definition falls_back (a : string) : bool :=
  String.eqb a "getFullSceneState" || String.eqb a "findObjects".

(** The body of the deadline callback of one request. *)
Definition on_timeout (c : TimerClosure) (s : BridgeServer) : BridgeServer :=
  let s1 := set_pendingRequests (delete (t_requestId c) (pendingRequests s)) s in
  if falls_back (action (t_command c))
  then resolve (t_promise c) (lastSceneState s1) s1
  else reject (t_promise c) (mkError "Command timeout") s1.

(** The runtime fires timer [h]: an armed timer runs its callback once and
    is gone; a cleared one does nothing. *)
Definition fire (h : N) (s : BridgeServer) : BridgeServer :=
  match timers s !! h with
  | Some c => on_timeout c (clearTimeout h s)
  | None => s
  end.

(** What [client.send(JSON.stringify(..))] does: return, or throw. *)
Inductive Transmit := Sent | Throws (e : Error).

(** The frame [{ ...command, requestId }]. *)
Definition envelope (command : MCPCommand) (requestId : string) : JsVal :=
  VObj (obj_set "requestId" (VStr requestId)
          (("action", VStr (action command)) :: params command)).

(** What the caller of the [async] method gets: a promise that is already
    rejected by the [throw], or the promise of the executor. *)
Inductive CallResult :=
  | Threw (e : Error)
  | Awaiting (p : N).

Definition sendCommand (command : MCPCommand) (tx : Transmit) (s : BridgeServer)
  : CallResult * BridgeServer :=
  if negb (isConnected s) then (Threw (mkError "No game client connected"), s)
  else
    let n := (requestId s + 1)%N in
    let requestId := request_name n in
    let s1 := set_requestId n s in
    let s2 := setTimeout n (mkTimer requestId command n) s1 in
    let s3 := set_pendingRequests
                (<[requestId := mkPending n n]> (pendingRequests s2)) s2 in
    match tx with
    | Sent => (Awaiting n, send (envelope command requestId) s3)
    | Throws error =>
        (Awaiting n,
         reject n error
           (set_pendingRequests (delete requestId (pendingRequests s3))
              (clearTimeout n s3)))
    end.

(** [close()]: every pending request is rejected, in the iteration order of
    the table, then the table is emptied. *)
Definition close (s : BridgeServer) : BridgeServer :=
  let s1 := set_client None s in
  let s2 := foldl (λ acc kv, reject (promise kv.2) (mkError "Server closed")
                               (clearTimeout (timeout kv.2) acc))
                  s1 (map_to_list (pendingRequests s1)) in
  set_pendingRequests ∅ s2.

(** The handlers installed by [startServer] and the calls from outside, as
    one event alphabet. *)
Inductive Event :=
  | Connection                       (* wss 'connection': an open socket *)
  | ReadyStateChange (rs : ReadyState) (* the socket library moves the socket on *)
  | Message (message : JsVal)        (* ws 'message', after JSON.parse *)
  | SocketClose                      (* ws 'close' *)
  | SendCommand (command : MCPCommand) (tx : Transmit)
  | TimerFires (h : N)
  | Close.

Definition step (s : BridgeServer) (e : Event) : BridgeServer :=
  match e with
  | Connection => set_client (Some OPEN) s
  | ReadyStateChange rs =>
      match client s with
      | Some _ => set_client (Some rs) s
      | None => s
      end
  | Message m => handleMessage m s
  | SocketClose => set_client None s
  | SendCommand c tx => (sendCommand c tx s).2
  | TimerFires h => fire h s
  | Close => close s
  end.

Definition run (events : list Event) : BridgeServer := foldl step initial events.

(** The states the server can be in. *)
Definition reachable (s : BridgeServer) : Prop := ∃ events, s = run events.

(** *** The invariant of the correlator *)

(** What holds of the table, the timers and the settlement log in every
    state the server reaches: each pending request owns the timer and the
    promise of its number, every armed timer belongs to a pending request,
    and no promise was settled twice. *)
Record Inv (s : BridgeServer) : Prop := mkInv {
  inv_pending : ∀ k pr, pendingRequests s !! k = Some pr →
    ∃ n c, k = request_name n ∧ pr = mkPending n n ∧ (n <= requestId s)%N
           ∧ timers s !! n = Some (mkTimer k c n);
  inv_timers : ∀ h tc, timers s !! h = Some tc →
    t_promise tc = h ∧ t_requestId tc = request_name h
    ∧ pendingRequests s !! request_name h = Some (mkPending h h);
  inv_once : NoDup (settled s).*1;
  inv_settled : ∀ p, p ∈ (settled s).*1 → (p <= requestId s)%N ∧ timers s !! p = None
}.

(** The rejections [close] issues, one per entry of the table. *)
Definition rejections (s : BridgeServer) : list (N * Settlement) :=
  (λ kv, (promise kv.2, Rejected (mkError "Server closed")))
    <$> map_to_list (pendingRequests s).

(** The inbound messages among the events. *)
Definition inbound (events : list Event) : list JsVal :=
  omap (λ e, match e with Message m => Some m | _ => None end) events.

(** *** Runs of requests and responses *)

(** The commands are sent one after the other, and each is transmitted. *)
Definition send_all (s : BridgeServer) (commands : list MCPCommand) : BridgeServer :=
  foldl (λ s c, (sendCommand c Sent s).2) s commands.

(** The response envelope of request number [n] with the given result
    fields. *)
Definition response_for (answer : N * list (string * JsVal)) : JsVal :=
  VObj (("requestId", VStr (request_name answer.1)) :: answer.2).

(** The responses arrive in the order of the list. *)
Definition receive_all (s : BridgeServer) (answers : list (N * list (string * JsVal)))
  : BridgeServer :=
  foldl (λ s a, handleMessage (response_for a) s) s answers.

(** *** Sample data *)

(** Two requests in flight, and the answer to the second one. *)
Definition demo_move : MCPCommand := mkCommand "moveObject" [("name", VStr "cube")].
Definition demo_query : MCPCommand := mkCommand "getFullSceneState" [].
Definition two_in_flight : BridgeServer :=
  run [Connection; SendCommand demo_move Sent; SendCommand demo_query Sent].
Definition demo_answer : JsVal :=
  VObj [("requestId", VStr "req_2"); ("success", VBool true); ("data", VArr [])].

(** A state push, and the answer to a scene query. *)
Definition demo_push : JsVal := VObj [("data", VArr [VStr "cube"])].
Definition demo_scene_answer : JsVal :=
  VObj [("requestId", VStr "req_1"); ("success", VBool true); ("data", VArr [])].

End BridgeServer.

(** ** The part of three.js the runtime side drives

    [THREE.Object3D] and [THREE.Vector3] are not code of this repository; this
    module states, from the library's documented behaviour, the operations
    [MCPBridge] calls.  The scene graph is a tree; a JavaScript object
    reference is a [uid], unique per node. *)

Module Three.

(** A number as a vector component holds it: [position.set] can store an
    [undefined] read past the end of an array, and arithmetic on a
    non-number gives [NaN]. *)
Inductive num := Num (q : Q) | NaN | Undefined.

Definition num_add (a b : num) : num :=
  match a, b with Num p, Num q => Num (p + q) | _, _ => NaN end.

Definition num_sub (a b : num) : num :=
  match a, b with Num p, Num q => Num (p - q) | _, _ => NaN end.

Definition num_mul (a b : num) : num :=
  match a, b with Num p, Num q => Num (p * q) | _, _ => NaN end.

Definition num_div (a b : num) : num :=
  match a, b with
  | Num p, Num q => if Qeq_bool q 0 then NaN else Num (p / q)
  | _, _ => NaN
  end.

(** [array[i]] on a [number[]]. *)
Definition index (l : list Q) (i : nat) : num :=
  match l !! i with Some q => Num q | None => Undefined end.

Record Vector3 := mkVector3 { x : num; y : num; z : num }.

Definition or_zero (a : num) : num :=
  match a with Undefined => Num 0 | _ => a end.

(** [new THREE.Vector3(x = 0, y = 0, z = 0)]. *)
Definition newVector3 (a b c : num) : Vector3 :=
  mkVector3 (or_zero a) (or_zero b) (or_zero c).

(** [v.set(x, y, z)]; an [undefined] third argument keeps [v.z]. *)
Definition Vector3_set (a b c : num) (v : Vector3) : Vector3 :=
  mkVector3 a b (match c with Undefined => z v | _ => c end).

Definition Vector3_add (v w : Vector3) : Vector3 :=
  mkVector3 (num_add (x v) (x w)) (num_add (y v) (y w)) (num_add (z v) (z w)).

(** [v.lerpVectors(v1, v2, alpha)]. *)
Definition lerpVectors (v1 v2 : Vector3) (alpha : Q) : Vector3 :=
  mkVector3
    (num_add (x v1) (num_mul (num_sub (x v2) (x v1)) (Num alpha)))
    (num_add (y v1) (num_mul (num_sub (y v2) (y v1)) (Num alpha)))
    (num_add (z v1) (num_mul (num_sub (z v2) (z v1)) (Num alpha))).

Record Euler := mkEuler { ex : num; ey : num; ez : num }.

Inductive Geometry :=
  | BoxGeometry (width height depth : num)
  | SphereGeometry (radius : num) (widthSegments heightSegments : nat)
  | CylinderGeometry (radiusTop radiusBottom height : num) (radialSegments : nat)
  | PlaneGeometry (width height : num).

Record Material := mkMaterial {
  color : string;
  transparent : bool;
  opacity : num
}.

Record Lens := mkLens { fov : Q; near : Q; far : Q }.

(** [isCamera] and [isPerspectiveCamera] with the lens a perspective camera
    carries. *)
Inductive CameraKind :=
  | NotCamera
  | PerspectiveCamera (lens : Lens)
  | OtherCamera.

Record Light := mkLight { light_color : string; intensity : Q }.

(** The own fields of one node.  [name] can be [undefined] after
    [clone.name = newName] with no [newName]; [material] refers into the
    material store, because [clone] shares materials. *)
Record Props := mkProps {
  uid : nat;
  name : option string;
  type : string;
  position : Vector3;
  rotation : Euler;
  scale : Vector3;
  visible : option bool;
  camera : CameraKind;
  geometry : option Geometry;
  material : option nat;
  light : option Light
}.

#[warnings="-register-all"]
Inductive Object3D := Obj (props : Props) (children : list Object3D).

Definition props_of (t : Object3D) : Props := match t with Obj p _ => p end.
Definition children_of (t : Object3D) : list Object3D :=
  match t with Obj _ cs => cs end.
Definition uid_of (t : Object3D) : nat := uid (props_of t).

Definition set_uid (u : nat) (p : Props) : Props :=
  {| uid := u; name := name p; type := type p; position := position p;
     rotation := rotation p; scale := scale p; visible := visible p;
     camera := camera p; geometry := geometry p; material := material p;
     light := light p |}.

Definition set_name (n : option string) (p : Props) : Props :=
  {| uid := uid p; name := n; type := type p; position := position p;
     rotation := rotation p; scale := scale p; visible := visible p;
     camera := camera p; geometry := geometry p; material := material p;
     light := light p |}.

Definition set_position (v : Vector3) (p : Props) : Props :=
  {| uid := uid p; name := name p; type := type p; position := v;
     rotation := rotation p; scale := scale p; visible := visible p;
     camera := camera p; geometry := geometry p; material := material p;
     light := light p |}.

Definition set_rotation (e : Euler) (p : Props) : Props :=
  {| uid := uid p; name := name p; type := type p; position := position p;
     rotation := e; scale := scale p; visible := visible p;
     camera := camera p; geometry := geometry p; material := material p;
     light := light p |}.

Definition set_scale (v : Vector3) (p : Props) : Props :=
  {| uid := uid p; name := name p; type := type p; position := position p;
     rotation := rotation p; scale := v; visible := visible p;
     camera := camera p; geometry := geometry p; material := material p;
     light := light p |}.

Definition set_visible (b : option bool) (p : Props) : Props :=
  {| uid := uid p; name := name p; type := type p; position := position p;
     rotation := rotation p; scale := scale p; visible := b;
     camera := camera p; geometry := geometry p; material := material p;
     light := light p |}.

Definition set_camera (c : CameraKind) (p : Props) : Props :=
  {| uid := uid p; name := name p; type := type p; position := position p;
     rotation := rotation p; scale := scale p; visible := visible p;
     camera := c; geometry := geometry p; material := material p;
     light := light p |}.

(** A fresh [new THREE.Object3D()] of the given [type]. *)
Definition newProps (u : nat) (ty : string) : Props :=
  {| uid := u; name := Some ""; type := ty;
     position := mkVector3 (Num 0) (Num 0) (Num 0);
     rotation := mkEuler (Num 0) (Num 0) (Num 0);
     scale := mkVector3 (Num 1) (Num 1) (Num 1);
     visible := Some true; camera := NotCamera; geometry := None;
     material := None; light := None |}.

Definition isCamera (p : Props) : bool :=
  match camera p with NotCamera => false | _ => true end.

(** The first defined entry. *)
Fixpoint first_some {A} (l : list (option A)) : option A :=
  match l with
  | [] => None
  | Some a :: _ => Some a
  | None :: rest => first_some rest
  end.

(** Every handle in a subtree, the node itself first. *)
Fixpoint uids (t : Object3D) : list nat :=
  match t with Obj p cs => uid p :: concat (map uids cs) end.

(** [traverse]: the nodes of a subtree in visiting order. *)
Fixpoint nodes (t : Object3D) : list Props :=
  match t with Obj p cs => p :: concat (map nodes cs) end.

(** [getObjectByProperty]: the node itself, then each child's subtree in
    order. *)
Fixpoint getObjectBy (f : Props → bool) (t : Object3D) : option Object3D :=
  match t with
  | Obj p cs => if f p then Some t else first_some (map (getObjectBy f) cs)
  end.

(** [this.name === n] at every node. *)
Definition getObjectByName (n : option string) (t : Object3D) : option Object3D :=
  getObjectBy (λ p, bool_decide (name p = n)) t.

(** Dereferencing a handle inside one tree. *)
Fixpoint find_node (u : nat) (t : Object3D) : option Object3D :=
  match t with
  | Obj p cs =>
      if Nat.eqb (uid p) u then Some t else first_some (map (find_node u) cs)
  end.

(** [node.parent] for the node with handle [u], when it lies below the root
    of [t]. *)
Fixpoint parent_in (u : nat) (t : Object3D) : option nat :=
  match t with
  | Obj p cs =>
      if existsb (λ c, Nat.eqb (uid_of c) u) cs then Some (uid p)
      else first_some (map (parent_in u) cs)
  end.

(** An assignment to fields of the node with handle [u]. *)
Fixpoint modify (u : nat) (f : Props → Props) (t : Object3D) : Object3D :=
  match t with
  | Obj p cs => Obj (if Nat.eqb (uid p) u then f p else p) (map (modify u f) cs)
  end.

(** [parent.remove(node)]: the subtree with handle [u] leaves the children
    array it is in. *)
Fixpoint prune (u : nat) (t : Object3D) : Object3D :=
  match t with
  | Obj p cs =>
      Obj p (filter (λ c, uid_of c ≠ u) (map (prune u) cs))
  end.

(** [parent.children.push(child)] on the node with handle [u]. *)
Fixpoint graft (u : nat) (child : Object3D) (t : Object3D) : Object3D :=
  match t with
  | Obj p cs =>
      Obj p (map (graft u child) cs ++ (if Nat.eqb (uid p) u then [child] else []))
  end.

(** [clone(true)]: a copy of the subtree whose nodes get the fresh handles
    [n], [n+1], ...; returns the next unused handle. *)
Fixpoint clone (n : nat) (t : Object3D) {struct t} : nat * Object3D :=
  match t with
  | Obj p cs =>
      let fix clone_list (n : nat) (cs : list Object3D) {struct cs}
        : nat * list Object3D :=
        match cs with
        | [] => (n, [])
        | c :: rest =>
            let '(n1, c') := clone n c in
            let '(n2, rest') := clone_list n1 rest in
            (n2, c' :: rest')
        end in
      let '(n', cs') := clone_list (S n) cs in
      (n', Obj (set_uid n p) cs')
  end.

(** The loop of [clone] over the children, on its own. *)
Fixpoint clone_children (n : nat) (cs : list Object3D) : nat * list Object3D :=
  match cs with
  | [] => (n, [])
  | c :: rest =>
      let '(n1, c') := clone n c in
      let '(n2, rest') := clone_children n1 rest in
      (n2, c' :: rest')
  end.

End Three.

(** ** The runtime side: [MCPBridge] *)

Module MCPBridge.
Import Js Three.

(** Library functions whose results are not rational arithmetic:
    [Number.prototype.toFixed(2)], the orientation [Object3D.lookAt] gives a
    node of the graph, and [Object3D.getWorldDirection]. *)
Class Externals := {
  toFixed2 : Q → string;
  lookAt_rotation : list Object3D → nat → num → num → num → Euler;
  getWorldDirection : list Object3D → nat → Vector3
}.

(** The two clocks the bridge reads. *)
Record Clock := mkClock {
  performance_now : option Q;
  Date_now : N
}.

(** [typeof performance !== 'undefined' ? performance.now() : Date.now()]. *)
Definition now (clk : Clock) : Q :=
  match performance_now clk with
  | Some t => t
  | None => inject_Z (Z.of_N (Date_now clk))
  end.

(** A decoded command envelope: every field but [action] may be missing. *)
Record MCPCommand := mkCommand {
  c_action : string;
  c_requestId : option string;
  c_maxDepth : option Q;
  c_name : option string;
  c_nameContains : option string;
  c_type : option string;
  c_path : option string;
  c_id : option string;
  c_newName : option string;
  c_position : option (list Q);
  c_rotation : option (list Q);
  c_scale : option (list Q);
  c_target : option (list Q);
  c_offset : option (list Q);
  c_lookAt : option (list Q);
  c_size : option (list Q);
  c_visible : option bool;
  c_opacity : option Q;
  c_speed : option Q;
  c_animate : option bool;
  c_duration : option Q;
  c_fov : option Q;
  c_near : option Q;
  c_far : option Q;
  c_color : option string;
  c_intensity : option Q
}.

Record CameraTween := mkTween {
  startTime : Q;
  duration : Q;
  from : Vector3;
  to : Vector3;
  fromLookAt : option Vector3;
  toLookAt : option Vector3;
  fromFov : option Q;
  toFov : option Q;
  fromNear : option Q;
  toNear : option Q;
  fromFar : option Q;
  toFar : option Q
}.

(** The fields of the class ([maxDepth] is [options.maxDepth]), followed by
    what the JavaScript heap adds: the objects that are referenced but hang
    under no scene node, the next unused handle, the materials, and the
    frames handed to [ws.send]. *)
Record MCPBridge := mkBridge {
  ws : option ReadyState;
  scene : Object3D;
  maxDepth : Q;
  rotatingObjects : list (option string * Q);
  objects : gmap (option string) nat;
  cameraTween : option CameraTween;
  cameraLookAt : option Vector3;
  detached : list Object3D;
  next_uid : nat;
  materials : gmap nat Material;
  sent : list JsVal
}.

Definition set_graph (root : Object3D) (loose : list Object3D) (b : MCPBridge)
  : MCPBridge :=
  {| ws := ws b; scene := root; maxDepth := maxDepth b;
     rotatingObjects := rotatingObjects b; objects := objects b;
     cameraTween := cameraTween b; cameraLookAt := cameraLookAt b;
     detached := loose; next_uid := next_uid b; materials := materials b;
     sent := sent b |}.

Definition set_rotatingObjects (r : list (option string * Q)) (b : MCPBridge)
  : MCPBridge :=
  {| ws := ws b; scene := scene b; maxDepth := maxDepth b;
     rotatingObjects := r; objects := objects b;
     cameraTween := cameraTween b; cameraLookAt := cameraLookAt b;
     detached := detached b; next_uid := next_uid b; materials := materials b;
     sent := sent b |}.

Definition set_objects (o : gmap (option string) nat) (b : MCPBridge) : MCPBridge :=
  {| ws := ws b; scene := scene b; maxDepth := maxDepth b;
     rotatingObjects := rotatingObjects b; objects := o;
     cameraTween := cameraTween b; cameraLookAt := cameraLookAt b;
     detached := detached b; next_uid := next_uid b; materials := materials b;
     sent := sent b |}.

Definition set_cameraTween (t : option CameraTween) (b : MCPBridge) : MCPBridge :=
  {| ws := ws b; scene := scene b; maxDepth := maxDepth b;
     rotatingObjects := rotatingObjects b; objects := objects b;
     cameraTween := t; cameraLookAt := cameraLookAt b;
     detached := detached b; next_uid := next_uid b; materials := materials b;
     sent := sent b |}.

Definition set_cameraLookAt (v : option Vector3) (b : MCPBridge) : MCPBridge :=
  {| ws := ws b; scene := scene b; maxDepth := maxDepth b;
     rotatingObjects := rotatingObjects b; objects := objects b;
     cameraTween := cameraTween b; cameraLookAt := v;
     detached := detached b; next_uid := next_uid b; materials := materials b;
     sent := sent b |}.

Definition set_next_uid (n : nat) (b : MCPBridge) : MCPBridge :=
  {| ws := ws b; scene := scene b; maxDepth := maxDepth b;
     rotatingObjects := rotatingObjects b; objects := objects b;
     cameraTween := cameraTween b; cameraLookAt := cameraLookAt b;
     detached := detached b; next_uid := n; materials := materials b;
     sent := sent b |}.

Definition set_materials (m : gmap nat Material) (b : MCPBridge) : MCPBridge :=
  {| ws := ws b; scene := scene b; maxDepth := maxDepth b;
     rotatingObjects := rotatingObjects b; objects := objects b;
     cameraTween := cameraTween b; cameraLookAt := cameraLookAt b;
     detached := detached b; next_uid := next_uid b; materials := m;
     sent := sent b |}.

Definition set_sent (frames : list JsVal) (b : MCPBridge) : MCPBridge :=
  {| ws := ws b; scene := scene b; maxDepth := maxDepth b;
     rotatingObjects := rotatingObjects b; objects := objects b;
     cameraTween := cameraTween b; cameraLookAt := cameraLookAt b;
     detached := detached b; next_uid := next_uid b; materials := materials b;
     sent := frames |}.

(** *** Handles into the graph *)

(** Every tree an object reference can point into. *)
Definition world (b : MCPBridge) : list Object3D := scene b :: detached b.

(** The object behind a handle. *)
Definition deref (u : nat) (b : MCPBridge) : option Object3D :=
  first_some (map (find_node u) (world b)).

(** [object.parent]. *)
Definition parent_of (u : nat) (b : MCPBridge) : option nat :=
  first_some (map (parent_in u) (world b)).

(** A field assignment through a handle. *)
Definition update_node (u : nat) (f : Props → Props) (b : MCPBridge) : MCPBridge :=
  set_graph (modify u f (scene b)) (map (modify u f) (detached b)) b.

(** [object.removeFromParent()]: nothing happens without a parent; otherwise
    the subtree leaves its parent's [children] and hangs loose. *)
Definition removeFromParent (u : nat) (b : MCPBridge) : MCPBridge :=
  match parent_of u b, deref u b with
  | Some _, Some subtree =>
      set_graph (prune u (scene b)) (map (prune u) (detached b) ++ [subtree]) b
  | _, _ => b
  end.

(** [parent.add(child)] for a [child] that was just created. *)
Definition add (parent : nat) (child : Object3D) (b : MCPBridge) : MCPBridge :=
  set_graph (graft parent child (scene b)) (map (graft parent child) (detached b)) b.

(** *** Results *)

Inductive Outcome (A : Type) :=
  | Returns (a : A)
  | Throws (e : Error).
Arguments Returns {A} a.
Arguments Throws {A} e.

(** A method body: it may throw, and keeps what it wrote before. *)
Definition M (A : Type) : Type := MCPBridge → Outcome A * MCPBridge.

Definition ret {A} (a : A) : M A := λ b, (Returns a, b).

Definition throw {A} (e : Error) : M A := λ b, (Throws e, b).

Definition bind {A B} (m : M A) (k : A → M B) : M B :=
  λ b, match m b with
       | (Returns a, b') => k a b'
       | (Throws e, b') => (Throws e, b')
       end.

Definition write (f : MCPBridge → MCPBridge) : M unit := λ b, (Returns tt, f b).

Definition try_catch {A} (m : M A) (handler : Error → M A) : M A :=
  λ b, match m b with
       | (Returns a, b') => (Returns a, b')
       | (Throws e, b') => handler e b'
       end.

Notation "'do' x <- m ; k" := (bind m (λ x, k))
  (at level 10, x name, m at level 100, k at level 200, only parsing).

Definition success : JsVal := VObj [("success", VBool true)].

Definition success_data (data : JsVal) : JsVal :=
  VObj [("success", VBool true); ("data", data)].

Definition success_id (id : option string) : JsVal :=
  VObj [("success", VBool true); ("id", val_of_string id)].

Definition failure (error : string) : JsVal :=
  VObj [("success", VBool false); ("error", VStr error)].

(** The engine's message for [undefined[i]] and [undefined.f]. *)
Definition cannot_read (property : string) : Error :=
  mkError ("Cannot read properties of undefined (reading '" +:+ property +:+ "')").

(** *** Lookup *)

(** The loop of [findObject] over the path segments. *)
Fixpoint walk (parts : list string) (current : Object3D) : option Object3D :=
  match parts with
  | [] => Some current
  | part :: rest =>
      match List.find (λ node, bool_decide (name (props_of node) = Some part)
                               || String.eqb (type (props_of node)) part)
                      (children_of current) with
      | Some child => walk rest child
      | None => None
      end
  end.

(** The path-based half of [findObject]. *)
Definition path_lookup (path : string) (root : Object3D) : option Object3D :=
  match walk (split "/" path) root with
  | Some current =>
      if Nat.eqb (uid_of current) (uid_of root) then None else Some current
  | None => None
  end.

Definition findObject (nameOrPath : option string) (b : MCPBridge)
  : Outcome (option Object3D) :=
  let direct :=
    match objects b !! nameOrPath ≫= (λ u, deref u b) with
    | Some o => Some o
    | None => getObjectByName nameOrPath (scene b)
    end in
  match direct with
  | Some o => Returns (Some o)
  | None =>
      match nameOrPath with
      | None => Throws (cannot_read "split")
      | Some path => Returns (path_lookup path (scene b))
      end
  end.

(** *** Object manipulation *)

(** The three reads [values[0]], [values[1]], [values[2]]. *)
Definition read3 (values : option (list Q)) : Outcome (num * num * num) :=
  match values with
  | Some l => Returns (index l 0, index l 1, index l 2)
  | None => Throws (cannot_read "0")
  end.

Definition moveObject (nameOrPath : option string) (position : option (list Q))
  : M JsVal :=
  λ b,
    match findObject nameOrPath b with
    | Throws e => (Throws e, b)
    | Returns None => (Returns (failure ("Object not found: " +:+ show nameOrPath)), b)
    | Returns (Some obj) =>
        match read3 position with
        | Throws e => (Throws e, b)
        | Returns (px, py, pz) =>
            (Returns success,
             update_node (uid_of obj)
               (λ p, set_position (Vector3_set px py pz (Three.position p)) p) b)
        end
    end.

Inductive TransformProp := Rotation | Scale.

Definition setTransform (name : option string) (prop : TransformProp)
    (values : option (list Q)) : M JsVal :=
  λ b,
    match findObject name b with
    | Throws e => (Throws e, b)
    | Returns None => (Returns (failure ("Object not found: " +:+ show name)), b)
    | Returns (Some obj) =>
        match read3 values with
        | Throws e => (Throws e, b)
        | Returns (vx, vy, vz) =>
            (Returns success,
             update_node (uid_of obj)
               (λ p, match prop with
                     | Rotation => set_rotation (mkEuler vx vy vz) p
                     | Scale => set_scale (Vector3_set vx vy vz (Three.scale p)) p
                     end) b)
        end
    end.

Definition setVisibility (name : option string) (visible : option bool) : M JsVal :=
  λ b,
    match findObject name b with
    | Throws e => (Throws e, b)
    | Returns None => (Returns (failure ("Object not found: " +:+ show name)), b)
    | Returns (Some obj) =>
        (Returns success, update_node (uid_of obj) (set_visible visible) b)
    end.

Definition lookAt `{Externals} (name : option string) (target : option (list Q))
  : M JsVal :=
  λ b,
    match findObject name b with
    | Throws e => (Throws e, b)
    | Returns None => (Returns (failure ("Object not found: " +:+ show name)), b)
    | Returns (Some obj) =>
        match read3 target with
        | Throws e => (Throws e, b)
        | Returns (tx, ty, tz) =>
            (Returns success,
             update_node (uid_of obj)
               (set_rotation (lookAt_rotation (world b) (uid_of obj) tx ty tz)) b)
        end
    end.

(** The materials met by [obj.traverse]. *)
Definition materials_of (obj : Object3D) : list nat :=
  omap material (nodes obj).

Definition setOpacity (name : option string) (opacity : option Q) : M JsVal :=
  λ b,
    match findObject name b with
    | Throws e => (Throws e, b)
    | Returns None => (Returns (failure ("Object not found: " +:+ show name)), b)
    | Returns (Some obj) =>
        let below_one :=
          match opacity with Some q => negb (Qle_bool 1 q) | None => false end in
        let value := match opacity with Some q => Num q | None => Undefined end in
        (Returns success,
         set_materials
           (foldl (λ ms m, alter (λ mat, mkMaterial (color mat) below_one value) m ms)
                  (materials b) (materials_of obj)) b)
    end.

(** *** Camera *)

Definition getActiveCamera (b : MCPBridge) : option Object3D :=
  getObjectBy isCamera (scene b).

Definition getCameraLookAt `{Externals} (camera : Object3D) (b : MCPBridge) : Vector3 :=
  match cameraLookAt b with
  | Some v => v
  | None =>
      Vector3_add (position (props_of camera))
                  (getWorldDirection (world b) (uid_of camera))
  end.

Definition val_of_num (n : num) : JsVal :=
  match n with Num q => VNum q | NaN => VNaN | Undefined => VUndefined end.

Definition getCameraState `{Externals} (b : MCPBridge) : JsVal :=
  match getActiveCamera b with
  | None => VObj [("error", VStr "No camera found")]
  | Some camera =>
      let p := props_of camera in
      let lookAt := getCameraLookAt camera b in
      let state :=
        [("position", VArr [val_of_num (x (position p)); val_of_num (y (position p));
                            val_of_num (z (position p))]);
         ("rotation", VArr [val_of_num (ex (rotation p)); val_of_num (ey (rotation p));
                            val_of_num (ez (rotation p))]);
         ("lookAt", VArr [val_of_num (x lookAt); val_of_num (y lookAt);
                          val_of_num (z lookAt)])] in
      match Three.camera p with
      | PerspectiveCamera lens =>
          VObj (state ++ [("fov", VNum (fov lens)); ("near", VNum (near lens));
                          ("far", VNum (far lens))])
      | _ => VObj state
      end
  end.

Definition is_some {A} (o : option A) : bool :=
  match o with Some _ => true | None => false end.

(** The lens of a perspective camera after the three guarded assignments. *)
Definition assign_lens (f n r : option Q) (lens : Lens) : Lens :=
  mkLens (default (fov lens) f) (default (near lens) n) (default (far lens) r).

Definition with_lens (f : Lens → Lens) (p : Props) : Props :=
  match camera p with
  | PerspectiveCamera lens => set_camera (PerspectiveCamera (f lens)) p
  | _ => p
  end.

Definition setCameraPosition `{Externals} (clk : Clock) (command : MCPCommand)
  : M JsVal :=
  λ b,
    match getActiveCamera b with
    | None => (Returns (failure "No camera found"), b)
    | Some camera =>
        match c_position command with
        | Some [p0; p1; p2] =>
            let targetPosition := newVector3 (Num p0) (Num p1) (Num p2) in
            let targetLookAt :=
              (λ l, newVector3 (index l 0) (index l 1) (index l 2)) <$> c_lookAt command in
            let animate := default false (c_animate command) in
            let duration :=
              match c_duration command with Some d => Qmax 0 d | None => 0%Q end in
            let cam := uid_of camera in
            let lens :=
              match Three.camera (props_of camera) with
              | PerspectiveCamera l => Some l
              | _ => None
              end in
            let wantsLens :=
              is_some lens && (is_some (c_fov command) || is_some (c_near command)
                               || is_some (c_far command)) in
            if animate && negb (Qle_bool duration 0) then
              let tween :=
                {| startTime := now clk;
                   duration := duration;
                   from := position (props_of camera);
                   to := targetPosition;
                   fromLookAt :=
                     if is_some targetLookAt then Some (getCameraLookAt camera b)
                     else None;
                   toLookAt := targetLookAt;
                   fromFov := if wantsLens then fov <$> lens else None;
                   toFov :=
                     if wantsLens
                     then (λ l, default (fov l) (c_fov command)) <$> lens else None;
                   fromNear := if wantsLens then near <$> lens else None;
                   toNear :=
                     if wantsLens
                     then (λ l, default (near l) (c_near command)) <$> lens else None;
                   fromFar := if wantsLens then far <$> lens else None;
                   toFar :=
                     if wantsLens
                     then (λ l, default (far l) (c_far command)) <$> lens else None |} in
              (Returns success, set_cameraTween (Some tween) b)
            else
              let b1 := update_node cam (set_position targetPosition)
                          (set_cameraTween None b) in
              let b2 :=
                match targetLookAt with
                | Some v =>
                    set_cameraLookAt (Some v)
                      (update_node cam
                         (set_rotation (lookAt_rotation (world b1) cam (x v) (y v) (z v)))
                         b1)
                | None => b1
                end in
              let b3 :=
                if wantsLens
                then update_node cam
                       (with_lens (assign_lens (c_fov command) (c_near command)
                                               (c_far command))) b2
                else b2 in
              (Returns success, b3)
        | _ => (Returns (failure "Invalid camera position"), b)
        end
    end.

(** *** The render-loop hook *)

(** [this.objects.get(id) || this.scene.getObjectByName(id)]. *)
Definition resolve_id (id : option string) (b : MCPBridge) : option Object3D :=
  match objects b !! id ≫= (λ u, deref u b) with
  | Some o => Some o
  | None => getObjectByName id (scene b)
  end.

(** One turn of the loop over [rotatingObjects]. *)
Definition rotate (b : MCPBridge) (entry : option string * Q) : MCPBridge :=
  match resolve_id entry.1 b with
  | Some obj =>
      update_node (uid_of obj)
        (λ p, set_rotation
                (mkEuler (ex (rotation p))
                         (num_add (ey (rotation p)) (Num (entry.2 * (16 # 1000))))
                         (ez (rotation p))) p) b
  | None => b
  end.

(** The interpolation parameter [t] of a tick at time [now]. *)
Definition progress (now : Q) (tween : CameraTween) : Q :=
  let duration := Qmax 0 (duration tween) in
  if Qeq_bool duration 0 then 1%Q
  else Qmin 1 ((now - startTime tween) / duration).

Definition lerpNumber (from to t : Q) : Q := (from + (to - from) * t)%Q.

(** The three guarded lens assignments of a tick. *)
Definition lerp_lens (tween : CameraTween) (t : Q) (lens : Lens) : Lens :=
  mkLens
    (match fromFov tween, toFov tween with
     | Some a, Some c => lerpNumber a c t | _, _ => fov lens end)
    (match fromNear tween, toNear tween with
     | Some a, Some c => lerpNumber a c t | _, _ => near lens end)
    (match fromFar tween, toFar tween with
     | Some a, Some c => lerpNumber a c t | _, _ => far lens end).

(** The second half of [update], when a tween is active. *)
Definition advance `{Externals} (clk : Clock) (tween : CameraTween) (b : MCPBridge)
  : MCPBridge :=
  match getActiveCamera b with
  | None => set_cameraTween None b
  | Some camera =>
      let cam := uid_of camera in
      let t := progress (now clk) tween in
      let b1 := update_node cam (set_position (lerpVectors (from tween) (to tween) t)) b in
      let b2 :=
        match toLookAt tween with
        | Some toL =>
            let fromL := default toL (fromLookAt tween) in
            let currentLookAt := lerpVectors fromL toL t in
            set_cameraLookAt (Some currentLookAt)
              (update_node cam
                 (set_rotation
                    (lookAt_rotation (world b1) cam (x currentLookAt)
                                     (y currentLookAt) (z currentLookAt))) b1)
        | None => b1
        end in
      let b3 := update_node cam (with_lens (lerp_lens tween t)) b2 in
      if Qle_bool 1 t then set_cameraTween None b3 else b3
  end.

Definition update `{Externals} (clk : Clock) (b : MCPBridge) : MCPBridge :=
  let b1 := foldl rotate b (rotatingObjects b) in
  match cameraTween b1 with
  | Some tween => advance clk tween b1
  | None => b1
  end.

(** *** Object lifecycle *)

(** [cmd.color || fallback]. *)
Definition or_default (s : option string) (fallback : string) : string :=
  show (js_or s (Some fallback)).

Definition primitive_geometry (kind : option string) (size : list Q) : option Geometry :=
  match kind with
  | Some k =>
      if String.eqb k "cube" || String.eqb k "box" then
        Some (BoxGeometry (index size 0) (index size 1) (index size 2))
      else if String.eqb k "sphere" then
        Some (SphereGeometry (num_div (index size 0) (Num 2)) 32 32)
      else if String.eqb k "cylinder" then
        Some (CylinderGeometry (num_div (index size 0) (Num 2))
                               (num_div (index size 0) (Num 2)) (index size 1) 32)
      else if String.eqb k "plane" then
        Some (PlaneGeometry (index size 0) (index size 1))
      else None
  | None => None
  end.

(** [if (cmd.position) object.position.set(cmd.position[0], ..)]. *)
Definition place (position : option (list Q)) (p : Props) : Props :=
  match position with
  | Some l =>
      set_position (Vector3_set (index l 0) (index l 1) (index l 2) (Three.position p)) p
  | None => p
  end.

Definition addPrimitive (clk : Clock) (cmd : MCPCommand) : M JsVal :=
  λ b,
    let size := default [1%Q; 1%Q; 1%Q] (c_size cmd) in
    match primitive_geometry (toLowerCase <$> c_type cmd) size with
    | None => (Returns (failure ("Unknown primitive type: " +:+ show (c_type cmd))), b)
    | Some geometry =>
        let material_id := next_uid b in
        let mesh_id := S (next_uid b) in
        let material := mkMaterial (or_default (c_color cmd) "#ffffff") false (Num 1) in
        let mesh_name :=
          js_or (c_name cmd)
                (Some ("mcp_" +:+ show (c_type cmd) +:+ "_" +:+ pretty (Date_now clk))) in
        let fresh := newProps mesh_id "Mesh" in
        let mesh :=
          {| uid := mesh_id; name := mesh_name; type := "Mesh";
             position := position fresh; rotation := rotation fresh;
             scale := scale fresh; visible := visible fresh; camera := NotCamera;
             geometry := Some geometry; material := Some material_id;
             light := None |} in
        let b1 := set_materials (<[material_id := material]> (materials b))
                    (set_next_uid (S mesh_id) b) in
        let b2 := add (uid_of (scene b1)) (Obj (place (c_position cmd) mesh) []) b1 in
        (Returns (success_id mesh_name),
         set_objects (<[mesh_name := mesh_id]> (objects b2)) b2)
    end.

Definition light_type (kind : option string) : option string :=
  match kind with
  | Some k =>
      if String.eqb k "point" then Some "PointLight"
      else if String.eqb k "directional" then Some "DirectionalLight"
      else if String.eqb k "spot" then Some "SpotLight"
      else if String.eqb k "ambient" then Some "AmbientLight"
      else None
  | None => None
  end.

Definition addLight (clk : Clock) (cmd : MCPCommand) : M JsVal :=
  λ b,
    match light_type (toLowerCase <$> c_type cmd) with
    | None => (Returns (failure ("Unknown light type: " +:+ show (c_type cmd))), b)
    | Some ty =>
        let light_id := next_uid b in
        let light_name :=
          js_or (c_name cmd)
                (Some ("mcp_" +:+ show (c_type cmd) +:+ "Light_" +:+ pretty (Date_now clk))) in
        let fresh := newProps light_id ty in
        let node :=
          {| uid := light_id; name := light_name; type := ty;
             position := position fresh; rotation := rotation fresh;
             scale := scale fresh; visible := visible fresh; camera := NotCamera;
             geometry := None; material := None;
             light := Some (mkLight (or_default (c_color cmd) "#ffffff")
                                    (default 1%Q (c_intensity cmd))) |} in
        let b1 := set_next_uid (S light_id) b in
        let b2 := add (uid_of (scene b1)) (Obj (place (c_position cmd) node) []) b1 in
        (Returns (success_id light_name),
         set_objects (<[light_name := light_id]> (objects b2)) b2)
    end.

(** [rotatingObjects.set(key, { speed })] and [.delete(key)] on a [Map],
    which keeps insertion order. *)
Fixpoint rotating_set (key : option string) (speed : Q)
    (m : list (option string * Q)) : list (option string * Q) :=
  match m with
  | [] => [(key, speed)]
  | (k, v) :: rest =>
      if bool_decide (k = key) then (k, speed) :: rest
      else (k, v) :: rotating_set key speed rest
  end.

Definition rotating_delete (key : option string) (m : list (option string * Q))
  : list (option string * Q) :=
  filter (λ e, e.1 ≠ key) m.

Definition rotating_get (key : option string) (m : list (option string * Q))
  : option Q :=
  snd <$> List.find (λ e, bool_decide (e.1 = key)) m.

Definition removeObject (name : option string) : M JsVal :=
  λ b,
    match findObject name b with
    | Throws e => (Throws e, b)
    | Returns None => (Returns (failure ("Object not found: " +:+ show name)), b)
    | Returns (Some obj) =>
        let b1 := removeFromParent (uid_of obj) b in
        let b2 := set_objects (delete name (objects b1)) b1 in
        (Returns success,
         set_rotatingObjects (rotating_delete name (rotatingObjects b2)) b2)
    end.

(** [clone.position.x += offset[0]] and its two siblings. *)
Definition shift (offset : option (list Q)) (v : Vector3) : Vector3 :=
  match offset with
  | Some l => Vector3_add v (mkVector3 (index l 0) (index l 1) (index l 2))
  | None => v
  end.

Definition duplicateObject (sourceName newName : option string)
    (offset : option (list Q)) : M JsVal :=
  λ b,
    match findObject sourceName b with
    | Throws e => (Throws e, b)
    | Returns None =>
        (Returns (failure ("Source object not found: " +:+ show sourceName)), b)
    | Returns (Some source) =>
        let '(next, copy) := clone (next_uid b) source in
        let clone :=
          Obj (set_position (shift offset (position (props_of copy)))
                 (set_name newName (props_of copy)))
              (children_of copy) in
        let parent := default (uid_of (scene b)) (parent_of (uid_of source) b) in
        let b1 := add parent clone (set_next_uid next b) in
        (Returns (success_id newName),
         set_objects (<[newName := uid_of clone]> (objects b1)) b1)
    end.

(** *** Scene inspection *)

(** [n.toFixed(2)] on a vector component. *)
Definition toFixed `{Externals} (n : num) : Outcome string :=
  match n with
  | Num q => Returns (toFixed2 q)
  | NaN => Returns "NaN"
  | Undefined => Throws (cannot_read "toFixed")
  end.

(** One [SceneObjectData] record. *)
Definition describe `{Externals} (obj : Object3D) (path : string) : Outcome JsVal :=
  let p := props_of obj in
  match toFixed (x (position p)) with
  | Throws e => Throws e
  | Returns sx =>
      match toFixed (y (position p)) with
      | Throws e => Throws e
      | Returns sy =>
          match toFixed (z (position p)) with
          | Throws e => Throws e
          | Returns sz =>
              Returns (VObj
                [("name", VStr (or_default (name p) ("[" +:+ type p +:+ "]")));
                 ("path", VStr path);
                 ("type", VStr (type p));
                 ("position", VStr ("[" +:+ sx +:+ ", " +:+ sy +:+ ", " +:+ sz +:+ "]"));
                 ("children", VNum (inject_Z (Z.of_nat (length (children_of obj)))))])
          end
      end
  end.

(** The rows pushed so far, or the first exception met. *)
Fixpoint collect (rows : list (Outcome JsVal)) : Outcome (list JsVal) :=
  match rows with
  | [] => Returns []
  | Throws e :: _ => Throws e
  | Returns r :: rest =>
      match collect rest with
      | Returns rs => Returns (r :: rs)
      | Throws e => Throws e
      end
  end.

(** The inner [traverse] of [getSceneState]. *)
Fixpoint traverse `{Externals} (depth : Q) (obj : Object3D) (currentDepth : nat)
    (path : string) {struct obj} : list (Outcome JsVal) :=
  if negb (Qle_bool (inject_Z (Z.of_nat currentDepth)) depth) then []
  else
    describe obj path ::
    (fix each (i : nat) (cs : list Object3D) {struct cs} : list (Outcome JsVal) :=
       match cs with
       | [] => []
       | child :: rest =>
           (traverse depth child (S currentDepth)
              (path +:+ "/" +:+ or_default (name (props_of child)) (pretty i))
            ++ each (S i) rest)%list
       end) 0%nat (match obj with Obj _ cs => cs end).

Definition getSceneState `{Externals} (maxDepth : option Q) (b : MCPBridge)
  : Outcome JsVal :=
  let depth := default (MCPBridge.maxDepth b) maxDepth in
  match collect
          (concat (imap (λ i child,
                           traverse depth child 0
                             (or_default (name (props_of child)) (pretty i)))
                        (children_of (scene b)))) with
  | Returns rows => Returns (VArr rows)
  | Throws e => Throws e
  end.

(** [getObjectPath] of a node met [trail] below the scene. *)
Definition join_path (trail : list string) : string :=
  match trail with
  | [] => ""
  | first :: rest => foldl (λ acc part, acc +:+ "/" +:+ part) first rest
  end.

(** The callback of [scene.traverse] in [findObjects]. *)
Definition matches (filter : MCPCommand) (p : Props) : Outcome bool :=
  let by_name :=
    if truthy (c_name filter) then bool_decide (name p = c_name filter) else true in
  match
    (if truthy (c_nameContains filter) then
       match name p with
       | Some n => Returns (includes (show (c_nameContains filter)) n)
       | None => Throws (cannot_read "includes")
       end
     else Returns true)
  with
  | Throws e => Throws e
  | Returns by_contains =>
      let by_type :=
        if truthy (c_type filter) then String.eqb (type p) (show (c_type filter))
        else true in
      Returns (by_name && by_contains && by_type
               && (truthy (c_name filter) || truthy (c_nameContains filter)
                   || truthy (c_type filter)))
  end.

Fixpoint search `{Externals} (filter : MCPCommand) (trail : list string)
    (obj : Object3D) {struct obj} : list (Outcome JsVal) :=
  ((match matches filter (props_of obj) with
    | Throws e => [Throws e]
    | Returns true => [describe obj (join_path trail)]
    | Returns false => []
    end) ++
   concat (map (λ child,
                  search filter
                    (trail ++ [or_default (name (props_of child))
                                          (type (props_of child))])
                    child)
               (match obj with Obj _ cs => cs end)))%list.

Definition findObjects `{Externals} (filter : MCPCommand) (b : MCPBridge)
  : Outcome JsVal :=
  match collect (search filter [] (scene b)) with
  | Returns rows => Returns (VArr rows)
  | Throws e => Throws e
  end.

(** *** The interpreter *)

Definition lift {A} (o : Outcome A) : M A := λ b, (o, b).

(** The [case] labels of [handleCommand]. *)
Definition actions : list string :=
  ["getFullSceneState"; "findObjects"; "moveObject"; "moveSceneObject";
   "setRotation"; "setScale"; "setVisibility"; "lookAt"; "setOpacity";
   "getCameraState"; "setCameraPosition"; "addObject"; "addPrimitive";
   "removeObject"; "duplicateObject"; "startRotation"; "stopRotation";
   "addLight"].

(** The [switch] of [handleCommand]. *)
Definition dispatch `{Externals} (clk : Clock) (command : MCPCommand) : M JsVal :=
  let action := c_action command in
  if String.eqb action "getFullSceneState" then
    λ b, (match getSceneState (c_maxDepth command) b with
          | Returns data => Returns (success_data data)
          | Throws e => Throws e
          end, b)
  else if String.eqb action "findObjects" then
    λ b, (match findObjects command b with
          | Returns data => Returns (success_data data)
          | Throws e => Throws e
          end, b)
  else if String.eqb action "moveObject" || String.eqb action "moveSceneObject" then
    moveObject (js_or (c_name command) (c_path command)) (c_position command)
  else if String.eqb action "setRotation" then
    setTransform (c_name command) Rotation (c_rotation command)
  else if String.eqb action "setScale" then
    setTransform (c_name command) Scale (c_scale command)
  else if String.eqb action "setVisibility" then
    setVisibility (c_name command) (c_visible command)
  else if String.eqb action "lookAt" then
    lookAt (c_name command) (c_target command)
  else if String.eqb action "setOpacity" then
    setOpacity (c_name command) (c_opacity command)
  else if String.eqb action "getCameraState" then
    λ b, (Returns (success_data (getCameraState b)), b)
  else if String.eqb action "setCameraPosition" then
    setCameraPosition clk command
  else if String.eqb action "addObject" || String.eqb action "addPrimitive" then
    addPrimitive clk command
  else if String.eqb action "removeObject" then
    removeObject (js_or (c_name command) (c_id command))
  else if String.eqb action "duplicateObject" then
    duplicateObject (c_name command) (c_newName command) (c_offset command)
  else if String.eqb action "startRotation" then
    do _ <- write (λ b, set_rotatingObjects
                          (rotating_set (c_id command)
                             (match c_speed command with
                              | Some v => if Qeq_bool v 0 then 1%Q else v
                              | None => 1%Q
                              end)
                             (rotatingObjects b)) b);
    ret success
  else if String.eqb action "stopRotation" then
    do _ <- write (λ b, set_rotatingObjects
                          (rotating_delete (c_id command) (rotatingObjects b)) b);
    ret success
  else if String.eqb action "addLight" then
    addLight clk command
  else
    ret (failure ("Unknown action: " +:+ action)).

(** [typeof data === 'object' && data !== null ? data : { data }], as the
    properties the spread copies. *)
Definition payload_of (data : JsVal) : list (string * JsVal) :=
  match data with
  | VObj props => props
  | VArr items => imap (λ i v, (pretty i, v)) items
  | other => [("data", other)]
  end.

Definition sendResponse (requestId : option string) (data : JsVal) : M unit :=
  λ b,
    if is_open (ws b) && truthy requestId then
      (Returns tt,
       set_sent (sent b ++ [VObj (obj_spread [("requestId", val_of_string requestId)]
                                             (payload_of data))]) b)
    else (Returns tt, b).

(** The [try] block of [handleCommand] with its [catch]: the value of
    [result] when [sendResponse] is reached. *)
Definition result_of `{Externals} (clk : Clock) (command : MCPCommand) : M JsVal :=
  try_catch (dispatch clk command) (λ error, ret (failure (message error))).

Definition handleCommand `{Externals} (clk : Clock) (command : MCPCommand) : M unit :=
  do result <- result_of clk command;
  sendResponse (c_requestId command) result.

(** *** Well-formed states *)

(** Every handle in use. *)
Definition all_uids (b : MCPBridge) : list nat := concat (map uids (world b)).

(** What the JavaScript heap guarantees of the state: a handle names one
    object, the allocator has not given out the handles to come, and the
    name index refers to objects that exist. *)
Definition wf (b : MCPBridge) : Prop :=
  NoDup (all_uids b)
  ∧ Forall (λ u, u < next_uid b) (all_uids b)
  ∧ map_Forall (λ _ u, u ∈ all_uids b) (objects b).

(** *** The words of the specification *)

(** [clamp(v, lo, hi)]. *)
Definition clamp (v lo hi : Q) : Q := Qmax lo (Qmin hi v).

(** Equality of numbers up to the representation of a rational. *)
Definition num_eq (a b : num) : Prop :=
  match a, b with
  | Num p, Num q => p == q
  | NaN, NaN => True
  | Undefined, Undefined => True
  | _, _ => False
  end.

Definition Vector3_eq (v w : Vector3) : Prop :=
  num_eq (x v) (x w) ∧ num_eq (y v) (y w) ∧ num_eq (z v) (z w).

(** The point halfway between two points, axis by axis. *)
Definition midpoint (v w : Vector3) : Vector3 :=
  mkVector3 (num_div (num_add (x v) (x w)) (Num 2))
            (num_div (num_add (y v) (y w)) (Num 2))
            (num_div (num_add (z v) (z w)) (Num 2)).

(** *** Sample data *)

(** A command with nothing but its action, and three field assignments. *)
Definition blank (a : string) : MCPCommand :=
  {| c_action := a; c_requestId := None; c_maxDepth := None; c_name := None;
     c_nameContains := None; c_type := None; c_path := None; c_id := None;
     c_newName := None; c_position := None; c_rotation := None; c_scale :=
     None; c_target := None; c_offset := None; c_lookAt := None; c_size :=
     None; c_visible := None; c_opacity := None; c_speed := None; c_animate
     := None; c_duration := None; c_fov := None; c_near := None; c_far :=
     None; c_color := None; c_intensity := None |}.

Definition with_requestId (rid : string) (c : MCPCommand) : MCPCommand :=
  {| c_action := c_action c; c_requestId := Some rid; c_maxDepth :=
     c_maxDepth c; c_name := c_name c; c_nameContains := c_nameContains c;
     c_type := c_type c; c_path := c_path c; c_id := c_id c; c_newName :=
     c_newName c; c_position := c_position c; c_rotation := c_rotation c;
     c_scale := c_scale c; c_target := c_target c; c_offset := c_offset c;
     c_lookAt := c_lookAt c; c_size := c_size c; c_visible := c_visible c;
     c_opacity := c_opacity c; c_speed := c_speed c; c_animate := c_animate
     c; c_duration := c_duration c; c_fov := c_fov c; c_near := c_near c;
     c_far := c_far c; c_color := c_color c; c_intensity := c_intensity c |}.

Definition with_name (n : string) (c : MCPCommand) : MCPCommand :=
  {| c_action := c_action c; c_requestId := c_requestId c; c_maxDepth :=
     c_maxDepth c; c_name := Some n; c_nameContains := c_nameContains c;
     c_type := c_type c; c_path := c_path c; c_id := c_id c; c_newName :=
     c_newName c; c_position := c_position c; c_rotation := c_rotation c;
     c_scale := c_scale c; c_target := c_target c; c_offset := c_offset c;
     c_lookAt := c_lookAt c; c_size := c_size c; c_visible := c_visible c;
     c_opacity := c_opacity c; c_speed := c_speed c; c_animate := c_animate
     c; c_duration := c_duration c; c_fov := c_fov c; c_near := c_near c;
     c_far := c_far c; c_color := c_color c; c_intensity := c_intensity c |}.

Definition with_type (ty : string) (c : MCPCommand) : MCPCommand :=
  {| c_action := c_action c; c_requestId := c_requestId c; c_maxDepth :=
     c_maxDepth c; c_name := c_name c; c_nameContains := c_nameContains c;
     c_type := Some ty; c_path := c_path c; c_id := c_id c; c_newName :=
     c_newName c; c_position := c_position c; c_rotation := c_rotation c;
     c_scale := c_scale c; c_target := c_target c; c_offset := c_offset c;
     c_lookAt := c_lookAt c; c_size := c_size c; c_visible := c_visible c;
     c_opacity := c_opacity c; c_speed := c_speed c; c_animate := c_animate
     c; c_duration := c_duration c; c_fov := c_fov c; c_near := c_near c;
     c_far := c_far c; c_color := c_color c; c_intensity := c_intensity c |}.

(** Stand-ins for the three library functions. *)
Definition demo_externals : Externals :=
  {| toFixed2 := λ _, "0.00";
     lookAt_rotation := λ _ _ _ _ _, mkEuler (Num 0) (Num 0) (Num 0);
     getWorldDirection := λ _ _, mkVector3 (Num 0) (Num 0) (Num (-1)) |}.

(** A scene with a perspective camera and a crate at [1, 2, 3]. *)
Definition demo_camera : Object3D :=
  Obj (set_camera (PerspectiveCamera (mkLens 50%Q (1 # 10)%Q 2000%Q))
         (set_position (mkVector3 (Num 0) (Num 0) (Num 10))
            (set_name (Some "camera") (newProps 1 "PerspectiveCamera")))) [].

Definition demo_crate : Object3D :=
  Obj (set_position (mkVector3 (Num 1) (Num 2) (Num 3))
         (set_name (Some "crate") (newProps 2 "Mesh"))) [].

Definition demo_scene : Object3D :=
  Obj (newProps 0 "Scene") [demo_camera; demo_crate].

Definition demo_bridge : MCPBridge :=
  {| ws := Some OPEN; scene := demo_scene; maxDepth := 10%Q;
     rotatingObjects := []; objects := ∅; cameraTween := None;
     cameraLookAt := None; detached := []; next_uid := 3; materials := ∅;
     sent := [] |}.

Definition demo_clock : Clock := mkClock (Some 6000%Q) 1700000000000%N.

(** One box created through the bridge, and two boxes created under the
    same name. *)
Definition add_box : MCPCommand := with_name "box1" (with_type "box" (blank "addPrimitive")).
Definition one_box : MCPBridge := (addPrimitive demo_clock add_box demo_bridge).2.
Definition two_boxes : MCPBridge := (addPrimitive demo_clock add_box one_box).2.

(** A camera move over two seconds that started at time 5000. *)
Definition demo_tween : CameraTween :=
  {| startTime := 5000%Q; duration := 2000%Q;
     from := mkVector3 (Num 0) (Num 0) (Num 10);
     to := mkVector3 (Num 10) (Num 20) (Num 30);
     fromLookAt := None; toLookAt := None; fromFov := None; toFov := None;
     fromNear := None; toNear := None; fromFar := None; toFar := None |}.

Definition mid_flight : MCPBridge := set_cameraTween (Some demo_tween) demo_bridge.

(** No [performance] object, and a wall clock that was set back to before
    the start of the move. *)
Definition clock_set_back : Clock := mkClock None 4000%N.

End MCPBridge.

(** ** The ledger of the correlator *)

Module BridgeServerLedger.
Import Js BridgeServer.

(** Every number the counter has given out is either still in the table or
    the number of a settled promise, and the counter starts at one. *)
Record Ledger (s : BridgeServer) : Prop := mkLedger {
  led_accounted : ∀ n, (0 < n <= requestId s)%N →
    is_Some (pendingRequests s !! request_name n) ∨ n ∈ (settled s).*1;
  led_pending : ∀ n, is_Some (pendingRequests s !! request_name n) → (0 < n)%N;
  led_settled : ∀ p, p ∈ (settled s).*1 → (0 < p)%N
}.

(** The server after [close()]: no client, no entry, no timer. *)
Definition shut (s : BridgeServer) : Prop :=
  client s = None ∧ pendingRequests s = ∅ ∧ timers s = ∅.

End BridgeServerLedger.

(** ** Words for the properties of the runtime side *)

Module MCPBridgeScene.
Import Js Three MCPBridge.

(** Assignments that leave a node's handle, name and type alone. *)
Definition keeps_identity (f : Props → Props) : Prop :=
  ∀ p, uid (f p) = uid p ∧ name (f p) = name p ∧ type (f p) = type p.


(** A vector of three numbers. *)
Definition numeric (v : Vector3) : Prop :=
  ∃ a b c, v = mkVector3 (Num a) (Num b) (Num c).

(** The speed [startRotation] stores: [command.speed || 1]. *)
Definition effective_speed (command : MCPCommand) : Q :=
  match c_speed command with
  | Some v => if Qeq_bool v 0 then 1%Q else v
  | None => 1%Q
  end.

(** The frames of a run of the render loop, one clock reading each. *)
Definition frames `{Externals} (b : MCPBridge) (clocks : list Clock) : MCPBridge :=
  foldl (λ b clk, update clk b) b clocks.

(** The part of a tree that makes its identity: the shape, and the handle,
    name and type of every node. *)
Fixpoint skeleton (t : Object3D) : Object3D :=
  match t with
  | Obj p cs => Obj (set_name (name p) (newProps (uid p) (type p))) (map skeleton cs)
  end.

(** Two states with the same graph, the same name index and the same
    allocator. *)
Definition same_graph (b b' : MCPBridge) : Prop :=
  map skeleton (world b') = map skeleton (world b)
  ∧ objects b' = objects b
  ∧ next_uid b' = next_uid b.

(** The actions that create or destroy objects. *)
Definition lifecycle : list string :=
  ["addObject"; "addPrimitive"; "removeObject"; "duplicateObject"; "addLight"].

(** Sample commands: a camera flight of two seconds, the same move done
    at once, and the start and the stop of a rotation of the crate. *)
Definition fly_to : MCPCommand :=
  {| c_action := "setCameraPosition"; c_requestId := None; c_maxDepth := None;
     c_name := None; c_nameContains := None; c_type := None; c_path := None;
     c_id := None; c_newName := None; c_position := Some [10; 20; 30]%Q;
     c_rotation := None; c_scale := None; c_target := None; c_offset := None;
     c_lookAt := None; c_size := None; c_visible := None; c_opacity := None;
     c_speed := None; c_animate := Some true; c_duration := Some 2000%Q;
     c_fov := None; c_near := None; c_far := None; c_color := None;
     c_intensity := None |}.

Definition jump_to : MCPCommand :=
  {| c_action := "setCameraPosition"; c_requestId := None; c_maxDepth := None;
     c_name := None; c_nameContains := None; c_type := None; c_path := None;
     c_id := None; c_newName := None; c_position := Some [10; 20; 30]%Q;
     c_rotation := None; c_scale := None; c_target := None; c_offset := None;
     c_lookAt := None; c_size := None; c_visible := None; c_opacity := None;
     c_speed := None; c_animate := None; c_duration := None;
     c_fov := Some 35%Q; c_near := None; c_far := None; c_color := None;
     c_intensity := None |}.

Definition spin (action : string) : MCPCommand :=
  {| c_action := action; c_requestId := None; c_maxDepth := None;
     c_name := None; c_nameContains := None; c_type := None; c_path := None;
     c_id := Some "crate"; c_newName := None; c_position := None;
     c_rotation := None; c_scale := None; c_target := None; c_offset := None;
     c_lookAt := None; c_size := None; c_visible := None; c_opacity := None;
     c_speed := Some 2%Q; c_animate := None; c_duration := None;
     c_fov := None; c_near := None; c_far := None; c_color := None;
     c_intensity := None |}.

End MCPBridgeScene.

(** ** The tool handler of the MCP server (src/index.ts)

    The handler of [tools/call] requests: it waits for a game client when
    the tool needs one, translates the tool call into bridge commands and
    turns every failure into an error result. *)

Module ToolServer.
Import Js.

(** What the JavaScript engine and [JSON] contribute: the text of a number,
    [JSON.stringify(value, null, 2)], [String.prototype.trim], and the
    [TypeError] raised by destructuring [undefined], which names the first
    property of the pattern. *)
Class Engine := {
  number_to_string : Q → string;
  stringify : JsVal → string;
  trim : string → string;
  cannot_destructure : string → Error
}.

(** The [arguments] of a tool call, with the types the handler casts them
    to; every property may be missing. *)
Record Args := mkArgs {
  a_name : option string;
  a_nameContains : option string;
  a_type : option string;
  a_hasUserData : option string;
  a_maxDepth : option Q;
  a_position : option (list Q);
  a_lookAt : option (list Q);
  a_rotation : option (list Q);
  a_scale : option (list Q);
  a_vector : option (list Q);
  a_fov : option Q;
  a_near : option Q;
  a_far : option Q;
  a_color : option string;
  a_parentName : option string;
  a_visible : option bool;
  a_vibe : option string;
  a_preset : option string;
  a_path : option string;
  a_url : option string;
  a_limits : JsVal
}.

(** The result of a tool call: one text item, and the [isError] flag
    ([undefined] counts as [false]). *)
Record ToolResult := mkResult {
  text : string;
  isError : bool
}.

(** What an awaited promise gives: its value, or the rejection as an
    exception. *)
Inductive Awaited (A : Type) :=
  | Resolved (a : A)
  | Rejected (e : Error).
Arguments Resolved {A} a.
Arguments Rejected {A} e.

(** The handler as a resumption: it ends with a result or with an uncaught
    exception, or calls out — to the bridge or to the glTF tools — and goes
    on with the answer. *)
Inductive Prog :=
  | Done (r : ToolResult)
  | Fail (e : Error)
  | IsConnected (k : bool → Prog)
  | Connect (k : Awaited unit → Prog)
  | SendCommand (command : BridgeServer.MCPCommand) (k : Awaited JsVal → Prog)
  | AnalyzeGltf (path : option string) (k : Awaited JsVal → Prog)
  | ValidateGltf (path : option string) (limits : JsVal) (k : Awaited JsVal → Prog)
  | GetStatus (k : JsVal → Prog).

(** [await bridge.sendCommand(command)] inside the [try] block. *)
Definition send (command : BridgeServer.MCPCommand) (k : JsVal → Prog) : Prog :=
  SendCommand command (λ answer,
    match answer with Resolved v => k v | Rejected e => Fail e end).

(** [try { body } catch (error) { return handler(error) }]. *)
Fixpoint try_catch (body : Prog) (handler : Error → ToolResult) : Prog :=
  match body with
  | Done r => Done r
  | Fail e => Done (handler e)
  | IsConnected k => IsConnected (λ c, try_catch (k c) handler)
  | Connect k => Connect (λ a, try_catch (k a) handler)
  | SendCommand c k => SendCommand c (λ a, try_catch (k a) handler)
  | AnalyzeGltf p k => AnalyzeGltf p (λ a, try_catch (k a) handler)
  | ValidateGltf p l k => ValidateGltf p l (λ a, try_catch (k a) handler)
  | GetStatus k => GetStatus (λ v, try_catch (k v) handler)
  end.

(** *** Values and text *)

Definition quote : string := String (ascii_of_nat 34) "".
Definition newline : string := String (ascii_of_nat 10) "".

(** The three marks the texts start with, as the source file has them. *)
Definition mark_ok : string := "‚úÖ".
Definition mark_failed : string := "‚ùå".
Definition mark_warning : string := "‚ö†Ô∏è".

Definition val_of_list (l : option (list Q)) : JsVal :=
  match l with Some l => VArr (VNum <$> l) | None => VUndefined end.

Definition val_of_Q (q : option Q) : JsVal :=
  match q with Some q => VNum q | None => VUndefined end.

Definition val_of_bool (b : option bool) : JsVal :=
  match b with Some b => VBool b | None => VUndefined end.

(** [items.join(separator)]. *)
Definition join (separator : string) (items : list string) : string :=
  match items with
  | [] => ""
  | first :: rest => foldl (λ acc item, acc +:+ separator +:+ item) first rest
  end.

(** [array.join(', ')] on a [number[]] that may be missing. *)
Definition join_numbers `{Engine} (l : option (list Q)) : MCPBridge.Outcome string :=
  match l with
  | Some l => MCPBridge.Returns (join ", " (number_to_string <$> l))
  | None => MCPBridge.Throws (MCPBridge.cannot_read "join")
  end.

(** A value in a boolean position. *)
Definition truthy_val (v : JsVal) : bool :=
  match v with
  | VUndefined | VNull | VNaN => false
  | VBool b => b
  | VNum q => negb (Qeq_bool q 0)
  | VStr s => negb (String.eqb s "")
  | VArr _ | VObj _ => true
  end.

Definition ok (t : string) : Prog := Done (mkResult t false).

(** *** The tool table *)

(** The names in [TOOLS], in order. *)
Definition TOOLS : list string :=
  ["get_scene_state"; "find_objects"; "get_object_position"; "log_positions";
   "set_camera_position"; "spawn_entity"; "destroy_entity"; "move_object";
   "set_transform"; "set_visibility"; "rename_entity"; "duplicate_entity";
   "make_physical"; "remove_physics"; "apply_impulse"; "set_gravity";
   "analyze_gltf"; "validate_asset"; "load_asset"; "apply_material";
   "set_environment"; "apply_vibe"; "get_bridge_status"].

Definition LOCAL_ONLY_TOOLS : list string :=
  ["get_bridge_status"; "analyze_gltf"; "validate_asset"].

(** The [case] labels of the handler's [switch]. *)
Definition cases : list string :=
  ["get_scene_state"; "find_objects"; "get_object_position";
   "set_camera_position"; "move_object"; "spawn_entity"; "destroy_entity";
   "set_transform"; "set_visibility"; "apply_vibe"; "set_environment";
   "apply_impulse"; "set_gravity"; "analyze_gltf"; "validate_asset";
   "load_asset"; "apply_material"; "get_bridge_status"].

Definition command (action : string) (params : list (string * JsVal))
  : BridgeServer.MCPCommand :=
  BridgeServer.mkCommand action params.

(** *** The [switch] *)

Section Handler.
Context `{Engine}.

(** [const { first, .. } = args]. *)
Definition destructure (first : string) (args : option Args) (k : Args → Prog)
  : Prog :=
  match args with
  | Some a => k a
  | None => Fail (cannot_destructure first)
  end.

(** A text that ends with [[${numbers.join(', ')}]] and what follows. *)
Definition with_numbers (l : option (list Q)) (k : string → Prog) : Prog :=
  match join_numbers l with
  | MCPBridge.Returns s => k s
  | MCPBridge.Throws e => Fail e
  end.

Definition get_scene_state (args : option Args) : Prog :=
  let maxDepth := default 3%Q (args ≫= a_maxDepth) in
  send (command "getFullSceneState" [("maxDepth", VNum maxDepth)])
       (λ result, ok (stringify result)).

Definition find_objects (args : option Args) : Prog :=
  destructure "name" args (λ a,
    send (command "findObjects"
            [("name", val_of_string (a_name a));
             ("filter", VObj [("nameContains", val_of_string (a_nameContains a));
                              ("type", val_of_string (a_type a));
                              ("hasUserData", val_of_string (a_hasUserData a))])])
         (λ result, ok (stringify result))).

Definition get_object_position (args : option Args) : Prog :=
  destructure "name" args (λ a,
    send (command "findObjects" [("name", val_of_string (a_name a))])
         (λ result, ok (stringify result))).

Definition set_camera_position (args : option Args) : Prog :=
  destructure "name" args (λ a,
    send (command "setCameraPosition"
            [("name", val_of_string (a_name a));
             ("position", val_of_list (a_position a));
             ("lookAt", val_of_list (a_lookAt a));
             ("fov", val_of_Q (a_fov a));
             ("near", val_of_Q (a_near a));
             ("far", val_of_Q (a_far a))])
         (λ _,
            let target :=
              if truthy (a_name a)
              then "camera " +:+ quote +:+ show (a_name a) +:+ quote
              else "camera" in
            with_numbers (a_position a) (λ numbers,
              ok ("OK. Set " +:+ target +:+ " position to [" +:+ numbers +:+ "]")))).

Definition move_object (args : option Args) : Prog :=
  destructure "name" args (λ a,
    send (command "moveSceneObject"
            [("path", val_of_string (a_name a));
             ("position", val_of_list (a_position a))])
         (λ result,
            if truthy_val result then
              with_numbers (a_position a) (λ numbers,
                ok (mark_ok +:+ " Moved " +:+ quote +:+ show (a_name a) +:+ quote
                    +:+ " to [" +:+ numbers +:+ "]"))
            else
              ok (mark_failed +:+ " Object " +:+ quote +:+ show (a_name a) +:+ quote
                  +:+ " not found"))).

(** [position || [0, 0, 0]]: an array is truthy, even an empty one. *)
Definition position_or_origin (position : option (list Q)) : list Q :=
  default [0; 0; 0]%Q position.

Definition spawn_entity (args : option Args) : Prog :=
  destructure "type" args (λ a,
    match a_type a with
    | None => Fail (MCPBridge.cannot_read "toLowerCase")
    | Some type =>
        send (command "addPrimitive"
                [("type", VStr (toLowerCase type));
                 ("name", val_of_string (a_name a));
                 ("position", VArr (VNum <$> position_or_origin (a_position a)));
                 ("material",
                  if truthy (a_color a)
                  then VObj [("color", val_of_string (a_color a))]
                  else VUndefined);
                 ("parent", val_of_string (a_parentName a))])
             (λ _,
                ok (mark_ok +:+ " Spawned " +:+ quote +:+ show (a_name a) +:+ quote
                    +:+ " (" +:+ type +:+ ") at ["
                    +:+ join ", " (number_to_string <$> position_or_origin (a_position a))
                    +:+ "]"))
    end).

Definition destroy_entity (args : option Args) : Prog :=
  destructure "name" args (λ a,
    send (command "removeObject"
            [("id", val_of_string (a_name a)); ("name", val_of_string (a_name a))])
         (λ result,
            if truthy_val result then
              ok (mark_ok +:+ " Destroyed " +:+ quote +:+ show (a_name a) +:+ quote)
            else
              ok (mark_failed +:+ " Object " +:+ quote +:+ show (a_name a) +:+ quote
                  +:+ " not found"))).

(** One of the three guarded steps of [set_transform]: [if (values) { await
    sendCommand(..); updates.push(..) }]. *)
Definition transform_step (label : string) (c : list Q → BridgeServer.MCPCommand)
    (values : option (list Q)) (updates : list string)
    (k : list string → Prog) : Prog :=
  match values with
  | Some l =>
      send (c l) (λ _,
        k (updates ++ [label +:+ ": [" +:+ join ", " (number_to_string <$> l) +:+ "]"])%list)
  | None => k updates
  end.

Definition set_transform (args : option Args) : Prog :=
  destructure "name" args (λ a,
    let name := val_of_string (a_name a) in
    transform_step "position"
      (λ l, command "moveSceneObject" [("path", name); ("position", VArr (VNum <$> l))])
      (a_position a) [] (λ updates,
    transform_step "rotation"
      (λ l, command "setRotation"
              [("id", name); ("name", name); ("rotation", VArr (VNum <$> l))])
      (a_rotation a) updates (λ updates,
    transform_step "scale"
      (λ l, command "setScale"
              [("id", name); ("name", name); ("scale", VArr (VNum <$> l))])
      (a_scale a) updates (λ updates,
    ok (match updates with
        | [] => mark_warning +:+ " No transform properties specified"
        | _ => mark_ok +:+ " Updated " +:+ quote +:+ show (a_name a) +:+ quote
               +:+ ": " +:+ join ", " updates
        end))))).

Definition set_visibility (args : option Args) : Prog :=
  destructure "name" args (λ a,
    send (command "setVisibility"
            [("name", val_of_string (a_name a)); ("visible", val_of_bool (a_visible a))])
         (λ _,
            ok (mark_ok +:+ " "
                +:+ (if default false (a_visible a) then "Showed" else "Hid")
                +:+ " " +:+ quote +:+ show (a_name a) +:+ quote))).

Definition apply_vibe (args : option Args) : Prog :=
  destructure "vibe" args (λ a,
    send (command "applyVibe" [("vibe", val_of_string (a_vibe a))])
         (λ _,
            ok (mark_ok +:+ " Applied vibe " +:+ quote +:+ show (a_vibe a) +:+ quote))).

Definition set_environment (args : option Args) : Prog :=
  destructure "preset" args (λ a,
    send (command "setEnvironment" [("preset", val_of_string (a_preset a))])
         (λ _,
            ok (mark_ok +:+ " Set environment to " +:+ quote +:+ show (a_preset a)
                +:+ quote))).

Definition apply_impulse (args : option Args) : Prog :=
  destructure "name" args (λ a,
    send (command "applyImpulse"
            [("name", val_of_string (a_name a)); ("vector", val_of_list (a_vector a))])
         (λ _,
            with_numbers (a_vector a) (λ numbers,
              ok (mark_ok +:+ " Applied impulse [" +:+ numbers +:+ "] to " +:+ quote
                  +:+ show (a_name a) +:+ quote)))).

Definition set_gravity (args : option Args) : Prog :=
  destructure "vector" args (λ a,
    send (command "setGravity" [("vector", val_of_list (a_vector a))])
         (λ _,
            with_numbers (a_vector a) (λ numbers,
              ok (mark_ok +:+ " Set global gravity to [" +:+ numbers +:+ "]")))).

Definition analyze_gltf (args : option Args) : Prog :=
  destructure "path" args (λ a,
    AnalyzeGltf (a_path a) (λ answer,
      match answer with
      | Resolved result => ok (stringify result)
      | Rejected e => Fail e
      end)).

Definition validate_asset (args : option Args) : Prog :=
  destructure "path" args (λ a,
    ValidateGltf (a_path a) (a_limits a) (λ answer,
      match answer with
      | Resolved result => ok (stringify result)
      | Rejected e => Fail e
      end)).

Definition load_asset (args : option Args) : Prog :=
  destructure "url" args (λ a,
    send (command "loadAsset"
            [("url", val_of_string (a_url a)); ("name", val_of_string (a_name a));
             ("position", val_of_list (a_position a));
             ("scale", val_of_list (a_scale a))])
         (λ _,
            ok (mark_ok +:+ " Loaded asset " +:+ quote +:+ show (a_name a) +:+ quote
                +:+ " from " +:+ show (a_url a)))).

Definition apply_material (args : option Args) : Prog :=
  destructure "name" args (λ a,
    send (command "applyMaterial"
            [("name", val_of_string (a_name a));
             ("type", val_of_string (js_or (a_type a) (Some "Standard")));
             ("color", val_of_string (a_color a));
             ("preset", val_of_string (a_preset a))])
         (λ _,
            ok (mark_ok +:+ " Applied material to " +:+ quote +:+ show (a_name a)
                +:+ quote))).

Definition get_bridge_status : Prog :=
  GetStatus (λ status, ok (stringify status)).

Definition unknown_tool (name : string) : ToolResult :=
  mkResult ("Unknown tool: " +:+ name) true.

Definition switch (name : string) (args : option Args) : Prog :=
  if String.eqb name "get_scene_state" then get_scene_state args
  else if String.eqb name "find_objects" then find_objects args
  else if String.eqb name "get_object_position" then get_object_position args
  else if String.eqb name "set_camera_position" then set_camera_position args
  else if String.eqb name "move_object" then move_object args
  else if String.eqb name "spawn_entity" then spawn_entity args
  else if String.eqb name "destroy_entity" then destroy_entity args
  else if String.eqb name "set_transform" then set_transform args
  else if String.eqb name "set_visibility" then set_visibility args
  else if String.eqb name "apply_vibe" then apply_vibe args
  else if String.eqb name "set_environment" then set_environment args
  else if String.eqb name "apply_impulse" then apply_impulse args
  else if String.eqb name "set_gravity" then set_gravity args
  else if String.eqb name "analyze_gltf" then analyze_gltf args
  else if String.eqb name "validate_asset" then validate_asset args
  else if String.eqb name "load_asset" then load_asset args
  else if String.eqb name "apply_material" then apply_material args
  else if String.eqb name "get_bridge_status" then get_bridge_status
  else Done (unknown_tool name).

Definition execution_error (name : string) (error : Error) : ToolResult :=
  mkResult ("Error executing " +:+ name +:+ ": " +:+ message error) true.

(** The second [try] block with its [catch]. *)
Definition guarded (name : string) (args : option Args) : Prog :=
  try_catch (switch name args) (execution_error name).

Definition connection_failure : ToolResult :=
  mkResult
    (mark_failed +:+ " Failed to connect to game. Make sure:" +:+ newline
     +:+ "1. Game is running (npm run dev)" +:+ newline
     +:+ "2. MCP bridge is enabled (localStorage.setItem(" +:+ quote +:+ "MCP_ENABLED"
     +:+ quote +:+ ", " +:+ quote +:+ "true" +:+ quote +:+ ") in browser console)"
     +:+ newline +:+ "3. Refresh the page after enabling")
    true.

(** The handler of [CallToolRequestSchema]. *)
Definition call_tool (name : string) (args : option Args) : Prog :=
  IsConnected (λ connected,
    if negb connected && negb (bool_decide (name ∈ LOCAL_ONLY_TOOLS)) then
      Connect (λ answer,
        match answer with
        | Resolved _ => guarded name args
        | Rejected _ => Done connection_failure
        end)
    else guarded name args).

End Handler.

(** *** Running a handler *)

(** The answers of the outside world to the calls of one run, as a script
    read from the left; a call that finds the script exhausted, or an
    answer of the wrong kind, stops the run. *)
Inductive Answer :=
  | Connected (c : bool)
  | ConnectionAttempt (a : Awaited unit)
  | CommandAnswer (a : Awaited JsVal)
  | GltfAnswer (a : Awaited JsVal)
  | Status (v : JsVal).

(** How a run ends. *)
Inductive Ending :=
  | Returned (r : ToolResult)
  | Raised (e : Error)
  | Stuck.

(** The run of a program on a script: how it ends and the commands it
    sent, in order. *)
Fixpoint run (p : Prog) (script : list Answer)
  : Ending * list BridgeServer.MCPCommand :=
  match p with
  | Done r => (Returned r, [])
  | Fail e => (Raised e, [])
  | IsConnected k =>
      match script with
      | Connected c :: rest => run (k c) rest
      | _ => (Stuck, [])
      end
  | Connect k =>
      match script with
      | ConnectionAttempt a :: rest => run (k a) rest
      | _ => (Stuck, [])
      end
  | SendCommand c k =>
      match script with
      | CommandAnswer a :: rest =>
          let '(ending, sent) := run (k a) rest in (ending, c :: sent)
      | _ => (Stuck, [c])
      end
  | AnalyzeGltf _ k | ValidateGltf _ _ k =>
      match script with
      | GltfAnswer a :: rest => run (k a) rest
      | _ => (Stuck, [])
      end
  | GetStatus k =>
      match script with
      | Status v :: rest => run (k v) rest
      | _ => (Stuck, [])
      end
  end.

(** A program none of whose runs ends with an uncaught exception. *)
Inductive never_raises : Prog → Prop :=
  | nr_Done r : never_raises (Done r)
  | nr_IsConnected k : (∀ c, never_raises (k c)) → never_raises (IsConnected k)
  | nr_Connect k : (∀ a, never_raises (k a)) → never_raises (Connect k)
  | nr_SendCommand c k : (∀ a, never_raises (k a)) → never_raises (SendCommand c k)
  | nr_AnalyzeGltf p k : (∀ a, never_raises (k a)) → never_raises (AnalyzeGltf p k)
  | nr_ValidateGltf p l k :
      (∀ a, never_raises (k a)) → never_raises (ValidateGltf p l k)
  | nr_GetStatus k : (∀ v, never_raises (k v)) → never_raises (GetStatus k).

(** The tools whose command names an action the client has no [case]
    for. *)
Definition unsupported : list string :=
  ["apply_vibe"; "set_environment"; "apply_impulse"; "set_gravity"; "load_asset";
   "apply_material"].

(** *** Sample data *)

(** Stand-ins for what the engine contributes. *)
Definition demo_engine : Engine :=
  {| number_to_string := λ _, "0";
     stringify := λ _, "{}";
     trim := λ s, s;
     cannot_destructure := λ first,
       mkError ("Cannot destructure property '" +:+ first +:+ "' of undefined") |}.

(** A call without any argument property. *)
Definition no_args : Args :=
  {| a_name := None; a_nameContains := None; a_type := None; a_hasUserData := None;
     a_maxDepth := None; a_position := None; a_lookAt := None; a_rotation := None;
     a_scale := None; a_vector := None; a_fov := None; a_near := None;
     a_far := None; a_color := None; a_parentName := None; a_visible := None;
     a_vibe := None; a_preset := None; a_path := None; a_url := None;
     a_limits := VUndefined |}.

(** A red sphere named [ball], to hang under [crate]. *)
Definition red_ball : Args :=
  {| a_name := Some "ball"; a_nameContains := None; a_type := Some "Sphere";
     a_hasUserData := None; a_maxDepth := None; a_position := None;
     a_lookAt := None; a_rotation := None; a_scale := None; a_vector := None;
     a_fov := None; a_near := None; a_far := None; a_color := Some "#ff0000";
     a_parentName := Some "crate"; a_visible := None; a_vibe := None;
     a_preset := None; a_path := None; a_url := None; a_limits := VUndefined |}.

(** A move of an object called [ghost], which the sample scene does not
    have. *)
Definition move_ghost : Args :=
  {| a_name := Some "ghost"; a_nameContains := None; a_type := None;
     a_hasUserData := None; a_maxDepth := None; a_position := Some [1; 2; 3]%Q;
     a_lookAt := None; a_rotation := None; a_scale := None; a_vector := None;
     a_fov := None; a_near := None; a_far := None; a_color := None;
     a_parentName := None; a_visible := None; a_vibe := None;
     a_preset := None; a_path := None; a_url := None; a_limits := VUndefined |}.

End ToolServer.

(** ** The wire between the two sides

    A command leaves the server as [JSON.stringify({ ...command,
    requestId })] and reaches [handleCommand] as [JSON.parse(event.data)].
    [JSON.stringify] drops the properties whose value is [undefined]; the
    client reads the others, each with the type the code casts it to. *)

Module Wire.
Import Js.

(** [JSON.parse(JSON.stringify(v))]: a property whose value is
    [undefined] is dropped, an [undefined] array element and [NaN] become
    [null].  ([JSON.stringify(undefined)] is not a text; the frames sent
    are objects.) *)
Fixpoint json (v : JsVal) : JsVal :=
  match v with
  | VNaN => VNull
  | VArr items =>
      VArr (map (λ item, match item with VUndefined => VNull | _ => json item end)
                items)
  | VObj props =>
      VObj ((fix each (props : list (string * JsVal)) : list (string * JsVal) :=
               match props with
               | [] => []
               | (_, VUndefined) :: rest => each rest
               | (key, value) :: rest => (key, json value) :: each rest
               end) props)
  | other => other
  end.

(** The loop of [json] over the properties of an object, on its own. *)
Fixpoint json_props (props : list (string * JsVal)) : list (string * JsVal) :=
  match props with
  | [] => []
  | (_, VUndefined) :: rest => json_props rest
  | (key, value) :: rest => (key, json value) :: json_props rest
  end.

(** [frame[key]]: a missing property reads as [undefined]. *)
Definition field (key : string) (props : list (string * JsVal)) : JsVal :=
  default VUndefined (obj_get key props).

(** The typed reads; [None] is a value of another type than the cast
    names, which the typed view of the client does not cover. *)
Definition as_string (v : JsVal) : option (option string) :=
  match v with
  | VUndefined => Some None
  | VStr s => Some (Some s)
  | _ => None
  end.

Definition as_number (v : JsVal) : option (option Q) :=
  match v with
  | VUndefined => Some None
  | VNum q => Some (Some q)
  | _ => None
  end.

Definition as_boolean (v : JsVal) : option (option bool) :=
  match v with
  | VUndefined => Some None
  | VBool b => Some (Some b)
  | _ => None
  end.

Definition as_numbers (v : JsVal) : option (option (list Q)) :=
  match v with
  | VUndefined => Some None
  | VArr items =>
      Some <$> mapM (λ item, match item with VNum q => Some q | _ => None end) items
  | _ => None
  end.

(** The command envelope [handleCommand] receives, when every property it
    reads has the type it is cast to. *)
Definition decode (frame : JsVal) : option MCPBridge.MCPCommand :=
  match frame with
  | VObj props =>
      action ← match field "action" props with VStr s => Some s | _ => None end;
      requestId ← as_string (field "requestId" props);
      maxDepth ← as_number (field "maxDepth" props);
      name ← as_string (field "name" props);
      nameContains ← as_string (field "nameContains" props);
      type ← as_string (field "type" props);
      path ← as_string (field "path" props);
      id ← as_string (field "id" props);
      newName ← as_string (field "newName" props);
      position ← as_numbers (field "position" props);
      rotation ← as_numbers (field "rotation" props);
      scale ← as_numbers (field "scale" props);
      target ← as_numbers (field "target" props);
      offset ← as_numbers (field "offset" props);
      lookAt ← as_numbers (field "lookAt" props);
      size ← as_numbers (field "size" props);
      visible ← as_boolean (field "visible" props);
      opacity ← as_number (field "opacity" props);
      speed ← as_number (field "speed" props);
      animate ← as_boolean (field "animate" props);
      duration ← as_number (field "duration" props);
      fov ← as_number (field "fov" props);
      near ← as_number (field "near" props);
      far ← as_number (field "far" props);
      color ← as_string (field "color" props);
      intensity ← as_number (field "intensity" props);
      Some {| MCPBridge.c_action := action; MCPBridge.c_requestId := requestId;
              MCPBridge.c_maxDepth := maxDepth; MCPBridge.c_name := name;
              MCPBridge.c_nameContains := nameContains; MCPBridge.c_type := type;
              MCPBridge.c_path := path; MCPBridge.c_id := id;
              MCPBridge.c_newName := newName; MCPBridge.c_position := position;
              MCPBridge.c_rotation := rotation; MCPBridge.c_scale := scale;
              MCPBridge.c_target := target; MCPBridge.c_offset := offset;
              MCPBridge.c_lookAt := lookAt; MCPBridge.c_size := size;
              MCPBridge.c_visible := visible; MCPBridge.c_opacity := opacity;
              MCPBridge.c_speed := speed; MCPBridge.c_animate := animate;
              MCPBridge.c_duration := duration; MCPBridge.c_fov := fov;
              MCPBridge.c_near := near; MCPBridge.c_far := far;
              MCPBridge.c_color := color; MCPBridge.c_intensity := intensity |}
  | _ => None
  end.

(** What the client makes of a command the server sends under the
    identifier [requestId]. *)
Definition received (command : BridgeServer.MCPCommand) (requestId : string)
  : option MCPBridge.MCPCommand :=
  decode (json (BridgeServer.envelope command requestId)).

(** A reply the server can match: an object with distinct keys, none of
    them [requestId]. *)
Definition plain (r : JsVal) : Prop :=
  ∃ props, r = VObj props ∧ NoDup props.*1 ∧ "requestId" ∉ props.*1.

(** What a method of the client leaves: the socket as it was, and a plain
    reply when it returns. *)
Definition answers (b : MCPBridge.MCPBridge)
    (after : MCPBridge.Outcome JsVal * MCPBridge.MCPBridge) : Prop :=
  MCPBridge.ws after.2 = MCPBridge.ws b
  ∧ match after.1 with
    | MCPBridge.Returns r => plain r
    | MCPBridge.Throws _ => True
    end.

End Wire.

(** ** The glTF tools (src/gltf-tools.ts)

    What [analyze_gltf] and [validate_asset] compute from a loaded
    document.  The document is the part of the glTF-Transform object graph
    the code reads. *)

Module Gltf.
Import Js ToolServer.

Definition KNOWN_ATTRIBUTES : list string :=
  ["POSITION"; "NORMAL"; "TANGENT"; "TEXCOORD_0"; "TEXCOORD_1"; "COLOR_0";
   "JOINTS_0"; "WEIGHTS_0"].

Definition MODE_LABELS (mode : N) : option string :=
  match mode with
  | 0%N => Some "POINTS"
  | 1%N => Some "LINES"
  | 2%N => Some "LINE_LOOP"
  | 3%N => Some "LINE_STRIP"
  | 4%N => Some "TRIANGLES"
  | 5%N => Some "TRIANGLE_STRIP"
  | 6%N => Some "TRIANGLE_FAN"
  | _ => None
  end.

(** A primitive: its mode, its attributes by semantic with the element
    count of each accessor, and the element count of its indices. *)
Record Primitive := mkPrimitive {
  mode : N;
  attributes : list (string * N);
  indices : option N
}.

(** [primitive.getAttribute(semantic)], as the count of the accessor. *)
Fixpoint getAttribute (semantic : string) (attributes : list (string * N)) : option N :=
  match attributes with
  | [] => None
  | (key, count) :: rest =>
      if String.eqb key semantic then Some count else getAttribute semantic rest
  end.

Record Mesh := mkMesh {
  mesh_name : string;
  primitives : list Primitive
}.

#[warnings="-register-all"]
Inductive Node := mkNode (children : list Node).

Record Scene := mkScene {
  scene_name : string;
  scene_children : list Node
}.

Record Material := mkMaterial {
  material_name : string;
  alphaMode : string;
  doubleSided : bool
}.

Record Texture := mkTexture {
  texture_name : string;
  mimeType : string
}.

Record Animation := mkAnimation {
  animation_name : string;
  channels : nat;
  samplers : nat
}.

(** What [document.getRoot()] lists. *)
Record Document := mkDocument {
  scenes : list Scene;
  nodes : nat;
  meshes : list Mesh;
  materials : list Material;
  textures : list Texture;
  animations : list Animation;
  skins : nat
}.

Record GltfMeshPrimitiveSummary := mkPrimitiveSummary {
  ps_mode : string;
  ps_vertices : N;
  ps_triangles : N;
  ps_attributes : list string
}.

Record GltfMeshSummary := mkMeshSummary {
  ms_name : option string;
  primitiveCount : nat;
  ms_estimatedVertices : N;
  ms_estimatedTriangles : N;
  ms_attributes : list string;
  ms_primitives : list GltfMeshPrimitiveSummary
}.

Record GltfAnalysisSummary := mkSummary {
  sum_scenes : nat;
  sum_nodes : nat;
  sum_meshes : nat;
  sum_materials : nat;
  sum_textures : nat;
  sum_animations : nat;
  sum_skins : nat;
  drawCalls : N;
  estimatedVertices : N;
  estimatedTriangles : N
}.

Record GltfSceneSummary := mkSceneSummary {
  ss_name : option string;
  nodeCount : N
}.

Record GltfMaterialSummary := mkMaterialSummary {
  mats_name : option string;
  mats_alphaMode : string;
  mats_doubleSided : bool
}.

Record GltfTextureSummary := mkTextureSummary {
  ts_name : option string;
  ts_mimeType : string
}.

Record GltfAnimationSummary := mkAnimationSummary {
  as_name : option string;
  as_channels : nat;
  as_samplers : nat
}.

Record GltfAnalysis := mkAnalysis {
  source_path : string;
  source_bytes : N;
  summary : GltfAnalysisSummary;
  an_scenes : list GltfSceneSummary;
  an_meshes : list GltfMeshSummary;
  an_materials : list GltfMaterialSummary;
  an_textures : list GltfTextureSummary;
  an_animations : list GltfAnimationSummary
}.

(** The four variables [collectMeshSummaries] updates while it maps. *)
Record Totals := mkTotals {
  totalPrimitives : N;
  totalVertices : N;
  totalTriangles : N;
  missingPosition : list string
}.

(** [countSceneNodes]: [visit] counts a node, then its children. *)
Fixpoint visit (node : Node) (count : N) : N :=
  match node with
  | mkNode children =>
      (fix each (nodes : list Node) (count : N) : N :=
         match nodes with
         | [] => count
         | child :: rest => each rest (visit child count)
         end) children (count + 1)%N
  end.

Definition countSceneNodes (scene : Scene) : N :=
  foldl (λ count child, visit child count) 0%N (scene_children scene).

(** [estimateTriangles]; the counts are not negative, so [max(0, count - 2)]
    is the truncated difference. *)
Definition estimateTriangles (primitive : Primitive) (vertexCount indexCount : N) : N :=
  let count := if (0 <? indexCount)%N then indexCount else vertexCount in
  if (mode primitive =? 4)%N then (count / 3)%N
  else if (mode primitive =? 5)%N || (mode primitive =? 6)%N
  then N.max 0 (count - 2)
  else 0%N.

(** [Array.from(new Set(items))]: the first occurrence of each item, in
    order. *)
Definition unique (items : list string) : list string :=
  foldl (λ seen item, if bool_decide (item ∈ seen) then seen else (seen ++ [item])%list)
        [] items.

Section Analysis.
Context `{Engine}.

Definition normalizeName (name : string) : option string :=
  let trimmed := trim name in
  if String.eqb trimmed "" then None else Some trimmed.

(** The callback of [primitives.map], with the variables it updates. *)
Definition summarize_primitive (meshLabel : string) (primitiveIndex : nat)
    (primitive : Primitive) (totals : Totals)
  : GltfMeshPrimitiveSummary * Totals :=
  let position := getAttribute "POSITION" (attributes primitive) in
  let missing :=
    match position with
    | Some _ => missingPosition totals
    | None =>
        (missingPosition totals
         ++ [meshLabel +:+ ":primitive_" +:+ pretty primitiveIndex])%list
    end in
  let vertexCount := default 0%N position in
  let indexCount := default 0%N (indices primitive) in
  let triangleCount := estimateTriangles primitive vertexCount indexCount in
  let attributes :=
    filter (λ attribute, is_Some (getAttribute attribute (attributes primitive)))
           KNOWN_ATTRIBUTES in
  let modeValue := mode primitive in
  let mode := default ("MODE_" +:+ pretty modeValue) (MODE_LABELS modeValue) in
  (mkPrimitiveSummary mode vertexCount triangleCount attributes,
   mkTotals (totalPrimitives totals + 1) (totalVertices totals + vertexCount)
            (totalTriangles totals + triangleCount) missing).

(** [primitives.map(callback)] from index [primitiveIndex] on. *)
Fixpoint summarize_primitives (meshLabel : string) (primitiveIndex : nat)
    (primitives : list Primitive) (totals : Totals)
  : list GltfMeshPrimitiveSummary * Totals :=
  match primitives with
  | [] => ([], totals)
  | primitive :: rest =>
      let '(summary, totals1) :=
        summarize_primitive meshLabel primitiveIndex primitive totals in
      let '(summaries, totals2) :=
        summarize_primitives meshLabel (S primitiveIndex) rest totals1 in
      (summary :: summaries, totals2)
  end.

(** The callback of [meshes.map]. *)
Definition summarize_mesh (meshIndex : nat) (mesh : Mesh) (totals : Totals)
  : GltfMeshSummary * Totals :=
  let meshName := normalizeName (mesh_name mesh) in
  let meshLabel := default ("mesh_" +:+ pretty meshIndex) meshName in
  let '(primitiveSummaries, totals1) :=
    summarize_primitives meshLabel 0 (primitives mesh) totals in
  let attributes := unique (primitiveSummaries ≫= ps_attributes) in
  let meshVertices :=
    foldl (λ sum summary, (sum + ps_vertices summary)%N) 0%N primitiveSummaries in
  let meshTriangles :=
    foldl (λ sum summary, (sum + ps_triangles summary)%N) 0%N primitiveSummaries in
  (mkMeshSummary meshName (length (primitives mesh)) meshVertices meshTriangles
                 attributes primitiveSummaries,
   totals1).

Fixpoint summarize_meshes (meshIndex : nat) (meshes : list Mesh) (totals : Totals)
  : list GltfMeshSummary * Totals :=
  match meshes with
  | [] => ([], totals)
  | mesh :: rest =>
      let '(summary, totals1) := summarize_mesh meshIndex mesh totals in
      let '(summaries, totals2) := summarize_meshes (S meshIndex) rest totals1 in
      (summary :: summaries, totals2)
  end.

Definition collectMeshSummaries (document : Document)
  : list GltfMeshSummary * Totals :=
  summarize_meshes 0 (meshes document) (mkTotals 0 0 0 []).

(** [buildAnalysis] without [inspection], which is what the library's
    [inspect] reports. *)
Definition buildAnalysis (document : Document) (resolvedPath : string) (bytes : N)
  : GltfAnalysis * list string :=
  let '(meshSummaries, totals) := collectMeshSummaries document in
  let scenes :=
    map (λ scene, mkSceneSummary (normalizeName (scene_name scene))
                    (countSceneNodes scene)) (scenes document) in
  let materials :=
    map (λ material, mkMaterialSummary (normalizeName (material_name material))
                       (alphaMode material) (doubleSided material))
        (materials document) in
  let textures :=
    map (λ texture, mkTextureSummary (normalizeName (texture_name texture))
                      (mimeType texture)) (textures document) in
  let animations :=
    map (λ animation, mkAnimationSummary (normalizeName (animation_name animation))
                        (channels animation) (samplers animation))
        (animations document) in
  let summary :=
    mkSummary (length scenes) (nodes document) (length meshSummaries)
              (length materials) (length textures) (length animations)
              (skins document) (totalPrimitives totals) (totalVertices totals)
              (totalTriangles totals) in
  (mkAnalysis resolvedPath bytes summary scenes meshSummaries materials textures
              animations,
   missingPosition totals).

(** *** Limits *)

Definition DEFAULT_LIMITS : list (string * JsVal) :=
  [("maxDrawCalls", VNum 200); ("maxTriangles", VNum 200000);
   ("maxVertices", VNum 400000); ("maxTextures", VNum 12);
   ("maxMaterials", VNum 50); ("maxAnimations", VNum 200)].

(** [Object.entries(value)]: the properties of an object, the elements of
    an array by index, the characters of a string by index; nothing for a
    number or a boolean. *)
Definition entries (value : JsVal) : list (string * JsVal) :=
  match value with
  | VObj props => props
  | VArr items => imap (λ i item, (pretty i, item)) items
  | VStr s => imap (λ i c, (pretty i, VStr (String c ""))) (list_ascii_of_string s)
  | _ => []
  end.

(** [typeof value === 'number' && Number.isFinite(value)]. *)
Definition finite_number (value : JsVal) : bool :=
  match value with VNum _ => true | _ => false end.

(** The properties are listed in insertion order, which is their order in
    the object unless a key is an array index. *)
Definition normalizeLimits (limits : JsVal) : list (string * JsVal) :=
  if negb (truthy_val limits) then DEFAULT_LIMITS
  else
    let sanitized :=
      obj_spread [] (filter (λ entry, finite_number entry.2) (entries limits)) in
    obj_spread DEFAULT_LIMITS sanitized.

(** [count > limits[key]]: a comparison with a missing property is
    false. *)
Definition exceeds (count : Q) (key : string) (limits : list (string * JsVal)) : bool :=
  match obj_get key limits with
  | Some (VNum limit) => negb (Qle_bool count limit)
  | _ => false
  end.

(** A value inside a template literal. *)
Definition show_value (value : option JsVal) : string :=
  match value with
  | Some (VNum q) => number_to_string q
  | Some other => stringify other
  | None => "undefined"
  end.

Definition Q_of_nat (n : nat) : Q := inject_Z (Z.of_nat n).
Definition Q_of_N (n : N) : Q := inject_Z (Z.of_N n).

(** *** Validation *)

Record GltfValidationReport := mkReport {
  r_path : string;
  r_bytes : N;
  valid : bool;
  errors : list string;
  warnings : list string;
  metrics : GltfAnalysisSummary;
  limits : list (string * JsVal);
  issues_missingPosition : list string
}.

(** One of the six guarded [warnings.push] of [validateGltf]. *)
Definition check_limit (what : string) (count : Q) (key : string)
    (limits : list (string * JsVal)) (warnings : list string) : list string :=
  if exceeds count key limits then
    (warnings ++ ["High " +:+ what +:+ " count (" +:+ number_to_string count
                  +:+ "). Target <= " +:+ show_value (obj_get key limits) +:+ "."])%list
  else warnings.

(** [validateGltf] on a loaded document. *)
Definition validateGltf (document : Document) (resolvedPath : string) (bytes : N)
    (limits : JsVal) : GltfValidationReport :=
  let '(analysis, missingPosition) := buildAnalysis document resolvedPath bytes in
  let summary := summary analysis in
  let normalizedLimits := normalizeLimits limits in
  let errors := [] in
  let warnings := [] in
  let errors :=
    if Nat.eqb (sum_scenes summary) 0 then (errors ++ ["No scenes found."])%list
    else errors in
  let warnings :=
    if Nat.eqb (sum_meshes summary) 0 then (warnings ++ ["No meshes found."])%list
    else warnings in
  let errors :=
    if (0 <? length missingPosition)%nat then
      (errors ++ ["Missing POSITION attribute in " +:+ pretty (length missingPosition)
                  +:+ " primitive(s)."])%list
    else errors in
  let warnings :=
    check_limit "draw call" (Q_of_N (drawCalls summary)) "maxDrawCalls"
      normalizedLimits warnings in
  let warnings :=
    check_limit "triangle" (Q_of_N (estimatedTriangles summary)) "maxTriangles"
      normalizedLimits warnings in
  let warnings :=
    check_limit "vertex" (Q_of_N (estimatedVertices summary)) "maxVertices"
      normalizedLimits warnings in
  let warnings :=
    check_limit "texture" (Q_of_nat (sum_textures summary)) "maxTextures"
      normalizedLimits warnings in
  let warnings :=
    check_limit "material" (Q_of_nat (sum_materials summary)) "maxMaterials"
      normalizedLimits warnings in
  let warnings :=
    check_limit "animation" (Q_of_nat (sum_animations summary)) "maxAnimations"
      normalizedLimits warnings in
  mkReport resolvedPath bytes (Nat.eqb (length errors) 0) errors warnings summary
           normalizedLimits missingPosition.

End Analysis.

(** The primitives of a document, mesh after mesh. *)
Definition all_primitives (document : Document) : list Primitive :=
  meshes document ≫= primitives.

Definition has_position (primitive : Primitive) : bool :=
  bool_decide (is_Some (getAttribute "POSITION" (attributes primitive))).

(** The number of nodes below a node, itself included. *)
Fixpoint size (node : Node) : N :=
  match node with
  | mkNode children => (1 + foldr (λ child total, size child + total) 0 children)%N
  end.

(** The sum of a list of counts. *)
Definition total (counts : list N) : N := foldr N.add 0%N counts.

(** The last finite number a caller gave for a limit. *)
Definition given (key : string) (limits : JsVal) : option JsVal :=
  snd <$> last (filter (λ entry, entry.1 = key ∧ finite_number entry.2 = true)
                       (entries limits)).

(** *** Sample data *)

(** A triangle list with positions and six indices, and a primitive
    without positions. *)
Definition demo_quad : Primitive :=
  mkPrimitive 4 [("POSITION", 4%N); ("NORMAL", 4%N)] (Some 6%N).
Definition demo_bare : Primitive := mkPrimitive 4 [("NORMAL", 3%N)] None.

Definition demo_document : Document :=
  mkDocument [mkScene "Scene" [mkNode [mkNode []]]] 2
             [mkMesh "quad" [demo_quad]; mkMesh "" [demo_quad; demo_bare]]
             [] [] [] 0.

End Gltf.

(** ** Waiting for a game client ([BridgeServer.waitForConnection]) *)

Module Waiting.
Import Js BridgeServer.

(** One call of [waitForConnection]: whether its timeout and its interval
    are armed, and the calls of [resolve] and [reject] on its promise. *)
Record Wait := mkWait {
  timeout_armed : bool;
  interval_armed : bool;
  decided : list Settlement
}.

(** [waitForConnection()]: with a client the method returns at once;
    otherwise it arms the timeout and the interval. *)
Definition waitForConnection (s : BridgeServer) : Wait :=
  if isConnected s then mkWait false false [Fulfilled VUndefined]
  else mkWait true true [].

(** [connect()] is [waitForConnection()] with the default timeout. *)
Definition connect (s : BridgeServer) : Wait := waitForConnection s.

(** What happens while the call waits: the server goes on, the timeout
    fires, or the interval fires. *)
Inductive Tick :=
  | Server (e : Event)
  | Deadline
  | Poll.

Definition timeout_error : Error :=
  mkError "Timeout waiting for game client to connect".

Definition tick (state : BridgeServer * Wait) (t : Tick) : BridgeServer * Wait :=
  let '(s, w) := state in
  match t with
  | Server e => (step s e, w)
  | Deadline =>
      if timeout_armed w then
        (s, mkWait false (interval_armed w) (decided w ++ [Rejected timeout_error]))
      else (s, w)
  | Poll =>
      if interval_armed w && isConnected s then
        (s, mkWait false false (decided w ++ [Fulfilled VUndefined]))
      else (s, w)
  end.

Definition wait_run (s : BridgeServer) (ticks : list Tick) : BridgeServer * Wait :=
  foldl tick (s, waitForConnection s) ticks.

(** The state of the promise: the first call decides. *)
Definition verdict (w : Wait) : option Settlement := head (decided w).

(** Some poll among the ticks found a client connected. *)
Fixpoint sees_client (s : BridgeServer) (ticks : list Tick) : bool :=
  match ticks with
  | [] => false
  | Server e :: rest => sees_client (step s e) rest
  | Deadline :: rest => sees_client s rest
  | Poll :: rest => isConnected s || sees_client s rest
  end.

(** The deadline is among the ticks. *)
Definition deadline_passed (ticks : list Tick) : bool :=
  existsb (λ t, match t with Deadline => true | _ => false end) ticks.

End Waiting.

(** ** The connection of the client ([MCPBridge.connect], [disconnect],
    [scheduleReconnect])

    The sockets and the timers are the browser's; the class holds a socket
    and a timer by their handles. *)

Module Connection.
Import Js.

Record Link := mkLink {
  ws : option nat;
  reconnectTimeout : option nat;
  sockets : gmap nat ReadyState;
  timers : gset nat;
  next : nat;
  pushed : list nat
}.

(** A bridge that did not connect yet. *)
Definition initial : Link :=
  {| ws := None; reconnectTimeout := None; sockets := ∅; timers := ∅; next := 0;
     pushed := [] |}.

(** The ready state of [this.ws]. *)
Definition readyState (b : Link) : option ReadyState := ws b ≫= (sockets b !!.).

(** [sendSceneState()]: a push on [this.ws] when it is open. *)
Definition sendSceneState (b : Link) : Link :=
  match ws b with
  | Some socket =>
      if is_open (sockets b !! socket)
      then {| ws := ws b; reconnectTimeout := reconnectTimeout b;
              sockets := sockets b; timers := timers b; next := next b;
              pushed := pushed b ++ [socket] |}
      else b
  | None => b
  end.

(** [scheduleReconnect()]: the timer held is cleared, a new one is armed
    and held. *)
Definition scheduleReconnect (b : Link) : Link :=
  let cleared :=
    match reconnectTimeout b with
    | Some h => timers b ∖ {[h]}
    | None => timers b
    end in
  {| ws := ws b; reconnectTimeout := Some (next b); sockets := sockets b;
     timers := cleared ∪ {[next b]}; next := S (next b); pushed := pushed b |}.

(** [connect()]: [created] tells whether [new WebSocket(url)] returns; when
    it throws, the [catch] schedules a reconnect. *)
Definition connect (created : bool) (b : Link) : Link :=
  if created then
    {| ws := Some (next b); reconnectTimeout := reconnectTimeout b;
       sockets := <[next b := CONNECTING]> (sockets b); timers := timers b;
       next := S (next b); pushed := pushed b |}
  else scheduleReconnect b.

(** [socket.close()]: a socket that is not closed starts to close. *)
Definition close_socket (socket : nat) (sockets : gmap nat ReadyState)
  : gmap nat ReadyState :=
  match sockets !! socket with
  | Some CLOSED | None => sockets
  | Some _ => <[socket := CLOSING]> sockets
  end.

Definition disconnect (b : Link) : Link :=
  let timers1 :=
    match reconnectTimeout b with
    | Some h => timers b ∖ {[h]}
    | None => timers b
    end in
  match ws b with
  | Some socket =>
      {| ws := None; reconnectTimeout := None;
         sockets := close_socket socket (sockets b); timers := timers1;
         next := next b; pushed := pushed b |}
  | None =>
      {| ws := None; reconnectTimeout := None; sockets := sockets b;
         timers := timers1; next := next b; pushed := pushed b |}
  end.

(** The calls from outside and what the browser delivers: a socket opens,
    a socket closes, a timer fires. *)
Inductive Event :=
  | Connect (created : bool)
  | Disconnect
  | Opens (socket : nat)
  | Closes (socket : nat)
  | Fires (timer : nat) (created : bool).

Definition set_socket (socket : nat) (rs : ReadyState) (b : Link) : Link :=
  {| ws := ws b; reconnectTimeout := reconnectTimeout b;
     sockets := <[socket := rs]> (sockets b); timers := timers b; next := next b;
     pushed := pushed b |}.

Definition step (b : Link) (e : Event) : Link :=
  match e with
  | Connect created => connect created b
  | Disconnect => disconnect b
  | Opens socket =>
      match sockets b !! socket with
      | Some CONNECTING => sendSceneState (set_socket socket OPEN b)
      | _ => b
      end
  | Closes socket =>
      match sockets b !! socket with
      | Some CLOSED | None => b
      | Some _ => scheduleReconnect (set_socket socket CLOSED b)
      end
  | Fires timer created =>
      if bool_decide (timer ∈ timers b) then
        connect created
          {| ws := ws b; reconnectTimeout := reconnectTimeout b;
             sockets := sockets b; timers := timers b ∖ {[timer]}; next := next b;
             pushed := pushed b |}
      else b
  end.

Definition run (events : list Event) : Link := foldl step initial events.

Definition reachable (b : Link) : Prop := ∃ events, b = run events.

(** What holds of the timers and the sockets in every state: an armed
    timer is the one the bridge holds, and every handle in use was issued
    by the counter. *)
Record Inv (b : Link) : Prop := mkInv {
  inv_timers : ∀ h, h ∈ timers b → reconnectTimeout b = Some h;
  inv_held : ∀ h, reconnectTimeout b = Some h → h < next b;
  inv_sockets : ∀ socket, is_Some (sockets b !! socket) → socket < next b;
  inv_ws : ∀ socket, ws b = Some socket → is_Some (sockets b !! socket)
}.

End Connection.

(** * Properties of the control-plane side *)

Module BridgeServerFacts.
Import Js BridgeServer.

Lemma request_name_inj n m : request_name n = request_name m → n = m.
Proof.
  unfold request_name. intros H.
  apply (inj (String.app "req_")) in H. by apply (inj pretty) in H.
Qed.

Lemma Inv_initial : Inv initial.
Proof.
  split; cbn.
  - intros k pr H. by rewrite lookup_empty in H.
  - intros h tc H. by rewrite lookup_empty in H.
  - constructor.
  - intros p H. by apply elem_of_nil in H.
Qed.

Lemma Inv_set_client c s : Inv s → Inv (set_client c s).
Proof. intros [H1 H2 H3 H4]. by split. Qed.

Lemma Inv_set_lastSceneState v s : Inv s → Inv (set_lastSceneState v s).
Proof. intros [H1 H2 H3 H4]. by split. Qed.

(** Settling the request numbered [h] — by a response or by its deadline —
    after disarming its timer and dropping its entry. *)
Lemma Inv_settle_pending h o s :
  Inv s → is_Some (timers s !! h) →
  Inv (settle h o
         (set_pendingRequests (delete (request_name h) (pendingRequests s))
            (clearTimeout h s))).
Proof.
  intros [H1 H2 H3 H4] [tc Htc]. split; cbn.
  - intros k pr Hk. apply lookup_delete_Some in Hk as [Hne Hk].
    destruct (H1 k pr Hk) as (n & c & -> & -> & Hle & Hn).
    exists n, c. repeat split; try done.
    rewrite lookup_delete_ne; [done | congruence].
  - intros h' tc' Hh'. apply lookup_delete_Some in Hh' as [Hne Hh'].
    destruct (H2 h' tc' Hh') as (Hp & Hr & Hpend). repeat split; try done.
    rewrite lookup_delete_ne; [done |]. intros E. by apply request_name_inj in E.
  - rewrite fmap_app. cbn. apply NoDup_app. split; [done |]. split.
    + intros p Hp Hin. apply list_elem_of_singleton in Hin as ->.
      destruct (H4 h Hp) as [_ Hnone]. congruence.
    + apply NoDup_singleton.
  - intros p Hp. rewrite fmap_app in Hp. cbn in Hp.
    apply elem_of_app in Hp as [Hp | Hp].
    + destruct (H4 p Hp) as [Hle Hnone]. split; [done |].
      destruct (decide (h = p)) as [-> | Hne];
        [apply lookup_delete_eq | by rewrite lookup_delete_ne].
    + apply list_elem_of_singleton in Hp as ->. split; [| apply lookup_delete_eq].
      destruct (H2 h tc Htc) as (_ & _ & Hpend).
      destruct (H1 _ _ Hpend) as (n & c & E & _ & Hle & _).
      by apply request_name_inj in E as ->.
Qed.

Lemma Inv_handleMessage m s : Inv s → Inv (handleMessage m s).
Proof.
  intros HI. unfold handleMessage.
  set (s1 := if has_prop "data" m then set_lastSceneState m s else s).
  assert (HI1 : Inv s1) by (unfold s1; destruct (has_prop "data" m);
                            [by apply Inv_set_lastSceneState | done]).
  destruct (message_requestId m) as [rid |]; [| done].
  destruct (pending_get rid s1) as [pr |] eqn:Hget; [| done].
  destruct rid as [| | | | | k | |]; try discriminate. cbn in Hget.
  destruct (inv_pending _ HI1 k pr Hget) as (n & c & -> & -> & Hle & Hn).
  cbn. apply (Inv_settle_pending n _ s1 HI1). by eexists.
Qed.

Lemma Inv_fire h s : Inv s → Inv (fire h s).
Proof.
  intros HI. unfold fire. destruct (timers s !! h) as [tc |] eqn:Htc; [| done].
  destruct (inv_timers _ HI h tc Htc) as (Hp & Hr & Hpend).
  unfold on_timeout. rewrite Hp, Hr.
  destruct (falls_back _); apply (Inv_settle_pending h _ s HI); by eexists.
Qed.

Lemma timers_fresh s n : Inv s → (requestId s < n)%N → timers s !! n = None.
Proof.
  intros HI Hlt. destruct (timers s !! n) as [tc |] eqn:Htc; [| done].
  destruct (inv_timers _ HI n tc Htc) as (_ & _ & Hpend).
  destruct (inv_pending _ HI _ _ Hpend) as (m & c & E & _ & Hle & _).
  apply request_name_inj in E as ->. lia.
Qed.

Lemma pending_fresh s n :
  Inv s → (requestId s < n)%N → pendingRequests s !! request_name n = None.
Proof.
  intros HI Hlt. destruct (pendingRequests s !! request_name n) as [pr |] eqn:Hp; [| done].
  destruct (inv_pending _ HI _ _ Hp) as (m & c & E & _ & Hle & _).
  apply request_name_inj in E as ->. lia.
Qed.

(** A transmission that throws undoes the registration: what is left of the
    call is the advanced counter and one rejection. *)
Lemma sendCommand_throws c e s :
  Inv s → isConnected s = true →
  sendCommand c (Throws e) s =
    (Awaiting (requestId s + 1),
     reject (requestId s + 1) e (set_requestId (requestId s + 1) s)).
Proof.
  intros HI Hc. unfold sendCommand. rewrite Hc. cbn.
  pose proof (timers_fresh s (requestId s + 1) HI ltac:(lia)) as Ht.
  pose proof (pending_fresh s (requestId s + 1) HI ltac:(lia)) as Hp.
  unfold reject, settle, set_pendingRequests, clearTimeout, setTimeout,
    set_requestId. cbn.
  rewrite !delete_insert_id by done. done.
Qed.

Lemma Inv_sendCommand c tx s : Inv s → Inv (sendCommand c tx s).2.
Proof.
  intros HI. destruct (isConnected s) eqn:Hc;
    [| unfold sendCommand; by rewrite Hc].
  destruct tx as [| e].
  - unfold sendCommand. rewrite Hc. cbn.
    destruct HI as [H1 H2 H3 H4]. split; cbn.
    + intros k pr Hk. apply lookup_insert_Some in Hk as [[<- <-] | [Hne Hk]].
      * exists (requestId s + 1)%N, c. repeat split; [lia |].
        apply lookup_insert_eq.
      * destruct (H1 k pr Hk) as (n & c' & -> & -> & Hle & Hn).
        exists n, c'. repeat split; [lia |].
        rewrite lookup_insert_ne; [done | lia].
    + intros h tc Hh. apply lookup_insert_Some in Hh as [[<- <-] | [Hne Hh]].
      * repeat split. apply lookup_insert_eq.
      * destruct (H2 h tc Hh) as (Hp' & Hr & Hpend). repeat split; try done.
        rewrite lookup_insert_ne; [done |].
        intros E. by apply request_name_inj in E.
    + done.
    + intros p Hin. destruct (H4 p Hin) as [Hle Hnone]. split; [lia |].
      rewrite lookup_insert_ne; [done | lia].
  - rewrite sendCommand_throws by done. cbn.
    destruct HI as [H1 H2 H3 H4]. split; cbn.
    + intros k pr Hk. destruct (H1 k pr Hk) as (n & c' & -> & -> & Hle & Hn).
      exists n, c'. repeat split; [lia | done].
    + done.
    + rewrite fmap_app. cbn. apply NoDup_app. split; [done |]. split.
      * intros p Hin Hin'. apply list_elem_of_singleton in Hin' as ->.
        destruct (H4 _ Hin). lia.
      * apply NoDup_singleton.
    + intros p Hin. rewrite fmap_app in Hin. cbn in Hin.
      apply elem_of_app in Hin as [Hin | Hin].
      * destruct (H4 p Hin). split; [lia | done].
      * apply list_elem_of_singleton in Hin as ->. split; [lia |].
        apply (timers_fresh s); [by split | lia].
Qed.

Lemma close_loop (l : list (string * PendingRequest)) s :
  foldl (λ acc kv, reject (promise kv.2) (mkError "Server closed")
                     (clearTimeout (timeout kv.2) acc)) s l
  = {| client := client s; pendingRequests := pendingRequests s;
       requestId := requestId s; lastSceneState := lastSceneState s;
       timers := foldl (λ t kv, delete (timeout kv.2) t) (timers s) l;
       settled := settled s ++
                  ((λ kv, (promise kv.2, Rejected (mkError "Server closed"))) <$> l);
       outbox := outbox s |}.
Proof.
  revert s. induction l as [| kv l IH]; intros s; cbn.
  - rewrite app_nil_r. by destruct s.
  - rewrite IH. cbn. by rewrite <- app_assoc.
Qed.

Lemma lookup_foldl_delete {V} (l : list (string * PendingRequest)) (t : gmap N V) h :
  foldl (λ t kv, delete (timeout kv.2) t) t l !! h
  = if decide (h ∈ (λ kv, timeout kv.2) <$> l) then None else t !! h.
Proof.
  revert t. induction l as [| kv l IH]; intros t; cbn.
  - destruct (decide _) as [Hin | _]; [by apply elem_of_nil in Hin | done].
  - rewrite IH.
    destruct (decide (h ∈ _ <$> l)) as [Hin | Hnot];
      destruct (decide (h ∈ _ :: _)) as [Hin' | Hnot']; try done.
    + exfalso. apply Hnot'. apply elem_of_cons. by right.
    + apply elem_of_cons in Hin' as [-> | Hin']; [apply lookup_delete_eq | done].
    + apply lookup_delete_ne. intros <-. apply Hnot'. apply elem_of_cons. by left.
Qed.

Lemma close_state s :
  Inv s →
  close s = {| client := None; pendingRequests := ∅; requestId := requestId s;
               lastSceneState := lastSceneState s; timers := ∅;
               settled := settled s ++ rejections s; outbox := outbox s |}.
Proof.
  intros HI. unfold close. rewrite close_loop. cbn.
  unfold set_pendingRequests, rejections. cbn. f_equal.
  apply map_eq. intros h. rewrite lookup_foldl_delete, lookup_empty.
  case_decide as Hin; [done |].
  destruct (timers s !! h) as [tc |] eqn:Htc; [| done].
  exfalso. apply Hin. destruct (inv_timers _ HI h tc Htc) as (_ & _ & Hpend).
  apply list_elem_of_fmap. exists (request_name h, mkPending h h).
  split; [done |]. by apply elem_of_map_to_list.
Qed.

Lemma rejections_promise s p :
  Inv s → p ∈ (rejections s).*1 →
  pendingRequests s !! request_name p = Some (mkPending p p).
Proof.
  intros HI Hin. unfold rejections in Hin. rewrite <- list_fmap_compose in Hin.
  apply list_elem_of_fmap in Hin as ([k pr] & -> & Hkv).
  apply elem_of_map_to_list in Hkv. cbn.
  destruct (inv_pending _ HI k pr Hkv) as (n & c & -> & -> & _ & _). done.
Qed.

Lemma rejections_NoDup s : Inv s → NoDup (rejections s).*1.
Proof.
  intros HI. unfold rejections. rewrite <- list_fmap_compose.
  apply NoDup_fmap_2_strong; [| apply NoDup_map_to_list].
  intros [k1 p1] [k2 p2] H1 H2 E. cbn in E.
  apply elem_of_map_to_list in H1, H2.
  destruct (inv_pending _ HI k1 p1 H1) as (n1 & c1 & -> & -> & _ & _).
  destruct (inv_pending _ HI k2 p2 H2) as (n2 & c2 & -> & -> & _ & _).
  cbn in E. by subst.
Qed.

Lemma Inv_close s : Inv s → Inv (close s).
Proof.
  intros HI. rewrite close_state by done. split; cbn.
  - intros k pr H. by rewrite lookup_empty in H.
  - intros h tc H. by rewrite lookup_empty in H.
  - rewrite fmap_app. apply NoDup_app. split; [apply (inv_once _ HI) |].
    split; [| by apply rejections_NoDup].
    intros p Hp Hin. apply rejections_promise in Hin; [| done].
    destruct (inv_pending _ HI _ _ Hin) as (n & c & E & _ & _ & Hn).
    apply request_name_inj in E as <-.
    destruct (inv_settled _ HI p Hp) as [_ Hnone]. congruence.
  - intros p Hin. split; [| apply lookup_empty].
    rewrite fmap_app in Hin. apply elem_of_app in Hin as [Hin | Hin].
    + by destruct (inv_settled _ HI p Hin).
    + apply rejections_promise in Hin; [| done].
      destruct (inv_pending _ HI _ _ Hin) as (n & c & E & _ & Hle & _).
      by apply request_name_inj in E as <-.
Qed.

Lemma Inv_step s e : Inv s → Inv (step s e).
Proof.
  intros HI. destruct e; cbn.
  - by apply Inv_set_client.
  - destruct (client s); [by apply Inv_set_client | done].
  - by apply Inv_handleMessage.
  - by apply Inv_set_client.
  - by apply Inv_sendCommand.
  - by apply Inv_fire.
  - by apply Inv_close.
Qed.

Lemma Inv_reachable s : reachable s → Inv s.
Proof.
  intros [events ->]. unfold run.
  induction events as [| e events IH] using rev_ind; cbn.
  - apply Inv_initial.
  - rewrite foldl_snoc. by apply Inv_step.
Qed.

Lemma reachable_step s e : reachable s → reachable (step s e).
Proof.
  intros [events ->]. exists (events ++ [e])%list. unfold run. by rewrite foldl_snoc.
Qed.

Lemma filter_unsettled p (l : list (N * Settlement)) :
  p ∉ l.*1 → filter (λ e, e.1 = p) l = [].
Proof.
  induction l as [| [q o] l IH]; intros Hnot; [done |].
  rewrite fmap_cons in Hnot. apply not_elem_of_cons in Hnot as [Hne Hnot].
  rewrite filter_cons_False by (cbn in *; congruence). by apply IH.
Qed.

(** The first settlement of a promise decides it. *)
Lemma outcome_settle_new p o s :
  p ∉ (settled s).*1 → outcome p (settle p o s) = Some o.
Proof.
  intros Hnot. unfold outcome, settle. cbn [settled].
  rewrite filter_app, filter_unsettled by done.
  by rewrite filter_cons_True.
Qed.

Lemma outcome_settle_other p q o s :
  q ≠ p → outcome q (settle p o s) = outcome q s.
Proof.
  intros Hne. unfold outcome, settle. cbn [settled].
  rewrite filter_app, filter_cons_False by (cbn in *; congruence).
  by rewrite filter_nil, app_nil_r.
Qed.

Lemma outcome_unsettled p s : p ∉ (settled s).*1 → outcome p s = None.
Proof. intros Hnot. unfold outcome. by rewrite filter_unsettled. Qed.

(** An armed timer belongs to a promise nobody has settled. *)
Lemma armed_unsettled s h tc : Inv s → timers s !! h = Some tc → h ∉ (settled s).*1.
Proof.
  intros HI Htc Hin. destruct (inv_settled _ HI h Hin) as [_ Hnone]. congruence.
Qed.

(** A successful [sendCommand] numbers the request, registers it, arms its
    timer and transmits the envelope. *)
Lemma sendCommand_sent c s :
  isConnected s = true →
  let n := (requestId s + 1)%N in
  let s' := (sendCommand c Sent s).2 in
  (sendCommand c Sent s).1 = Awaiting n
  ∧ requestId s' = n
  ∧ pendingRequests s' = <[request_name n := mkPending n n]> (pendingRequests s)
  ∧ timers s' = <[n := mkTimer (request_name n) c n]> (timers s)
  ∧ settled s' = settled s
  ∧ outbox s' = (outbox s ++ [envelope c (request_name n)])%list.
Proof. intros Hc. unfold sendCommand. rewrite Hc. cbn. done. Qed.

Lemma requestId_step s e : (requestId s <= requestId (step s e))%N.
Proof.
  destruct e as [| rs | m | | c tx | h |]; cbn; try lia.
  - destruct (client s); cbn; lia.
  - unfold handleMessage. destruct (has_prop "data" m);
      destruct (message_requestId m) as [[| | | | | k | |] |]; cbn; try lia;
      destruct (pendingRequests s !! k); cbn; lia.
  - unfold sendCommand. destruct (isConnected s); cbn; [| lia].
    destruct tx; cbn; lia.
  - unfold fire. destruct (timers s !! h); cbn; [| lia].
    unfold on_timeout. destruct (falls_back _); cbn; lia.
  - unfold close. rewrite close_loop. cbn. lia.
Qed.

(** No step arms a timer under a number that was already given out. *)
Lemma timers_origin s e h tc :
  Inv s → (h <= requestId s)%N →
  timers (step s e) !! h = Some tc → timers s !! h = Some tc.
Proof.
  intros HI Hle. destruct e as [| rs | m | | c tx | h0 |]; cbn [step].
  - done.
  - by destruct (client s).
  - unfold handleMessage. destruct (has_prop "data" m);
      destruct (message_requestId m) as [[| | | | | k | |] |]; cbn; try done;
      destruct (pendingRequests s !! k); cbn; try done;
      intros H; by apply lookup_delete_Some in H as [_ H].
  - done.
  - destruct (isConnected s) eqn:Hc.
    + destruct tx as [| err].
      * destruct (sendCommand_sent c s Hc) as (_ & _ & _ & -> & _).
        intros H. apply lookup_insert_Some in H as [[<- _] | [_ H]]; [lia | done].
      * by rewrite sendCommand_throws.
    + unfold sendCommand. by rewrite Hc.
  - unfold fire. destruct (timers s !! h0) eqn:Hh0; [| done].
    unfold on_timeout. destruct (falls_back _); cbn;
      intros H; by apply lookup_delete_Some in H as [_ H].
  - rewrite close_state by done. cbn. by rewrite lookup_empty.
Qed.

Lemma timers_origin_run s events h tc :
  Inv s → (h <= requestId s)%N →
  timers (foldl step s events) !! h = Some tc → timers s !! h = Some tc.
Proof.
  revert s. induction events as [| e events IH]; intros s HI Hle; cbn; [done |].
  intros H. apply (timers_origin s e); [done | done |].
  apply IH; [by apply Inv_step | | done].
  pose proof (requestId_step s e). lia.
Qed.

Lemma Inv_run s events : Inv s → Inv (foldl step s events).
Proof.
  revert s. induction events as [| e events IH]; intros s HI; cbn; [done |].
  apply IH. by apply Inv_step.
Qed.

Lemma falls_back_spec a :
  falls_back a = true ↔ a = "getFullSceneState" ∨ a = "findObjects".
Proof.
  unfold falls_back. rewrite orb_true_iff, !String.eqb_eq. done.
Qed.

(** What one firing timer does. *)
Lemma fire_armed s h tc :
  Inv s → timers s !! h = Some tc →
  let s' := fire h s in
  let answer :=
    if falls_back (action (t_command tc)) then Fulfilled (lastSceneState s)
    else Rejected (mkError "Command timeout") in
  pendingRequests s' = delete (request_name h) (pendingRequests s)
  ∧ timers s' = delete h (timers s)
  ∧ settled s' = (settled s ++ [(h, answer)])%list
  ∧ outcome h s' = Some answer.
Proof.
  intros HI Htc. cbn. unfold fire. rewrite Htc.
  destruct (inv_timers _ HI h tc Htc) as (Hp & Hr & Hpend).
  pose proof (armed_unsettled s h tc HI Htc) as Hnew.
  unfold on_timeout. rewrite Hp, Hr.
  destruct (falls_back _); cbn; repeat split; try done.
  - by apply (outcome_settle_new h _
      (set_pendingRequests (delete (request_name h) (pendingRequests s))
         (clearTimeout h s))).
  - by apply (outcome_settle_new h _
      (set_pendingRequests (delete (request_name h) (pendingRequests s))
         (clearTimeout h s))).
Qed.

(** A response that names a pending request. *)
Lemma handleMessage_hit s msg rid pr :
  Inv s →
  message_requestId msg = Some (VStr rid) →
  pendingRequests s !! rid = Some pr →
  let s' := handleMessage msg s in
  rid = request_name (promise pr)
  ∧ outcome (promise pr) s = None
  ∧ outcome (promise pr) s' = Some (Fulfilled (message_data msg))
  ∧ settled s' = (settled s ++ [(promise pr, Fulfilled (message_data msg))])%list
  ∧ pendingRequests s' = delete rid (pendingRequests s)
  ∧ timers s' = delete (timeout pr) (timers s)
  ∧ (∀ other, other ≠ rid →
       pendingRequests s' !! other = pendingRequests s !! other)
  ∧ (∀ p, p ≠ promise pr → outcome p s' = outcome p s).
Proof.
  intros HI Hrid Hp. cbn zeta.
  destruct (inv_pending _ HI rid pr Hp) as (n & c & -> & -> & Hle & Hn).
  pose proof (armed_unsettled s n _ HI Hn) as Hnew.
  unfold handleMessage. rewrite Hrid.
  destruct (has_prop "data" msg); cbn; rewrite Hp; cbn.
  - repeat split; try done.
    + by apply outcome_unsettled.
    + by apply (outcome_settle_new n _
        (set_pendingRequests (delete (request_name n) (pendingRequests s))
           (clearTimeout n (set_lastSceneState msg s)))).
    + intros other Hne. by rewrite lookup_delete_ne.
    + intros p Hne.
      by apply (outcome_settle_other n p _
        (set_pendingRequests (delete (request_name n) (pendingRequests s))
           (clearTimeout n (set_lastSceneState msg s)))).
  - repeat split; try done.
    + by apply outcome_unsettled.
    + by apply (outcome_settle_new n _
        (set_pendingRequests (delete (request_name n) (pendingRequests s))
           (clearTimeout n s))).
    + intros other Hne. by rewrite lookup_delete_ne.
    + intros p Hne.
      by apply (outcome_settle_other n p _
        (set_pendingRequests (delete (request_name n) (pendingRequests s))
           (clearTimeout n s))).
Qed.

(** A message that names no pending request. *)
Lemma handleMessage_miss s msg :
  (∀ rid, message_requestId msg = Some (VStr rid) →
          pendingRequests s !! rid = None) →
  let s' := handleMessage msg s in
  pendingRequests s' = pendingRequests s
  ∧ timers s' = timers s
  ∧ settled s' = settled s.
Proof.
  intros Hmiss. cbn zeta. unfold handleMessage.
  destruct (message_requestId msg) as [[| | | | | k | |] |] eqn:Hrid;
    destruct (has_prop "data" msg); cbn; try done;
    rewrite (Hmiss k eq_refl); done.
Qed.

(** C1: in every state the server can reach, a response envelope settles
    exactly the pending request whose identifier it carries: that request's
    promise, unsettled until then, is fulfilled with the payload, its entry
    and its timer go, and every other entry, timer and promise is as before;
    a message whose identifier hits no pending entry changes neither the
    table, nor the timers, nor any promise. *)
Theorem response_resolves_its_request s msg :
  reachable s →
  let s' := handleMessage msg s in
  (∀ rid pr,
     message_requestId msg = Some (VStr rid) →
     pendingRequests s !! rid = Some pr →
     rid = request_name (promise pr)
     ∧ outcome (promise pr) s = None
     ∧ outcome (promise pr) s' = Some (Fulfilled (message_data msg))
     ∧ settled s' = (settled s ++ [(promise pr, Fulfilled (message_data msg))])%list
     ∧ pendingRequests s' = delete rid (pendingRequests s)
     ∧ timers s' = delete (timeout pr) (timers s)
     ∧ (∀ other, other ≠ rid →
          pendingRequests s' !! other = pendingRequests s !! other)
     ∧ (∀ p, p ≠ promise pr → outcome p s' = outcome p s))
  ∧ ((∀ rid, message_requestId msg = Some (VStr rid) →
             pendingRequests s !! rid = None) →
     pendingRequests s' = pendingRequests s
     ∧ timers s' = timers s
     ∧ settled s' = settled s).
Proof.
  intros Hreach. apply Inv_reachable in Hreach as HI. cbn zeta. split.
  - intros rid pr Hrid Hp. by apply handleMessage_hit.
  - apply handleMessage_miss.
Qed.

(** C2: a request sent through [sendCommand] whose timer is still armed
    after whatever happened since (no matching response came, the server
    was not shut down) is settled by its deadline: its entry and timer go,
    and its promise is fulfilled with the cached state as it is at that
    moment when the action is [getFullSceneState] or [findObjects], and is
    rejected with the timeout error for every other action. *)
Theorem deadline_without_response s0 c events :
  reachable s0 → isConnected s0 = true →
  let n := (requestId s0 + 1)%N in
  let s1 := (sendCommand c Sent s0).2 in
  let s2 := foldl step s1 events in
  is_Some (timers s2 !! n) →
  let s3 := fire n s2 in
  (sendCommand c Sent s0).1 = Awaiting n
  ∧ outcome n s2 = None
  ∧ pendingRequests s3 !! request_name n = None
  ∧ timers s3 !! n = None
  ∧ (action c = "getFullSceneState" ∨ action c = "findObjects" →
       outcome n s3 = Some (Fulfilled (lastSceneState s2)))
  ∧ (action c ≠ "getFullSceneState" → action c ≠ "findObjects" →
       outcome n s3 = Some (Rejected (mkError "Command timeout"))).
Proof.
  intros Hreach Hc. cbn. intros [tc Htc].
  apply Inv_reachable in Hreach as HI.
  destruct (sendCommand_sent c s0 Hc) as (Hr & Hid & _ & Ht & _). cbn in *.
  assert (HI1 : Inv (sendCommand c Sent s0).2) by by apply Inv_sendCommand.
  assert (HI2 : Inv (foldl step (sendCommand c Sent s0).2 events))
    by by apply Inv_run.
  assert (tc = mkTimer (request_name (requestId s0 + 1)) c (requestId s0 + 1)) as ->.
  { apply timers_origin_run in Htc; [| done | lia].
    rewrite Ht, lookup_insert_eq in Htc. congruence. }
  destruct (fire_armed _ _ _ HI2 Htc) as (Hp & Htm & Hs & Ho). cbn in *.
  repeat split.
  - done.
  - apply outcome_unsettled. by apply (armed_unsettled _ _ _ HI2 Htc).
  - rewrite Hp. apply lookup_delete_eq.
  - rewrite Htm. apply lookup_delete_eq.
  - intros Ha. apply falls_back_spec in Ha. by rewrite Ha in Ho.
  - intros H1 H2.
    destruct (falls_back (action c)) eqn:Hf; [| done].
    apply falls_back_spec in Hf as [? | ?]; done.
Qed.

Lemma head_rejections p (l : list (N * Settlement)) v :
  Forall (λ e, e.2 = v) l → p ∈ l.*1 →
  snd <$> head (filter (λ e, e.1 = p) l) = Some v.
Proof.
  induction l as [| [q o] l IH]; intros Hall Hin.
  - by apply elem_of_nil in Hin.
  - apply Forall_cons in Hall as [Hv Hall]. cbn in Hv. subst o.
    destruct (decide (q = p)) as [-> | Hne].
    + by rewrite filter_cons_True.
    + rewrite filter_cons_False by done. apply IH; [done |].
      rewrite fmap_cons in Hin. apply elem_of_cons in Hin as [? | ?]; [| done].
      cbn in *. congruence.
Qed.

(** C3, as the code has it: [close()] rejects every pending request with the
    shutdown error, once each, and leaves the table and the timers empty, so
    that nothing can settle those requests again; no promise is ever settled
    twice.  The [close] event of the client socket only forgets the socket:
    it leaves the table, the timers and the promises as they are. *)
Theorem close_rejects_every_pending_request s :
  reachable s →
  let s' := close s in
  pendingRequests s' = ∅
  ∧ timers s' = ∅
  ∧ settled s' = (settled s ++ rejections s)%list
  ∧ length (rejections s) = size (pendingRequests s)
  ∧ (∀ k pr, pendingRequests s !! k = Some pr →
       outcome (promise pr) s = None
       ∧ outcome (promise pr) s' = Some (Rejected (mkError "Server closed")))
  ∧ NoDup (settled s').*1
  ∧ client (step s SocketClose) = None
  ∧ pendingRequests (step s SocketClose) = pendingRequests s
  ∧ timers (step s SocketClose) = timers s
  ∧ settled (step s SocketClose) = settled s.
Proof.
  intros Hreach. apply Inv_reachable in Hreach as HI. cbv zeta. cbn [step].
  pose proof (Inv_close s HI) as HI'. rewrite close_state in * by done. cbn.
  repeat split; try done.
  - unfold rejections. by rewrite length_fmap, length_map_to_list.
  - destruct (inv_pending _ HI k pr H) as (n & c & -> & -> & _ & Hn).
    apply outcome_unsettled. by apply (armed_unsettled s n _ HI Hn).
  - destruct (inv_pending _ HI k pr H) as (n & c & -> & -> & _ & Hn). cbn.
    pose proof (armed_unsettled s n _ HI Hn) as Hnew.
    unfold outcome. cbn. rewrite filter_app, filter_unsettled by done. cbn.
    apply head_rejections.
    + unfold rejections. by apply Forall_fmap, Forall_true.
    + unfold rejections. rewrite <- list_fmap_compose.
      apply list_elem_of_fmap. exists (request_name n, mkPending n n).
      split; [done |]. by apply elem_of_map_to_list.
  - apply (inv_once _ HI').
Qed.

(** C4: without an open client connection [sendCommand] fails at once with
    the not-connected error and leaves the whole state — pending table and
    request counter included — as it was. *)
Theorem sendCommand_not_connected c tx s :
  isConnected s = false →
  sendCommand c tx s = (Threw (mkError "No game client connected"), s).
Proof. intros Hc. unfold sendCommand. by rewrite Hc. Qed.

Lemma lastSceneState_step s e :
  lastSceneState (step s e)
  = match e with
    | Message m => if has_prop "data" m then m else lastSceneState s
    | _ => lastSceneState s
    end.
Proof.
  destruct e as [| rs | m | | c tx | h |]; cbn [step]; try done.
  - by destruct (client s).
  - unfold handleMessage. destruct (has_prop "data" m);
      destruct (message_requestId m) as [[| | | | | k | |] |]; cbn; try done;
      destruct (pendingRequests s !! k); done.
  - unfold sendCommand. destruct (isConnected s); [| done]. by destruct tx.
  - unfold fire. destruct (timers s !! h); [| done].
    unfold on_timeout. by destruct (falls_back _).
  - unfold close. by rewrite close_loop.
Qed.

(** C8, as the code has it: after any sequence of events the cache holds the
    latest inbound message that is an object with a [data] property, whether
    or not that message also carries a [requestId]; a message without
    [data], and every other event, leaves the cache alone. *)
Theorem cache_holds_latest_data_message s events :
  lastSceneState (foldl step s events)
  = default (lastSceneState s)
            (last (filter (λ m, has_prop "data" m = true) (inbound events))).
Proof.
  revert s. induction events as [| e events IH]; intros s; [done |].
  cbn [foldl]. rewrite IH, lastSceneState_step.
  destruct e as [| rs | m | | c tx | h |]; try done.
  unfold inbound. cbn [omap list_omap]. fold (inbound events).
  destruct (has_prop "data" m) eqn:Hd.
  - rewrite filter_cons_True by done. rewrite last_cons.
    by destruct (last _).
  - rewrite filter_cons_False by congruence. done.
Qed.

(** C10: when the transmission throws, the caller's promise is rejected with
    that error and the registration is undone: the pending table and the
    armed timers are what they were before the call, the request's
    identifier and timer are absent, and nothing was sent. *)
Theorem failed_transmission_leaves_no_entry c e s :
  reachable s → isConnected s = true →
  let n := (requestId s + 1)%N in
  let s' := (sendCommand c (Throws e) s).2 in
  (sendCommand c (Throws e) s).1 = Awaiting n
  ∧ pendingRequests s' = pendingRequests s
  ∧ timers s' = timers s
  ∧ pendingRequests s' !! request_name n = None
  ∧ timers s' !! n = None
  ∧ outcome n s' = Some (Rejected e)
  ∧ settled s' = (settled s ++ [(n, Rejected e)])%list
  ∧ outbox s' = outbox s.
Proof.
  intros Hreach Hc. apply Inv_reachable in Hreach as HI. cbn.
  rewrite sendCommand_throws by done. cbn.
  pose proof (timers_fresh s (requestId s + 1) HI ltac:(lia)) as Ht.
  pose proof (pending_fresh s (requestId s + 1) HI ltac:(lia)) as Hp.
  repeat split; try done.
  apply (outcome_settle_new _ _ (set_requestId (requestId s + 1) s)). cbn.
  intros Hin. destruct (inv_settled _ HI _ Hin). lia.
Qed.

Lemma response_resolves_its_request_witness :
  outcome 2 (handleMessage demo_answer two_in_flight)
    = Some (Fulfilled (VObj [("success", VBool true); ("data", VArr [])]))
  ∧ pendingRequests (handleMessage demo_answer two_in_flight) !! "req_2" = None
  ∧ pendingRequests (handleMessage demo_answer two_in_flight) !! "req_1"
    = Some (mkPending 1 1).
Proof.
  assert (Hreach : reachable two_in_flight) by (by eexists).
  destruct (response_resolves_its_request two_in_flight demo_answer Hreach)
    as [Hhit _].
  destruct (Hhit "req_2" (mkPending 2 2))
    as (_ & _ & Ho & _ & Hp & _ & Hother & _);
    [reflexivity | vm_compute; reflexivity |].
  split; [exact Ho |]. split.
  - rewrite Hp. apply lookup_delete_eq.
  - rewrite Hother by done. vm_compute. reflexivity.
Defined.

Lemma deadline_without_response_witness :
  outcome 1 (fire 1 two_in_flight) = Some (Rejected (mkError "Command timeout"))
  ∧ outcome 2 (fire 2 two_in_flight) = Some (Fulfilled VNull).
Proof.
  assert (Hreach : reachable (run [Connection])) by (by eexists).
  assert (Hreach' : reachable (run [Connection; SendCommand demo_move Sent]))
    by (by eexists).
  split.
  - apply (deadline_without_response (run [Connection]) demo_move
             [SendCommand demo_query Sent] Hreach eq_refl);
      [vm_compute; by eexists | done | done].
  - apply (deadline_without_response (run [Connection; SendCommand demo_move Sent])
             demo_query [] Hreach' eq_refl);
      [vm_compute; by eexists |]. by left.
Defined.

(** Every step only adds to the log of settlements. *)
Lemma settled_grows s e : ∃ more, settled (step s e) = (settled s ++ more)%list.
Proof.
  destruct e as [| rs | m | | c tx | h |]; cbn [step].
  - exists []. by rewrite app_nil_r.
  - exists []. rewrite app_nil_r. by destruct (client s).
  - unfold handleMessage. destruct (has_prop "data" m);
      destruct (message_requestId m) as [[| | | | | k | |] |]; cbn;
      try (exists []; by rewrite app_nil_r);
      (destruct (pendingRequests s !! k); cbn;
       [by eexists | exists []; by rewrite app_nil_r]).
  - exists []. by rewrite app_nil_r.
  - unfold sendCommand. destruct (isConnected s); cbn;
      [| exists []; by rewrite app_nil_r].
    destruct tx; cbn; [exists []; by rewrite app_nil_r | by eexists].
  - unfold fire. destruct (timers s !! h); [| exists []; by rewrite app_nil_r].
    unfold on_timeout. destruct (falls_back _); cbn; by eexists.
  - unfold close. rewrite close_loop. cbn. by eexists.
Qed.

(** A settled promise stays as it was settled, whatever comes later. *)
Lemma outcome_sticky p o s e : outcome p s = Some o → outcome p (step s e) = Some o.
Proof.
  unfold outcome. destruct (settled_grows s e) as [more ->].
  rewrite filter_app. by destruct (filter _ (settled s)).
Qed.

Lemma send_all_state commands s :
  Inv s → isConnected s = true →
  let s' := send_all s commands in
  Inv s' ∧ isConnected s' = true
  ∧ requestId s' = (requestId s + N.of_nat (length commands))%N
  ∧ (∀ n, (requestId s < n <= requestId s')%N →
          pendingRequests s' !! request_name n = Some (mkPending n n)).
Proof.
  revert s. induction commands as [| c commands IH]; intros s HI Hc; cbn zeta.
  - cbn. split; [done |]. split; [done |]. split; [lia |]. intros n Hn. lia.
  - unfold send_all. cbn [foldl length].
    fold (send_all (sendCommand c Sent s).2 commands).
    destruct (sendCommand_sent c s Hc) as (_ & Hid & Hp & _).
    pose proof (Inv_sendCommand c Sent s HI) as HI1.
    assert (Hc1 : isConnected (sendCommand c Sent s).2 = true)
      by (unfold sendCommand; rewrite Hc; exact Hc).
    destruct (IH _ HI1 Hc1) as (HI' & Hc' & Hid' & Hpend).
    cbn zeta in *. split; [done |]. split; [done |]. split.
    + rewrite Hid', Hid. lia.
    + intros n [Hlo Hhi].
      destruct (decide (n = requestId s + 1)%N) as [-> | Hne].
      * clear Hpend IH.
        assert (Hkeep : ∀ cs t, Inv t →
                  (requestId s + 1 <= requestId t)%N →
                  pendingRequests t !! request_name (requestId s + 1)
                    = Some (mkPending (requestId s + 1) (requestId s + 1)) →
                  isConnected t = true →
                  pendingRequests (send_all t cs) !! request_name (requestId s + 1)
                    = Some (mkPending (requestId s + 1) (requestId s + 1))).
        { clear. induction cs as [| c cs IH]; intros t HI Hle Hp Hc; [done |].
          unfold send_all. cbn [foldl]. fold (send_all (sendCommand c Sent t).2 cs).
          destruct (sendCommand_sent c t Hc) as (_ & Hid & Hp' & _).
          cbn zeta in *. apply IH.
          - by apply Inv_sendCommand.
          - rewrite Hid. lia.
          - rewrite Hp'. rewrite lookup_insert_ne; [done |].
            intros E. apply request_name_inj in E. lia.
          - unfold sendCommand. rewrite Hc. exact Hc. }
        apply Hkeep; try done.
        -- rewrite Hid. lia.
        -- rewrite Hp. apply lookup_insert_eq.
      * apply Hpend. rewrite Hid. lia.
Qed.

(** The requests of a run are answered in any order, each answer once:
    every answered request is fulfilled with the fields of its own
    answer. *)
Lemma receive_all_outcomes answers s :
  reachable s → NoDup answers.*1 →
  (∀ n, n ∈ answers.*1 →
        pendingRequests s !! request_name n = Some (mkPending n n)) →
  reachable (receive_all s answers)
  ∧ ∀ a, a ∈ answers →
      outcome a.1 (receive_all s answers)
      = Some (Fulfilled (VObj (obj_remove "requestId" a.2))).
Proof.
  revert s. induction answers as [| a answers IH]; intros s Hreach Hnd Hpend.
  - split; [done |]. intros a Ha. by apply elem_of_nil in Ha.
  - rewrite fmap_cons in Hnd. apply NoDup_cons in Hnd as [Hfirst Hnd].
    unfold receive_all. cbn [foldl].
    fold (receive_all (handleMessage (response_for a) s) answers).
    destruct (handleMessage_hit s (response_for a) (request_name a.1)
                (mkPending a.1 a.1) (Inv_reachable s Hreach))
      as (_ & _ & Hout & _ & Hp & _ & Hother & _).
    { done. }
    { apply Hpend. rewrite fmap_cons. apply elem_of_cons. by left. }
    cbn [promise] in *.
    assert (Hreach' : reachable (handleMessage (response_for a) s))
      by apply (reachable_step s (Message (response_for a)) Hreach).
    destruct (IH (handleMessage (response_for a) s) Hreach' Hnd) as [Hr Hrest].
    { intros n Hn. rewrite Hother.
      - apply Hpend. rewrite fmap_cons. apply elem_of_cons. by right.
      - intros E. apply request_name_inj in E. by subst. }
    split; [done |]. intros a' Ha'. apply elem_of_cons in Ha' as [-> | Ha'].
    + clear IH Hrest. revert Hreach' Hout.
      generalize (handleMessage (response_for a) s). clear.
      induction answers as [| x answers IH]; intros t Hreach Hout; [done |].
      unfold receive_all. cbn [foldl].
      fold (receive_all (handleMessage (response_for x) t) answers).
      apply IH.
      * apply (reachable_step t (Message (response_for x)) Hreach).
      * apply (outcome_sticky _ _ t (Message (response_for x)) Hout).
    + by apply Hrest.
Qed.

(** X1: responses may come in any order.  N requests are sent from a
    connected state and answered in an arbitrary order (any list of answers to distinct requests among them):
    each answered request is fulfilled with the fields of the answer that
    carries its identifier. *)
Corollary responses_in_any_order s commands answers :
  reachable s → isConnected s = true →
  NoDup answers.*1 →
  (∀ n, n ∈ answers.*1 →
        (requestId s < n <= requestId s + N.of_nat (length commands))%N) →
  ∀ a, a ∈ answers →
    outcome a.1 (receive_all (send_all s commands) answers)
    = Some (Fulfilled (VObj (obj_remove "requestId" a.2))).
Proof.
  intros Hreach Hc Hnd Hrange.
  destruct (send_all_state commands s (Inv_reachable s Hreach) Hc)
    as (_ & _ & Hid & Hpend). cbn zeta in *.
  assert (Hreach' : reachable (send_all s commands)).
  { clear -Hreach. revert s Hreach.
    induction commands as [| c commands IH]; intros s Hreach; [done |].
    unfold send_all. cbn [foldl]. apply IH.
    apply (reachable_step s (SendCommand c Sent) Hreach). }
  apply receive_all_outcomes; [done | done |].
  intros n Hn. apply Hpend. rewrite Hid. by apply Hrange.
Qed.

(** The client goes away while both requests are in flight: nothing is
    rejected and the table keeps its two entries. *)
Lemma socket_close_rejects_nothing :
  size (pendingRequests two_in_flight) = 2
  ∧ isConnected (step two_in_flight SocketClose) = false
  ∧ size (pendingRequests (step two_in_flight SocketClose)) = 2
  ∧ settled (step two_in_flight SocketClose) = []
  ∧ pendingRequests (step two_in_flight SocketClose) ≠ ∅.
Proof.
  repeat split; try (vm_compute; reflexivity).
  intros H. apply (f_equal size) in H. vm_compute in H. discriminate.
Qed.

Lemma close_rejects_every_pending_request_witness :
  pendingRequests (close two_in_flight) = ∅
  ∧ timers (close two_in_flight) = ∅
  ∧ length (rejections two_in_flight) = 2
  ∧ outcome 1 (close two_in_flight) = Some (Rejected (mkError "Server closed"))
  ∧ outcome 2 (close two_in_flight) = Some (Rejected (mkError "Server closed")).
Proof.
  assert (Hreach : reachable two_in_flight) by (by eexists).
  destruct (close_rejects_every_pending_request two_in_flight Hreach)
    as (Hp & Ht & _ & Hlen & Hout & _).
  split; [exact Hp |]. split; [exact Ht |]. split; [| split].
  - rewrite Hlen. vm_compute. reflexivity.
  - apply (Hout "req_1" (mkPending 1 1)). vm_compute. reflexivity.
  - apply (Hout "req_2" (mkPending 2 2)). vm_compute. reflexivity.
Defined.

Lemma sendCommand_not_connected_witness :
  sendCommand demo_move Sent initial
  = (Threw (mkError "No game client connected"), initial).
Proof. apply sendCommand_not_connected. reflexivity. Defined.

(** A state push, then the answer to a scene query: the answer carries a
    [requestId] and a [data] field, and replaces the push in the cache. *)
Lemma response_overwrites_cache :
  let before := run [Connection; Message demo_push; SendCommand demo_query Sent] in
  lastSceneState before = demo_push
  ∧ message_requestId demo_scene_answer = Some (VStr "req_1")
  ∧ lastSceneState (step before (Message demo_scene_answer)) = demo_scene_answer
  ∧ lastSceneState (step before (Message demo_scene_answer)) ≠ lastSceneState before.
Proof. repeat split; try reflexivity. discriminate. Qed.

Lemma failed_transmission_leaves_no_entry_witness :
  let s' := (sendCommand demo_query (Throws (mkError "socket gone")) two_in_flight).2 in
  pendingRequests s' = pendingRequests two_in_flight
  ∧ timers s' = timers two_in_flight
  ∧ pendingRequests s' !! "req_3" = None
  ∧ outcome 3 s' = Some (Rejected (mkError "socket gone")).
Proof.
  assert (Hreach : reachable two_in_flight) by (by eexists).
  destruct (failed_transmission_leaves_no_entry demo_query (mkError "socket gone")
              two_in_flight Hreach eq_refl)
    as (_ & Hp & Ht & Hnone & _ & Ho & _).
  split; [exact Hp |]. split; [exact Ht |]. split; [exact Hnone | exact Ho].
Defined.

End BridgeServerFacts.

(** * Properties of the scene-graph operations *)

Module ThreeFacts.
Import Three.

(** Induction over a node with the property known of every child. *)
Lemma Object3D_tree_ind (P : Object3D → Prop) :
  (∀ p cs, Forall P cs → P (Obj p cs)) → ∀ t, P t.
Proof.
  intros step. fix rec 1. intros [p cs]. apply step.
  induction cs as [| c cs IH]; constructor; [apply rec | exact IH].
Qed.

Lemma first_some_None {A B} (f : A → option B) (l : list A) :
  Forall (λ a, f a = None) l → first_some (map f l) = None.
Proof. induction 1 as [| a l Ha _ IH]; cbn; [done |]. by rewrite Ha. Qed.

Lemma first_some_app {A} (l k : list (option A)) :
  first_some (l ++ k) = match first_some l with Some a => Some a | None => first_some k end.
Proof. induction l as [| [a |] l IH]; cbn; done. Qed.

Lemma elem_of_concat_map {A B} (f : A → list B) (l : list A) (b : B) :
  b ∈ concat (map f l) ↔ ∃ a, a ∈ l ∧ b ∈ f a.
Proof.
  induction l as [| a l IH]; cbn.
  - split; [intros H; by apply elem_of_nil in H |].
    intros (a & H & _). by apply elem_of_nil in H.
  - rewrite elem_of_app, IH. split.
    + intros [H | (a' & H1 & H2)].
      * exists a. split; [apply elem_of_cons; by left | done].
      * exists a'. split; [apply elem_of_cons; by right | done].
    + intros (a' & H1 & H2). apply elem_of_cons in H1 as [-> | H1];
        [by left | right; by exists a'].
Qed.

Lemma uid_of_modify u g t :
  (∀ p, uid (g p) = uid p) → uid_of (modify u g t) = uid_of t.
Proof. intros Hg. destruct t as [p cs]. unfold uid_of. cbn. by destruct (Nat.eqb (uid p) u). Qed.

Lemma uids_modify u g t : (∀ p, uid (g p) = uid p) → uids (modify u g t) = uids t.
Proof.
  intros Hg. induction t as [p cs IH] using Object3D_tree_ind. cbn. f_equal.
  - by destruct (Nat.eqb (uid p) u).
  - f_equal. rewrite map_map. induction IH as [| c cs Hc _ IHcs]; cbn; [done |].
    by rewrite Hc, IHcs.
Qed.

(** A field assignment that keeps what the search looks at does not change
    which node the search returns. *)
Lemma getObjectBy_modify f u g t :
  (∀ p, f (g p) = f p) →
  getObjectBy f (modify u g t) = modify u g <$> getObjectBy f t.
Proof.
  intros Hf. induction t as [p cs IH] using Object3D_tree_ind. cbn.
  replace (f (if Nat.eqb (uid p) u then g p else p)) with (f p)
    by (by destruct (Nat.eqb (uid p) u)).
  destruct (f p); [done |]. rewrite map_map.
  induction IH as [| c cs Hc _ IHcs]; cbn; [done |].
  rewrite Hc. by destruct (getObjectBy f c).
Qed.

Lemma find_node_uid u t s : find_node u t = Some s → uid_of s = u.
Proof.
  revert s. induction t as [p cs IH] using Object3D_tree_ind. intros s. cbn.
  destruct (Nat.eqb (uid p) u) eqn:E.
  - intros [= <-]. by apply Nat.eqb_eq in E.
  - induction IH as [| c cs Hc _ IHcs]; cbn; [done |].
    destruct (find_node u c) eqn:Hfind; [| done]. intros [= <-]. by apply Hc.
Qed.

Lemma find_node_absent u t : u ∉ uids t → find_node u t = None.
Proof.
  induction t as [p cs IH] using Object3D_tree_ind. cbn. intros Hnot.
  apply not_elem_of_cons in Hnot as [Hne Hnot].
  destruct (Nat.eqb (uid p) u) eqn:E; [apply Nat.eqb_eq in E; congruence |].
  apply first_some_None. apply Forall_forall. intros c Hc.
  rewrite Forall_forall in IH. apply IH; [done |].
  intros Hin. apply Hnot. apply elem_of_concat_map. by exists c.
Qed.

Lemma find_node_present u t : u ∈ uids t → is_Some (find_node u t).
Proof.
  induction t as [p cs IH] using Object3D_tree_ind. cbn. intros Hin.
  destruct (Nat.eqb (uid p) u) eqn:E; [by eexists |].
  apply elem_of_cons in Hin as [-> | Hin]; [by rewrite Nat.eqb_refl in E |].
  induction IH as [| c cs Hc _ IHcs]; cbn in *; [by apply elem_of_nil in Hin |].
  apply elem_of_app in Hin as [Hin | Hin].
  - destruct (Hc Hin) as [s ->]. by eexists.
  - destruct (find_node u c); [by eexists | by apply IHcs].
Qed.

(** A handle that no proper descendant carries has no parent in the tree. *)
Lemma parent_in_absent u t :
  u ∉ concat (map uids (children_of t)) → parent_in u t = None.
Proof.
  induction t as [p cs IH] using Object3D_tree_ind. cbn. intros Hnot.
  assert (Hcs : ∀ c, c ∈ cs → u ∉ uids c).
  { intros c Hc Hin. apply Hnot. apply elem_of_concat_map. by exists c. }
  replace (existsb (λ c, Nat.eqb (uid_of c) u) cs) with false.
  - apply first_some_None. apply Forall_forall. intros c Hc.
    rewrite Forall_forall in IH. apply IH; [done |].
    intros Hin. apply (Hcs c Hc). destruct c as [q ds]. cbn in *.
    apply elem_of_cons. by right.
  - symmetry. apply not_true_is_false. intros Hex.
    apply existsb_exists in Hex as (c & Hc & E). apply Nat.eqb_eq in E.
    apply list_elem_of_In in Hc. apply (Hcs c Hc). destruct c as [q ds].
    unfold uid_of in E. cbn in *. subst. apply elem_of_cons. by left.
Qed.

Lemma parent_in_absent_tree u t : u ∉ uids t → parent_in u t = None.
Proof.
  intros Hnot. apply parent_in_absent. destruct t as [p cs]. cbn in *.
  by apply not_elem_of_cons in Hnot as [_ ?].
Qed.

Lemma parent_in_uids u t p : parent_in u t = Some p → p ∈ uids t.
Proof.
  induction t as [q cs IH] using Object3D_tree_ind. cbn.
  destruct (existsb _ cs).
  - intros [= <-]. apply elem_of_cons. by left.
  - intros H. apply elem_of_cons. right.
    induction IH as [| c cs Hc _ IHcs]; cbn in *; [done |].
    apply elem_of_app. destruct (parent_in u c) eqn:Hpc.
    + left. apply Hc. congruence.
    + right. by apply IHcs.
Qed.

Lemma uid_of_in_uids t : uid_of t ∈ uids t.
Proof. destruct t as [p cs]. apply elem_of_cons. by left. Qed.

Lemma child_uids_in p cs c u : c ∈ cs → u ∈ uids c → u ∈ uids (Obj p cs).
Proof.
  intros Hc Hu. cbn. apply elem_of_cons. right.
  apply elem_of_concat_map. by exists c.
Qed.

(** [push] on a node that is not in the tree leaves the tree alone. *)
Lemma graft_absent u child t : u ∉ uids t → graft u child t = t.
Proof.
  induction t as [p cs IH] using Object3D_tree_ind. cbn. intros Hnot.
  apply not_elem_of_cons in Hnot as [Hne Hnot].
  replace (Nat.eqb (uid p) u) with false
    by (symmetry; apply Nat.eqb_neq; congruence).
  rewrite app_nil_r. f_equal.
  induction IH as [| c cs Hc _ IHcs]; cbn in *; [done |].
  apply not_elem_of_app in Hnot as [H1 H2]. by rewrite Hc, IHcs.
Qed.

Lemma uid_of_graft u child t : uid_of (graft u child t) = uid_of t.
Proof. by destruct t. Qed.

Lemma uid_of_prune u t : uid_of (prune u t) = uid_of t.
Proof. by destruct t. Qed.

Lemma in_children_uids u (cs : list Object3D) :
  u ∈ concat (map uids cs) ↔ Exists (λ c, u ∈ uids c) cs.
Proof.
  rewrite elem_of_concat_map, Exists_exists. done.
Qed.

(** A search that answers [b] in exactly the subtrees marked by [P]. *)
Lemma first_some_marked {A B} (f : A → option B) (P : A → Prop)
    `{∀ a, Decision (P a)} (b : B) (l : list A) :
  Forall (λ a, f a = if decide (P a) then Some b else None) l →
  first_some (map f l) = if decide (Exists P l) then Some b else None.
Proof.
  induction 1 as [| a l Ha _ IH]; cbn.
  - destruct (decide (Exists P [])) as [Hex | _];
      [by apply Exists_nil in Hex | done].
  - rewrite Ha. destruct (decide (P a)) as [HP | HP]; cbn.
    + destruct (decide (Exists P (a :: l))) as [_ | Hno]; [done |].
      exfalso. apply Hno. by left.
    + rewrite IH. destruct (decide (Exists P l)) as [Hex | Hno];
        destruct (decide (Exists P (a :: l))) as [Hex' | Hno']; try done.
      * exfalso. apply Hno'. by right.
      * apply Exists_cons in Hex' as [? | ?]; done.
Qed.

Lemma in_uids_Obj u p cs :
  u ∈ uids (Obj p cs) ↔ uid p = u ∨ Exists (λ c, u ∈ uids c) cs.
Proof.
  cbn. rewrite elem_of_cons, in_children_uids.
  split; (intros [? | ?]; [by left | by right]).
Qed.

(** After [parent.add(child)] the handle of a new child leads to it. *)
Lemma find_node_graft u child t :
  uid_of child ∉ uids t →
  find_node (uid_of child) (graft u child t)
  = if decide (u ∈ uids t) then Some child else None.
Proof.
  induction t as [p cs IH] using Object3D_tree_ind. intros Hnot.
  apply not_elem_of_cons in Hnot as [Hne Hnot]. cbn [graft find_node].
  replace (Nat.eqb (uid p) (uid_of child)) with false
    by (symmetry; apply Nat.eqb_neq; congruence).
  rewrite map_app, first_some_app, map_map.
  rewrite (first_some_marked _ (λ c, u ∈ uids c) child).
  - destruct (decide (Exists _ cs)) as [Hex | Hno].
    + destruct (decide _) as [_ | Hbad]; [done |].
      exfalso. apply Hbad, in_uids_Obj. by right.
    + destruct (Nat.eqb (uid p) u) eqn:E.
      * apply Nat.eqb_eq in E. cbn. destruct child as [q ds].
        unfold uid_of. cbn. rewrite Nat.eqb_refl.
        destruct (decide _) as [_ | Hbad]; [done |].
        exfalso. apply Hbad, in_uids_Obj. by left.
      * apply Nat.eqb_neq in E. cbn.
        destruct (decide _) as [Hin | _]; [| done].
        apply in_uids_Obj in Hin as [? | ?]; done.
  - rewrite Forall_forall in IH. apply Forall_forall. intros c Hc.
    apply IH; [done |]. intros Hin. apply Hnot.
    apply elem_of_concat_map. by exists c.
Qed.

Lemma existsb_roots_graft v u child cs :
  existsb (λ c, Nat.eqb (uid_of c) v) (map (graft u child) cs)
  = existsb (λ c, Nat.eqb (uid_of c) v) cs.
Proof.
  induction cs as [| c cs IH]; cbn; [done |].
  by rewrite uid_of_graft, IH.
Qed.

Lemma existsb_roots_absent v cs :
  v ∉ concat (map uids cs) → existsb (λ c, Nat.eqb (uid_of c) v) cs = false.
Proof.
  intros Hnot. apply not_true_is_false. intros Hex.
  apply existsb_exists in Hex as (c & Hc & E). apply Nat.eqb_eq in E.
  apply Hnot, elem_of_concat_map. exists c.
  split; [by apply list_elem_of_In |]. rewrite <- E. apply uid_of_in_uids.
Qed.

(** After [parent.add(child)] the new child's parent is that node. *)
Lemma parent_in_graft u child t :
  uid_of child ∉ uids t →
  parent_in (uid_of child) (graft u child t)
  = if decide (u ∈ uids t) then Some u else None.
Proof.
  induction t as [p cs IH] using Object3D_tree_ind. intros Hnot.
  apply not_elem_of_cons in Hnot as [Hne Hnot]. cbn [graft parent_in].
  rewrite existsb_app, existsb_roots_graft, existsb_roots_absent by done.
  rewrite map_app, first_some_app, map_map.
  rewrite (first_some_marked _ (λ c, u ∈ uids c) u).
  - destruct (Nat.eqb (uid p) u) eqn:E.
    + apply Nat.eqb_eq in E. cbn. rewrite Nat.eqb_refl. cbn.
      destruct (decide _) as [_ | Hbad]; [by rewrite E |].
      exfalso. apply Hbad, in_uids_Obj. by left.
    + apply Nat.eqb_neq in E. cbn.
      destruct (decide (Exists _ cs)) as [Hex | Hno];
        destruct (decide (u ∈ _)) as [Hin | Hout]; try done.
      * exfalso. apply Hout, in_uids_Obj. by right.
      * apply in_uids_Obj in Hin as [? | ?]; done.
  - rewrite Forall_forall in IH. apply Forall_forall. intros c Hc.
    apply IH; [done |]. intros Hin. apply Hnot.
    apply elem_of_concat_map. by exists c.
Qed.

Lemma filter_roots_absent v (cs : list Object3D) :
  v ∉ concat (map uids cs) → filter (λ c, uid_of c ≠ v) cs = cs.
Proof.
  induction cs as [| c cs IH]; intros Hnot; [done |].
  cbn [map concat] in Hnot. apply not_elem_of_app in Hnot as [H1 H2].
  rewrite filter_cons_True.
  - by rewrite IH.
  - intros E. apply H1. rewrite <- E. apply uid_of_in_uids.
Qed.

(** Removing a child that was just added gives the tree back. *)
Lemma prune_graft u child t :
  uid_of child ∉ uids t → prune (uid_of child) (graft u child t) = t.
Proof.
  induction t as [p cs IH] using Object3D_tree_ind. intros Hnot.
  apply not_elem_of_cons in Hnot as [Hne Hnot]. cbn [graft prune]. f_equal.
  rewrite map_app, filter_app, map_map.
  replace (map (λ c, prune (uid_of child) (graft u child c)) cs) with cs.
  - rewrite filter_roots_absent by done.
    destruct (Nat.eqb (uid p) u); cbn [map]; [| by rewrite app_nil_r].
    rewrite filter_cons_False; [by rewrite filter_nil, app_nil_r |].
    intros Hbad. apply Hbad. apply uid_of_prune.
  - clear Hne. induction IH as [| c cs Hc _ IHcs]; cbn in *; [done |].
    apply not_elem_of_app in Hnot as [H1 H2]. by rewrite Hc, <- IHcs.
Qed.

Lemma existsb_roots_filter v (cs : list Object3D) :
  existsb (λ c, Nat.eqb (uid_of c) v) (filter (λ c, uid_of c ≠ v) cs) = false.
Proof.
  apply not_true_is_false. intros Hex.
  apply existsb_exists in Hex as (c & Hc & E). apply Nat.eqb_eq in E.
  apply list_elem_of_In, list_elem_of_filter in Hc as [Hne _]. done.
Qed.

(** After [parent.remove(node)] the node has no parent in the tree. *)
Lemma parent_in_prune u t : parent_in u (prune u t) = None.
Proof.
  induction t as [p cs IH] using Object3D_tree_ind. cbn [prune parent_in].
  rewrite existsb_roots_filter. apply first_some_None. apply Forall_forall.
  intros c Hc. apply list_elem_of_filter in Hc as [_ Hc].
  apply list_elem_of_In, in_map_iff in Hc as (c0 & <- & Hc0).
  rewrite Forall_forall in IH. apply IH. by apply list_elem_of_In.
Qed.

Lemma clone_Obj n p cs :
  clone n (Obj p cs)
  = let '(n', cs') := clone_children (S n) cs in (n', Obj (set_uid n p) cs').
Proof. reflexivity. Qed.

Lemma props_of_clone n t : props_of (clone n t).2 = set_uid n (props_of t).
Proof.
  destruct t as [p cs]. rewrite clone_Obj. by destruct (clone_children _ _).
Qed.

Lemma uid_of_clone n t : uid_of (clone n t).2 = n.
Proof. unfold uid_of. by rewrite props_of_clone. Qed.

(** The copy's nodes carry the next unused handles, in visiting order. *)
Lemma uids_clone n t :
  (clone n t).1 = n + length (uids t)
  ∧ uids (clone n t).2 = seq n (length (uids t)).
Proof.
  revert n. induction t as [p cs IH] using Object3D_tree_ind. intros n.
  rewrite clone_Obj.
  assert (Hcs : ∀ m,
    (clone_children m cs).1 = m + length (concat (map uids cs))
    ∧ concat (map uids (clone_children m cs).2)
      = seq m (length (concat (map uids cs)))).
  { induction IH as [| c cs Hc _ IHcs]; intros m; cbn.
    - split; [lia | done].
    - destruct (Hc m) as [H1 H2]. destruct (clone m c) as [n1 c'] eqn:Ec.
      destruct (IHcs n1) as [H3 H4].
      destruct (clone_children n1 cs) as [n2 rest'] eqn:Er. cbn in *.
      rewrite length_app. split; [lia |].
      rewrite H2, H4, H1, seq_app. done. }
  destruct (Hcs (S n)) as [H1 H2].
  destruct (clone_children (S n) cs) as [n' cs'] eqn:E. cbn in *.
  split; [lia |]. by rewrite H2.
Qed.

Lemma clone_children_fresh n t :
  n ∉ concat (map uids (children_of (clone n t).2)).
Proof.
  pose proof (uids_clone n t) as [_ H]. destruct (clone n t).2 as [p cs] eqn:E.
  cbn in *. destruct (uids t) as [| u us]; [done |]. cbn in H.
  injection H as _ H. rewrite H. intros Hin. apply elem_of_seq in Hin. lia.
Qed.

(** The handles below a node found in a tree are handles of the tree, in
    the same order. *)
Lemma find_node_sublist u t s : find_node u t = Some s → sublist (uids s) (uids t).
Proof.
  revert s. induction t as [p cs IH] using Object3D_tree_ind. intros s. cbn.
  destruct (Nat.eqb (uid p) u).
  - by intros [= <-].
  - intros H. apply sublist_cons.
    induction IH as [| c cs Hc _ IHcs]; cbn in *; [done |].
    destruct (find_node u c) eqn:Hfind.
    + injection H as <-. apply sublist_inserts_r. by apply Hc.
    + apply sublist_inserts_l. by apply IHcs.
Qed.

Lemma uids_nodes t : uids t = map uid (nodes t).
Proof.
  induction t as [p cs IH] using Object3D_tree_ind. cbn. f_equal.
  induction IH as [| c cs Hc _ IHcs]; cbn; [done |].
  by rewrite map_app, Hc, IHcs.
Qed.

Lemma getObjectBy_None f t :
  (∀ p, p ∈ nodes t → f p = false) → getObjectBy f t = None.
Proof.
  induction t as [p cs IH] using Object3D_tree_ind. cbn. intros Hall.
  rewrite (Hall p) by (apply elem_of_cons; by left).
  apply first_some_None. apply Forall_forall. intros c Hc.
  rewrite Forall_forall in IH. apply IH; [done |].
  intros q Hq. apply Hall. apply elem_of_cons. right.
  apply elem_of_concat_map. by exists c.
Qed.

(** What is left of a tree after [remove]: its root and nodes of the tree
    that do not carry the removed handle. *)
Lemma nodes_prune u t q :
  q ∈ nodes (prune u t) → q ∈ nodes t ∧ (uid q ≠ u ∨ q = props_of t).
Proof.
  revert q. induction t as [p cs IH] using Object3D_tree_ind. intros q.
  cbn [prune nodes]. intros Hq. apply elem_of_cons in Hq as [-> | Hq].
  - split; [apply elem_of_cons; by left | by right].
  - apply elem_of_concat_map in Hq as (c' & Hc' & Hq).
    apply list_elem_of_filter in Hc' as [Hroot Hc'].
    apply list_elem_of_In, in_map_iff in Hc' as (c & <- & Hc).
    apply list_elem_of_In in Hc. rewrite Forall_forall in IH.
    destruct (IH c Hc q Hq) as [Hin Hwhich]. split.
    + apply elem_of_cons. right. apply elem_of_concat_map. by exists c.
    + left. destruct Hwhich as [? | ->]; [done |].
      rewrite uid_of_prune in Hroot. done.
Qed.

(** A handle carried below the root has a parent in the tree. *)
Lemma parent_in_present u t :
  u ∈ concat (map uids (children_of t)) → is_Some (parent_in u t).
Proof.
  induction t as [p cs IH] using Object3D_tree_ind. cbn. intros Hin.
  destruct (existsb _ cs) eqn:E; [by eexists |].
  induction IH as [| c cs Hc _ IHcs]; cbn in *; [by apply elem_of_nil in Hin |].
  apply orb_false_iff in E as [E1 E2]. apply Nat.eqb_neq in E1.
  apply elem_of_app in Hin as [Hin | Hin].
  - destruct c as [q ds]. unfold uid_of in E1. cbn in Hin, E1.
    apply elem_of_cons in Hin as [-> | Hin]; [done |].
    destruct (Hc Hin) as [r ->]. by eexists.
  - destruct (parent_in u c); [by eexists | by apply IHcs].
Qed.

Lemma find_node_None u t : find_node u t = None → u ∉ uids t.
Proof.
  intros Hnone Hin. destruct (find_node_present u t Hin) as [s Hs]. congruence.
Qed.

Lemma prune_absent u t : u ∉ uids t → prune u t = t.
Proof.
  induction t as [p cs IH] using Object3D_tree_ind. intros Hnot.
  apply not_elem_of_cons in Hnot as [Hne Hnot]. cbn [prune]. f_equal.
  replace (map (prune u) cs) with cs.
  - by apply filter_roots_absent.
  - induction IH as [| c cs Hc _ IHcs]; cbn in *; [done |].
    apply not_elem_of_app in Hnot as [H1 H2]. by rewrite Hc, <- IHcs.
Qed.

(** In a forest where each handle occurs once, [add] puts the handles of
    the new child next to those that were there. *)
Lemma uids_grafted u child (ts : list Object3D) :
  Forall (λ t, NoDup (uids t) → u ∈ uids t →
               uids (graft u child t) ≡ₚ uids t ++ uids child) ts →
  NoDup (concat (map uids ts)) → u ∈ concat (map uids ts) →
  concat (map uids (map (graft u child) ts)) ≡ₚ concat (map uids ts) ++ uids child.
Proof.
  induction 1 as [| t ts Ht _ IH]; cbn; intros Hnd Hin.
  - by apply elem_of_nil in Hin.
  - apply NoDup_app in Hnd as (Hnd1 & Hdisj & Hnd2).
    destruct (decide (u ∈ uids t)) as [Hu | Hu].
    + rewrite Ht by done.
      replace (map (graft u child) ts) with ts.
      * rewrite <- !app_assoc. f_equiv. apply Permutation_app_comm.
      * specialize (Hdisj u Hu). clear -Hdisj.
        induction ts as [| t' ts IH]; cbn in *; [done |].
        apply not_elem_of_app in Hdisj as [H1 H2].
        by rewrite graft_absent, <- IH.
    + rewrite graft_absent by done.
      apply elem_of_app in Hin as [Hin | Hin]; [done |].
      rewrite IH by done. by rewrite <- app_assoc.
Qed.

Lemma uids_graft u child t :
  NoDup (uids t) → u ∈ uids t → uids (graft u child t) ≡ₚ uids t ++ uids child.
Proof.
  induction t as [p cs IH] using Object3D_tree_ind. intros Hnd Hin.
  cbn [graft uids]. cbn [uids] in Hnd. apply NoDup_cons in Hnd as [Hroot Hnd].
  rewrite map_app, concat_app. destruct (Nat.eqb (uid p) u) eqn:E.
  - apply Nat.eqb_eq in E. subst u.
    replace (map (graft (uid p) child) cs) with cs.
    + cbn. by rewrite app_nil_r.
    + clear -Hroot. induction cs as [| c cs IH]; cbn in *; [done |].
      apply not_elem_of_app in Hroot as [H1 H2].
      by rewrite graft_absent, <- IH.
  - apply Nat.eqb_neq in E. cbn. rewrite app_nil_r.
    apply in_uids_Obj in Hin as [? | Hin]; [done |].
    apply in_children_uids in Hin. f_equiv. by apply uids_grafted.
Qed.

(** In a forest where each handle occurs once, [remove] takes away the
    handles of the removed subtree and no others. *)
Lemma uids_pruned u s (cs : list Object3D) :
  Forall (λ t, ∀ s, NoDup (uids t) → find_node u t = Some s → uid_of t ≠ u →
                    uids (prune u t) ++ uids s ≡ₚ uids t) cs →
  NoDup (concat (map uids cs)) →
  first_some (map (find_node u) cs) = Some s →
  concat (map uids (filter (λ c, uid_of c ≠ u) (map (prune u) cs))) ++ uids s
  ≡ₚ concat (map uids cs).
Proof.
  induction 1 as [| c cs Hc _ IH]; cbn [map concat first_some]; intros Hnd Hfind.
  - done.
  - apply NoDup_app in Hnd as (Hnd1 & Hdisj & Hnd2).
    destruct (find_node u c) as [s' |] eqn:Hs.
    + injection Hfind as ->.
      assert (Hu : u ∈ uids c).
      { destruct (decide (u ∈ uids c)) as [? | Hno]; [done |].
        apply find_node_absent in Hno. congruence. }
      assert (Hrest : map (prune u) cs = cs ∧ filter (λ c, uid_of c ≠ u) cs = cs).
      { specialize (Hdisj u Hu). split.
        - clear -Hdisj. induction cs as [| c' cs IH]; cbn in *; [done |].
          apply not_elem_of_app in Hdisj as [H1 H2].
          rewrite prune_absent by done. f_equal. by apply IH.
        - by apply filter_roots_absent. }
      destruct Hrest as [Hr1 Hr2]. rewrite Hr1.
      destruct (decide (uid_of c = u)) as [Hroot | Hroot].
      * rewrite filter_cons_False by (rewrite uid_of_prune; tauto).
        rewrite Hr2. destruct c as [q ds]. unfold uid_of in Hroot. cbn in Hroot.
        cbn in Hs. rewrite Hroot, Nat.eqb_refl in Hs. injection Hs as <-.
        apply Permutation_app_comm.
      * rewrite filter_cons_True by (by rewrite uid_of_prune).
        rewrite Hr2. cbn [map concat].
        etransitivity;
          [| apply Permutation_app_tail, (Hc s Hnd1 eq_refl Hroot)].
        rewrite <- !app_assoc. f_equiv. apply Permutation_app_comm.
    + pose proof (find_node_None u c Hs) as Hu.
      rewrite prune_absent by done.
      rewrite filter_cons_True by (intros E; apply Hu; rewrite <- E; apply uid_of_in_uids).
      cbn [map concat]. rewrite <- app_assoc. f_equiv. by apply IH.
Qed.

Lemma uids_prune u t s :
  NoDup (uids t) → find_node u t = Some s → uid_of t ≠ u →
  uids (prune u t) ++ uids s ≡ₚ uids t.
Proof.
  revert s. induction t as [p cs IH] using Object3D_tree_ind.
  intros s Hnd Hfind Hroot. unfold uid_of in Hroot. cbn in Hroot.
  cbn [prune uids]. cbn [uids] in Hnd. apply NoDup_cons in Hnd as [_ Hnd].
  cbn in Hfind.
  replace (Nat.eqb (uid p) u) with false in Hfind
    by (symmetry; by apply Nat.eqb_neq).
  cbn. f_equiv. by apply uids_pruned.
Qed.

(** The handles of a forest: its roots and what hangs below them. *)
Lemma uids_roots_below (ts : list Object3D) :
  concat (map uids ts)
  ≡ₚ map uid_of ts ++ concat (map (λ t, concat (map uids (children_of t))) ts).
Proof.
  induction ts as [| [p cs] ts IH]; cbn; [done |].
  f_equiv. rewrite IH. unfold uid_of. apply Permutation_app_swap_app.
Qed.

Lemma parent_in_below u t p :
  parent_in u t = Some p → u ∈ concat (map uids (children_of t)).
Proof.
  intros Hp. destruct (decide (u ∈ concat (map uids (children_of t)))) as [? | Hno];
    [done |].
  apply parent_in_absent in Hno. congruence.
Qed.

(** A node that has a parent is the root of no tree of a forest in which
    each handle occurs once. *)
Lemma child_is_no_root u p (ts : list Object3D) :
  NoDup (concat (map uids ts)) →
  first_some (map (parent_in u) ts) = Some p →
  Forall (λ t, uid_of t ≠ u) ts.
Proof.
  intros Hnd Hp. rewrite uids_roots_below in Hnd.
  apply NoDup_app in Hnd as (_ & Hdisj & _).
  assert (Hbelow : u ∈ concat (map (λ t, concat (map uids (children_of t))) ts)).
  { clear Hdisj. induction ts as [| t ts IH]; cbn in *; [done |].
    apply elem_of_app. destruct (parent_in u t) eqn:E.
    - left. by apply (parent_in_below u t n).
    - right. by apply IH. }
  apply Forall_forall. intros t Ht E. apply (Hdisj u); [| done].
  rewrite <- E. apply list_elem_of_In, in_map. by apply list_elem_of_In.
Qed.

Lemma filter_roots_kept u (ts : list Object3D) :
  Forall (λ t, uid_of t ≠ u) ts → filter (λ c, uid_of c ≠ u) ts = ts.
Proof.
  induction 1 as [| t ts Ht _ IH]; [done |].
  rewrite filter_cons_True by done. by rewrite IH.
Qed.

End ThreeFacts.

(** * Properties of the runtime side *)

Module MCPBridgeFacts.
Import Js Three MCPBridge ThreeFacts.

Section Interpreter.
Context `{Externals}.

(** Whatever the handler did, [result] holds a value when the [catch] is
    over: the handler's, or the failure built from the exception. *)
Lemma result_of_dispatch clk command b :
  result_of clk command b
  = match dispatch clk command b with
    | (Returns r, b1) => (Returns r, b1)
    | (Throws e, b1) => (Returns (failure (message e)), b1)
    end.
Proof.
  unfold result_of, try_catch. by destruct (dispatch clk command b) as [[r | e] b1].
Qed.

Lemma sendResponse_returns requestId data b :
  sendResponse requestId data b
  = (Returns tt,
     if is_open (ws b) && truthy requestId
     then set_sent (sent b ++ [VObj (obj_spread [("requestId", val_of_string requestId)]
                                                (payload_of data))])%list b
     else b).
Proof. unfold sendResponse. by destruct (is_open (ws b) && truthy requestId). Qed.

(** An action outside the table falls through every [case]. *)
Lemma dispatch_unknown clk command :
  c_action command ∉ actions →
  dispatch clk command = ret (failure ("Unknown action: " +:+ c_action command)).
Proof.
  intros Hnot. unfold dispatch.
  repeat match goal with
  | |- context [String.eqb ?a ?l] =>
      destruct (String.eqb_spec a l) as [E | _];
        [exfalso; apply Hnot; rewrite E; unfold actions;
         repeat (first [apply list_elem_of_here | apply list_elem_of_further]) |]
  end.
  done.
Qed.

(** C5, as the code has it: [handleCommand] returns normally for every
    command; an exception of the handler becomes the failure result built
    from its message; an action outside the dispatch table yields the
    unknown-action failure and leaves the scene alone.  The response is
    transmitted exactly when the socket is open and the envelope carried a
    non-empty [requestId], and then it carries that [requestId]; otherwise
    nothing is sent. *)
Theorem handleCommand_never_raises clk command b :
  (∃ b', handleCommand clk command b = (Returns tt, b'))
  ∧ (∀ e b1, dispatch clk command b = (Throws e, b1) →
       result_of clk command b = (Returns (failure (message e)), b1))
  ∧ (c_action command ∉ actions →
       let error := "Unknown action: " +:+ c_action command in
       result_of clk command b = (Returns (failure error), b)
       ∧ (∀ rid, c_requestId command = Some rid → rid ≠ "" →
            is_open (ws b) = true →
            handleCommand clk command b
            = (Returns tt,
               set_sent (sent b ++ [VObj [("requestId", VStr rid);
                                          ("success", VBool false);
                                          ("error", VStr error)]])%list b))
       ∧ (is_open (ws b) = false ∨ truthy (c_requestId command) = false →
            handleCommand clk command b = (Returns tt, b))).
Proof.
  split; [| split].
  - unfold handleCommand, bind. rewrite result_of_dispatch.
    destruct (dispatch clk command b) as [[r | e] b1];
      rewrite sendResponse_returns; by eexists.
  - intros e b1 Hd. by rewrite result_of_dispatch, Hd.
  - intros Hnot. cbn zeta.
    assert (Hr : result_of clk command b
                 = (Returns (failure ("Unknown action: " +:+ c_action command)), b)).
    { rewrite result_of_dispatch, dispatch_unknown by done. done. }
    split; [done |]. split.
    + intros rid Hrid Hne Hopen. unfold handleCommand, bind.
      rewrite Hr, sendResponse_returns, Hrid, Hopen. cbn.
      destruct (String.eqb_spec rid "") as [-> | _]; done.
    + intros Hoff. unfold handleCommand, bind.
      rewrite Hr, sendResponse_returns.
      destruct Hoff as [-> | ->]; [done |]. by rewrite andb_false_r.
Qed.

End Interpreter.

Section Tween.
Context `{Externals}.

Lemma props_of_modify u g t :
  props_of (modify u g t)
  = if Nat.eqb (uid_of t) u then g (props_of t) else props_of t.
Proof. by destruct t. Qed.

Lemma getActiveCamera_update_node u g b :
  (∀ p, isCamera (g p) = isCamera p) →
  getActiveCamera (update_node u g b) = modify u g <$> getActiveCamera b.
Proof. intros Hg. unfold getActiveCamera. cbn. by apply getObjectBy_modify. Qed.

(** The loop over [rotatingObjects] turns objects; it moves none, and it
    leaves the tween and the identity of the active camera alone. *)
Lemma rotate_keeps_camera b entry camera :
  getActiveCamera b = Some camera →
  cameraTween (rotate b entry) = cameraTween b
  ∧ ∃ camera', getActiveCamera (rotate b entry) = Some camera'
      ∧ uid_of camera' = uid_of camera
      ∧ position (props_of camera') = position (props_of camera).
Proof.
  intros Hcam. unfold rotate. destruct (resolve_id entry.1 b) as [obj |].
  - split; [done |]. rewrite getActiveCamera_update_node by done. rewrite Hcam.
    eexists. split; [done |]. split.
    + by apply uid_of_modify.
    + rewrite props_of_modify. by destruct (Nat.eqb _ _).
  - split; [done |]. by exists camera.
Qed.

Lemma rotation_loop_keeps_camera entries b camera :
  getActiveCamera b = Some camera →
  cameraTween (foldl rotate b entries) = cameraTween b
  ∧ ∃ camera', getActiveCamera (foldl rotate b entries) = Some camera'
      ∧ uid_of camera' = uid_of camera
      ∧ position (props_of camera') = position (props_of camera).
Proof.
  revert b camera. induction entries as [| entry entries IH]; intros b camera Hcam.
  - split; [done |]. by exists camera.
  - cbn. destruct (rotate_keeps_camera b entry camera Hcam)
      as (Ht & camera1 & Hcam1 & Hu1 & Hp1).
    destruct (IH _ _ Hcam1) as (Ht' & camera2 & Hcam2 & Hu2 & Hp2).
    split; [congruence |]. exists camera2. split; [done |].
    split; congruence.
Qed.

Lemma position_with_lens f p : position (with_lens f p) = position p.
Proof. unfold with_lens. by destruct (camera p). Qed.

Lemma isCamera_with_lens f p : isCamera (with_lens f p) = isCamera p.
Proof.
  unfold with_lens, isCamera. destruct (camera p) eqn:E; cbn; by rewrite ?E.
Qed.

Lemma uid_with_lens f p : uid (with_lens f p) = uid p.
Proof. unfold with_lens. by destruct (camera p). Qed.

(** What a tick does to the camera and to the tween. *)
Lemma advance_camera clk tween b camera :
  getActiveCamera b = Some camera →
  let t := progress (now clk) tween in
  cameraTween (advance clk tween b)
    = (if Qle_bool 1 t then None else cameraTween b)
  ∧ (position ∘ props_of) <$> getActiveCamera (advance clk tween b)
    = Some (lerpVectors (from tween) (to tween) t).
Proof.
  intros Hcam. cbn zeta. unfold advance. rewrite Hcam.
  set (t := progress (now clk) tween).
  set (cam := uid_of camera).
  set (b1 := update_node cam (set_position _) b).
  assert (H1 : (position ∘ props_of) <$> getActiveCamera b1
               = Some (lerpVectors (from tween) (to tween) t)
               ∧ (uid_of <$> getActiveCamera b1) = Some cam
               ∧ cameraTween b1 = cameraTween b).
  { unfold b1. rewrite getActiveCamera_update_node by done. rewrite Hcam. cbn.
    rewrite props_of_modify, uid_of_modify by done. fold cam.
    by rewrite Nat.eqb_refl. }
  clearbody b1.
  set (b2 := match toLookAt tween with Some _ => _ | None => b1 end).
  assert (H2 : (position ∘ props_of) <$> getActiveCamera b2
               = Some (lerpVectors (from tween) (to tween) t)
               ∧ (uid_of <$> getActiveCamera b2) = Some cam
               ∧ cameraTween b2 = cameraTween b).
  { unfold b2. destruct (toLookAt tween) as [toL |]; [| done].
    destruct H1 as (Hp & Hu & Ht). split; [| split]; [| | done].
    - unfold getActiveCamera in *. cbn.
      rewrite getObjectBy_modify by done.
      destruct (getObjectBy isCamera (scene b1)) as [c1 |]; [| done]. cbn in *.
      rewrite props_of_modify. destruct (Nat.eqb _ _); by cbn.
    - unfold getActiveCamera in *. cbn.
      rewrite getObjectBy_modify by done.
      destruct (getObjectBy isCamera (scene b1)) as [c1 |]; [| done]. cbn in *.
      by rewrite uid_of_modify. }
  clearbody b2. clear H1 b1.
  set (b3 := update_node cam (with_lens _) b2).
  assert (H3 : (position ∘ props_of) <$> getActiveCamera b3
               = Some (lerpVectors (from tween) (to tween) t)
               ∧ cameraTween b3 = cameraTween b).
  { unfold b3. destruct H2 as (Hp & Hu & Ht). split; [| done].
    rewrite getActiveCamera_update_node by apply isCamera_with_lens.
    destruct (getActiveCamera b2) as [c2 |]; [| done]. cbn in *.
    rewrite props_of_modify. destruct (Nat.eqb _ _); [| done].
    by rewrite position_with_lens. }
  clearbody b3. destruct H3 as [Hp Ht].
  destruct (Qle_bool 1 t); split; done.
Qed.

Lemma progress_positive now tween :
  (0 < duration tween)%Q →
  progress now tween = Qmin 1 ((now - startTime tween) / duration tween).
Proof.
  intros Hd. unfold progress.
  assert (Hmax : Qmax 0 (duration tween) = duration tween).
  { unfold Qmax, GenericMinMax.gmax.
    pose proof (proj1 (Qlt_alt 0 (duration tween)) Hd) as Hc. by rewrite Hc. }
  rewrite Hmax. destruct (Qeq_bool (duration tween) 0) eqn:E; [| done].
  apply Qeq_bool_eq in E. rewrite E in Hd. by apply Qlt_irrefl in Hd.
Qed.

Lemma ratio_nonneg (elapsed d : Q) : (0 <= elapsed)%Q → (0 < d)%Q → (0 <= elapsed / d)%Q.
Proof. intros He Hd. apply Qle_shift_div_l; [done |]. by rewrite Qmult_0_l. Qed.

Lemma ratio_ge_1 (elapsed d : Q) : (d <= elapsed)%Q → (0 < d)%Q → (1 <= elapsed / d)%Q.
Proof. intros He Hd. apply Qle_shift_div_l; [done |]. by rewrite Qmult_1_l. Qed.

Lemma ratio_lt_1 (elapsed d : Q) : (elapsed < d)%Q → (0 < d)%Q → (elapsed / d < 1)%Q.
Proof. intros He Hd. apply Qlt_shift_div_r; [done |]. by rewrite Qmult_1_l. Qed.

Lemma ratio_half (elapsed d : Q) :
  elapsed == d * (1 # 2) → (0 < d)%Q → elapsed / d == 1 # 2.
Proof.
  intros He Hd. rewrite He. field. intros E. rewrite E in Hd.
  by apply Qlt_irrefl in Hd.
Qed.

Lemma lerp_half (a c t : Q) : t == 1 # 2 → a + (c - a) * t == (a + c) / 2.
Proof. intros ->. field. Qed.

Lemma lerpVectors_half v w t :
  t == 1 # 2 → Vector3_eq (lerpVectors v w t) (midpoint v w).
Proof.
  intros Ht. destruct v as [[a | |] [b | |] [c | |]], w as [[a' | |] [b' | |] [c' | |]];
    unfold Vector3_eq, lerpVectors, midpoint; cbn;
    repeat split; try done; by apply lerp_half.
Qed.

(** C7, as the code has it: on a tick at time [now] of a transition with a
    positive duration, [t = min(1, (now - startTime) / duration)] and the
    camera is placed at the per-axis linear interpolation of [from] and [to]
    at [t].  From the start time on this [t] is the clamp of the ratio to
    [0, 1] (the code has no lower bound of its own); halfway through the
    duration [t] is one half and the camera is at the midpoint; from
    [startTime + duration] on [t] is one and the transition is cleared, and
    before that it stays active. *)
Theorem tick_interpolates_linearly clk b tween camera :
  cameraTween b = Some tween →
  (0 < duration tween)%Q →
  getActiveCamera b = Some camera →
  let elapsed := (now clk - startTime tween)%Q in
  let t := progress (now clk) tween in
  let b' := update clk b in
  t = Qmin 1 (elapsed / duration tween)
  ∧ (position ∘ props_of) <$> getActiveCamera b'
    = Some (lerpVectors (from tween) (to tween) t)
  ∧ ((startTime tween <= now clk)%Q → t == clamp (elapsed / duration tween) 0 1)
  ∧ (elapsed == duration tween * (1 # 2) →
       t == 1 # 2
       ∧ Vector3_eq (lerpVectors (from tween) (to tween) t)
                    (midpoint (from tween) (to tween)))
  ∧ ((startTime tween + duration tween <= now clk)%Q →
       t == 1 ∧ cameraTween b' = None)
  ∧ ((now clk < startTime tween + duration tween)%Q → cameraTween b' = Some tween).
Proof.
  intros Htween Hd Hcam. cbn zeta.
  pose proof (progress_positive (now clk) tween Hd) as Ht.
  destruct (rotation_loop_keeps_camera (rotatingObjects b) b camera Hcam)
    as (Htw1 & camera1 & Hcam1 & _ & _).
  destruct (advance_camera clk tween _ camera1 Hcam1) as [Hclear Hpos].
  unfold update. rewrite Htw1, Htween. rewrite Hclear, Htw1, Htween.
  split; [done |]. split; [done |]. rewrite Ht.
  split; [| split; [| split]].
  - intros Hstart. unfold clamp. symmetry. apply Q.max_r.
    apply Q.min_glb; [done |]. apply ratio_nonneg; [| done].
    lra.
  - intros Hhalf. pose proof (ratio_half _ _ Hhalf Hd) as Hr.
    assert (Hmin : Qmin 1 ((now clk - startTime tween) / duration tween) == 1 # 2).
    { rewrite Q.min_r; [done |]. rewrite Hr. done. }
    split; [done |]. by apply lerpVectors_half.
  - intros Hend.
    assert (Hr : (1 <= (now clk - startTime tween) / duration tween)%Q)
      by (apply ratio_ge_1; [lra | done]).
    split; [by apply Q.min_l |].
    replace (Qle_bool 1 (Qmin 1 ((now clk - startTime tween) / duration tween)))
      with true; [done |].
    symmetry. apply Qle_bool_iff. by apply Q.min_glb.
  - intros Hbefore.
    assert (Hr : ((now clk - startTime tween) / duration tween < 1)%Q)
      by (apply ratio_lt_1; [lra | done]).
    replace (Qle_bool 1 (Qmin 1 ((now clk - startTime tween) / duration tween)))
      with false; [done |].
    symmetry. apply not_true_is_false. intros Hle. apply Qle_bool_iff in Hle.
    pose proof (Q.le_min_r 1 ((now clk - startTime tween) / duration tween)).
    lra.
Qed.

End Tween.

(** *** Handles after [add] and [removeFromParent] *)

Lemma find_in_grafted (ts : list Object3D) u child :
  uid_of child ∉ concat (map uids ts) →
  first_some (map (find_node (uid_of child)) (map (graft u child) ts))
  = if decide (u ∈ concat (map uids ts)) then Some child else None.
Proof.
  intros Hnot. rewrite map_map.
  rewrite (first_some_marked _ (λ c, u ∈ uids c) child).
  - destruct (decide (Exists _ ts)) as [Hex | Hno];
      destruct (decide (u ∈ _)) as [Hin | Hout]; try done.
    + exfalso. by apply Hout, in_children_uids.
    + exfalso. by apply Hno, in_children_uids.
  - apply Forall_forall. intros t Ht. apply find_node_graft.
    intros Hin. apply Hnot, elem_of_concat_map. by exists t.
Qed.

Lemma parent_in_grafted (ts : list Object3D) u child :
  uid_of child ∉ concat (map uids ts) →
  first_some (map (parent_in (uid_of child)) (map (graft u child) ts))
  = if decide (u ∈ concat (map uids ts)) then Some u else None.
Proof.
  intros Hnot. rewrite map_map.
  rewrite (first_some_marked _ (λ c, u ∈ uids c) u).
  - destruct (decide (Exists _ ts)) as [Hex | Hno];
      destruct (decide (u ∈ _)) as [Hin | Hout]; try done.
    + exfalso. by apply Hout, in_children_uids.
    + exfalso. by apply Hno, in_children_uids.
  - apply Forall_forall. intros t Ht. apply parent_in_graft.
    intros Hin. apply Hnot, elem_of_concat_map. by exists t.
Qed.

Lemma prune_grafted (ts : list Object3D) u child :
  uid_of child ∉ concat (map uids ts) →
  map (prune (uid_of child)) (map (graft u child) ts) = ts.
Proof.
  induction ts as [| t ts IH]; cbn; intros Hnot; [done |].
  apply not_elem_of_app in Hnot as [H1 H2].
  by rewrite prune_graft, IH.
Qed.

Lemma parent_of_in_all_uids u b p : parent_of u b = Some p → p ∈ all_uids b.
Proof.
  unfold parent_of, all_uids. generalize (world b). intros ts.
  induction ts as [| t ts IH]; cbn; [done |].
  destruct (parent_in u t) eqn:E.
  - intros [= <-]. apply elem_of_app. left. by apply (parent_in_uids u).
  - intros Hp. apply elem_of_app. right. by apply IH.
Qed.

Lemma scene_in_all_uids b : uid_of (scene b) ∈ all_uids b.
Proof. unfold all_uids. cbn. apply elem_of_app. left. apply uid_of_in_uids. Qed.

Lemma deref_present u b : u ∈ all_uids b → is_Some (deref u b).
Proof.
  unfold deref, all_uids. generalize (world b). intros ts.
  induction ts as [| t ts IH]; cbn; intros Hin; [by apply elem_of_nil in Hin |].
  apply elem_of_app in Hin as [Hin | Hin].
  - destruct (find_node_present u t Hin) as [s ->]. by eexists.
  - destruct (find_node u t); [by eexists | by apply IH].
Qed.

Lemma deref_sublist u b s : deref u b = Some s → sublist (uids s) (all_uids b).
Proof.
  unfold deref, all_uids. generalize (world b). intros ts.
  induction ts as [| t ts IH]; cbn; [done |].
  destruct (find_node u t) eqn:E.
  - intros [= <-]. apply sublist_inserts_r. by apply (find_node_sublist u).
  - intros Hd. apply sublist_inserts_l. by apply IH.
Qed.

Lemma deref_uid u b s : deref u b = Some s → uid_of s = u.
Proof.
  unfold deref. generalize (world b). intros ts.
  induction ts as [| t ts IH]; cbn; [done |].
  destruct (find_node u t) eqn:E; [| done].
  intros [= <-]. by apply (find_node_uid u t).
Qed.

Lemma parent_absent_everywhere u (ts : list Object3D) :
  u ∉ concat (map uids ts) → first_some (map (parent_in u) ts) = None.
Proof.
  intros Hnot. apply first_some_None. apply Forall_forall. intros t Ht.
  apply parent_in_absent_tree. intros Hin.
  apply Hnot, elem_of_concat_map. by exists t.
Qed.

Lemma parent_pruned_everywhere u (ts : list Object3D) :
  first_some (map (parent_in u) (map (prune u) ts)) = None.
Proof.
  rewrite map_map. apply first_some_None. apply Forall_forall. intros t _.
  apply parent_in_prune.
Qed.

Lemma fresh_not_used b : wf b → next_uid b ∉ all_uids b.
Proof.
  intros (_ & Hfresh & _) Hin. rewrite Forall_forall in Hfresh.
  specialize (Hfresh _ Hin). lia.
Qed.

(** C6: duplicating an existing object with offset [dx, dy, dz] returns
    success and creates a clone that carries the new name, stands at the
    source's position plus the offset on each axis, hangs under the source's
    parent (under the scene when the source has none) and is registered in
    the name index under the new name; removing it by that name succeeds and
    gives back the scene graph as it was before the duplication. *)
Theorem duplicate_clones_at_offset sourceName newName dx dy dz b source :
  wf b →
  findObject sourceName b = Returns (Some source) →
  ∃ clone b1,
    duplicateObject sourceName newName (Some [dx; dy; dz]) b
      = (Returns (success_id newName), b1)
    ∧ name (props_of clone) = newName
    ∧ position (props_of clone)
      = Vector3_add (position (props_of source))
                    (mkVector3 (Num dx) (Num dy) (Num dz))
    ∧ deref (uid_of clone) b1 = Some clone
    ∧ parent_of (uid_of clone) b1
      = Some (default (uid_of (scene b)) (parent_of (uid_of source) b))
    ∧ objects b1 !! newName = Some (uid_of clone)
    ∧ ∃ b2,
        removeObject newName b1 = (Returns success, b2)
        ∧ scene b2 = scene b
        ∧ detached b2 = (detached b ++ [clone])%list
        ∧ objects b2 !! newName = None
        ∧ parent_of (uid_of clone) b2 = None.
Proof.
  intros Hwf Hfind. pose proof (fresh_not_used b Hwf) as Hfresh.
  unfold duplicateObject. rewrite Hfind.
  pose proof (props_of_clone (next_uid b) source) as Hprops.
  pose proof (clone_children_fresh (next_uid b) source) as Hkids.
  destruct (clone (next_uid b) source) as [next copy]. cbn [snd] in Hprops, Hkids.
  set (parent := default (uid_of (scene b)) (parent_of (uid_of source) b)).
  set (clone := Obj (set_position _ _) (children_of copy)).
  assert (Huid : uid_of clone = next_uid b)
    by (unfold clone, uid_of; cbn; by rewrite Hprops).
  assert (Hparent : parent ∈ all_uids b).
  { unfold parent. destruct (parent_of (uid_of source) b) as [p |] eqn:Hp; cbn.
    - by apply (parent_of_in_all_uids (uid_of source)).
    - apply scene_in_all_uids. }
  rewrite <- Huid in Hfresh. unfold all_uids in Hfresh, Hparent.
  set (b1 := set_objects _ (add parent clone (set_next_uid next b))).
  assert (Hderef : deref (uid_of clone) b1 = Some clone).
  { unfold deref, b1, world. cbn [scene detached set_objects add set_graph set_next_uid].
    change (graft parent clone (scene b) :: map (graft parent clone) (detached b))
      with (map (graft parent clone) (world b)).
    rewrite find_in_grafted by done. by rewrite decide_True. }
  assert (Hpar : parent_of (uid_of clone) b1 = Some parent).
  { unfold parent_of, b1, world. cbn [scene detached set_objects add set_graph set_next_uid].
    change (graft parent clone (scene b) :: map (graft parent clone) (detached b))
      with (map (graft parent clone) (world b)).
    rewrite parent_in_grafted by done. by rewrite decide_True. }
  assert (Hobj : objects b1 !! newName = Some (uid_of clone))
    by (unfold b1; cbn; apply lookup_insert_eq).
  exists clone, b1. split; [done |]. split; [by unfold clone |]. split.
  { unfold clone. cbn. by rewrite Hprops. }
  split; [done |]. split; [done |]. split; [done |].
  unfold removeObject, findObject. rewrite Hobj. cbn [mbind option_bind].
  rewrite Hderef. unfold removeFromParent. rewrite Hpar, Hderef.
  eexists. split; [done |]. cbn [scene detached objects set_objects
    set_rotatingObjects set_graph].
  assert (Hscene : prune (uid_of clone) (scene b1) = scene b).
  { unfold b1. cbn [scene detached set_objects add set_graph set_next_uid].
    apply prune_graft. intros Hin. apply Hfresh.
    unfold world. cbn [map concat]. apply elem_of_app. by left. }
  assert (Hloose : map (prune (uid_of clone)) (detached b1) = detached b).
  { unfold b1. cbn [scene detached set_objects add set_graph set_next_uid].
    apply prune_grafted. intros Hin. apply Hfresh.
    unfold world. cbn [map concat]. apply elem_of_app. by right. }
  rewrite Hscene, Hloose. split; [done |]. split; [done |].
  split; [apply lookup_delete_eq |].
  unfold parent_of, world. cbn [scene detached set_objects set_rotatingObjects
    set_graph].
  change (scene b :: (detached b ++ [clone])%list)
    with ((world b ++ [clone])%list).
  rewrite map_app, first_some_app, parent_absent_everywhere by done.
  cbn [map first_some].
  rewrite parent_in_absent; [done |]. by rewrite <- Huid in Hkids.
Qed.

Lemma rotating_get_delete key m : rotating_get key (rotating_delete key m) = None.
Proof.
  unfold rotating_get, rotating_delete.
  induction m as [| [k v] m IH]; [done |].
  destruct (decide (k = key)) as [-> | Hne].
  - by rewrite filter_cons_False by (cbn; congruence).
  - rewrite filter_cons_True by done. cbn.
    rewrite bool_decide_eq_false_2 by done. done.
Qed.

(** [removeFromParent] leaves its object without a parent. *)
Lemma removeFromParent_orphans u b :
  wf b → u ∈ all_uids b → parent_of u (removeFromParent u b) = None.
Proof.
  intros (Hnd & _ & _) Hin. unfold removeFromParent.
  destruct (parent_of u b) as [p |] eqn:Hp; [| done].
  destruct (deref_present u b Hin) as [obj Hobj]. rewrite Hobj.
  unfold parent_of, world. cbn [scene detached set_graph].
  change (prune u (scene b) :: (map (prune u) (detached b) ++ [obj])%list)
    with ((map (prune u) (world b) ++ [obj])%list).
  rewrite map_app, first_some_app, parent_pruned_everywhere. cbn [map first_some].
  rewrite parent_in_absent; [done |].
  pose proof (deref_sublist u b obj Hobj) as Hsub.
  pose proof (sublist_NoDup _ _ Hnd Hsub) as Hnd'.
  apply deref_uid in Hobj. destruct obj as [q ds]. unfold uid_of in Hobj.
  cbn in *. subst u. by apply NoDup_cons in Hnd' as [? _].
Qed.

(** When the removed object was the only node with its name, no node of
    the remaining scene carries the name. *)
Lemma removeFromParent_forgets_name n u b :
  (∀ p, p ∈ nodes (scene b) → name p = n → uid p = u) →
  uid_of (scene b) ≠ u →
  getObjectByName n (scene (removeFromParent u b)) = None.
Proof.
  intros Honly Hroot. unfold removeFromParent, getObjectByName.
  destruct (parent_of u b) as [p |] eqn:Hp.
  - destruct (deref u b) as [obj |] eqn:Hobj.
    + cbn [scene set_graph]. apply getObjectBy_None. intros q Hq.
      apply nodes_prune in Hq as [Hin [Hne | ->]].
      * apply bool_decide_eq_false_2. intros Hn. by apply Hne, Honly.
      * apply bool_decide_eq_false_2. intros Hn. apply Hroot.
        apply Honly; [| done]. destruct (scene b). apply elem_of_cons. by left.
    + apply getObjectBy_None. intros q Hq.
      apply bool_decide_eq_false_2. intros Hn.
      pose proof (Honly q Hq Hn) as Hu.
      assert (Hin : u ∈ all_uids b).
      { unfold all_uids. cbn. apply elem_of_app. left.
        rewrite uids_nodes, <- Hu. apply list_elem_of_In, in_map.
        by apply list_elem_of_In. }
      destruct (deref_present u b Hin) as [o Ho]. congruence.
  - apply getObjectBy_None. intros q Hq.
    apply bool_decide_eq_false_2. intros Hn.
    pose proof (Honly q Hq Hn) as Hu.
    destruct (scene b) as [r cs] eqn:Hs. cbn in Hq.
    apply elem_of_cons in Hq as [-> | Hq]; [by apply Hroot |].
    assert (Hkid : u ∈ concat (map uids (children_of (scene b)))).
    { rewrite Hs. cbn. apply elem_of_concat_map in Hq as (c & Hc & Hq).
      apply elem_of_concat_map. exists c. split; [done |].
      rewrite uids_nodes, <- Hu. apply list_elem_of_In, in_map.
      by apply list_elem_of_In. }
    apply parent_in_present in Hkid as [pp Hpp].
    unfold parent_of, world in Hp. cbn in Hp. by rewrite Hpp in Hp.
Qed.

(** C9, as the code has it: removing the object registered under a name
    succeeds, leaves the object without a parent, and deletes the
    name-index entry and the rotation entry of that name.  A later lookup
    by that name no longer sees the index: it answers from the scene graph
    that remains, by node name first and by path second.  It reports
    not-found, and a duplication from that name fails with the not-found
    error, when no remaining node answers to the name; if the removed
    object was the only node of the scene with that name, none carries it
    any more. *)
Theorem remove_unregisters (s : string) b u :
  wf b →
  objects b !! Some s = Some u →
  ∃ b',
    removeObject (Some s) b = (Returns success, b')
    ∧ parent_of u b' = None
    ∧ objects b' !! Some s = None
    ∧ rotating_get (Some s) (rotatingObjects b') = None
    ∧ findObject (Some s) b'
      = Returns (match getObjectByName (Some s) (scene b') with
                 | Some o => Some o
                 | None => path_lookup s (scene b')
                 end)
    ∧ (getObjectByName (Some s) (scene b') = None →
       path_lookup s (scene b') = None →
       findObject (Some s) b' = Returns None
       ∧ ∀ newName offset,
           duplicateObject (Some s) newName offset b'
           = (Returns (failure ("Source object not found: " +:+ s)), b'))
    ∧ ((∀ p, p ∈ nodes (scene b) → name p = Some s → uid p = u) →
       uid_of (scene b) ≠ u →
       getObjectByName (Some s) (scene b') = None).
Proof.
  intros Hwf Hreg. pose proof Hwf as (Hnd & Hfresh & Hobjs).
  pose proof (Hobjs _ _ Hreg) as Hin. cbn in Hin.
  destruct (deref_present u b Hin) as [obj Hobj].
  pose proof (deref_uid u b obj Hobj) as Huid.
  unfold removeObject, findObject at 1. rewrite Hreg. cbn [mbind option_bind].
  rewrite Hobj, Huid.
  set (b1 := removeFromParent u b).
  set (b' := set_rotatingObjects _ (set_objects _ b1)).
  assert (Hgone : objects b' !! Some s = None) by apply lookup_delete_eq.
  assert (Hfind : findObject (Some s) b'
                  = Returns (match getObjectByName (Some s) (scene b') with
                             | Some o => Some o
                             | None => path_lookup s (scene b')
                             end)).
  { unfold findObject. rewrite Hgone. cbn [mbind option_bind].
    by destruct (getObjectByName (Some s) (scene b')). }
  exists b'. split; [done |]. split.
  { apply (removeFromParent_orphans u b Hwf Hin). }
  split; [done |]. split; [apply rotating_get_delete |]. split; [done |]. split.
  - intros Hname Hpath. rewrite Hname, Hpath in Hfind. split; [done |].
    intros newName offset. unfold duplicateObject. by rewrite Hfind.
  - intros Honly Hroot. by apply removeFromParent_forgets_name.
Qed.

(** *** The theorems at sample inputs *)

Lemma teleport_unknown : "teleport" ∉ actions.
Proof.
  unfold actions. intros Hin.
  repeat (apply elem_of_cons in Hin as [Hin | Hin]; [discriminate |]).
  by apply elem_of_nil in Hin.
Qed.

Lemma handleCommand_never_raises_witness :
  handleCommand (H := demo_externals) demo_clock
    (with_requestId "req_7" (blank "teleport")) demo_bridge
  = (Returns tt,
     set_sent [VObj [("requestId", VStr "req_7"); ("success", VBool false);
                     ("error", VStr "Unknown action: teleport")]] demo_bridge).
Proof.
  destruct (handleCommand_never_raises (H := demo_externals) demo_clock
              (with_requestId "req_7" (blank "teleport")) demo_bridge)
    as (_ & _ & Hunknown).
  destruct (Hunknown teleport_unknown) as (_ & Hsend & _).
  apply (Hsend "req_7"); [reflexivity | discriminate | reflexivity].
Defined.

(** An envelope whose [requestId] is the empty string, on an open socket,
    and an envelope with a proper [requestId] on a closed one: neither gets
    a response. *)
Lemma no_response_without_truthy_id_or_socket :
  let envelope := with_requestId "" (blank "teleport") in
  c_requestId envelope = Some ""
  ∧ is_open (ws demo_bridge) = true
  ∧ sent (handleCommand (H := demo_externals) demo_clock envelope demo_bridge).2 = []
  ∧ sent (handleCommand (H := demo_externals) demo_clock
            (with_requestId "req_7" (blank "teleport"))
            (set_sent [] {| ws := Some CLOSING; scene := demo_scene; maxDepth := 10;
                            rotatingObjects := []; objects := ∅;
                            cameraTween := None; cameraLookAt := None;
                            detached := []; next_uid := 3; materials := ∅;
                            sent := [] |})).2 = [].
Proof. repeat split; reflexivity. Qed.

(** A handler that throws: [moveObject] without a position. *)
Example moveObject_without_position :
  result_of (H := demo_externals) demo_clock (with_name "crate" (blank "moveObject"))
    demo_bridge
  = (Returns (failure "Cannot read properties of undefined (reading '0')"),
     demo_bridge).
Proof. reflexivity. Qed.

Lemma wf_demo_bridge : wf demo_bridge.
Proof.
  split; [| split].
  - apply (bool_decide_unpack _). vm_compute. exact I.
  - apply (bool_decide_unpack _). vm_compute. exact I.
  - apply map_Forall_empty.
Qed.

Lemma duplicate_clones_at_offset_witness :
  ∃ clone b1,
    duplicateObject (Some "crate") (Some "crate2") (Some [3; 0; 0]%Q) demo_bridge
      = (Returns (success_id (Some "crate2")), b1)
    ∧ position (props_of clone) = mkVector3 (Num (1 + 3)) (Num (2 + 0)) (Num (3 + 0))
    ∧ deref (uid_of clone) b1 = Some clone
    ∧ parent_of (uid_of clone) b1 = Some 0
    ∧ objects b1 !! Some "crate2" = Some (uid_of clone)
    ∧ ∃ b2, removeObject (Some "crate2") b1 = (Returns success, b2)
            ∧ scene b2 = demo_scene.
Proof.
  destruct (duplicate_clones_at_offset (Some "crate") (Some "crate2") 3 0 0
              demo_bridge demo_crate wf_demo_bridge eq_refl)
    as (clone & b1 & Hdup & _ & Hpos & Hderef & Hpar & Hobj & b2 & Hrm & Hscene & _).
  exists clone, b1. repeat split; try done.
  by exists b2.
Defined.

(** The same duplication, evaluated: the clone of the crate at [1, 2, 3]
    stands at [4, 2, 3]. *)
Example duplicate_crate :
  (position ∘ props_of)
    <$> deref 3 (duplicateObject (Some "crate") (Some "crate2")
                   (Some [3; 0; 0]%Q) demo_bridge).2
  = Some (mkVector3 (Num 4) (Num 2) (Num 3)).
Proof. reflexivity. Qed.

Lemma tick_interpolates_linearly_witness :
  progress (now demo_clock) demo_tween == 1 # 2
  ∧ Vector3_eq (lerpVectors (from demo_tween) (to demo_tween)
                  (progress (now demo_clock) demo_tween))
               (mkVector3 (Num 5) (Num 10) (Num 20))
  ∧ cameraTween (update (H := demo_externals) demo_clock mid_flight)
    = Some demo_tween
  ∧ cameraTween (update (H := demo_externals) (mkClock (Some 7000%Q) 0) mid_flight)
    = None.
Proof.
  destruct (tick_interpolates_linearly (H := demo_externals) demo_clock mid_flight
              demo_tween demo_camera eq_refl eq_refl eq_refl)
    as (_ & _ & _ & Hhalf & _ & Hbefore).
  destruct (tick_interpolates_linearly (H := demo_externals)
              (mkClock (Some 7000%Q) 0) mid_flight
              demo_tween demo_camera eq_refl eq_refl eq_refl)
    as (_ & _ & _ & _ & Hend & _).
  destruct Hhalf as [Ht Hmid]; [reflexivity |].
  split; [exact Ht |]. split; [| split].
  - clear Hmid. repeat split.
  - apply Hbefore. reflexivity.
  - apply Hend. discriminate.
Defined.

(** A tick whose clock reading lies before the start time: the code's [t]
    is negative where a clamp to [0, 1] would give zero, and the camera is
    put behind [from]. *)
Lemma tick_before_start_is_not_clamped :
  let n := now clock_set_back in
  (n < startTime demo_tween)%Q
  ∧ progress n demo_tween == - (1 # 2)
  ∧ clamp ((n - startTime demo_tween) / duration demo_tween) 0 1 == 0
  ∧ ¬ progress n demo_tween
      == clamp ((n - startTime demo_tween) / duration demo_tween) 0 1
  ∧ (position ∘ props_of)
      <$> getActiveCamera (update (H := demo_externals) clock_set_back mid_flight)
    = Some (lerpVectors (from demo_tween) (to demo_tween) (progress n demo_tween)).
Proof.
  repeat split; try reflexivity. intros Hbad. vm_compute in Hbad. discriminate.
Qed.

Lemma wf_one_box : wf one_box.
Proof.
  split; [| split].
  - apply (bool_decide_unpack _). vm_compute. exact I.
  - apply (bool_decide_unpack _). vm_compute. exact I.
  - apply (bool_decide_unpack _). vm_compute. exact I.
Qed.

Lemma remove_unregisters_witness :
  ∃ b',
    removeObject (Some "box1") one_box = (Returns success, b')
    ∧ parent_of 4 b' = None
    ∧ objects b' !! Some "box1" = None
    ∧ findObject (Some "box1") b' = Returns None
    ∧ duplicateObject (Some "box1") (Some "box2") None b'
      = (Returns (failure "Source object not found: box1"), b').
Proof.
  destruct (remove_unregisters "box1" one_box 4 wf_one_box eq_refl)
    as (b' & Hrm & Hpar & Hobj & _ & _ & Hmiss & Honly).
  assert (Hname : getObjectByName (Some "box1") (scene b') = None).
  { apply Honly; [| discriminate].
    intros p Hp Hn. vm_compute in Hp.
    repeat (apply elem_of_cons in Hp as [Hp | Hp];
            [subst p; first [reflexivity | discriminate Hn] |]).
    by apply elem_of_nil in Hp. }
  assert (Hpath : path_lookup "box1" (scene b') = None).
  { injection Hrm as <-. reflexivity. }
  destruct (Hmiss Hname Hpath) as [Hfind Hdup].
  exists b'. split; [exact Hrm |]. split; [exact Hpar |].
  split; [exact Hobj |]. split; [exact Hfind | apply Hdup].
Defined.

(** Two boxes were created under one name.  Removing by that name succeeds
    and takes the second box away; the name then resolves to the first box,
    and duplicating from it succeeds. *)
Lemma removed_name_still_resolves :
  objects two_boxes !! Some "box1" = Some 6
  ∧ (removeObject (Some "box1") two_boxes).1 = Returns success
  ∧ (let after := (removeObject (Some "box1") two_boxes).2 in
     objects after !! Some "box1" = None
     ∧ (match findObject (Some "box1") after with
        | Returns (Some found) => uid_of found = 4
        | _ => False
        end)
     ∧ (duplicateObject (Some "box1") (Some "box2") None after).1
       = Returns (success_id (Some "box2"))).
Proof.
  split; [vm_compute; reflexivity |]. split; [vm_compute; reflexivity |].
  cbv zeta. split; [vm_compute; reflexivity |]. split; vm_compute; reflexivity.
Qed.

(** *** Well-formedness is kept *)

Lemma all_uids_update_node u f b :
  (∀ p, uid (f p) = uid p) → all_uids (update_node u f b) = all_uids b.
Proof.
  intros Hf. unfold all_uids, world. cbn. rewrite uids_modify by done. f_equal.
  induction (detached b) as [| t ts IH]; cbn; [done |].
  by rewrite uids_modify, IH.
Qed.

(** A step that keeps the handles, the allocator and the name index. *)
Lemma wf_same b b' :
  all_uids b' = all_uids b → next_uid b' = next_uid b → objects b' = objects b →
  wf b → wf b'.
Proof. intros H1 H2 H3 Hwf. unfold wf. by rewrite H1, H2, H3. Qed.

Lemma wf_update_node u f b :
  (∀ p, uid (f p) = uid p) → wf b → wf (update_node u f b).
Proof. intros Hf. by apply wf_same; [apply all_uids_update_node | |]. Qed.

Lemma all_uids_add parent child b :
  NoDup (all_uids b) → parent ∈ all_uids b →
  all_uids (add parent child b) ≡ₚ all_uids b ++ uids child.
Proof.
  intros Hnd Hin. unfold all_uids, add, world. cbn [scene detached set_graph].
  change (graft parent child (scene b) :: map (graft parent child) (detached b))
    with (map (graft parent child) (world b)).
  apply uids_grafted; [| done | done].
  apply Forall_forall. intros t _. apply uids_graft.
Qed.

Lemma all_uids_removeFromParent u b :
  NoDup (all_uids b) → all_uids (removeFromParent u b) ≡ₚ all_uids b.
Proof.
  intros Hnd. unfold removeFromParent.
  destruct (parent_of u b) as [p |] eqn:Hp; [| done].
  destruct (deref u b) as [obj |] eqn:Hobj; [| done].
  unfold all_uids, world. cbn [scene detached set_graph].
  change (prune u (scene b) :: (map (prune u) (detached b) ++ [obj])%list)
    with ((map (prune u) (world b) ++ [obj])%list).
  rewrite map_app, concat_app. cbn [map concat]. rewrite app_nil_r.
  pose proof (child_is_no_root u p (world b) Hnd Hp) as Hroots.
  assert (Hkept : Forall (λ t, uid_of t ≠ u) (map (prune u) (world b))).
  { apply Forall_forall. intros t Ht.
    apply list_elem_of_In, in_map_iff in Ht as (t0 & <- & Ht0).
    rewrite uid_of_prune. rewrite Forall_forall in Hroots.
    by apply Hroots, list_elem_of_In. }
  rewrite <- (filter_roots_kept u _ Hkept).
  apply uids_pruned; [| done | done].
  apply Forall_forall. intros t _ s. apply uids_prune.
Qed.

Lemma wf_removeFromParent u b : wf b → wf (removeFromParent u b).
Proof.
  intros (Hnd & Hfresh & Hobjs).
  pose proof (all_uids_removeFromParent u b Hnd) as Hperm.
  assert (Hn : next_uid (removeFromParent u b) = next_uid b
               ∧ objects (removeFromParent u b) = objects b).
  { unfold removeFromParent. destruct (parent_of u b); [| done].
    by destruct (deref u b). }
  destruct Hn as [Hn Ho]. split; [| split].
  - by rewrite Hperm.
  - by rewrite Hperm, Hn.
  - rewrite Ho. intros k v Hk. rewrite Hperm. by apply (Hobjs k).
Qed.

Lemma all_uids_world b b' : world b' = world b → all_uids b' = all_uids b.
Proof. unfold all_uids. by intros ->. Qed.

(** Adding a new object whose handles the allocator had not given out
    yet, and registering it. *)
Lemma wf_grow parent child key b b0 :
  wf b → world b0 = world b → objects b0 = objects b →
  parent ∈ all_uids b →
  NoDup (uids child) →
  Forall (λ v, next_uid b <= v < next_uid b0) (uids child) →
  wf (set_objects (<[key := uid_of child]> (objects (add parent child b0)))
        (add parent child b0)).
Proof.
  intros (Hnd & Hfresh & Hobjs) Hworld Hobj0 Hin Hndc Hrange.
  pose proof (all_uids_world b b0 Hworld) as H0.
  assert (Hall : all_uids (set_objects (<[key := uid_of child]>
                     (objects (add parent child b0))) (add parent child b0))
                 ≡ₚ all_uids b ++ uids child).
  { rewrite <- H0. apply all_uids_add; by rewrite H0. }
  rewrite Forall_forall in Hfresh, Hrange.
  split; [| split].
  - rewrite Hall. apply NoDup_app. split; [done |]. split; [| done].
    intros v Hv Hv'. specialize (Hfresh v Hv). specialize (Hrange v Hv'). lia.
  - rewrite Hall. apply Forall_app.
    cbn [next_uid set_objects add set_graph].
    split; apply Forall_forall; intros v Hv.
    + specialize (Hfresh v Hv).
      destruct (uids child) as [| w ws] eqn:E.
      * destruct child. discriminate.
      * specialize (Hrange w ltac:(apply elem_of_cons; by left)). lia.
    + specialize (Hrange v Hv). lia.
  - cbn [objects set_objects add set_graph]. rewrite Hobj0.
    apply map_Forall_insert_2.
    + rewrite Hall. apply elem_of_app. right. apply uid_of_in_uids.
    + intros k v Hk. rewrite Hall. apply elem_of_app. left. by apply (Hobjs k).
Qed.

Lemma uid_place position p : uid (place position p) = uid p.
Proof. by destruct position. Qed.

Lemma wf_moveObject n position b : wf b → wf (moveObject n position b).2.
Proof.
  intros Hwf. unfold moveObject.
  destruct (findObject n b) as [[obj |] | e]; [| done | done].
  destruct (read3 position) as [[[px py] pz] | e]; [| done].
  by apply wf_update_node.
Qed.

Lemma wf_setTransform n prop values b : wf b → wf (setTransform n prop values b).2.
Proof.
  intros Hwf. unfold setTransform.
  destruct (findObject n b) as [[obj |] | e]; [| done | done].
  destruct (read3 values) as [[[px py] pz] | e]; [| done].
  apply wf_update_node; [| done]. intros p. by destruct prop.
Qed.

Lemma wf_setVisibility n visible b : wf b → wf (setVisibility n visible b).2.
Proof.
  intros Hwf. unfold setVisibility.
  destruct (findObject n b) as [[obj |] | e]; [| done | done].
  by apply wf_update_node.
Qed.

Lemma wf_setOpacity n opacity b : wf b → wf (setOpacity n opacity b).2.
Proof.
  intros Hwf. unfold setOpacity.
  by destruct (findObject n b) as [[obj |] | e].
Qed.

Lemma wf_removeObject n b : wf b → wf (removeObject n b).2.
Proof.
  intros Hwf. unfold removeObject.
  destruct (findObject n b) as [[obj |] | e]; [| done | done].
  cbn [snd]. destruct (wf_removeFromParent (uid_of obj) b Hwf) as (H1 & H2 & H3).
  split; [done |]. split; [done |].
  cbn [objects set_objects set_rotatingObjects].
  intros k v Hk. apply lookup_delete_Some in Hk as [_ Hk]. by apply (H3 k).
Qed.

Lemma wf_addPrimitive clk cmd b : wf b → wf (addPrimitive clk cmd b).2.
Proof.
  intros Hwf. unfold addPrimitive.
  destruct (primitive_geometry _ _) as [geometry |]; [| done]. cbn [snd].
  match goal with
  | |- wf (set_objects (<[?k := ?m]> (objects (add ?p ?child ?b0))) _) =>
      assert (Hm : m = uid_of child)
        by (unfold uid_of; cbn [props_of]; by rewrite uid_place);
      set (node := child) in *; set (b1 := b0) in *; rewrite Hm;
      apply (wf_grow p node k b b1)
  end; try done.
  - exact (scene_in_all_uids b).
  - unfold node. cbn. rewrite uid_place. apply NoDup_singleton.
  - unfold node. cbn. rewrite uid_place. cbn. apply Forall_singleton. lia.
Qed.

Lemma wf_addLight clk cmd b : wf b → wf (addLight clk cmd b).2.
Proof.
  intros Hwf. unfold addLight.
  destruct (light_type _) as [ty |]; [| done]. cbn [snd].
  match goal with
  | |- wf (set_objects (<[?k := ?m]> (objects (add ?p ?child ?b0))) _) =>
      assert (Hm : m = uid_of child)
        by (unfold uid_of; cbn [props_of]; by rewrite uid_place);
      set (node := child) in *; set (b1 := b0) in *; rewrite Hm;
      apply (wf_grow p node k b b1)
  end; try done.
  - exact (scene_in_all_uids b).
  - unfold node. cbn. rewrite uid_place. apply NoDup_singleton.
  - unfold node. cbn. rewrite uid_place. cbn. apply Forall_singleton. lia.
Qed.

Lemma wf_duplicateObject sourceName newName offset b :
  wf b → wf (duplicateObject sourceName newName offset b).2.
Proof.
  intros Hwf. unfold duplicateObject.
  destruct (findObject sourceName b) as [[source |] | e]; [| done | done].
  pose proof (uids_clone (next_uid b) source) as [Hnext Huids].
  pose proof (props_of_clone (next_uid b) source) as Hprops.
  destruct (clone (next_uid b) source) as [next copy]. cbn [fst snd] in *.
  match goal with
  | |- wf (set_objects (<[?k := ?m]> (objects (add ?p ?child ?b0))) _) =>
      assert (Hu : uids child = uids copy) by (by destruct copy);
      apply (wf_grow p child k b b0)
  end; try done.
  - destruct (parent_of (uid_of source) b) as [p |] eqn:Hp; cbn.
    + by apply (parent_of_in_all_uids (uid_of source)).
    + apply scene_in_all_uids.
  - rewrite Hu, Huids. apply NoDup_seq.
  - rewrite Hu, Huids. apply Forall_forall. intros v Hv.
    apply elem_of_seq in Hv. cbn. lia.
Qed.

Section Preservation.
Context `{Externals}.

Lemma wf_lookAt n target b : wf b → wf (lookAt n target b).2.
Proof.
  intros Hwf. unfold lookAt.
  destruct (findObject n b) as [[obj |] | e]; [| done | done].
  destruct (read3 target) as [[[px py] pz] | e]; [| done].
  by apply wf_update_node.
Qed.

Lemma wf_setCameraPosition clk command b :
  wf b → wf (setCameraPosition clk command b).2.
Proof.
  intros Hwf. unfold setCameraPosition.
  destruct (getActiveCamera b) as [camera |]; [| done].
  destruct (c_position command) as [[| p0 [| p1 [| p2 [| ? ?]]]] |]; try done.
  destruct (_ && negb _); [done |]. cbn [snd].
  assert (H1 : wf (update_node (uid_of camera)
                     (set_position (newVector3 (Num p0) (Num p1) (Num p2)))
                     (set_cameraTween None b)))
    by by apply wf_update_node.
  revert H1. generalize (update_node (uid_of camera)
                     (set_position (newVector3 (Num p0) (Num p1) (Num p2)))
                     (set_cameraTween None b)). intros b1 H1.
  assert (H2 : wf match (λ l, newVector3 (index l 0) (index l 1) (index l 2))
                          <$> c_lookAt command with
                  | Some v =>
                      set_cameraLookAt (Some v)
                        (update_node (uid_of camera)
                           (set_rotation (lookAt_rotation (world b1) (uid_of camera)
                                            (x v) (y v) (z v))) b1)
                  | None => b1
                  end).
  { destruct (_ <$> c_lookAt command) as [v |]; [| done].
    by apply (wf_update_node (uid_of camera) _ b1). }
  revert H2. generalize (match (λ l, newVector3 (index l 0) (index l 1) (index l 2))
                          <$> c_lookAt command with
                  | Some v =>
                      set_cameraLookAt (Some v)
                        (update_node (uid_of camera)
                           (set_rotation (lookAt_rotation (world b1) (uid_of camera)
                                            (x v) (y v) (z v))) b1)
                  | None => b1
                  end). intros b2 H2.
  destruct (_ && _); [| done].
  apply wf_update_node; [apply uid_with_lens | done].
Qed.

Lemma wf_dispatch clk command b : wf b → wf (dispatch clk command b).2.
Proof.
  intros Hwf. unfold dispatch.
  repeat match goal with
  | |- context [if ?c then _ else _] => destruct c
  end;
  first
    [ done
    | by destruct (getSceneState (c_maxDepth command) b)
    | by destruct (findObjects command b)
    | by apply wf_moveObject
    | by apply wf_setTransform
    | by apply wf_setVisibility
    | by apply wf_lookAt
    | by apply wf_setOpacity
    | by apply wf_setCameraPosition
    | by apply wf_addPrimitive
    | by apply wf_removeObject
    | by apply wf_duplicateObject
    | by apply wf_addLight ].
Qed.

(** The interpreter keeps the state well formed. *)
Lemma wf_handleCommand clk command b : wf b → wf (handleCommand clk command b).2.
Proof.
  intros Hwf. unfold handleCommand, bind. rewrite result_of_dispatch.
  pose proof (wf_dispatch clk command b Hwf) as Hd.
  destruct (dispatch clk command b) as [[r | e] b1];
    rewrite sendResponse_returns; cbn [snd] in *;
    by destruct (is_open (ws b1) && truthy (c_requestId command)).
Qed.

Lemma wf_rotate b entry : wf b → wf (rotate b entry).
Proof.
  intros Hwf. unfold rotate. destruct (resolve_id entry.1 b); [| done].
  by apply wf_update_node.
Qed.

(** So does the render-loop hook. *)
Lemma wf_update clk b : wf b → wf (update clk b).
Proof.
  intros Hwf. unfold update.
  assert (H1 : wf (foldl rotate b (rotatingObjects b))).
  { generalize (rotatingObjects b). intros l. revert b Hwf.
    induction l as [| e l IH]; intros b Hwf; [done |].
    cbn. by apply IH, wf_rotate. }
  revert H1. generalize (foldl rotate b (rotatingObjects b)). intros b1 H1.
  destruct (cameraTween b1) as [tween |]; [| done].
  unfold advance. destruct (getActiveCamera b1) as [camera |]; [| done].
  set (t := progress (now clk) tween).
  assert (H2 : wf (update_node (uid_of camera)
                     (set_position (lerpVectors (from tween) (to tween) t)) b1))
    by by apply wf_update_node.
  revert H2. generalize (update_node (uid_of camera)
                     (set_position (lerpVectors (from tween) (to tween) t)) b1).
  intros b2 H2.
  assert (H3 : ∀ b3, wf b3 →
                 wf (update_node (uid_of camera)
                       (with_lens (lerp_lens tween t)) b3)).
  { intros b3 H3. apply wf_update_node; [apply uid_with_lens | done]. }
  destruct (toLookAt tween) as [toL |].
  - set (b3 := set_cameraLookAt _ _).
    assert (Hb3 : wf b3) by (by apply (wf_update_node (uid_of camera) _ b2)).
    specialize (H3 b3 Hb3). by destruct (Qle_bool 1 t).
  - specialize (H3 b2 H2). by destruct (Qle_bool 1 t).
Qed.

End Preservation.

End MCPBridgeFacts.

Module BridgeServerLedgerFacts.
Import Js BridgeServer BridgeServerFacts BridgeServerLedger.

Lemma Ledger_initial : Ledger initial.
Proof.
  split; cbn.
  - intros n Hn. lia.
  - intros n [pr Hp]. by rewrite lookup_empty in Hp.
  - intros p Hp. by apply elem_of_nil in Hp.
Qed.

Lemma Ledger_settle_pending h o s :
  is_Some (pendingRequests s !! request_name h) →
  Ledger s →
  Ledger (settle h o
            (set_pendingRequests (delete (request_name h) (pendingRequests s))
               (clearTimeout h s))).
Proof.
  intros Hh [HA HP HS]. split; cbn.
  - intros n Hn. destruct (decide (n = h)) as [-> | Hne].
    + right. rewrite fmap_app. apply elem_of_app. right. cbn.
      apply elem_of_cons. by left.
    + destruct (HA n Hn) as [Hp | Hs].
      * left. rewrite lookup_delete_ne; [done |].
        intros E. by apply request_name_inj in E.
      * right. rewrite fmap_app. apply elem_of_app. by left.
  - intros n [pr Hp]. apply lookup_delete_Some in Hp as [_ Hp]. apply HP. by eexists.
  - intros p Hp. rewrite fmap_app in Hp. apply elem_of_app in Hp as [Hp | Hp].
    + by apply HS.
    + cbn in Hp. apply list_elem_of_singleton in Hp as ->. by apply HP.
Qed.

Lemma Ledger_handleMessage m s : Inv s → Ledger s → Ledger (handleMessage m s).
Proof.
  intros HI HL. unfold handleMessage.
  set (s1 := if has_prop "data" m then set_lastSceneState m s else s).
  assert (HI1 : Inv s1) by (unfold s1; destruct (has_prop "data" m);
                            [by apply Inv_set_lastSceneState | done]).
  assert (HL1 : Ledger s1).
  { unfold s1. destruct (has_prop "data" m); [| done]. by destruct HL. }
  destruct (message_requestId m) as [rid |]; [| done].
  destruct (pending_get rid s1) as [pr |] eqn:Hget; [| done].
  destruct rid as [| | | | | k | |]; try discriminate. cbn in Hget.
  destruct (inv_pending _ HI1 k pr Hget) as (n & c & -> & -> & Hle & Hn).
  cbn. by apply (Ledger_settle_pending n _ s1).
Qed.

Lemma Ledger_fire h s : Inv s → Ledger s → Ledger (fire h s).
Proof.
  intros HI HL. unfold fire. destruct (timers s !! h) as [tc |] eqn:Htc; [| done].
  destruct (inv_timers _ HI h tc Htc) as (Hp & Hr & Hpend).
  unfold on_timeout. rewrite Hp, Hr.
  destruct (falls_back _); by apply (Ledger_settle_pending h _ s).
Qed.

Lemma Ledger_sendCommand c tx s :
  Inv s → Ledger s → Ledger (sendCommand c tx s).2.
Proof.
  intros HI [HA HP HS]. destruct (isConnected s) eqn:Hc;
    [| unfold sendCommand; by rewrite Hc].
  destruct tx as [| e].
  - destruct (sendCommand_sent c s Hc) as (_ & Hid & Hp & _ & Hs & _).
    cbn zeta in *. split; rewrite ?Hid, ?Hp, ?Hs.
    + intros n Hn. destruct (decide (n = requestId s + 1)%N) as [-> | Hne].
      * left. rewrite lookup_insert_eq. by eexists.
      * destruct (HA n ltac:(lia)) as [Hpend | Hset]; [left | by right].
        rewrite lookup_insert_ne; [done |].
        intros E. apply request_name_inj in E. lia.
    + intros n [pr Hn]. apply lookup_insert_Some in Hn as [[E _] | [_ Hn]].
      * apply request_name_inj in E. lia.
      * apply HP. by eexists.
    + done.
  - rewrite sendCommand_throws by done. unfold reject, settle, set_requestId.
    split; cbn.
    + intros n Hn. destruct (decide (n = requestId s + 1)%N) as [-> | Hne].
      * right. rewrite fmap_app. apply elem_of_app. right. cbn.
        apply elem_of_cons. by left.
      * destruct (HA n ltac:(lia)) as [Hpend | Hset]; [by left | right].
        rewrite fmap_app. apply elem_of_app. by left.
    + done.
    + intros p Hp. rewrite fmap_app in Hp. apply elem_of_app in Hp as [Hp | Hp].
      * by apply HS.
      * cbn in Hp. apply list_elem_of_singleton in Hp as ->. lia.
Qed.

Lemma rejections_all s n pr :
  pendingRequests s !! request_name n = Some pr → promise pr = n →
  n ∈ (rejections s).*1.
Proof.
  intros Hp Hn. unfold rejections. rewrite <- list_fmap_compose.
  apply list_elem_of_fmap. exists (request_name n, pr). split; [done |].
  by apply elem_of_map_to_list.
Qed.

Lemma Ledger_close s : Inv s → Ledger s → Ledger (close s).
Proof.
  intros HI [HA HP HS]. rewrite close_state by done. split; cbn.
  - intros n Hn. right. rewrite fmap_app. apply elem_of_app.
    destruct (HA n Hn) as [[pr Hp] | Hs]; [right | by left].
    destruct (inv_pending _ HI _ _ Hp) as (m & c & E & -> & _).
    apply request_name_inj in E as <-. by apply (rejections_all s n (mkPending n n)).
  - intros n [pr Hp]. by rewrite lookup_empty in Hp.
  - intros p Hp. rewrite fmap_app in Hp. apply elem_of_app in Hp as [Hp | Hp].
    + by apply HS.
    + apply rejections_promise in Hp; [| done]. apply HP. by eexists.
Qed.

Lemma Ledger_step s e : Inv s → Ledger s → Ledger (step s e).
Proof.
  intros HI HL. destruct e as [| rs | m | | c tx | h |]; cbn [step].
  - by destruct HL.
  - destruct (client s); by destruct HL.
  - by apply Ledger_handleMessage.
  - by destruct HL.
  - by apply Ledger_sendCommand.
  - by apply Ledger_fire.
  - by apply Ledger_close.
Qed.

Lemma Ledger_reachable s : reachable s → Ledger s.
Proof.
  intros [events ->]. unfold run.
  induction events as [| e events IH] using rev_ind; cbn.
  - apply Ledger_initial.
  - rewrite foldl_snoc. apply Ledger_step; [| done].
    apply Inv_reachable. by exists events.
Qed.

Lemma outcome_is_Some p s : p ∈ (settled s).*1 → is_Some (outcome p s).
Proof.
  unfold outcome. generalize (settled s). intros l Hin.
  induction l as [| [q o] l IH]; [by apply elem_of_nil in Hin |].
  destruct (decide (q = p)) as [-> | Hne].
  - rewrite filter_cons_True by done. by eexists.
  - rewrite filter_cons_False by done. apply IH.
    rewrite fmap_cons in Hin. apply elem_of_cons in Hin as [? | ?]; [| done].
    cbn in *. congruence.
Qed.

(** X2: the books of the correlator balance.  In every state the server can
    reach, a request number is in exactly one of three conditions: not yet
    given out (beyond the counter: no entry, no timer, promise unsettled),
    pending (its entry and its timer are there and its promise is
    unsettled), or settled (entry and timer gone, promise decided). *)
Theorem every_request_is_pending_or_settled s n :
  reachable s →
  ((n = 0 ∨ requestId s < n)%N →
     pendingRequests s !! request_name n = None
     ∧ timers s !! n = None ∧ outcome n s = None)
  ∧ ((0 < n <= requestId s)%N →
     (pendingRequests s !! request_name n = Some (mkPending n n)
      ∧ is_Some (timers s !! n) ∧ outcome n s = None)
     ∨ (pendingRequests s !! request_name n = None
        ∧ timers s !! n = None ∧ is_Some (outcome n s))).
Proof.
  intros Hreach. pose proof (Inv_reachable s Hreach) as HI.
  pose proof (Ledger_reachable s Hreach) as [HA HP HS].
  assert (Hexcl : ∀ tc, timers s !! n = Some tc →
            pendingRequests s !! request_name n = Some (mkPending n n)
            ∧ outcome n s = None).
  { intros tc Htc. destruct (inv_timers _ HI n tc Htc) as (_ & _ & Hpend).
    split; [done |]. apply outcome_unsettled. by apply (armed_unsettled s n tc). }
  assert (Hpend : ∀ pr, pendingRequests s !! request_name n = Some pr →
            pr = mkPending n n ∧ is_Some (timers s !! n) ∧ (0 < n <= requestId s)%N).
  { intros pr Hp. destruct (inv_pending _ HI _ _ Hp) as (m & c & E & -> & Hle & Hm).
    apply request_name_inj in E as <-. split; [done |]. split; [by eexists |].
    split; [| done]. apply HP. by eexists. }
  split.
  - intros Hn.
    destruct (pendingRequests s !! request_name n) as [pr |] eqn:Hp.
    { destruct (Hpend pr eq_refl) as (_ & _ & Hr). lia. }
    split; [done |].
    destruct (timers s !! n) as [tc |] eqn:Htc.
    { destruct (Hexcl tc eq_refl) as [Hp' _]. congruence. }
    split; [done |]. apply outcome_unsettled. intros Hin.
    pose proof (HS n Hin). destruct (inv_settled _ HI n Hin) as [Hle _]. lia.
  - intros Hn. destruct (pendingRequests s !! request_name n) as [pr |] eqn:Hp.
    + left. destruct (Hpend pr eq_refl) as (-> & [tc Htc] & _).
      split; [done |]. split; [by eexists |]. by destruct (Hexcl tc Htc).
    + right. split; [done |].
      destruct (HA n Hn) as [[pr Hp'] | Hin]; [congruence |].
      split; [by destruct (inv_settled _ HI n Hin) | by apply outcome_is_Some].
Qed.

Lemma every_request_is_pending_or_settled_witness :
  (pendingRequests two_in_flight !! request_name 3 = None
   ∧ timers two_in_flight !! 3%N = None ∧ outcome 3 two_in_flight = None)
  ∧ ((pendingRequests two_in_flight !! request_name 2 = Some (mkPending 2 2)
      ∧ is_Some (timers two_in_flight !! 2%N) ∧ outcome 2 two_in_flight = None)
     ∨ (pendingRequests two_in_flight !! request_name 2 = None
        ∧ timers two_in_flight !! 2%N = None ∧ is_Some (outcome 2 two_in_flight))).
Proof.
  assert (Hreach : reachable two_in_flight) by (by eexists).
  split.
  - apply (every_request_is_pending_or_settled two_in_flight 3 Hreach).
    right. vm_compute. reflexivity.
  - apply (every_request_is_pending_or_settled two_in_flight 2 Hreach).
    split; vm_compute; [reflexivity | discriminate].
Defined.




Lemma fire_disarmed h s : timers s !! h = None → fire h s = s.
Proof. intros Hh. unfold fire. by rewrite Hh. Qed.

(** X4: of the response and the deadline of one request, the first to come
    decides and the second is a no-op.  When the response is handled first,
    the timer is disarmed and its firing leaves the state as it is; when
    the deadline fires first, the promise is decided by it and the late
    response changes neither the table, nor the timers, nor any promise. *)
Theorem first_of_response_and_deadline_decides s m n :
  reachable s →
  message_requestId m = Some (VStr (request_name n)) →
  is_Some (pendingRequests s !! request_name n) →
  (outcome n (handleMessage m s) = Some (Fulfilled (message_data m))
   ∧ fire n (handleMessage m s) = handleMessage m s)
  ∧ (is_Some (outcome n (fire n s))
     ∧ pendingRequests (handleMessage m (fire n s)) = pendingRequests (fire n s)
     ∧ timers (handleMessage m (fire n s)) = timers (fire n s)
     ∧ settled (handleMessage m (fire n s)) = settled (fire n s)).
Proof.
  intros Hreach Hrid [pr Hp]. pose proof (Inv_reachable s Hreach) as HI.
  destruct (inv_pending _ HI _ _ Hp) as (n' & c & E & -> & Hle & Htc).
  apply request_name_inj in E as <-. split.
  - destruct (handleMessage_hit s m _ _ HI Hrid Hp) as (_ & _ & Ho & _ & _ & Ht & _).
    cbn [promise timeout] in *. split; [done |].
    apply fire_disarmed. rewrite Ht. apply lookup_delete_eq.
  - destruct (fire_armed s n _ HI Htc) as (Hp' & Ht' & Hs' & Ho'). cbn zeta in *.
    split; [by eexists |].
    apply (handleMessage_miss (fire n s) m).
    intros rid Hrid'. rewrite Hrid in Hrid'. injection Hrid' as <-.
    rewrite Hp'. apply lookup_delete_eq.
Qed.

Lemma first_of_response_and_deadline_decides_witness :
  fire 2 (handleMessage demo_answer two_in_flight) = handleMessage demo_answer two_in_flight
  ∧ settled (handleMessage demo_answer (fire 2 two_in_flight))
    = settled (fire 2 two_in_flight).
Proof.
  assert (Hreach : reachable two_in_flight) by (by eexists).
  destruct (first_of_response_and_deadline_decides two_in_flight demo_answer 2
              Hreach eq_refl)
    as [[_ H1] (_ & _ & _ & H2)].
  - vm_compute. by eexists.
  - split; [exact H1 | exact H2].
Defined.

(** What a step leaves alone when it settles nothing. *)
Lemma handleMessage_frame m s :
  client (handleMessage m s) = client s
  ∧ requestId (handleMessage m s) = requestId s
  ∧ outbox (handleMessage m s) = outbox s.
Proof.
  unfold handleMessage. destruct (has_prop "data" m);
    destruct (message_requestId m) as [[| | | | | k | |] |]; cbn; try done;
    destruct (pendingRequests s !! k); done.
Qed.

Lemma shut_step s e :
  shut s → e ≠ Connection →
  shut (step s e)
  ∧ settled (step s e) = settled s
  ∧ requestId (step s e) = requestId s
  ∧ outbox (step s e) = outbox s.
Proof.
  intros (Hc & Hp & Ht) Hne. destruct e as [| rs | m | | c tx | h |]; cbn [step].
  - done.
  - by rewrite Hc.
  - destruct (handleMessage_miss s m) as (Hp' & Ht' & Hs').
    { intros rid _. by rewrite Hp, lookup_empty. }
    destruct (handleMessage_frame m s) as (Hc' & Hr' & Ho'). cbn zeta in *.
    unfold shut. by rewrite Hp', Ht', Hc'.
  - done.
  - unfold sendCommand, isConnected. by rewrite Hc.
  - rewrite fire_disarmed; [done |]. by rewrite Ht, lookup_empty.
  - unfold close. rewrite close_loop. cbn. rewrite Hp, map_to_list_empty. cbn.
    unfold shut. cbn. by rewrite app_nil_r.
Qed.

(** X5: [close()] is final.  After it the server has no client, no pending
    entry and no armed timer, and as long as no new client connects, no
    event changes that: timers that fire and messages that arrive settle
    nothing, every [sendCommand] is refused without consuming a number, and
    nothing is transmitted. *)
Theorem nothing_settles_after_close s events :
  reachable s →
  Forall (λ e, e ≠ Connection) events →
  let s' := foldl step (close s) events in
  client s' = None
  ∧ pendingRequests s' = ∅
  ∧ timers s' = ∅
  ∧ settled s' = settled (close s)
  ∧ requestId s' = requestId s
  ∧ outbox s' = outbox s
  ∧ ∀ c tx, sendCommand c tx s' = (Threw (mkError "No game client connected"), s').
Proof.
  intros Hreach Hevents. pose proof (Inv_reachable s Hreach) as HI. cbn zeta.
  assert (Hshut : shut (close s)) by (by rewrite close_state).
  assert (Hid : requestId (close s) = requestId s) by (by rewrite close_state).
  assert (Hout : outbox (close s) = outbox s) by (by rewrite close_state).
  rewrite <- Hid, <- Hout. clear Hid Hout.
  revert Hshut. generalize (close s). clear Hreach HI.
  induction Hevents as [| e events He _ IH]; intros t Hshut; cbn [foldl].
  - destruct Hshut as (Hc & Hp & Ht). repeat split; try done.
    intros c tx. unfold sendCommand, isConnected. by rewrite Hc.
  - destruct (shut_step t e Hshut He) as (Hshut' & Hs & Hr & Ho).
    rewrite <- Hs, <- Hr, <- Ho. by apply IH.
Qed.

Lemma nothing_settles_after_close_witness :
  let late := [Message demo_answer; TimerFires 1; SendCommand demo_move Sent] in
  settled (foldl step (close two_in_flight) late) = settled (close two_in_flight)
  ∧ requestId (foldl step (close two_in_flight) late) = 2%N.
Proof.
  assert (Hreach : reachable two_in_flight) by (by eexists).
  destruct (nothing_settles_after_close two_in_flight
              [Message demo_answer; TimerFires 1; SendCommand demo_move Sent] Hreach)
    as (_ & _ & _ & Hs & Hr & _).
  - repeat (apply Forall_cons; split; [discriminate |]). apply Forall_nil_2.
  - split; [exact Hs | exact Hr].
Defined.

Lemma outcome_None p s : outcome p s = None → p ∉ (settled s).*1.
Proof.
  intros Hnone Hin. destruct (outcome_is_Some p s Hin) as [o Ho]. congruence.
Qed.

(** The decision of a promise after more settlements were logged. *)
Lemma outcome_more p s s' more :
  settled s' = (settled s ++ more)%list →
  outcome p s' = match outcome p s with
                 | Some o => Some o
                 | None => snd <$> head (filter (λ e, e.1 = p) more)
                 end.
Proof.
  intros Hs. unfold outcome. rewrite Hs, filter_app.
  by destruct (filter _ (settled s)).
Qed.

Lemma head_filter_rejections p (l : list (string * PendingRequest)) o :
  snd <$> head (filter (λ e, e.1 = p)
                  ((λ kv, (promise kv.2, Rejected (mkError "Server closed"))) <$> l))
  = Some o →
  o = Rejected (mkError "Server closed")
  ∧ p ∈ ((λ kv, (promise kv.2, Rejected (mkError "Server closed"))) <$> l).*1.
Proof.
  induction l as [| [k pr] l IH]; [done |]. rewrite fmap_cons. cbn [fst snd].
  destruct (decide (promise pr = p)) as [<- | Hne].
  - rewrite filter_cons_True by done. cbn. intros [= <-]. split; [done |].
    apply elem_of_cons. by left.
  - rewrite filter_cons_False by done. intros H. destruct (IH H) as [-> Hin].
    split; [done |]. rewrite fmap_cons. apply elem_of_cons. by right.
Qed.

(** X6: the only ways a promise gets decided.  If a step of a reachable
    server decides a promise that was undecided, then the step is one of
    four: a message carrying the identifier of that pending request (the
    promise is fulfilled with the message minus its [requestId]); the
    firing of that request's own timer (fulfilled with the cache for the two
    fall-back actions, rejected with the timeout error otherwise); the
    [sendCommand] that created it, when the transmission threw (rejected
    with the thrown error); or [close()] while the request was pending
    (rejected with the shutdown error).  A connection, a change of socket
    state, a socket close, a successful send, a foreign message or a
    foreign timer decide nothing. *)
Theorem how_a_promise_gets_decided s e p o :
  reachable s →
  outcome p s = None →
  outcome p (step s e) = Some o →
  match e with
  | Message m =>
      message_requestId m = Some (VStr (request_name p))
      ∧ pendingRequests s !! request_name p = Some (mkPending p p)
      ∧ o = Fulfilled (message_data m)
  | TimerFires h =>
      h = p
      ∧ ∃ tc, timers s !! p = Some tc
              ∧ o = if falls_back (action (t_command tc))
                    then Fulfilled (lastSceneState s)
                    else Rejected (mkError "Command timeout")
  | SendCommand c (Throws error) =>
      isConnected s = true ∧ p = (requestId s + 1)%N ∧ o = Rejected error
  | Close =>
      pendingRequests s !! request_name p = Some (mkPending p p)
      ∧ o = Rejected (mkError "Server closed")
  | Connection | ReadyStateChange _ | SocketClose | SendCommand _ Sent => False
  end.
Proof.
  intros Hreach Hnone Hsome. pose proof (Inv_reachable s Hreach) as HI.
  destruct e as [| rs | m | | c tx | h |]; cbn [step] in Hsome.
  - unfold outcome in *. cbn in Hsome. congruence.
  - destruct (client s); unfold outcome in *; cbn in Hsome; congruence.
  - assert (Hmiss : (∀ k, message_requestId m = Some (VStr k) →
                          pendingRequests s !! k = None) → False).
    { intros Hm. destruct (handleMessage_miss s m Hm) as (_ & _ & Hs).
      unfold outcome in *. cbn zeta in Hs. rewrite Hs in Hsome. congruence. }
    destruct (message_requestId m) as [rid |] eqn:Hrid;
      [| exfalso; apply Hmiss; intros; congruence].
    destruct rid as [| | | | | k | |];
      try (exfalso; apply Hmiss; intros; congruence).
    destruct (pendingRequests s !! k) as [pr |] eqn:Hp;
      [| exfalso; apply Hmiss; intros; congruence].
    destruct (handleMessage_hit s m k pr HI Hrid Hp)
      as (-> & _ & Ho & _ & _ & _ & _ & Hother).
    destruct (inv_pending _ HI _ _ Hp) as (n & c & E & -> & _).
    cbn [promise] in *. clear E.
    destruct (decide (p = n)) as [-> | Hne].
    + rewrite Ho in Hsome. by injection Hsome as <-.
    + rewrite Hother in Hsome by done. congruence.
  - unfold outcome in *. cbn in Hsome. congruence.
  - destruct (isConnected s) eqn:Hc.
    + destruct tx as [| error].
      * destruct (sendCommand_sent c s Hc) as (_ & _ & _ & _ & Hs & _).
        unfold outcome in *. cbn zeta in Hs. rewrite Hs in Hsome. congruence.
      * rewrite sendCommand_throws in Hsome by done. cbn [snd] in Hsome.
        split; [done |].
        destruct (decide (p = requestId s + 1)%N) as [-> | Hne].
        -- split; [done |]. unfold reject in Hsome.
           rewrite (outcome_settle_new _ _ (set_requestId (requestId s + 1) s))
             in Hsome; [congruence |].
           by apply outcome_None in Hnone.
        -- unfold reject in Hsome.
           rewrite (outcome_settle_other _ p _ (set_requestId (requestId s + 1) s))
             in Hsome by done.
           unfold outcome in *. cbn in Hsome. congruence.
    + unfold sendCommand in Hsome. rewrite Hc in Hsome. cbn in Hsome. congruence.
  - destruct (timers s !! h) as [tc |] eqn:Htc.
    + destruct (fire_armed s h tc HI Htc) as (_ & _ & Hs & _). cbn zeta in Hs.
      rewrite (outcome_more p s _ _ Hs), Hnone in Hsome.
      destruct (decide (h = p)) as [-> | Hne].
      * rewrite filter_cons_True in Hsome by done. cbn in Hsome.
        injection Hsome as <-. split; [done |]. by exists tc.
      * by rewrite filter_cons_False in Hsome by done.
    + rewrite fire_disarmed in Hsome by done. congruence.
  - assert (Hs : settled (close s) = (settled s ++ rejections s)%list)
      by (by rewrite close_state).
    rewrite (outcome_more p s _ _ Hs), Hnone in Hsome.
    apply head_filter_rejections in Hsome as [-> Hin].
    split; [| done]. by apply rejections_promise.
Qed.

Lemma how_a_promise_gets_decided_witness :
  message_requestId demo_answer = Some (VStr (request_name 2))
  ∧ pendingRequests two_in_flight !! request_name 2 = Some (mkPending 2 2)
  ∧ Fulfilled (VObj [("success", VBool true); ("data", VArr [])])
    = Fulfilled (message_data demo_answer).
Proof.
  assert (Hreach : reachable two_in_flight) by (by eexists).
  apply (how_a_promise_gets_decided two_in_flight (Message demo_answer) 2 _ Hreach);
    vm_compute; reflexivity.
Defined.

Lemma responses_in_any_order_witness :
  let s := receive_all (send_all (run [Connection]) [demo_move; demo_query])
             [(2%N, [("success", VBool true)]); (1%N, [("success", VBool false)])] in
  outcome 2 s = Some (Fulfilled (VObj [("success", VBool true)]))
  ∧ outcome 1 s = Some (Fulfilled (VObj [("success", VBool false)])).
Proof.
  assert (Hreach : reachable (run [Connection])) by (by eexists).
  pose proof (responses_in_any_order (run [Connection]) [demo_move; demo_query]
                [(2%N, [("success", VBool true)]); (1%N, [("success", VBool false)])]
                Hreach eq_refl) as Hall.
  cbv zeta. split.
  - apply (Hall ltac:(apply (bool_decide_unpack _); vm_compute; exact I)
             ltac:(intros n Hn; apply elem_of_cons in Hn as [-> | Hn];
                   [vm_compute; split; [reflexivity | discriminate] |];
                   apply list_elem_of_singleton in Hn as ->;
                   vm_compute; split; [reflexivity | discriminate])
             (2%N, [("success", VBool true)])).
    apply elem_of_cons. by left.
  - apply (Hall ltac:(apply (bool_decide_unpack _); vm_compute; exact I)
             ltac:(intros n Hn; apply elem_of_cons in Hn as [-> | Hn];
                   [vm_compute; split; [reflexivity | discriminate] |];
                   apply list_elem_of_singleton in Hn as ->;
                   vm_compute; split; [reflexivity | discriminate])
             (1%N, [("success", VBool false)])).
    apply elem_of_cons. right. apply elem_of_cons. by left.
Defined.

End BridgeServerLedgerFacts.

Module MCPBridgeSceneFacts.
Import Js Three ThreeFacts MCPBridge MCPBridgeFacts MCPBridgeScene.

Lemma find_node_getObjectBy u t :
  find_node u t = getObjectBy (λ p, Nat.eqb (uid p) u) t.
Proof.
  induction t as [p cs IH] using Object3D_tree_ind. cbn.
  destruct (Nat.eqb (uid p) u); [done |]. f_equal.
  induction IH as [| c cs Hc _ IHcs]; cbn; [done |]. by rewrite Hc, IHcs.
Qed.

Lemma find_node_modify v u f t :
  (∀ p, uid (f p) = uid p) →
  find_node v (modify u f t) = modify u f <$> find_node v t.
Proof.
  intros Hf. rewrite !find_node_getObjectBy. apply getObjectBy_modify.
  intros p. by rewrite Hf.
Qed.

Lemma first_some_fmap {A B} (g : A → B) (l : list (option A)) :
  first_some (map (fmap g) l) = g <$> first_some l.
Proof. induction l as [| [a |] l IH]; cbn; done. Qed.

Lemma deref_update_node v u f b :
  (∀ p, uid (f p) = uid p) →
  deref v (update_node u f b) = modify u f <$> deref v b.
Proof.
  intros Hf. unfold deref, world. cbn [scene detached update_node set_graph].
  change (modify u f (scene b) :: map (modify u f) (detached b))
    with (map (modify u f) (scene b :: detached b)).
  rewrite <- first_some_fmap, !map_map. f_equal.
  apply map_ext. intros t. by apply find_node_modify.
Qed.

Lemma find_modify (P : Props → bool) u f (cs : list Object3D) :
  (∀ p, P (f p) = P p) →
  List.find (λ node, P (props_of node)) (map (modify u f) cs)
  = modify u f <$> List.find (λ node, P (props_of node)) cs.
Proof.
  intros HP. induction cs as [| c cs IH]; [done |]. cbn [map List.find].
  rewrite props_of_modify.
  assert (E : P (if Nat.eqb (uid_of c) u then f (props_of c) else props_of c)
              = P (props_of c)) by (destruct (Nat.eqb (uid_of c) u); [apply HP | done]).
  rewrite E. destruct (P (props_of c)); [done | apply IH].
Qed.

Lemma children_of_modify u f t :
  children_of (modify u f t) = map (modify u f) (children_of t).
Proof. by destruct t. Qed.

Lemma walk_modify parts u f t :
  keeps_identity f →
  walk parts (modify u f t) = modify u f <$> walk parts t.
Proof.
  intros Hf. revert t. induction parts as [| part parts IH]; intros t; [done |].
  cbn [walk]. rewrite children_of_modify.
  pose proof (find_modify
                (λ p, bool_decide (name p = Some part) || String.eqb (type p) part)
                u f (children_of t)) as E.
  cbn beta in E. rewrite E.
  - destruct (List.find _ (children_of t)) as [child |]; cbn; [apply IH | done].
  - intros p. destruct (Hf p) as (_ & -> & ->). done.
Qed.

Lemma path_lookup_modify path u f t :
  keeps_identity f →
  path_lookup path (modify u f t) = modify u f <$> path_lookup path t.
Proof.
  intros Hf. unfold path_lookup. rewrite walk_modify by done.
  destruct (walk (split "/" path) t) as [current |]; cbn; [| done].
  rewrite !uid_of_modify by (intros p; by destruct (Hf p)).
  by destruct (Nat.eqb (uid_of current) (uid_of t)).
Qed.

(** A lookup after an assignment that keeps the identities finds the same
    node as before, with the assignment done. *)
Lemma findObject_update_node key u f b :
  keeps_identity f →
  findObject key (update_node u f b)
  = match findObject key b with
    | Returns o => Returns (modify u f <$> o)
    | Throws e => Throws e
    end.
Proof.
  intros Hf. unfold findObject.
  cbn [objects scene update_node set_graph].
  assert (Hd : objects b !! key ≫= (λ v, deref v (update_node u f b))
               = modify u f <$> (objects b !! key ≫= (λ v, deref v b))).
  { destruct (objects b !! key) as [v |]; cbn; [| done].
    apply deref_update_node. intros p. by destruct (Hf p). }
  rewrite Hd. destruct (objects b !! key ≫= (λ v, deref v b)) as [o |]; cbn; [done |].
  unfold getObjectByName. rewrite getObjectBy_modify
    by (intros p; destruct (Hf p) as (_ & -> & _); done).
  destruct (getObjectBy _ (scene b)) as [o |]; cbn; [done |].
  destruct key as [path |]; [| done].
  by rewrite path_lookup_modify.
Qed.

(** X7: a moved object is found again, at its new position.  When the
    lookup of [key] finds an object, [moveObject] with a three-element
    position succeeds; the same lookup afterwards finds the object with the
    same handle, name, type, rotation, scale and number of children, and
    its position is exactly the three numbers given.  The name index and
    the set of handles are untouched. *)
Theorem moved_object_is_found_at_its_new_position key px py pz b obj :
  findObject key b = Returns (Some obj) →
  ∃ b' obj',
    moveObject key (Some [px; py; pz]) b = (Returns success, b')
    ∧ findObject key b' = Returns (Some obj')
    ∧ uid_of obj' = uid_of obj
    ∧ position (props_of obj') = mkVector3 (Num px) (Num py) (Num pz)
    ∧ name (props_of obj') = name (props_of obj)
    ∧ type (props_of obj') = type (props_of obj)
    ∧ rotation (props_of obj') = rotation (props_of obj)
    ∧ scale (props_of obj') = scale (props_of obj)
    ∧ length (children_of obj') = length (children_of obj)
    ∧ objects b' = objects b
    ∧ all_uids b' = all_uids b.
Proof.
  intros Hfind. unfold moveObject. rewrite Hfind. cbn [read3 index].
  eexists _, _. split; [reflexivity |].
  set (f := λ p, set_position _ p).
  assert (Hf : keeps_identity f) by done.
  rewrite findObject_update_node, Hfind by done. cbn [fmap option_fmap option_map].
  split; [reflexivity |].
  rewrite props_of_modify, Nat.eqb_refl, children_of_modify, length_map.
  rewrite uid_of_modify by done.
  repeat split; try done.
  apply all_uids_update_node. done.
Qed.

Lemma moved_object_is_found_at_its_new_position_witness :
  ∃ b' obj',
    moveObject (Some "crate") (Some [7; 8; 9]%Q) demo_bridge = (Returns success, b')
    ∧ findObject (Some "crate") b' = Returns (Some obj')
    ∧ uid_of obj' = 2
    ∧ position (props_of obj') = mkVector3 (Num 7) (Num 8) (Num 9).
Proof.
  destruct (moved_object_is_found_at_its_new_position (Some "crate") 7 8 9
              demo_bridge demo_crate eq_refl)
    as (b' & obj' & Hmove & Hfind & Huid & Hpos & _).
  exists b', obj'. split; [exact Hmove |]. split; [exact Hfind |].
  split; [exact Huid | exact Hpos].
Defined.

Section Listing.
Context `{Externals}.








End Listing.


(** A new object hung under [parent] and entered in the name index: it is
    found under its key, and removing it by that key undoes the addition. *)
Lemma spawned parent child key b b0 :
  world b0 = world b →
  parent ∈ all_uids b →
  uid_of child ∉ all_uids b →
  uid_of child ∉ concat (map uids (children_of child)) →
  let b1 := set_objects (<[key := uid_of child]> (objects (add parent child b0)))
              (add parent child b0) in
  findObject key b1 = Returns (Some child)
  ∧ deref (uid_of child) b1 = Some child
  ∧ parent_of (uid_of child) b1 = Some parent
  ∧ ∃ b2,
      removeObject key b1 = (Returns success, b2)
      ∧ scene b2 = scene b
      ∧ detached b2 = (detached b ++ [child])%list
      ∧ objects b2 = delete key (objects b0)
      ∧ rotatingObjects b2 = rotating_delete key (rotatingObjects b0)
      ∧ parent_of (uid_of child) b2 = None.
Proof.
  intros Hworld Hparent Hfresh Hkids. cbn zeta.
  set (b1 := set_objects _ (add parent child b0)).
  assert (Hw1 : world b1 = map (graft parent child) (world b)).
  { unfold b1, world in *. cbn [scene detached set_objects add set_graph].
    injection Hworld as -> ->. done. }
  unfold all_uids in Hfresh, Hparent.
  assert (Hderef : deref (uid_of child) b1 = Some child).
  { unfold deref. rewrite Hw1, find_in_grafted by done. by rewrite decide_True. }
  assert (Hpar : parent_of (uid_of child) b1 = Some parent).
  { unfold parent_of. rewrite Hw1, parent_in_grafted by done. by rewrite decide_True. }
  assert (Hobj : objects b1 !! key = Some (uid_of child))
    by (unfold b1; cbn; apply lookup_insert_eq).
  assert (Hfind : findObject key b1 = Returns (Some child)).
  { unfold findObject. rewrite Hobj. cbn [mbind option_bind]. by rewrite Hderef. }
  split; [done |]. split; [done |]. split; [done |].
  unfold removeObject. rewrite Hfind. unfold removeFromParent. rewrite Hpar, Hderef.
  eexists. split; [done |].
  cbn [scene detached objects rotatingObjects set_objects set_rotatingObjects set_graph].
  assert (Hpruned : map (prune (uid_of child)) (world b1) = world b)
    by (rewrite Hw1; by apply prune_grafted).
  unfold world in Hpruned. cbn [map] in Hpruned. injection Hpruned as Hs Hl.
  assert (Hs' : prune (uid_of child) (scene b1) = scene b) by exact Hs.
  assert (Hl' : map (prune (uid_of child)) (detached b1) = detached b) by exact Hl.
  rewrite Hs', Hl'.
  split; [done |]. split; [done |]. split.
  { unfold b1. cbn [objects set_objects add set_graph]. apply delete_insert_eq. }
  split; [done |].
  unfold parent_of, world. cbn [scene detached set_objects set_rotatingObjects set_graph].
  change (scene b :: (detached b ++ [child])%list) with ((world b ++ [child])%list).
  rewrite map_app, first_some_app, parent_absent_everywhere by done.
  cbn [map first_some]. by rewrite parent_in_absent.
Qed.

Lemma primitive_geometry_known ty size :
  ty ∈ ["cube"; "box"; "sphere"; "cylinder"; "plane"] →
  is_Some (primitive_geometry (Some ty) size).
Proof.
  intros Hin.
  repeat (apply elem_of_cons in Hin as [-> | Hin]; [by eexists |]).
  by apply elem_of_nil in Hin.
Qed.

Lemma fresh_beyond b n : wf b → next_uid b <= n → n ∉ all_uids b.
Proof.
  intros (_ & Hlt & _) Hle Hin. rewrite Forall_forall in Hlt.
  specialize (Hlt n Hin). lia.
Qed.

(** What [addPrimitive] does for a known type. *)
Lemma addPrimitive_adds clk cmd b ty :
  wf b →
  c_type cmd = Some ty →
  toLowerCase ty ∈ ["cube"; "box"; "sphere"; "cylinder"; "plane"] →
  let id := js_or (c_name cmd)
              (Some ("mcp_" +:+ ty +:+ "_" +:+ pretty (Date_now clk))) in
  ∃ mesh b1,
    addPrimitive clk cmd b = (Returns (success_id id), b1)
    ∧ findObject id b1 = Returns (Some mesh)
    ∧ name (props_of mesh) = id
    ∧ type (props_of mesh) = "Mesh"
    ∧ children_of mesh = []
    ∧ position (props_of mesh)
      = match c_position cmd with
        | Some l => Vector3_set (index l 0) (index l 1) (index l 2)
                                (mkVector3 (Num 0) (Num 0) (Num 0))
        | None => mkVector3 (Num 0) (Num 0) (Num 0)
        end
    ∧ geometry (props_of mesh)
      = primitive_geometry (Some (toLowerCase ty)) (default [1; 1; 1]%Q (c_size cmd))
    ∧ parent_of (uid_of mesh) b1 = Some (uid_of (scene b))
    ∧ (∃ m, material (props_of mesh) = Some m
            ∧ materials b1 !! m
              = Some (mkMaterial (or_default (c_color cmd) "#ffffff") false (Num 1)))
    ∧ ∃ b2,
        removeObject id b1 = (Returns success, b2)
        ∧ scene b2 = scene b
        ∧ detached b2 = (detached b ++ [mesh])%list
        ∧ objects b2 = delete id (objects b).
Proof.
  intros Hwf Hty Hknown. cbn zeta. unfold addPrimitive. rewrite Hty. cbn [fmap option_fmap option_map show].
  destruct (primitive_geometry_known _ (default [1; 1; 1]%Q (c_size cmd)) Hknown)
    as [g Hg]. rewrite Hg.
  set (id := js_or (c_name cmd) _).
  set (b0 := set_materials _ (set_next_uid _ b)).
  set (child := Obj (place (c_position cmd) _) []).
  assert (Hu : uid_of child = S (next_uid b))
    by (unfold child, uid_of; cbn [props_of]; by rewrite uid_place).
  rewrite <- Hu.
  destruct (spawned (uid_of (scene b0)) child id b b0) as (Hfind & _ & Hpar & b2 & Hrm).
  - done.
  - exact (scene_in_all_uids b).
  - rewrite Hu. apply fresh_beyond; [done | lia].
  - cbn. apply not_elem_of_nil.
  - exists child. eexists. split; [reflexivity |]. split; [exact Hfind |].
    split; [unfold child; cbn; by destruct (c_position cmd) |].
    split; [unfold child; cbn; by destruct (c_position cmd) |].
    split; [done |].
    split; [unfold child; cbn; by destruct (c_position cmd) |].
    split; [unfold child; cbn; by destruct (c_position cmd) |].
    split; [exact Hpar |]. split.
    + exists (next_uid b). split; [unfold child; cbn; by destruct (c_position cmd) |].
      cbn. apply lookup_insert_eq.
    + exists b2. destruct Hrm as (H1 & H2 & H3 & H4 & _). done.
Qed.

(** X9: a primitive that was added is there, and can be taken away again.
    For the five known types (in any letter case) [addPrimitive] answers
    with the identifier — the given name, or a generated one — and a lookup
    of that identifier finds the new mesh: named by it, of type [Mesh],
    childless, placed at the given position (the origin without one), a
    child of the scene root, with a fresh opaque material of the given
    colour.  [removeObject] on the identifier then restores the scene and
    drops the index entry. *)
Theorem added_primitive_is_registered_and_removable clk cmd b ty :
  wf b →
  c_type cmd = Some ty →
  toLowerCase ty ∈ ["cube"; "box"; "sphere"; "cylinder"; "plane"] →
  let id := js_or (c_name cmd)
              (Some ("mcp_" +:+ ty +:+ "_" +:+ pretty (Date_now clk))) in
  ∃ mesh b1,
    addPrimitive clk cmd b = (Returns (success_id id), b1)
    ∧ findObject id b1 = Returns (Some mesh)
    ∧ name (props_of mesh) = id
    ∧ type (props_of mesh) = "Mesh"
    ∧ children_of mesh = []
    ∧ position (props_of mesh)
      = match c_position cmd with
        | Some l => Vector3_set (index l 0) (index l 1) (index l 2)
                                (mkVector3 (Num 0) (Num 0) (Num 0))
        | None => mkVector3 (Num 0) (Num 0) (Num 0)
        end
    ∧ geometry (props_of mesh)
      = primitive_geometry (Some (toLowerCase ty)) (default [1; 1; 1]%Q (c_size cmd))
    ∧ parent_of (uid_of mesh) b1 = Some (uid_of (scene b))
    ∧ (∃ m, material (props_of mesh) = Some m
            ∧ materials b1 !! m
              = Some (mkMaterial (or_default (c_color cmd) "#ffffff") false (Num 1)))
    ∧ ∃ b2,
        removeObject id b1 = (Returns success, b2)
        ∧ scene b2 = scene b
        ∧ detached b2 = (detached b ++ [mesh])%list
        ∧ objects b2 = delete id (objects b).
Proof. apply addPrimitive_adds. Qed.

Lemma added_primitive_is_registered_and_removable_witness :
  ∃ mesh b1,
    addPrimitive demo_clock add_box demo_bridge = (Returns (success_id (Some "box1")), b1)
    ∧ findObject (Some "box1") b1 = Returns (Some mesh)
    ∧ type (props_of mesh) = "Mesh"
    ∧ parent_of (uid_of mesh) b1 = Some 0
    ∧ ∃ b2, removeObject (Some "box1") b1 = (Returns success, b2)
            ∧ scene b2 = demo_scene.
Proof.
  destruct (added_primitive_is_registered_and_removable demo_clock add_box
              demo_bridge "box" wf_demo_bridge eq_refl)
    as (mesh & b1 & Hadd & Hfind & _ & Hty & _ & _ & _ & Hpar & _ & b2 & Hrm & Hsc & _).
  - apply elem_of_cons. right. apply elem_of_cons. by left.
  - exists mesh, b1. split; [exact Hadd |]. split; [exact Hfind |].
    split; [exact Hty |]. split; [exact Hpar |]. exists b2. split; [exact Hrm | exact Hsc].
Defined.

Section Search.
Context `{Externals}.

Lemma search_without_criteria filter obj :
  truthy (c_name filter) = false →
  truthy (c_nameContains filter) = false →
  truthy (c_type filter) = false →
  ∀ trail, search filter trail obj = [].
Proof.
  intros Hn Hc Ht. induction obj as [p cs IH] using Object3D_tree_ind.
  intros trail. cbn [search props_of]. unfold matches. rewrite Hn, Hc, Ht. cbn.
  induction IH as [| c cs Hc' _ IHcs]; cbn; [done |]. by rewrite Hc', IHcs.
Qed.

(** X10: a search without criteria finds nothing.  When none of [name],
    [nameContains] and [type] is given (or all are empty strings),
    [findObjects] returns the empty list whatever the scene holds — it does
    not list everything, and it cannot throw. *)
Theorem findObjects_without_criteria_finds_nothing filter b :
  truthy (c_name filter) = false →
  truthy (c_nameContains filter) = false →
  truthy (c_type filter) = false →
  findObjects filter b = Returns (VArr []).
Proof.
  intros Hn Hc Ht. unfold findObjects. by rewrite search_without_criteria.
Qed.

End Search.

Lemma findObjects_without_criteria_finds_nothing_witness :
  findObjects (H := demo_externals) (blank "findObjects") demo_bridge
  = Returns (VArr []).
Proof.
  apply (findObjects_without_criteria_finds_nothing (H := demo_externals));
    reflexivity.
Defined.

Section CameraMoves.
Context `{Externals}.

Lemma Qmax_0_positive d : (0 < d)%Q → Qmax 0 d = d.
Proof.
  intros Hd. unfold Qmax, GenericMinMax.gmax.
  by rewrite (proj1 (Qlt_alt 0 d) Hd).
Qed.

Lemma Qmin_1_reached t : (1 <= t)%Q → Qmin 1 t = 1%Q.
Proof.
  intros Ht. unfold Qmin, GenericMinMax.gmin.
  destruct (1 ?= t)%Q eqn:Hc; try done;
    apply Qgt_alt in Hc; by apply Qlt_not_le in Hc.
Qed.

Lemma lerpVectors_end v a b c :
  numeric v →
  Vector3_eq (lerpVectors v (mkVector3 (Num a) (Num b) (Num c)) 1)
             (mkVector3 (Num a) (Num b) (Num c)).
Proof.
  intros (x0 & y0 & z0 & ->). repeat split; cbn; ring.
Qed.

(** X11: an animated camera move arrives.  [setCameraPosition] with
    [animate] and a positive [duration] moves nothing at once: it records a
    tween from the camera's present position to the target.  Every later
    frame puts the camera on the straight line between the two, at
    parameter [min(1, elapsed / duration)]; the first frame at or after
    [start + duration] puts it at the target itself (up to arithmetic, when
    it started from a numeric position) and ends the tween. *)
Theorem animated_camera_move_arrives clk0 clk1 command b camera p0 p1 p2 d :
  getActiveCamera b = Some camera →
  c_position command = Some [p0; p1; p2] →
  c_animate command = Some true →
  c_duration command = Some d →
  (0 < d)%Q →
  let target := mkVector3 (Num p0) (Num p1) (Num p2) in
  ∃ tween b1,
    setCameraPosition clk0 command b = (Returns success, b1)
    ∧ cameraTween b1 = Some tween
    ∧ scene b1 = scene b
    ∧ startTime tween = now clk0
    ∧ duration tween = d
    ∧ from tween = position (props_of camera)
    ∧ to tween = target
    ∧ (position ∘ props_of) <$> getActiveCamera (update clk1 b1)
      = Some (lerpVectors (position (props_of camera)) target
                (Qmin 1 ((now clk1 - now clk0) / d)))
    ∧ ((now clk0 + d <= now clk1)%Q →
         cameraTween (update clk1 b1) = None
         ∧ (position ∘ props_of) <$> getActiveCamera (update clk1 b1)
           = Some (lerpVectors (position (props_of camera)) target 1)
         ∧ (numeric (position (props_of camera)) →
            Vector3_eq (lerpVectors (position (props_of camera)) target 1) target))
    ∧ ((now clk1 < now clk0 + d)%Q → cameraTween (update clk1 b1) = Some tween).
Proof.
  intros Hcam Hpos Hanim Hdur Hd. cbn zeta.
  unfold setCameraPosition. rewrite Hcam, Hpos, Hanim, Hdur. cbn [default].
  rewrite (Qmax_0_positive d Hd).
  assert (Hpositive : Qle_bool d 0 = false).
  { apply not_true_is_false. intros Hle. apply Qle_bool_iff in Hle.
    by apply Qle_not_lt in Hle. }
  rewrite Hpositive. cbn [negb andb].
  eexists _, _. split; [reflexivity |].
  set (tween := {| startTime := now clk0 |}).
  set (b1 := set_cameraTween (Some tween) b).
  assert (Hcam1 : getActiveCamera b1 = Some camera) by done.
  assert (Hprog : progress (now clk1) tween = Qmin 1 ((now clk1 - now clk0) / d))
    by (by apply progress_positive).
  assert (Hupd : cameraTween (update clk1 b1)
                 = (if Qle_bool 1 (progress (now clk1) tween) then None else Some tween)
                 ∧ (position ∘ props_of) <$> getActiveCamera (update clk1 b1)
                   = Some (lerpVectors (position (props_of camera))
                             (mkVector3 (Num p0) (Num p1) (Num p2))
                             (progress (now clk1) tween))).
  { unfold update.
    destruct (rotation_loop_keeps_camera (rotatingObjects b1) b1 camera Hcam1)
      as (Htw & camera' & Hcam' & _ & Hpos').
    rewrite Htw. cbn [cameraTween b1 set_cameraTween].
    destruct (advance_camera clk1 tween _ camera' Hcam') as [Ht Hp]. cbn zeta in *.
    rewrite Ht, Htw, Hp. done. }
  destruct Hupd as [Htw Hp].
  do 6 (split; [done |]).
  split; [by rewrite Hp, Hprog |]. split.
  - intros Hend.
    assert (Hone : Qmin 1 ((now clk1 - now clk0) / d) = 1%Q).
    { apply Qmin_1_reached. apply ratio_ge_1; [| done]. lra. }
    rewrite Htw, Hp, Hprog, Hone.
    split; [done |]. split; [done |]. apply lerpVectors_end.
  - intros Hbefore. rewrite Htw.
    replace (Qle_bool 1 (progress (now clk1) tween)) with false; [done |].
    symmetry. apply not_true_is_false. intros Hle. apply Qle_bool_iff in Hle.
    rewrite Hprog in Hle.
    assert (Hlt : ((now clk1 - now clk0) / d < 1)%Q) by (apply ratio_lt_1; [lra | done]).
    pose proof (Q.le_min_r 1 ((now clk1 - now clk0) / d)) as Hmin. lra.
Qed.

(** X12: an immediate camera move is final.  Without [animate], or with a
    duration that is missing or not positive, [setCameraPosition] puts the
    active camera at the target at once and cancels whatever tween was
    running, so that later frames leave the camera where it was put. *)
Theorem immediate_camera_move_is_final clk command b camera p0 p1 p2 :
  getActiveCamera b = Some camera →
  c_position command = Some [p0; p1; p2] →
  default false (c_animate command) = false
  ∨ match c_duration command with Some d => (d <= 0)%Q | None => True end →
  let target := mkVector3 (Num p0) (Num p1) (Num p2) in
  ∃ b1 camera',
    setCameraPosition clk command b = (Returns success, b1)
    ∧ cameraTween b1 = None
    ∧ getActiveCamera b1 = Some camera'
    ∧ uid_of camera' = uid_of camera
    ∧ position (props_of camera') = target
    ∧ ∀ clk',
        cameraTween (update clk' b1) = None
        ∧ (position ∘ props_of) <$> getActiveCamera (update clk' b1) = Some target.
Proof.
  intros Hcam Hpos Hnow. cbn zeta. unfold setCameraPosition. rewrite Hcam, Hpos.
  assert (Hcond : default false (c_animate command)
                  && negb (Qle_bool match c_duration command with
                                    | Some d => Qmax 0 d
                                    | None => 0%Q
                                    end 0) = false).
  { destruct Hnow as [-> | Hd]; [done |]. apply andb_false_iff. right.
    apply negb_false_iff, Qle_bool_iff.
    destruct (c_duration command) as [d |]; [| done].
    rewrite Q.max_l; [apply Qle_refl | done]. }
  rewrite Hcond.
  set (cam := uid_of camera).
  set (b1 := update_node cam _ (set_cameraTween None b)).
  assert (Hstep : ∀ f b0 c0,
            getActiveCamera b0 = Some c0 → uid_of c0 = cam → cameraTween b0 = None →
            (∀ p, isCamera (f p) = isCamera p) → (∀ p, uid (f p) = uid p) →
            (∀ p, position (f p) = position p) →
            getActiveCamera (update_node cam f b0) = Some (modify cam f c0)
            ∧ uid_of (modify cam f c0) = cam
            ∧ cameraTween (update_node cam f b0) = None
            ∧ position (props_of (modify cam f c0)) = position (props_of c0)).
  { intros f b0 c0 Hc0 Hu0 Ht0 Hf1 Hf2 Hf3.
    rewrite getActiveCamera_update_node, Hc0 by done.
    rewrite uid_of_modify by done. rewrite props_of_modify, Hu0, Nat.eqb_refl.
    done. }
  assert (H1 : ∃ c1, getActiveCamera b1 = Some c1 ∧ uid_of c1 = cam
                     ∧ cameraTween b1 = None
                     ∧ position (props_of c1) = mkVector3 (Num p0) (Num p1) (Num p2)).
  { eexists. unfold b1. rewrite getActiveCamera_update_node by done.
    change (getActiveCamera (set_cameraTween None b)) with (getActiveCamera b).
    rewrite Hcam. cbn [fmap option_fmap option_map]. split; [reflexivity |].
    rewrite uid_of_modify by done. rewrite props_of_modify.
    fold cam. rewrite Nat.eqb_refl. done. }
  clearbody b1. destruct H1 as (c1 & Hc1 & Hu1 & Ht1 & Hp1).
  set (b2 := match _ <$> c_lookAt command with Some v => _ | None => b1 end).
  assert (H2 : ∃ c2, getActiveCamera b2 = Some c2 ∧ uid_of c2 = cam
                     ∧ cameraTween b2 = None
                     ∧ position (props_of c2) = mkVector3 (Num p0) (Num p1) (Num p2)).
  { unfold b2. destruct (_ <$> c_lookAt command) as [v |]; [| by exists c1].
    destruct (Hstep (set_rotation (lookAt_rotation (world b1) cam (x v) (y v) (z v)))
                b1 c1 Hc1 Hu1 Ht1) as (Ha & Hb & Hc & Hd); try done.
    eexists. split; [exact Ha |]. split; [exact Hb |]. split; [exact Hc |].
    by rewrite Hd. }
  clearbody b2. destruct H2 as (c2 & Hc2 & Hu2 & Ht2 & Hp2).
  set (b3 := if _ && _ then _ else b2).
  assert (H3 : ∃ c3, getActiveCamera b3 = Some c3 ∧ uid_of c3 = cam
                     ∧ cameraTween b3 = None
                     ∧ position (props_of c3) = mkVector3 (Num p0) (Num p1) (Num p2)).
  { unfold b3.
    match goal with
    | |- context [if ?c then update_node _ _ _ else _] => destruct c
    end; [| by exists c2].
    destruct (Hstep (with_lens (assign_lens (c_fov command) (c_near command)
                                            (c_far command)))
                b2 c2 Hc2 Hu2 Ht2) as (Ha & Hb & Hc & Hd).
    - apply isCamera_with_lens.
    - apply uid_with_lens.
    - apply position_with_lens.
    - eexists. split; [exact Ha |]. split; [exact Hb |]. split; [exact Hc |].
      by rewrite Hd. }
  clearbody b3. destruct H3 as (c3 & Hc3 & Hu3 & Ht3 & Hp3).
  exists b3, c3. do 5 (split; [done |]). intros clk'. unfold update.
  destruct (rotation_loop_keeps_camera (rotatingObjects b3) b3 c3 Hc3)
    as (Htw & camera' & Hcam' & _ & Hpos').
  rewrite Htw, Ht3. cbv beta iota zeta. rewrite Htw.
  split; [done |]. rewrite Hcam'. cbn. by rewrite Hpos', Hp3.
Qed.

End CameraMoves.

Lemma resolve_id_update_node id u f b :
  keeps_identity f →
  resolve_id id (update_node u f b) = modify u f <$> resolve_id id b.
Proof.
  intros Hf. unfold resolve_id. cbn [objects scene update_node set_graph].
  assert (Hd : objects b !! id ≫= (λ v, deref v (update_node u f b))
               = modify u f <$> (objects b !! id ≫= (λ v, deref v b))).
  { destruct (objects b !! id) as [v |]; cbn; [| done].
    apply deref_update_node. intros p. by destruct (Hf p). }
  rewrite Hd. destruct (objects b !! id ≫= (λ v, deref v b)) as [o |]; cbn; [done |].
  unfold getObjectByName. apply getObjectBy_modify.
  intros p. by destruct (Hf p) as (_ & -> & _).
Qed.

Section Rotation.
Context `{Externals}.

Lemma frames_snoc b clocks clk :
  frames b (clocks ++ [clk]) = update clk (frames b clocks).
Proof. unfold frames. by rewrite foldl_snoc. Qed.

(** One frame with a single rotating object and no tween. *)
Lemma update_single id speed b obj r clk :
  rotatingObjects b = [(id, speed)] →
  cameraTween b = None →
  resolve_id id b = Some obj →
  ey (rotation (props_of obj)) = Num r →
  ∃ obj',
    rotatingObjects (update clk b) = [(id, speed)]
    ∧ cameraTween (update clk b) = None
    ∧ resolve_id id (update clk b) = Some obj'
    ∧ uid_of obj' = uid_of obj
    ∧ ey (rotation (props_of obj')) = Num (r + speed * (16 # 1000))
    ∧ position (props_of obj') = position (props_of obj).
Proof.
  intros Hrot Htw Hres Hr. unfold update. rewrite Hrot. cbn [foldl].
  unfold rotate. cbn [fst snd]. rewrite Hres.
  set (f := λ p, set_rotation _ p).
  assert (Hf : keeps_identity f) by done.
  cbn [cameraTween update_node set_graph]. rewrite Htw.
  exists (modify (uid_of obj) f obj).
  rewrite resolve_id_update_node, Hres by done.
  rewrite uid_of_modify by done. rewrite props_of_modify, Nat.eqb_refl.
  cbn. rewrite Hr. done.
Qed.

(** X13: a rotating object turns by [speed * 0.016] per frame until it is
    stopped.  [startRotation] answers success and stores the speed ([1]
    when [speed] is missing or zero); with no other object rotating and no
    camera tween, after [n] frames the object's [rotation.y] has grown by
    [n * speed * 0.016] and nothing else about it has changed; after
    [stopRotation] with the same [id], frames leave the scene as it is. *)
Theorem rotation_turns_by_speed_each_frame clk start stop b obj r clocks :
  c_action start = "startRotation" →
  c_action stop = "stopRotation" →
  c_id stop = c_id start →
  rotatingObjects b = [] →
  cameraTween b = None →
  resolve_id (c_id start) b = Some obj →
  ey (rotation (props_of obj)) = Num r →
  let speed := effective_speed start in
  let b1 := (dispatch clk start b).2 in
  let b2 := frames b1 clocks in
  let b3 := (dispatch clk stop b2).2 in
  (dispatch clk start b).1 = Returns success
  ∧ (∃ obj' r',
       resolve_id (c_id start) b2 = Some obj'
       ∧ uid_of obj' = uid_of obj
       ∧ position (props_of obj') = position (props_of obj)
       ∧ ey (rotation (props_of obj')) = Num r'
       ∧ r' == r + inject_Z (Z.of_nat (length clocks)) * (speed * (16 # 1000)))
  ∧ (dispatch clk stop b2).1 = Returns success
  ∧ rotatingObjects b3 = []
  ∧ ∀ clk', scene (update clk' b3) = scene b2.
Proof.
  intros Hstart Hstop Hid Hrot Htw Hres Hr. cbn zeta.
  assert (Hd1 : dispatch clk start b
                = (Returns success,
                   set_rotatingObjects [(c_id start, effective_speed start)] b)).
  { unfold dispatch. rewrite Hstart. cbn. unfold bind, write, ret. cbn.
    by rewrite Hrot. }
  rewrite Hd1. cbn [fst snd]. split; [done |].
  set (b1 := set_rotatingObjects _ b).
  assert (Hrun : ∃ obj' r',
            rotatingObjects (frames b1 clocks) = [(c_id start, effective_speed start)]
            ∧ cameraTween (frames b1 clocks) = None
            ∧ resolve_id (c_id start) (frames b1 clocks) = Some obj'
            ∧ uid_of obj' = uid_of obj
            ∧ position (props_of obj') = position (props_of obj)
            ∧ ey (rotation (props_of obj')) = Num r'
            ∧ r' == r + inject_Z (Z.of_nat (length clocks))
                        * (effective_speed start * (16 # 1000))).
  { induction clocks as [| c clocks IH] using rev_ind.
    - exists obj, r. repeat split; try done. cbn. ring.
    - destruct IH as (obj' & r' & H1 & H2 & H3 & H4 & H5 & H6 & H7).
      rewrite frames_snoc.
      destruct (update_single _ _ _ obj' r' c H1 H2 H3 H6)
        as (obj'' & G1 & G2 & G3 & G4 & G5 & G6).
      exists obj'', (r' + effective_speed start * (16 # 1000))%Q.
      split; [done |]. split; [done |]. split; [done |].
      split; [congruence |]. split; [congruence |]. split; [done |].
      rewrite H7, length_app. cbn [length].
      rewrite Nat.add_1_r, Nat2Z.inj_succ. unfold Z.succ. rewrite inject_Z_plus.
      ring. }
  destruct Hrun as (obj' & r' & H1 & H2 & H3 & H4 & H5 & H6 & H7).
  split; [by exists obj', r' |].
  assert (Hd2 : dispatch clk stop (frames b1 clocks)
                = (Returns success,
                   set_rotatingObjects [] (frames b1 clocks))).
  { unfold dispatch. rewrite Hstop. cbn. unfold bind, write, ret. cbn.
    rewrite H1, Hid. unfold rotating_delete.
    rewrite filter_cons_False by (cbn; by intros ?). done. }
  rewrite Hd2. cbn [fst snd]. split; [done |]. split; [done |].
  intros clk'. unfold update. cbn [rotatingObjects set_rotatingObjects foldl cameraTween].
  by rewrite H2.
Qed.

End Rotation.

Lemma skeleton_modify u f t : keeps_identity f → skeleton (modify u f t) = skeleton t.
Proof.
  intros Hf. induction t as [p cs IH] using Object3D_tree_ind. cbn. f_equal.
  - destruct (Nat.eqb (uid p) u); [| done]. by destruct (Hf p) as (-> & -> & ->).
  - induction IH as [| c cs Hc _ IHcs]; cbn; [done |]. by rewrite Hc, IHcs.
Qed.

Lemma same_graph_refl b : same_graph b b.
Proof. done. Qed.

Lemma same_graph_trans b1 b2 b3 : same_graph b1 b2 → same_graph b2 b3 → same_graph b1 b3.
Proof. intros (H1 & H2 & H3) (G1 & G2 & G3). split; [| split]; congruence. Qed.

Lemma same_graph_update_node u f b : keeps_identity f → same_graph b (update_node u f b).
Proof.
  intros Hf. split; [| done]. unfold world. cbn [scene detached update_node set_graph map].
  rewrite skeleton_modify by done. f_equal. rewrite map_map.
  apply map_ext. intros t. by apply skeleton_modify.
Qed.

Lemma keeps_identity_with_lens g : keeps_identity (with_lens g).
Proof. intros p. unfold with_lens. by destruct (camera p). Qed.

Section Frame.
Context `{Externals}.

Lemma same_graph_moveObject n position b : same_graph b (moveObject n position b).2.
Proof.
  unfold moveObject. destruct (findObject n b) as [[obj |] | e]; [| done | done].
  destruct (read3 position) as [[[px py] pz] | e]; [| done].
  by apply same_graph_update_node.
Qed.

Lemma same_graph_setTransform n prop values b :
  same_graph b (setTransform n prop values b).2.
Proof.
  unfold setTransform. destruct (findObject n b) as [[obj |] | e]; [| done | done].
  destruct (read3 values) as [[[px py] pz] | e]; [| done].
  apply same_graph_update_node. intros p. by destruct prop.
Qed.

Lemma same_graph_setVisibility n visible b : same_graph b (setVisibility n visible b).2.
Proof.
  unfold setVisibility. destruct (findObject n b) as [[obj |] | e]; [| done | done].
  by apply same_graph_update_node.
Qed.

Lemma same_graph_lookAt n target b : same_graph b (lookAt n target b).2.
Proof.
  unfold lookAt. destruct (findObject n b) as [[obj |] | e]; [| done | done].
  destruct (read3 target) as [[[px py] pz] | e]; [| done].
  by apply same_graph_update_node.
Qed.

Lemma same_graph_setOpacity n opacity b : same_graph b (setOpacity n opacity b).2.
Proof. unfold setOpacity. by destruct (findObject n b) as [[obj |] | e]. Qed.

Lemma same_graph_setCameraPosition clk command b :
  same_graph b (setCameraPosition clk command b).2.
Proof.
  unfold setCameraPosition.
  destruct (getActiveCamera b) as [camera |]; [| done].
  destruct (c_position command) as [[| p0 [| p1 [| p2 [| ? ?]]]] |]; try done.
  destruct (_ && negb _); [done |]. cbn [snd].
  set (b1 := update_node _ _ (set_cameraTween None b)).
  assert (H1 : same_graph b b1).
  { apply (same_graph_trans _ (set_cameraTween None b)); [done |].
    by apply same_graph_update_node. }
  clearbody b1.
  set (b2 := match _ <$> c_lookAt command with Some v => _ | None => b1 end).
  assert (H2 : same_graph b b2).
  { unfold b2. destruct (_ <$> c_lookAt command) as [v |]; [| done].
    apply (same_graph_trans _ b1); [done |].
    apply (same_graph_trans _ (update_node (uid_of camera)
             (set_rotation (lookAt_rotation (world b1) (uid_of camera) (x v) (y v) (z v)))
             b1)); [| done].
    by apply same_graph_update_node. }
  clearbody b2.
  match goal with
  | |- context [if ?c then update_node _ _ _ else _] => destruct c
  end; [| done].
  apply (same_graph_trans _ b2); [done |].
  apply same_graph_update_node, keeps_identity_with_lens.
Qed.

(** X14: commands that do not create or destroy objects leave the graph
    alone.  Whatever the command and however it ends — success, failure or
    a caught exception — [handleCommand] with an action other than
    [addObject], [addPrimitive], [removeObject], [duplicateObject] and
    [addLight] changes neither the shape of the scene and of the detached
    trees, nor the handle, name or type of any node, nor the name index. *)
Theorem only_lifecycle_commands_change_the_graph clk command b :
  c_action command ∉ lifecycle →
  same_graph b (handleCommand clk command b).2.
Proof.
  intros Hnot.
  assert (Hd : same_graph b (dispatch clk command b).2).
  { unfold dispatch.
    repeat match goal with
    | |- context [if String.eqb ?a ?s then _ else _] =>
        destruct (String.eqb_spec a s)
    | |- context [if String.eqb ?a ?s || String.eqb ?a ?s' then _ else _] =>
        destruct (String.eqb_spec a s); [| destruct (String.eqb_spec a s')];
        cbn [orb]
    end;
    first
      [ done
      | by destruct (getSceneState (c_maxDepth command) b)
      | by destruct (findObjects command b)
      | apply same_graph_moveObject
      | apply same_graph_setTransform
      | apply same_graph_setVisibility
      | apply same_graph_lookAt
      | apply same_graph_setOpacity
      | apply same_graph_setCameraPosition
      | exfalso; apply Hnot; unfold lifecycle;
        match goal with E : c_action command = _ |- _ => rewrite E end;
        repeat first [ apply list_elem_of_here | apply list_elem_of_further ] ]. }
  unfold handleCommand, bind. rewrite result_of_dispatch.
  destruct (dispatch clk command b) as [[r | e] b1];
    rewrite sendResponse_returns; cbn [snd] in *;
    by destruct (is_open (ws b1) && truthy (c_requestId command)).
Qed.

End Frame.

Lemma first_some_elem {A B} (f : A → option B) (l : list A) b :
  first_some (map f l) = Some b → ∃ a, a ∈ l ∧ f a = Some b.
Proof.
  induction l as [| a l IH]; cbn; [done |].
  destruct (f a) as [b' |] eqn:Hfa.
  - intros [= <-]. exists a. split; [apply elem_of_cons; by left | done].
  - intros Hrest. destruct (IH Hrest) as (a' & Hin & Ha').
    exists a'. split; [apply elem_of_cons; by right | done].
Qed.

Lemma getObjectBy_in f t s : getObjectBy f t = Some s → uid_of s ∈ uids t.
Proof.
  revert s. induction t as [p cs IH] using Object3D_tree_ind. intros s. cbn [getObjectBy].
  destruct (f p).
  - intros [= <-]. apply uid_of_in_uids.
  - intros Hs. apply first_some_elem in Hs as (c & Hc & Hs).
    rewrite Forall_forall in IH. apply (child_uids_in p cs c); [done |].
    by apply IH.
Qed.

Lemma walk_in parts t s : walk parts t = Some s → uid_of s ∈ uids t.
Proof.
  revert t. induction parts as [| part parts IH]; intros t; cbn [walk].
  - intros [= <-]. apply uid_of_in_uids.
  - destruct (List.find _ (children_of t)) as [child |] eqn:Hfind; [| done].
    intros Hs. apply find_some in Hfind as [Hin _].
    destruct t as [p cs]. apply (child_uids_in p cs child).
    + by apply list_elem_of_In.
    + by apply IH.
Qed.

(** Whatever a lookup finds is an object of the world. *)
Lemma findObject_in_world key b obj :
  findObject key b = Returns (Some obj) → uid_of obj ∈ all_uids b.
Proof.
  unfold findObject.
  destruct (objects b !! key ≫= (λ u, deref u b)) as [o |] eqn:Hreg.
  - intros [= ->]. destruct (objects b !! key) as [u |]; [| done]. cbn in Hreg.
    pose proof (deref_sublist u b obj Hreg) as Hsub.
    eapply elem_of_sublist; [apply uid_of_in_uids | exact Hsub].
  - assert (Hscene : ∀ u, u ∈ uids (scene b) → u ∈ all_uids b).
    { intros u Hu. unfold all_uids, world. cbn. apply elem_of_app. by left. }
    destruct (getObjectByName key (scene b)) as [o |] eqn:Hname.
    + intros [= ->]. by apply Hscene, (getObjectBy_in _ _ _ Hname).
    + destruct key as [path |]; [| done]. unfold path_lookup.
      destruct (walk (split "/" path) (scene b)) as [current |] eqn:Hwalk; [| done].
      destruct (Nat.eqb _ _); [done |]. intros [= ->].
      by apply Hscene, (walk_in _ _ _ Hwalk).
Qed.

Lemma foldl_alter_lookup (g : Material → Material) (l : list nat)
    (ms : gmap nat Material) m :
  (∀ mat, g (g mat) = g mat) →
  foldl (λ ms k, alter g k ms) ms l !! m
  = if decide (m ∈ l) then g <$> ms !! m else ms !! m.
Proof.
  intros Hg. revert ms. induction l as [| k l IH]; intros ms; cbn [foldl].
  - by rewrite decide_False by apply not_elem_of_nil.
  - rewrite IH. destruct (decide (k = m)) as [-> | Hne].
    + rewrite lookup_alter_eq. rewrite (decide_True (P := m ∈ m :: l))
        by (apply elem_of_cons; by left).
      destruct (decide (m ∈ l)); [| done].
      destruct (ms !! m); cbn; [by rewrite Hg | done].
    + rewrite lookup_alter_ne by done.
      destruct (decide (m ∈ l)) as [Hin | Hnin].
      * by rewrite decide_True by (apply elem_of_cons; by right).
      * rewrite decide_False; [done |].
        intros Hin. apply elem_of_cons in Hin as [? | ?]; congruence.
Qed.

(** X15: a clone shares its material with the original.  After
    [duplicateObject], [setOpacity] on the clone's name writes the opacity
    (and the transparency flag [opacity < 1]) into the material the source
    object uses as well: the store holds one material for both. *)
Theorem opacity_of_a_clone_reaches_the_original
    sourceName newName offset q b source m mat :
  wf b →
  findObject sourceName b = Returns (Some source) →
  material (props_of source) = Some m →
  materials b !! m = Some mat →
  ∃ clone b1 b2,
    duplicateObject sourceName newName offset b = (Returns (success_id newName), b1)
    ∧ findObject newName b1 = Returns (Some clone)
    ∧ uid_of clone ≠ uid_of source
    ∧ material (props_of clone) = Some m
    ∧ materials b1 !! m = Some mat
    ∧ setOpacity newName (Some q) b1 = (Returns success, b2)
    ∧ materials b2 !! m = Some (mkMaterial (color mat) (negb (Qle_bool 1 q)) (Num q)).
Proof.
  intros Hwf Hfind Hm Hmat. pose proof (fresh_not_used b Hwf) as Hfresh.
  unfold duplicateObject. rewrite Hfind.
  pose proof (props_of_clone (next_uid b) source) as Hprops.
  pose proof (clone_children_fresh (next_uid b) source) as Hkids.
  destruct (clone (next_uid b) source) as [next copy]. cbn [snd] in Hprops, Hkids.
  set (parent := default (uid_of (scene b)) (parent_of (uid_of source) b)).
  set (node := Obj (set_position _ _) (children_of copy)).
  assert (Huid : uid_of node = next_uid b)
    by (unfold node, uid_of; cbn; by rewrite Hprops).
  assert (Hparent : parent ∈ all_uids b).
  { unfold parent. destruct (parent_of (uid_of source) b) as [p |] eqn:Hp; cbn.
    - by apply (parent_of_in_all_uids (uid_of source)).
    - apply scene_in_all_uids. }
  destruct (spawned parent node newName b (set_next_uid next b))
    as (Hfound & _ & _ & _); try done.
  { by rewrite Huid. }
  { by rewrite Huid. }
  exists node. eexists _, _. split; [reflexivity |]. split; [exact Hfound |].
  pose proof (findObject_in_world _ _ _ Hfind) as Hsrc.
  split; [rewrite Huid; intros E; apply Hfresh; by rewrite E |].
  split; [unfold node; cbn; by rewrite Hprops |].
  split; [done |].
  unfold setOpacity. rewrite Hfound. split; [reflexivity |].
  cbn [materials set_materials set_objects add set_graph set_next_uid].
  rewrite foldl_alter_lookup by done.
  rewrite decide_True, Hmat; [done |].
  unfold materials_of. apply list_elem_of_omap. exists (props_of node).
  split; [destruct node; apply elem_of_cons; by left |].
  unfold node. cbn. by rewrite Hprops.
Qed.

Lemma animated_camera_move_arrives_witness :
  ∃ tween b1,
    setCameraPosition (H := demo_externals) demo_clock fly_to demo_bridge
      = (Returns success, b1)
    ∧ cameraTween b1 = Some tween
    ∧ scene b1 = demo_scene
    ∧ cameraTween (update (H := demo_externals) (mkClock (Some 8000%Q) 0) b1) = None
    ∧ Vector3_eq
        (lerpVectors (mkVector3 (Num 0) (Num 0) (Num 10))
           (mkVector3 (Num 10) (Num 20) (Num 30)) 1)
        (mkVector3 (Num 10) (Num 20) (Num 30)).
Proof.
  destruct (animated_camera_move_arrives (H := demo_externals) demo_clock
              (mkClock (Some 8000%Q) 0) fly_to demo_bridge demo_camera 10 20 30 2000
              eq_refl eq_refl eq_refl eq_refl eq_refl)
    as (tween & b1 & Hset & Htw & Hsc & _ & _ & _ & _ & _ & Hend & _).
  destruct Hend as (Hnone & _ & Heq); [vm_compute; discriminate |].
  exists tween, b1. split; [exact Hset |]. split; [exact Htw |].
  split; [exact Hsc |]. split; [exact Hnone |].
  apply Heq. by exists 0%Q, 0%Q, 10%Q.
Defined.

Lemma immediate_camera_move_is_final_witness :
  ∃ b1 camera',
    setCameraPosition (H := demo_externals) demo_clock jump_to mid_flight
      = (Returns success, b1)
    ∧ cameraTween b1 = None
    ∧ getActiveCamera b1 = Some camera'
    ∧ position (props_of camera') = mkVector3 (Num 10) (Num 20) (Num 30)
    ∧ cameraTween (update (H := demo_externals) demo_clock b1) = None.
Proof.
  destruct (immediate_camera_move_is_final (H := demo_externals) demo_clock jump_to
              mid_flight demo_camera 10 20 30 eq_refl eq_refl)
    as (b1 & camera' & Hset & Htw & Hcam & _ & Hpos & Hlater).
  - by left.
  - exists b1, camera'. split; [exact Hset |]. split; [exact Htw |].
    split; [exact Hcam |]. split; [exact Hpos |]. apply Hlater.
Defined.

Lemma rotation_turns_by_speed_each_frame_witness :
  ∃ obj' r',
    resolve_id (Some "crate")
      (frames (H := demo_externals)
         (dispatch (H := demo_externals) demo_clock (spin "startRotation") demo_bridge).2
         [demo_clock; demo_clock; demo_clock]) = Some obj'
    ∧ ey (rotation (props_of obj')) = Num r'
    ∧ r' == 96 # 1000.
Proof.
  destruct (rotation_turns_by_speed_each_frame (H := demo_externals) demo_clock
              (spin "startRotation") (spin "stopRotation") demo_bridge demo_crate 0
              [demo_clock; demo_clock; demo_clock]
              eq_refl eq_refl eq_refl eq_refl eq_refl eq_refl eq_refl)
    as (_ & (obj' & r' & Hres & _ & _ & Hr & Heq) & _).
  exists obj', r'. split; [exact Hres |]. split; [exact Hr |].
  rewrite Heq. reflexivity.
Defined.

Lemma only_lifecycle_commands_change_the_graph_witness :
  same_graph demo_bridge
    (handleCommand (H := demo_externals) demo_clock
       (with_name "crate" (blank "setVisibility")) demo_bridge).2.
Proof.
  apply (only_lifecycle_commands_change_the_graph (H := demo_externals)).
  unfold lifecycle. intros Hin.
  repeat (apply elem_of_cons in Hin as [Hin | Hin]; [discriminate |]).
  by apply elem_of_nil in Hin.
Defined.

Lemma opacity_of_a_clone_reaches_the_original_witness :
  ∃ clone b1 b2,
    duplicateObject (Some "box1") (Some "box2") None one_box
      = (Returns (success_id (Some "box2")), b1)
    ∧ findObject (Some "box2") b1 = Returns (Some clone)
    ∧ setOpacity (Some "box2") (Some (1 # 2)) b1 = (Returns success, b2)
    ∧ materials b2 !! 3 = Some (mkMaterial "#ffffff" true (Num (1 # 2))).
Proof.
  destruct (opacity_of_a_clone_reaches_the_original (Some "box1") (Some "box2") None
              (1 # 2) one_box
              (Obj {| uid := 4; name := Some "box1"; type := "Mesh";
                      position := mkVector3 (Num 0) (Num 0) (Num 0);
                      rotation := mkEuler (Num 0) (Num 0) (Num 0);
                      scale := mkVector3 (Num 1) (Num 1) (Num 1);
                      visible := Some true; camera := NotCamera;
                      geometry := Some (BoxGeometry (Num 1) (Num 1) (Num 1));
                      material := Some 3; light := None |} [])
              3 (mkMaterial "#ffffff" false (Num 1)) wf_one_box)
    as (clone & b1 & b2 & Hdup & Hfind & _ & _ & _ & Hset & Hmat);
    [vm_compute; reflexivity | reflexivity | vm_compute; reflexivity |].
  exists clone, b1, b2. split; [exact Hdup |]. split; [exact Hfind |].
  split; [exact Hset | exact Hmat].
Defined.

End MCPBridgeSceneFacts.

Module ToolServerFacts.
Import Js ToolServer.

Section Handler.
Context `{Engine}.

Lemma try_catch_never_raises body handler : never_raises (try_catch body handler).
Proof.
  induction body as [r | e | k IH | k IH | c k IH | p k IH | p l k IH | k IH];
    cbn; constructor; done.
Qed.

Lemma never_raises_run p :
  never_raises p → ∀ script e, (run p script).1 ≠ Raised e.
Proof.
  induction 1 as [r | k _ IH | k _ IH | c k _ IH | path k _ IH | path l k _ IH | k _ IH];
    intros script e; cbn [run]; [done | ..].
  1, 2, 4, 5, 6: destruct script as [| [] script]; cbn; try done; apply IH.
  destruct script as [| [] script]; cbn; try done.
  specialize (IH a script e). by destruct (run (k a) script).
Qed.

(** X16: a tool call never fails.  Whatever the tool name and the arguments
    — missing arguments included — and whatever the bridge and the glTF
    tools answer, no run of the handler ends with an exception: a failure
    becomes an error result. *)
Theorem call_tool_never_raises name args script :
  match (run (call_tool name args) script).1 with
  | Raised _ => False
  | Returned _ | Stuck => True
  end.
Proof.
  assert (Hnr : never_raises (call_tool name args)).
  { unfold call_tool. constructor. intros connected.
    destruct (negb connected && _).
    - constructor. intros [[] | error]; [apply try_catch_never_raises | constructor].
    - apply try_catch_never_raises. }
  pose proof (never_raises_run _ Hnr script) as Hrun.
  destruct (run (call_tool name args) script).1 as [r | e |]; [done | | done].
  by apply (Hrun e).
Qed.

(** X17: a call without arguments is reported, not sent.  Every tool of the
    [switch] except [get_scene_state] and [get_bridge_status] destructures
    its arguments first: without arguments it sends no command, and the
    result is the error ["Error executing <name>: .."] with the message of
    the engine's [TypeError]. *)
Theorem missing_arguments_are_reported name script :
  name ∈ cases →
  name ∉ ["get_scene_state"; "get_bridge_status"] →
  ∃ first,
    run (guarded name None) script
    = (Returned (execution_error name (cannot_destructure first)), []).
Proof.
  intros Hin Hnot. unfold cases in Hin.
  repeat (apply elem_of_cons in Hin as [-> | Hin]); try by eexists.
  - exfalso. apply Hnot. apply list_elem_of_here.
  - exfalso. apply Hnot. apply list_elem_of_further, list_elem_of_here.
  - by apply elem_of_nil in Hin.
Qed.

Lemma switch_unknown name args : name ∉ cases → switch name args = Done (unknown_tool name).
Proof.
  intros Hnot. unfold switch.
  repeat match goal with
  | |- context [String.eqb name ?s] =>
      destruct (String.eqb_spec name s) as [-> | _];
      [exfalso; apply Hnot; unfold cases;
       repeat first [ apply list_elem_of_here | apply list_elem_of_further ] |]
  end.
  done.
Qed.

(** X18: five advertised tools are not implemented.  A tool name outside the
    eighteen [case] labels is answered with the error result
    ["Unknown tool: <name>"] and sends nothing — after the wait for a game
    client, which comes first: without a client the answer is the
    connection failure.  Of the twenty-three names in [TOOLS] exactly
    [log_positions], [rename_entity], [duplicate_entity], [make_physical]
    and [remove_physics] are such names, and none of them is local-only. *)
Theorem advertised_tools_without_a_case name args :
  name ∉ cases →
  guarded name args = Done (unknown_tool name)
  ∧ run (call_tool name args) [Connected true] = (Returned (unknown_tool name), [])
  ∧ (∀ error, name ∉ LOCAL_ONLY_TOOLS →
       run (call_tool name args) [Connected false; ConnectionAttempt (Rejected error)]
       = (Returned connection_failure, [])
       ∧ run (call_tool name args) [Connected false; ConnectionAttempt (Resolved tt)]
         = (Returned (unknown_tool name), []))
  ∧ filter (λ tool, tool ∉ cases) TOOLS
    = ["log_positions"; "rename_entity"; "duplicate_entity"; "make_physical";
       "remove_physics"]
  ∧ filter (λ tool, tool ∈ LOCAL_ONLY_TOOLS) (filter (λ tool, tool ∉ cases) TOOLS) = [].
Proof.
  intros Hnot.
  assert (Hg : guarded name args = Done (unknown_tool name))
    by (unfold guarded; by rewrite switch_unknown).
  split; [done |]. split.
  { unfold call_tool. cbn. by rewrite Hg. }
  split.
  { intros error Hlocal. unfold call_tool. cbn.
    rewrite bool_decide_eq_false_2 by done. cbn. by rewrite Hg. }
  split; vm_compute; reflexivity.
Qed.

End Handler.

Lemma missing_arguments_are_reported_witness :
  ∃ first,
    run (guarded (H := demo_engine) "move_object" None) [CommandAnswer (Resolved VNull)]
    = (Returned
         (execution_error "move_object" (cannot_destructure (Engine := demo_engine) first)),
       []).
Proof.
  apply (missing_arguments_are_reported (H := demo_engine) "move_object").
  - by apply (bool_decide_unpack _).
  - by apply (bool_decide_unpack _).
Defined.

Lemma advertised_tools_without_a_case_witness :
  run (call_tool (H := demo_engine) "rename_entity" (Some red_ball)) [Connected true]
  = (Returned (mkResult "Unknown tool: rename_entity" true), []).
Proof.
  destruct (advertised_tools_without_a_case (H := demo_engine) "rename_entity"
              (Some red_ball)) as (_ & Hrun & _).
  - by apply (bool_decide_unpack _).
  - exact Hrun.
Defined.

End ToolServerFacts.

Module WireFacts.
Import Js ToolServer Wire.

Lemma json_VObj props : json (VObj props) = VObj (json_props props).
Proof.
  induction props as [| [k v] props IH]; [done |].
  cbn in *. by destruct v.
Qed.

Lemma json_numbers (l : list Q) : json (VArr (VNum <$> l)) = VArr (VNum <$> l).
Proof. cbn. f_equal. induction l as [| q l IH]; cbn; [done |]. by rewrite IH. Qed.

Lemma as_string_val_of_string o : as_string (val_of_string o) = Some o.
Proof. by destruct o. Qed.

Lemma as_number_val_of_Q o : as_number (val_of_Q o) = Some o.
Proof. by destruct o. Qed.

Lemma as_boolean_val_of_bool o : as_boolean (val_of_bool o) = Some o.
Proof. by destruct o. Qed.

Lemma mapM_numbers (l : list Q) :
  mapM (λ item, match item with VNum q => Some q | _ => None end) (VNum <$> l) = Some l.
Proof. induction l as [| q l IH]; cbn; [done |]. by rewrite IH. Qed.

Lemma as_numbers_numbers l : as_numbers (VArr (VNum <$> l)) = Some (Some l).
Proof. cbn. by rewrite mapM_numbers. Qed.

(** A property set to a defined value survives the round trip, and is the
    one read under its key. *)
Lemma obj_get_json_set key v props :
  v ≠ VUndefined →
  obj_get key (json_props (obj_set key v props)) = Some (json v).
Proof.
  intros Hv. induction props as [| [k w] props IH]; cbn.
  - destruct v; try done; cbn; by rewrite String.eqb_refl.
  - destruct (String.eqb k key) eqn:Hk.
    + apply String.eqb_eq in Hk as ->. cbn.
      destruct v; try done; cbn; by rewrite String.eqb_refl.
    + cbn. destruct w; try done; cbn; rewrite Hk; done.
Qed.

(** The typed view of a frame has the frame's [action] and [requestId]. *)
Lemma decode_action props cmd :
  decode (VObj props) = Some cmd →
  field "action" props = VStr (MCPBridge.c_action cmd)
  ∧ as_string (field "requestId" props) = Some (MCPBridge.c_requestId cmd).
Proof.
  unfold decode. intros Hd.
  repeat match goal with
  | H : (_ ≫= _) = Some _ |- _ => apply bind_Some in H as (? & ? & H)
  end.
  injection Hd as <-. cbn. split; [| done].
  match goal with
  | H : match field "action" props with _ => _ end = Some _ |- _ =>
      destruct (field "action" props); try discriminate H; by injection H as ->
  end.
Qed.

(** What the client receives carries the action the caller named and the
    identifier the server assigned, whatever the caller's parameters. *)
Lemma received_action_and_id c rid cmd :
  received c rid = Some cmd →
  MCPBridge.c_action cmd = BridgeServer.action c
  ∧ MCPBridge.c_requestId cmd = Some rid.
Proof.
  unfold received, BridgeServer.envelope. rewrite json_VObj. intros Hd.
  apply decode_action in Hd as [Ha Hr]. split.
  - cbn in Ha. unfold field in Ha. cbn in Ha. by injection Ha as <-.
  - unfold field in Hr. rewrite obj_get_json_set in Hr by done. cbn in Hr.
    by injection Hr as <-.
Qed.

Lemma json_props_defined key v rest :
  v ≠ VUndefined → json_props ((key, v) :: rest) = (key, json v) :: json_props rest.
Proof. intros Hv. by destruct v. Qed.

Lemma json_props_undefined key rest :
  json_props ((key, VUndefined) :: rest) = json_props rest.
Proof. done. Qed.

(** The typed view of a frame, from its typed reads. *)
Lemma decode_intro props cmd :
  field "action" props = VStr (MCPBridge.c_action cmd) →
  as_string (field "requestId" props) = Some (MCPBridge.c_requestId cmd) →
  as_number (field "maxDepth" props) = Some (MCPBridge.c_maxDepth cmd) →
  as_string (field "name" props) = Some (MCPBridge.c_name cmd) →
  as_string (field "nameContains" props) = Some (MCPBridge.c_nameContains cmd) →
  as_string (field "type" props) = Some (MCPBridge.c_type cmd) →
  as_string (field "path" props) = Some (MCPBridge.c_path cmd) →
  as_string (field "id" props) = Some (MCPBridge.c_id cmd) →
  as_string (field "newName" props) = Some (MCPBridge.c_newName cmd) →
  as_numbers (field "position" props) = Some (MCPBridge.c_position cmd) →
  as_numbers (field "rotation" props) = Some (MCPBridge.c_rotation cmd) →
  as_numbers (field "scale" props) = Some (MCPBridge.c_scale cmd) →
  as_numbers (field "target" props) = Some (MCPBridge.c_target cmd) →
  as_numbers (field "offset" props) = Some (MCPBridge.c_offset cmd) →
  as_numbers (field "lookAt" props) = Some (MCPBridge.c_lookAt cmd) →
  as_numbers (field "size" props) = Some (MCPBridge.c_size cmd) →
  as_boolean (field "visible" props) = Some (MCPBridge.c_visible cmd) →
  as_number (field "opacity" props) = Some (MCPBridge.c_opacity cmd) →
  as_number (field "speed" props) = Some (MCPBridge.c_speed cmd) →
  as_boolean (field "animate" props) = Some (MCPBridge.c_animate cmd) →
  as_number (field "duration" props) = Some (MCPBridge.c_duration cmd) →
  as_number (field "fov" props) = Some (MCPBridge.c_fov cmd) →
  as_number (field "near" props) = Some (MCPBridge.c_near cmd) →
  as_number (field "far" props) = Some (MCPBridge.c_far cmd) →
  as_string (field "color" props) = Some (MCPBridge.c_color cmd) →
  as_number (field "intensity" props) = Some (MCPBridge.c_intensity cmd) →
  decode (VObj props) = Some cmd.
Proof.
  intros Ha. intros. unfold decode. rewrite Ha.
  repeat match goal with E : _ = Some _ |- _ => rewrite E; clear E end.
  by destruct cmd.
Qed.

(** A frame whose typed reads all succeed has a typed view. *)
Lemma decode_is_Some props :
  (∃ a, field "action" props = VStr a) →
  is_Some (as_string (field "requestId" props)) →
  is_Some (as_number (field "maxDepth" props)) →
  is_Some (as_string (field "name" props)) →
  is_Some (as_string (field "nameContains" props)) →
  is_Some (as_string (field "type" props)) →
  is_Some (as_string (field "path" props)) →
  is_Some (as_string (field "id" props)) →
  is_Some (as_string (field "newName" props)) →
  is_Some (as_numbers (field "position" props)) →
  is_Some (as_numbers (field "rotation" props)) →
  is_Some (as_numbers (field "scale" props)) →
  is_Some (as_numbers (field "target" props)) →
  is_Some (as_numbers (field "offset" props)) →
  is_Some (as_numbers (field "lookAt" props)) →
  is_Some (as_numbers (field "size" props)) →
  is_Some (as_boolean (field "visible" props)) →
  is_Some (as_number (field "opacity" props)) →
  is_Some (as_number (field "speed" props)) →
  is_Some (as_boolean (field "animate" props)) →
  is_Some (as_number (field "duration" props)) →
  is_Some (as_number (field "fov" props)) →
  is_Some (as_number (field "near" props)) →
  is_Some (as_number (field "far" props)) →
  is_Some (as_string (field "color" props)) →
  is_Some (as_number (field "intensity" props)) →
  is_Some (decode (VObj props)).
Proof.
  intros [a Ha]. intros. unfold decode. rewrite Ha.
  repeat match goal with E : is_Some _ |- _ => destruct E as [? ->] end.
  by eexists.
Qed.

Lemma obj_get_json_props_fresh key props :
  key ∉ props.*1 → obj_get key (json_props props) = None.
Proof.
  induction props as [| [k v] props IH]; [done |].
  rewrite fmap_cons, not_elem_of_cons. intros [Hne Hnot].
  assert (Hk : String.eqb k key = false) by (apply String.eqb_neq; naive_solver).
  destruct v; cbn; rewrite ?Hk; by apply IH.
Qed.

(** Reading a property of the frame as received: the value sent, after the
    round trip through [JSON]; a property sent as [undefined] is missing. *)
Lemma field_json_props key props :
  NoDup props.*1 → field key (json_props props) = json (field key props).
Proof.
  unfold field. induction props as [| [k v] props IH]; [done |].
  rewrite fmap_cons, NoDup_cons. intros [Hfresh Hnodup].
  cbn [obj_get]. destruct (String.eqb k key) eqn:Hk.
  - apply String.eqb_eq in Hk as <-.
    destruct v; cbn [json_props obj_get]; rewrite ?String.eqb_refl; try done.
    by rewrite obj_get_json_props_fresh.
  - destruct v; cbn [json_props obj_get]; rewrite ?Hk; by apply IH.
Qed.

Lemma as_string_json o : as_string (json (val_of_string o)) = Some o.
Proof. by destruct o. Qed.

Lemma as_number_json o : as_number (json (val_of_Q o)) = Some o.
Proof. by destruct o. Qed.

Lemma as_boolean_json o : as_boolean (json (val_of_bool o)) = Some o.
Proof. by destruct o. Qed.

Lemma as_numbers_json o : as_numbers (json (val_of_list o)) = Some o.
Proof.
  destruct o as [l |]; [| done].
  unfold val_of_list. by rewrite json_numbers, as_numbers_numbers.
Qed.

Lemma lower_ascii_twice c : lower_ascii (lower_ascii c) = lower_ascii c.
Proof. by destruct c as [[] [] [] [] [] [] [] []]. Qed.

Lemma toLowerCase_twice s : toLowerCase (toLowerCase s) = toLowerCase s.
Proof. induction s as [| c s IH]; cbn; [done |]. by rewrite lower_ascii_twice, IH. Qed.

(** Reading a frame whose keys are known. *)
Ltac read_fields :=
  unfold field; simpl obj_get; cbn [default from_option]; unfold id;
  rewrite ?json_numbers, ?as_numbers_numbers; reflexivity.

Lemma obj_set_fresh key v props :
  key ∉ props.*1 → obj_set key v props = (props ++ [(key, v)])%list.
Proof.
  induction props as [| [k w] props IH]; [done |].
  rewrite fmap_cons, not_elem_of_cons. intros [Hne Hnot]. cbn.
  assert (Hk : String.eqb k key = false) by (apply String.eqb_neq; naive_solver).
  by rewrite Hk, IH.
Qed.

(** Spreading an object after another with other keys lists the
    properties of both. *)
Lemma obj_spread_fresh a b : NoDup (a.*1 ++ b.*1) → obj_spread a b = (a ++ b)%list.
Proof.
  revert a. induction b as [| [k v] b IH]; intros a Hnd.
  - by rewrite app_nil_r.
  - change (obj_spread a ((k, v) :: b)) with (obj_spread (obj_set k v a) b).
    rewrite fmap_cons in Hnd. cbn [fst] in Hnd.
    rewrite obj_set_fresh.
    + rewrite IH; [by rewrite <- app_assoc |].
      rewrite fmap_app, <- app_assoc. done.
    + apply NoDup_app in Hnd as (_ & Hdisj & _). intros Hin.
      apply (Hdisj k Hin). by left.
Qed.

Lemma json_props_keys key props : key ∉ props.*1 → key ∉ (json_props props).*1.
Proof.
  induction props as [| [k v] props IH]; [done |].
  rewrite fmap_cons, not_elem_of_cons. intros [Hne Hnot].
  destruct v; cbn; rewrite ?not_elem_of_cons; auto.
Qed.

Lemma obj_remove_fresh key props : key ∉ props.*1 → obj_remove key props = props.
Proof.
  induction props as [| [k w] props IH]; [done |].
  rewrite fmap_cons, not_elem_of_cons. intros [Hne Hnot]. cbn.
  assert (Hk : String.eqb k key = false) by (apply String.eqb_neq; naive_solver).
  by rewrite Hk, IH.
Qed.

Lemma truthy_request_name n : truthy (Some (BridgeServer.request_name n)) = true.
Proof. done. Qed.

Lemma prefix_append s t : String.prefix s (s +:+ t) = true.
Proof.
  induction s as [| c s IH]; [by destruct t |].
  change (String.prefix (String c s) (String c (s +:+ t)) = true).
  cbn [String.prefix]. by destruct (ascii_dec c c).
Qed.

(** One typed read of a frame as received, the keys of the frame known. *)
Ltac typed_read :=
  rewrite field_json_props by (by apply (bool_decide_unpack _));
  unfold field; simpl obj_get; cbn [default from_option]; unfold id;
  rewrite ?as_string_json, ?as_number_json, ?as_boolean_json, ?as_numbers_json;
  by eexists.

Section Replies.
Context `{MCPBridge.Externals}.
Import Three MCPBridge.

Lemma plain_success : plain success.
Proof. eexists. split; [done |]. split; by apply (bool_decide_unpack _). Qed.

Lemma plain_success_data d : plain (success_data d).
Proof. eexists. split; [done |]. split; by apply (bool_decide_unpack _). Qed.

Lemma plain_success_id i : plain (success_id i).
Proof. eexists. split; [done |]. split; by apply (bool_decide_unpack _). Qed.

Lemma plain_failure e : plain (failure e).
Proof. eexists. split; [done |]. split; by apply (bool_decide_unpack _). Qed.

#[local] Hint Resolve plain_success plain_success_data plain_success_id plain_failure : core.

Ltac answer := repeat case_match; split; cbn; auto.

Lemma answers_moveObject n position b : answers b (moveObject n position b).
Proof. unfold moveObject. answer. Qed.

Lemma answers_setTransform n prop values b : answers b (setTransform n prop values b).
Proof. unfold setTransform. answer. Qed.

Lemma answers_setVisibility n visible b : answers b (setVisibility n visible b).
Proof. unfold setVisibility. answer. Qed.

Lemma answers_lookAt n target b : answers b (lookAt n target b).
Proof. unfold lookAt. answer. Qed.

Lemma answers_setOpacity n opacity b : answers b (setOpacity n opacity b).
Proof. unfold setOpacity. answer. Qed.

Lemma answers_setCameraPosition clk command b :
  answers b (setCameraPosition clk command b).
Proof. unfold setCameraPosition. answer. Qed.

Lemma answers_addPrimitive clk command b : answers b (addPrimitive clk command b).
Proof. unfold addPrimitive. answer. Qed.

Lemma answers_addLight clk command b : answers b (addLight clk command b).
Proof. unfold addLight. answer. Qed.

Lemma ws_removeFromParent u b : ws (removeFromParent u b) = ws b.
Proof. unfold removeFromParent. by repeat case_match. Qed.

Lemma answers_removeObject n b : answers b (removeObject n b).
Proof. unfold removeObject. answer. apply ws_removeFromParent. Qed.

Lemma answers_duplicateObject sourceName newName offset b :
  answers b (duplicateObject sourceName newName offset b).
Proof. unfold duplicateObject. answer. Qed.

Lemma answers_dispatch clk command b : answers b (dispatch clk command b).
Proof.
  unfold dispatch.
  repeat match goal with
  | |- context [if String.eqb ?a ?s then _ else _] =>
      destruct (String.eqb a s)
  | |- context [if String.eqb ?a ?s || String.eqb ?a ?s' then _ else _] =>
      destruct (String.eqb a s || String.eqb a s')
  end;
  first [ apply answers_moveObject | apply answers_setTransform
        | apply answers_setVisibility | apply answers_lookAt
        | apply answers_setOpacity | apply answers_setCameraPosition
        | apply answers_addPrimitive | apply answers_addLight
        | apply answers_removeObject | apply answers_duplicateObject
        | answer ].
Qed.

(** [handleCommand] always has a [result] to send, a plain one, and the
    socket is the one it started with. *)
Lemma result_of_plain clk command b :
  ∃ r b1, result_of clk command b = (Returns r, b1) ∧ plain r ∧ ws b1 = ws b.
Proof.
  rewrite MCPBridgeFacts.result_of_dispatch.
  pose proof (answers_dispatch clk command b) as [Hws Hr].
  destruct (dispatch clk command b) as [[r | e] b1]; cbn in *; eauto 6.
Qed.

End Replies.

Section CrossLayer.
Context `{Engine} `{MCPBridge.Externals}.
Import Three MCPBridge.

(** X19: the [find_objects] tool matches by exact name only.  The tool puts
    [nameContains], [type] and [hasUserData] inside a [filter] property,
    where the client does not look: what the client receives has its
    [name] criterion and no other.  A search that gives no [name] is
    therefore answered with an empty list, whatever else it asked for and
    whatever the scene holds. *)
Theorem find_objects_tool_matches_by_name_only a rid clk b :
  ∃ c cmd,
    (∀ v, run (guarded "find_objects" (Some a)) [CommandAnswer (Resolved v)]
          = (Returned (mkResult (stringify v) false), [c]))
    ∧ received c rid = Some cmd
    ∧ c_action cmd = "findObjects"
    ∧ c_requestId cmd = Some rid
    ∧ c_name cmd = a_name a
    ∧ c_nameContains cmd = None
    ∧ c_type cmd = None
    ∧ (truthy (a_name a) = false →
       result_of clk cmd b = (Returns (success_data (VArr [])), b)).
Proof.
  eexists _.
  exists (match a_name a with
          | Some n => with_name n (with_requestId rid (blank "findObjects"))
          | None => with_requestId rid (blank "findObjects")
          end).
  split; [intros v; reflexivity |].
  split; [unfold received; by destruct (a_name a) |].
  do 3 (split; [by destruct (a_name a) |]).
  do 2 (split; [by destruct (a_name a) |]).
  intros Hname. rewrite MCPBridgeFacts.result_of_dispatch.
  assert (Hd : ∀ cmd, c_action cmd = "findObjects" →
            truthy (c_name cmd) = false → truthy (c_nameContains cmd) = false →
            truthy (c_type cmd) = false →
            dispatch clk cmd b = (Returns (success_data (VArr [])), b)).
  { intros cmd Ha H1 H2 H3. unfold dispatch. rewrite Ha. cbn.
    unfold findObjects. by rewrite MCPBridgeSceneFacts.search_without_criteria. }
  rewrite Hd; [done | | | |]; by destruct (a_name a).
Qed.

Lemma dispatch_addPrimitive clk cmd :
  c_action cmd = "addPrimitive" → dispatch clk cmd = addPrimitive clk cmd.
Proof. intros Ha. unfold dispatch. rewrite Ha. reflexivity. Qed.

(** X20: the [spawn_entity] tool drops the colour and the parent.  The tool
    sends the colour inside a [material] property and the parent as
    [parent], and the client reads neither: for a known primitive type the
    spawned mesh hangs under the scene root and its material is white,
    whatever [color] and [parentName] the caller gave.  The type arrives in
    lower case, so the default name is built from the lower-case type. *)
Theorem spawn_entity_ignores_colour_and_parent a ty rid clk b :
  wf b →
  a_type a = Some ty →
  toLowerCase ty ∈ ["cube"; "box"; "sphere"; "cylinder"; "plane"] →
  let id := js_or (a_name a)
              (Some ("mcp_" +:+ toLowerCase ty +:+ "_" +:+ pretty (Date_now clk))) in
  ∃ c cmd mesh b1 m,
    (∀ v, run (guarded "spawn_entity" (Some a)) [CommandAnswer (Resolved v)]
          = (Returned
               (mkResult
                  (mark_ok +:+ " Spawned " +:+ quote +:+ show (a_name a) +:+ quote
                   +:+ " (" +:+ ty +:+ ") at ["
                   +:+ join ", " (number_to_string <$> position_or_origin (a_position a))
                   +:+ "]") false), [c]))
    ∧ received c rid = Some cmd
    ∧ c_color cmd = None
    ∧ result_of clk cmd b = (Returns (success_id id), b1)
    ∧ findObject id b1 = Returns (Some mesh)
    ∧ parent_of (uid_of mesh) b1 = Some (uid_of (scene b))
    ∧ material (props_of mesh) = Some m
    ∧ materials b1 !! m = Some (mkMaterial "#ffffff" false (Num 1)).
Proof.
  intros Hwf Hty Hknown. cbn zeta.
  set (cmd := {| c_action := "addPrimitive"; c_requestId := Some rid;
                 c_maxDepth := None; c_name := a_name a; c_nameContains := None;
                 c_type := Some (toLowerCase ty); c_path := None; c_id := None;
                 c_newName := None;
                 c_position := Some (position_or_origin (a_position a));
                 c_rotation := None; c_scale := None; c_target := None;
                 c_offset := None; c_lookAt := None; c_size := None;
                 c_visible := None; c_opacity := None; c_speed := None;
                 c_animate := None; c_duration := None; c_fov := None;
                 c_near := None; c_far := None; c_color := None;
                 c_intensity := None |}).
  destruct (MCPBridgeSceneFacts.addPrimitive_adds clk cmd b (toLowerCase ty) Hwf eq_refl)
    as (mesh & b1 & Hadd & Hfind & _ & _ & _ & _ & _ & Hparent & (m & Hm & Hmat) & _).
  { by rewrite toLowerCase_twice. }
  eexists _. exists cmd, mesh, b1, m.
  split.
  { intros v. unfold guarded, switch. cbn. unfold spawn_entity. cbn.
    rewrite Hty. reflexivity. }
  split.
  { unfold received, BridgeServer.envelope, command. rewrite json_VObj.
    simpl obj_set.
    destruct (a_name a), (a_color a) as [[|]|], (a_parentName a);
      cbn [truthy val_of_string negb String.eqb];
      repeat first [rewrite json_props_undefined | rewrite json_props_defined by done];
      rewrite ?json_numbers.
    all: apply decode_intro; read_fields. }
  split; [done |].
  split.
  { rewrite MCPBridgeFacts.result_of_dispatch, dispatch_addPrimitive by done.
    by rewrite Hadd. }
  done.
Qed.

(** One command from the server to the client and back: the frame the
    server sends is the one the client reads, the client's [result] goes
    back under the identifier of the request, and the server fulfils the
    promise of that request with it. *)
Lemma round_trip clk c cmd s b :
  BridgeServer.reachable s →
  BridgeServer.isConnected s = true →
  is_open (ws b) = true →
  let n := (BridgeServer.requestId s + 1)%N in
  let s1 := (BridgeServer.sendCommand c BridgeServer.Sent s).2 in
  received c (BridgeServer.request_name n) = Some cmd →
  (BridgeServer.sendCommand c BridgeServer.Sent s).1 = BridgeServer.Awaiting n
  ∧ BridgeServer.outbox s1
    = (BridgeServer.outbox s
       ++ [BridgeServer.envelope c (BridgeServer.request_name n)])%list
  ∧ ∃ r b1,
    result_of clk cmd b = (Returns r, b1)
    ∧ plain r
    ∧ let frame := VObj (("requestId", VStr (BridgeServer.request_name n)) :: payload_of r) in
      handleCommand clk cmd b = (Returns tt, set_sent (sent b1 ++ [frame]) b1)
      ∧ BridgeServer.outcome n s1 = None
      ∧ BridgeServer.outcome n (BridgeServer.handleMessage (json frame) s1)
        = Some (BridgeServer.Fulfilled (json r)).
Proof.
  intros Hreach Hconn Hopen n s1 Hrecv.
  destruct (BridgeServerFacts.sendCommand_sent c s Hconn)
    as (Hawait & _ & Hpend & _ & _ & Hout).
  split; [done |]. split; [done |].
  destruct (result_of_plain clk cmd b) as (r & b1 & Hres & Hplain & Hws).
  exists r, b1. split; [done |]. split; [done |].
  destruct Hplain as (props & -> & Hnd & Hfresh).
  apply received_action_and_id in Hrecv as [_ Hrid].
  pose proof (BridgeServerFacts.Inv_reachable _ Hreach) as HI.
  pose proof (BridgeServerFacts.Inv_sendCommand c BridgeServer.Sent s HI) as HI1.
  fold n s1 in HI1, Hpend. cbn zeta. cbn [payload_of].
  set (frame := VObj (("requestId", VStr (BridgeServer.request_name n)) :: props)).
  split.
  { unfold handleCommand, bind. rewrite Hres, MCPBridgeFacts.sendResponse_returns.
    rewrite Hws, Hopen, Hrid, truthy_request_name. cbn [andb val_of_string payload_of].
    rewrite obj_spread_fresh; [done |]. cbn. by apply NoDup_cons. }
  assert (Hmsg : BridgeServer.message_requestId (json frame)
                 = Some (VStr (BridgeServer.request_name n))).
  { unfold frame. rewrite json_VObj. done. }
  assert (Hp : BridgeServer.pendingRequests s1 !! BridgeServer.request_name n
               = Some (BridgeServer.mkPending n n)).
  { rewrite Hpend. apply lookup_insert_eq. }
  destruct (BridgeServerFacts.handleMessage_hit s1 _ _ _ HI1 Hmsg Hp)
    as (_ & Hnone & Hdone & _).
  cbn [BridgeServer.promise] in *. split; [done |].
  rewrite Hdone. do 2 f_equal. unfold frame. rewrite !json_VObj.
  cbn [json_props json BridgeServer.message_data obj_remove String.eqb Ascii.eqb
       Bool.eqb andb].
  rewrite obj_remove_fresh; [done |]. by apply json_props_keys.
Qed.

(** X21: a command makes the round trip.  A connected server sends a command
    under the next request number; the client with an open socket that
    reads the frame answers — every result of [handleCommand] is an object
    — and when the answer arrives the server fulfils the promise of that
    request, which was undecided until then, with the client's result as
    [JSON] carries it. *)
Theorem command_round_trip clk c cmd s b :
  BridgeServer.reachable s →
  BridgeServer.isConnected s = true →
  is_open (ws b) = true →
  let n := (BridgeServer.requestId s + 1)%N in
  let s1 := (BridgeServer.sendCommand c BridgeServer.Sent s).2 in
  received c (BridgeServer.request_name n) = Some cmd →
  (BridgeServer.sendCommand c BridgeServer.Sent s).1 = BridgeServer.Awaiting n
  ∧ BridgeServer.outbox s1
    = (BridgeServer.outbox s
       ++ [BridgeServer.envelope c (BridgeServer.request_name n)])%list
  ∧ ∃ r b1,
    result_of clk cmd b = (Returns r, b1)
    ∧ plain r
    ∧ let frame := VObj (("requestId", VStr (BridgeServer.request_name n)) :: payload_of r) in
      handleCommand clk cmd b = (Returns tt, set_sent (sent b1 ++ [frame]) b1)
      ∧ BridgeServer.outcome n s1 = None
      ∧ BridgeServer.outcome n (BridgeServer.handleMessage (json frame) s1)
        = Some (BridgeServer.Fulfilled (json r)).
Proof. apply round_trip. Qed.

(** X22: six tools confirm what the client refused.  [apply_vibe],
    [set_environment], [apply_impulse], [set_gravity], [load_asset] and
    [apply_material] send actions for which [handleCommand] has no [case]:
    the client changes nothing and answers ["Unknown action: .."].  The
    tool does not look at the answer: its result starts with the success
    mark and is no error ([apply_impulse] and [set_gravity] need their
    [vector] for that). *)
Theorem unsupported_actions_are_confirmed name a rid clk b v :
  name ∈ unsupported →
  (name ∈ ["apply_impulse"; "set_gravity"] → is_Some (a_vector a)) →
  ∃ c cmd t,
    run (guarded name (Some a)) [CommandAnswer (Resolved v)]
    = (Returned (mkResult t false), [c])
    ∧ String.prefix mark_ok t = true
    ∧ received c rid = Some cmd
    ∧ (c_action cmd ∉ actions)
    ∧ result_of clk cmd b
      = (Returns (failure ("Unknown action: " +:+ c_action cmd)), b).
Proof.
  intros Hname Hvector.
  assert (Hsent : ∃ c t,
            run (guarded name (Some a)) [CommandAnswer (Resolved v)]
            = (Returned (mkResult t false), [c])
            ∧ String.prefix mark_ok t = true
            ∧ is_Some (received c rid)
            ∧ (BridgeServer.action c ∉ actions)).
  { unfold unsupported in Hname.
    repeat (apply elem_of_cons in Hname as [-> | Hname]);
      [| | | | | | by apply elem_of_nil in Hname].
    3, 4: destruct Hvector as [l Hl];
      [repeat first [apply list_elem_of_here | apply list_elem_of_further] |].
    all: eexists _, _; unfold guarded, switch;
      cbn [String.eqb Ascii.eqb Bool.eqb];
      unfold apply_vibe, set_environment, apply_impulse, set_gravity, load_asset,
        apply_material, destructure, with_numbers, join_numbers, send, ok;
      rewrite ?Hl; cbn [try_catch run].
    all: split; [reflexivity |].
    all: split; [apply prefix_append |].
    all: split; [| by apply (bool_decide_unpack _)].
    all: unfold received, BridgeServer.envelope, command; rewrite json_VObj;
      simpl obj_set; apply decode_is_Some;
      [eexists; rewrite field_json_props by (by apply (bool_decide_unpack _));
       reflexivity | typed_read ..]. }
  destruct Hsent as (c & t & Hrun & Hmark & [cmd Hcmd] & Hnot).
  exists c, cmd, t.
  destruct (received_action_and_id _ _ _ Hcmd) as [Ha _].
  rewrite Ha. do 4 (split; [done |]).
  rewrite MCPBridgeFacts.result_of_dispatch, MCPBridgeFacts.dispatch_unknown
    by (by rewrite Ha).
  by rewrite Ha.
Qed.

(** X23: [move_object] reports success for an object that is not there.  The
    client answers ["Object not found: .."]; the server fulfils the request
    with that answer, an object; the tool tests the answer for truthiness
    only, so it reports that the object was moved. *)
Theorem move_object_reports_success_for_a_missing_object a target l clk s b :
  BridgeServer.reachable s →
  BridgeServer.isConnected s = true →
  is_open (ws b) = true →
  a_name a = Some target →
  a_position a = Some l →
  findObject (Some target) b = Returns None →
  let n := (BridgeServer.requestId s + 1)%N in
  let c := command "moveSceneObject"
             [("path", VStr target); ("position", VArr (VNum <$> l))] in
  let s1 := (BridgeServer.sendCommand c BridgeServer.Sent s).2 in
  let answer := failure ("Object not found: " +:+ target) in
  ∃ cmd frame,
    received c (BridgeServer.request_name n) = Some cmd
    ∧ handleCommand clk cmd b = (Returns tt, set_sent (sent b ++ [frame]) b)
    ∧ BridgeServer.outcome n (BridgeServer.handleMessage (json frame) s1)
      = Some (BridgeServer.Fulfilled answer)
    ∧ run (guarded "move_object" (Some a)) [CommandAnswer (Resolved answer)]
      = (Returned
           (mkResult (mark_ok +:+ " Moved " +:+ quote +:+ target +:+ quote +:+ " to ["
                      +:+ join ", " (number_to_string <$> l) +:+ "]") false),
         [c]).
Proof.
  intros Hreach Hconn Hopen Hname Hpos Hfind n c s1 answer.
  set (cmd := {| c_action := "moveSceneObject";
                 c_requestId := Some (BridgeServer.request_name n);
                 c_maxDepth := None; c_name := None; c_nameContains := None;
                 c_type := None; c_path := Some target; c_id := None;
                 c_newName := None; c_position := Some l;
                 c_rotation := None; c_scale := None; c_target := None;
                 c_offset := None; c_lookAt := None; c_size := None;
                 c_visible := None; c_opacity := None; c_speed := None;
                 c_animate := None; c_duration := None; c_fov := None;
                 c_near := None; c_far := None; c_color := None;
                 c_intensity := None |}).
  assert (Hrecv : received c (BridgeServer.request_name n) = Some cmd).
  { unfold received, BridgeServer.envelope, c, command. rewrite json_VObj.
    simpl obj_set. repeat rewrite json_props_defined by done.
    rewrite json_numbers. apply decode_intro; read_fields. }
  assert (Hres : result_of clk cmd b = (Returns answer, b)).
  { rewrite MCPBridgeFacts.result_of_dispatch. unfold dispatch.
    cbn [c_action cmd String.eqb Ascii.eqb Bool.eqb orb].
    unfold moveObject. cbn [c_name c_path cmd js_or truthy]. by rewrite Hfind. }
  destruct (round_trip clk c cmd s b Hreach Hconn Hopen Hrecv)
    as (_ & _ & r & b1 & Hres' & _ & Hhandle & _ & Hdone).
  rewrite Hres in Hres'. injection Hres' as <- <-.
  eexists cmd, _. split; [done |]. split; [exact Hhandle |]. split; [exact Hdone |].
  unfold guarded, switch. cbn [String.eqb Ascii.eqb Bool.eqb].
  unfold move_object, destructure, send, with_numbers, join_numbers, ok.
  rewrite Hname, Hpos. reflexivity.
Qed.

End CrossLayer.

Lemma spawn_entity_ignores_colour_and_parent_witness :
  ∃ c cmd mesh b1 m,
    (∀ v, ToolServer.run (guarded (H := demo_engine) "spawn_entity" (Some red_ball)) [CommandAnswer (Resolved v)]
          = (Returned
               (mkResult
                  (mark_ok +:+ " Spawned " +:+ quote +:+ "ball" +:+ quote
                   +:+ " (Sphere) at ["
                   +:+ join ", " (number_to_string (Engine := demo_engine) <$> [0; 0; 0]%Q)
                   +:+ "]") false), [c]))
    ∧ received c "req_1" = Some cmd
    ∧ MCPBridge.c_color cmd = None
    ∧ MCPBridge.result_of (H := MCPBridge.demo_externals) MCPBridge.demo_clock cmd MCPBridge.demo_bridge = (MCPBridge.Returns (MCPBridge.success_id (Some "ball")), b1)
    ∧ MCPBridge.findObject (Some "ball") b1 = MCPBridge.Returns (Some mesh)
    ∧ MCPBridge.parent_of (Three.uid_of mesh) b1 = Some (Three.uid_of (MCPBridge.scene MCPBridge.demo_bridge))
    ∧ Three.material (Three.props_of mesh) = Some m
    ∧ MCPBridge.materials b1 !! m = Some (Three.mkMaterial "#ffffff" false (Three.Num 1)).
Proof.
  apply (spawn_entity_ignores_colour_and_parent (H := demo_engine)
           (H0 := MCPBridge.demo_externals) red_ball "Sphere" "req_1" MCPBridge.demo_clock
           MCPBridge.demo_bridge).
  - apply MCPBridgeFacts.wf_demo_bridge.
  - reflexivity.
  - vm_compute. apply list_elem_of_further, list_elem_of_further, list_elem_of_here.
Defined.

Lemma unsupported_actions_are_confirmed_witness :
  ∃ c cmd t,
    ToolServer.run (guarded (H := demo_engine) "apply_material" (Some red_ball))
      [CommandAnswer (Resolved VNull)]
    = (Returned (mkResult t false), [c])
    ∧ String.prefix mark_ok t = true
    ∧ received c "req_1" = Some cmd
    ∧ (MCPBridge.c_action cmd ∉ MCPBridge.actions)
    ∧ MCPBridge.result_of (H := MCPBridge.demo_externals) MCPBridge.demo_clock cmd
        MCPBridge.demo_bridge
      = (MCPBridge.Returns
           (MCPBridge.failure ("Unknown action: " +:+ MCPBridge.c_action cmd)),
         MCPBridge.demo_bridge).
Proof.
  apply (unsupported_actions_are_confirmed (H := demo_engine)
           (H0 := MCPBridge.demo_externals) "apply_material" red_ball "req_1"
           MCPBridge.demo_clock MCPBridge.demo_bridge VNull).
  - by apply (bool_decide_unpack _).
  - intros Hin. exfalso. revert Hin. by apply (bool_decide_unpack _).
Defined.

Lemma command_round_trip_witness :
  let s := BridgeServer.run [BridgeServer.Connection] in
  let s1 := (BridgeServer.sendCommand BridgeServer.demo_move BridgeServer.Sent s).2 in
  (BridgeServer.sendCommand BridgeServer.demo_move BridgeServer.Sent s).1
  = BridgeServer.Awaiting 1
  ∧ BridgeServer.outbox s1
    = (BridgeServer.outbox s
       ++ [BridgeServer.envelope BridgeServer.demo_move (BridgeServer.request_name 1)])%list
  ∧ ∃ r b1,
      MCPBridge.result_of (H := MCPBridge.demo_externals) MCPBridge.demo_clock
        (MCPBridge.with_name "cube"
           (MCPBridge.with_requestId "req_1" (MCPBridge.blank "moveObject")))
        MCPBridge.demo_bridge
      = (MCPBridge.Returns r, b1)
      ∧ plain r
      ∧ let frame := VObj (("requestId", VStr (BridgeServer.request_name 1))
                           :: MCPBridge.payload_of r) in
        MCPBridge.handleCommand (H := MCPBridge.demo_externals) MCPBridge.demo_clock
          (MCPBridge.with_name "cube"
             (MCPBridge.with_requestId "req_1" (MCPBridge.blank "moveObject")))
          MCPBridge.demo_bridge
        = (MCPBridge.Returns tt,
           MCPBridge.set_sent (MCPBridge.sent b1 ++ [frame]) b1)
        ∧ BridgeServer.outcome 1 s1 = None
        ∧ BridgeServer.outcome 1 (BridgeServer.handleMessage (json frame) s1)
          = Some (BridgeServer.Fulfilled (json r)).
Proof.
  apply (command_round_trip (H0 := MCPBridge.demo_externals) MCPBridge.demo_clock
           BridgeServer.demo_move
           (MCPBridge.with_name "cube"
              (MCPBridge.with_requestId "req_1" (MCPBridge.blank "moveObject")))
           (BridgeServer.run [BridgeServer.Connection]) MCPBridge.demo_bridge).
  - by exists [BridgeServer.Connection].
  - reflexivity.
  - reflexivity.
  - vm_compute. reflexivity.
Defined.

Lemma move_object_reports_success_for_a_missing_object_witness :
  let s := BridgeServer.run [BridgeServer.Connection] in
  let c := command "moveSceneObject"
             [("path", VStr "ghost"); ("position", VArr (VNum <$> [1; 2; 3]%Q))] in
  let s1 := (BridgeServer.sendCommand c BridgeServer.Sent s).2 in
  let answer := MCPBridge.failure "Object not found: ghost" in
  ∃ cmd frame,
    received c (BridgeServer.request_name 1) = Some cmd
    ∧ MCPBridge.handleCommand (H := MCPBridge.demo_externals) MCPBridge.demo_clock cmd
        MCPBridge.demo_bridge
      = (MCPBridge.Returns tt,
         MCPBridge.set_sent (MCPBridge.sent MCPBridge.demo_bridge ++ [frame])
           MCPBridge.demo_bridge)
    ∧ BridgeServer.outcome 1 (BridgeServer.handleMessage (json frame) s1)
      = Some (BridgeServer.Fulfilled answer)
    ∧ ToolServer.run (guarded (H := demo_engine) "move_object" (Some move_ghost))
        [CommandAnswer (Resolved answer)]
      = (Returned
           (mkResult (mark_ok +:+ " Moved " +:+ quote +:+ "ghost" +:+ quote +:+ " to ["
                      +:+ join ", " (number_to_string (Engine := demo_engine)
                                       <$> [1; 2; 3]%Q) +:+ "]") false),
         [c]).
Proof.
  apply (move_object_reports_success_for_a_missing_object (H := demo_engine)
           (H0 := MCPBridge.demo_externals) move_ghost "ghost" [1; 2; 3]%Q
           MCPBridge.demo_clock (BridgeServer.run [BridgeServer.Connection])
           MCPBridge.demo_bridge).
  - by exists [BridgeServer.Connection].
  - reflexivity.
  - reflexivity.
  - reflexivity.
  - reflexivity.
  - vm_compute. reflexivity.
Defined.

End WireFacts.

Module GltfFacts.
Import Js ToolServer Gltf.

(** Induction over a node with the property known of every child. *)
Lemma Node_tree_ind (P : Node → Prop) :
  (∀ children, Forall P children → P (mkNode children)) → ∀ node, P node.
Proof.
  intros step. fix rec 1. intros [children]. apply step.
  induction children as [| c cs IH]; constructor; [apply rec | exact IH].
Qed.

Lemma visit_size node count : visit node count = (count + size node)%N.
Proof.
  revert count. induction node as [children IH] using Node_tree_ind.
  intros count. cbn [visit size].
  assert (Hloop : ∀ start,
            (fix each (nodes : list Node) (count : N) : N :=
               match nodes with
               | [] => count
               | child :: rest => each rest (visit child count)
               end) children start
            = (start + foldr (λ child total, size child + total) 0 children)%N).
  { induction IH as [| child rest Hc _ IHrest]; intros start; cbn; [lia |].
    rewrite IHrest, Hc. lia. }
  rewrite Hloop. lia.
Qed.

Lemma countSceneNodes_size scene :
  countSceneNodes scene = total (size <$> scene_children scene).
Proof.
  unfold countSceneNodes.
  assert (Hloop : ∀ (children : list Node) start,
            foldl (λ count child, visit child count) start children
            = (start + total (size <$> children))%N).
  { induction children as [| child rest IH]; intros start; cbn; [lia |].
    rewrite IH, visit_size. unfold total. lia. }
  by rewrite Hloop.
Qed.

Lemma foldl_add {A} (f : A → N) (l : list A) start :
  foldl (λ sum item, (sum + f item)%N) start l = (start + total (f <$> l))%N.
Proof.
  revert start. induction l as [| item l IH]; intros start; cbn; [lia |].
  rewrite IH. unfold total. lia.
Qed.

Lemma none_missing (l : list Primitive) :
  length (filter (λ p, has_position p = false) l) = 0%nat
  ↔ Forall (λ p, has_position p = true) l.
Proof.
  rewrite length_zero_iff_nil. induction l as [| p l IH].
  - split; [constructor | done].
  - rewrite filter_cons, Forall_cons. destruct (has_position p).
    + rewrite decide_False by done. rewrite IH. tauto.
    + rewrite decide_True by done. split; [done | by intros [? _]].
Qed.

Section Analysis.
Context `{Engine}.

(** What one primitive adds to the four variables. *)
Lemma summarize_primitive_totals label index primitive totals :
  let '(summary, totals1) := summarize_primitive label index primitive totals in
  totalPrimitives totals1 = (totalPrimitives totals + 1)%N
  ∧ totalVertices totals1 = (totalVertices totals + ps_vertices summary)%N
  ∧ totalTriangles totals1 = (totalTriangles totals + ps_triangles summary)%N
  ∧ length (missingPosition totals1)
    = (length (missingPosition totals) + if has_position primitive then 0 else 1)%nat
  ∧ (has_position primitive = false → ps_vertices summary = 0%N).
Proof.
  unfold summarize_primitive, has_position. cbn.
  destruct (getAttribute "POSITION" (attributes primitive)) as [count |] eqn:Hp.
  - rewrite bool_decide_eq_true_2 by by eexists. repeat split; try done; lia.
  - rewrite bool_decide_eq_false_2 by (by intros [? ?]).
    rewrite length_app. cbn. repeat split; done.
Qed.

Lemma summarize_primitives_totals label primitives index totals :
  let '(summaries, totals1) := summarize_primitives label index primitives totals in
  length summaries = length primitives
  ∧ totalPrimitives totals1 = (totalPrimitives totals + N.of_nat (length primitives))%N
  ∧ totalVertices totals1 = (totalVertices totals + total (ps_vertices <$> summaries))%N
  ∧ totalTriangles totals1
    = (totalTriangles totals + total (ps_triangles <$> summaries))%N
  ∧ length (missingPosition totals1)
    = (length (missingPosition totals)
       + length (filter (λ p, has_position p = false) primitives))%nat.
Proof.
  revert index totals.
  induction primitives as [| primitive rest IH]; intros index totals.
  { cbn. repeat split; try done; lia. }
  cbn [summarize_primitives].
  pose proof (summarize_primitive_totals label index primitive totals) as H1.
  destruct (summarize_primitive label index primitive totals) as [summary totals1].
  destruct H1 as (P1 & V1 & T1 & M1 & _).
  specialize (IH (S index) totals1).
  destruct (summarize_primitives label (S index) rest totals1) as [summaries totals2].
  destruct IH as (L2 & P2 & V2 & T2 & M2).
  rewrite filter_cons. unfold total in *. cbn [length fmap list_fmap foldr].
  repeat split; [lia | lia | lia | lia |].
  rewrite M2, M1. destruct (has_position primitive); cbn.
  - rewrite decide_False by done. lia.
  - rewrite decide_True by done. cbn. lia.
Qed.

Lemma summarize_meshes_totals meshes index totals :
  let '(summaries, totals1) := summarize_meshes index meshes totals in
  primitiveCount <$> summaries = (λ mesh, length (primitives mesh)) <$> meshes
  ∧ totalPrimitives totals1
    = (totalPrimitives totals + total (N.of_nat ∘ primitiveCount <$> summaries))%N
  ∧ totalVertices totals1
    = (totalVertices totals + total (ms_estimatedVertices <$> summaries))%N
  ∧ totalTriangles totals1
    = (totalTriangles totals + total (ms_estimatedTriangles <$> summaries))%N
  ∧ length (missingPosition totals1)
    = (length (missingPosition totals)
       + length (filter (λ p, has_position p = false) (meshes ≫= primitives)))%nat.
Proof.
  revert index totals. induction meshes as [| mesh rest IH]; intros index totals.
  { cbn. repeat split; try done; lia. }
  cbn [summarize_meshes]. unfold summarize_mesh.
  set (label := default _ _).
  pose proof (summarize_primitives_totals label (primitives mesh) 0 totals) as H1.
  destruct (summarize_primitives label 0 (primitives mesh) totals)
    as [primitiveSummaries totals1].
  destruct H1 as (L1 & P1 & V1 & T1 & M1).
  specialize (IH (S index) totals1).
  destruct (summarize_meshes (S index) rest totals1) as [summaries totals2].
  destruct IH as (C2 & P2 & V2 & T2 & M2).
  cbn [fmap list_fmap mbind list_bind primitiveCount ms_estimatedVertices
       ms_estimatedTriangles compose].
  rewrite !foldl_add, filter_app, length_app.
  unfold total in *. cbn [foldr].
  split; [by rewrite C2 |]. repeat split; lia.
Qed.

(** What the analysis counts, against the document. *)
Lemma collect_totals document :
  let '(summaries, totals) := collectMeshSummaries document in
  primitiveCount <$> summaries
  = (λ mesh, length (primitives mesh)) <$> meshes document
  ∧ totalPrimitives totals = total (N.of_nat ∘ primitiveCount <$> summaries)
  ∧ totalVertices totals = total (ms_estimatedVertices <$> summaries)
  ∧ totalTriangles totals = total (ms_estimatedTriangles <$> summaries)
  ∧ length (missingPosition totals)
    = length (filter (λ p, has_position p = false) (all_primitives document)).
Proof.
  unfold collectMeshSummaries, all_primitives.
  pose proof (summarize_meshes_totals (meshes document) 0 (mkTotals 0 0 0 [])) as H1.
  destruct (summarize_meshes 0 (meshes document) (mkTotals 0 0 0 []))
    as [summaries totals].
  cbn in H1. destruct H1 as (C & P & V & T & M).
  repeat split; try done; lia.
Qed.

(** What an analysis reports, against the document. *)
Lemma analysis_counts document path bytes :
  let '(analysis, missing) := buildAnalysis document path bytes in
  let summary := summary analysis in
  primitiveCount <$> an_meshes analysis
  = (λ mesh, length (primitives mesh)) <$> meshes document
  ∧ drawCalls summary = total (N.of_nat ∘ primitiveCount <$> an_meshes analysis)
  ∧ estimatedVertices summary = total (ms_estimatedVertices <$> an_meshes analysis)
  ∧ estimatedTriangles summary = total (ms_estimatedTriangles <$> an_meshes analysis)
  ∧ sum_meshes summary = length (meshes document)
  ∧ nodeCount <$> an_scenes analysis
    = (λ scene, total (size <$> scene_children scene)) <$> scenes document
  ∧ length missing
    = length (filter (λ p, has_position p = false) (all_primitives document)).
Proof.
  unfold buildAnalysis.
  pose proof (collect_totals document) as H1.
  destruct (collectMeshSummaries document) as [summaries totals].
  destruct H1 as (C & P & V & T & M). cbn.
  split; [done |]. do 3 (split; [done |]).
  split.
  { rewrite <- (length_fmap primitiveCount), C. by rewrite length_fmap. }
  split; [| done].
  rewrite <- list_fmap_compose. apply list_fmap_ext. intros _ scene _. cbn.
  apply countSceneNodes_size.
Qed.

(** X24: the totals of an analysis agree with its mesh list.  The draw calls,
    vertices and triangles of the summary, which the code accumulates on
    the side while it maps over the meshes, are the sums of the per-mesh
    entries; every mesh reports the number of its primitives; a scene
    reports the number of nodes below it; and [missingPosition] has one
    label per primitive without a [POSITION] attribute. *)
Theorem analysis_totals_agree document path bytes :
  let '(analysis, missing) := buildAnalysis document path bytes in
  let summary := summary analysis in
  primitiveCount <$> an_meshes analysis
  = (λ mesh, length (primitives mesh)) <$> meshes document
  ∧ drawCalls summary = total (N.of_nat ∘ primitiveCount <$> an_meshes analysis)
  ∧ estimatedVertices summary = total (ms_estimatedVertices <$> an_meshes analysis)
  ∧ estimatedTriangles summary = total (ms_estimatedTriangles <$> an_meshes analysis)
  ∧ sum_meshes summary = length (meshes document)
  ∧ nodeCount <$> an_scenes analysis
    = (λ scene, total (size <$> scene_children scene)) <$> scenes document
  ∧ length missing
    = length (filter (λ p, has_position p = false) (all_primitives document)).
Proof. apply analysis_counts. Qed.

(** X25: a document is valid exactly when it has a scene and every primitive
    has positions.  The limits decide warnings only: whatever limits the
    caller gives, [valid] and [errors] are the same, and a document without
    meshes is valid when it has a scene. *)
Theorem valid_iff_scene_and_positions document path bytes limits :
  let report := validateGltf document path bytes limits in
  (valid report = true
   ↔ scenes document ≠ [] ∧ Forall (λ p, has_position p = true) (all_primitives document))
  ∧ (valid report = true ↔ errors report = [])
  ∧ errors report = errors (validateGltf document path bytes VUndefined)
  ∧ length (issues_missingPosition report)
    = length (filter (λ p, has_position p = false) (all_primitives document)).
Proof.
  cbn zeta. unfold validateGltf.
  pose proof (analysis_counts document path bytes) as H1.
  destruct (buildAnalysis document path bytes) as [analysis missing] eqn:Hb.
  destruct H1 as (_ & _ & _ & _ & _ & _ & M).
  assert (Hs : sum_scenes (summary analysis) = length (scenes document)).
  { unfold buildAnalysis in Hb. destruct (collectMeshSummaries document).
    injection Hb as <- _. cbn. by rewrite length_map. }
  cbn [valid errors issues_missingPosition]. rewrite Hs.
  pose proof (none_missing (all_primitives document)) as Hall.
  split; [| split; [| split; [done | exact M]]].
  - rewrite <- Hall, <- M.
    destruct (scenes document), missing; cbn; split; try done; by intros [? ?].
  - by destruct (scenes document), missing.
Qed.

End Analysis.

(** *** Limits *)

Lemma obj_get_obj_set key k v props :
  obj_get key (obj_set k v props)
  = if String.eqb k key then Some v else obj_get key props.
Proof.
  induction props as [| [k' w] props IH]; cbn; [done |].
  destruct (String.eqb k' k) eqn:Hk; cbn.
  - apply String.eqb_eq in Hk as ->. by destruct (String.eqb k key).
  - rewrite IH. destruct (String.eqb k' key) eqn:Hk'; [| done].
    apply String.eqb_eq in Hk' as ->. by rewrite String.eqb_sym, Hk.
Qed.

(** A property of [{ ...a, ...b }] is the last one [b] has under the key,
    or else the one of [a]. *)
Lemma obj_get_obj_spread key a b :
  obj_get key (obj_spread a b)
  = match snd <$> last (filter (λ entry, entry.1 = key) b) with
    | Some v => Some v
    | None => obj_get key a
    end.
Proof.
  revert a. induction b as [| [k v] b IH] using rev_ind; intros a; [done |].
  unfold obj_spread in *. rewrite foldl_app. cbn [foldl fst snd].
  rewrite obj_get_obj_set, filter_app, filter_cons, filter_nil. cbn [fst].
  destruct (String.eqb_spec k key) as [-> | Hne].
  - rewrite decide_True by done. rewrite last_snoc. reflexivity.
  - rewrite decide_False by done. rewrite app_nil_r. apply IH.
Qed.

Lemma obj_spread_values (P : JsVal → Prop) a b :
  Forall (λ entry, P entry.2) a → Forall (λ entry, P entry.2) b →
  Forall (λ entry, P entry.2) (obj_spread a b).
Proof.
  intros Ha Hb. revert a Ha. induction Hb as [| [k v] b Hv _ IH]; intros a Ha; [done |].
  change (obj_spread a ((k, v) :: b)) with (obj_spread (obj_set k v a) b).
  apply IH. clear IH. induction Ha as [| [k' w] a Hw Ha IHa]; cbn.
  - by constructor.
  - destruct (String.eqb k' k); constructor; done.
Qed.

Lemma last_filter_filter {A} (P Q : A → Prop) `{∀ x, Decision (P x)}
    `{∀ x, Decision (Q x)} (l : list A) :
  last (filter P (filter Q l)) = last (filter (λ x, P x ∧ Q x) l).
Proof.
  f_equal. induction l as [| x l IH]; [done |].
  rewrite !filter_cons. destruct (decide (Q x)), (decide (P x)).
  - rewrite filter_cons, !decide_True by done. by rewrite IH.
  - rewrite filter_cons, !decide_False by tauto. done.
  - rewrite decide_False by tauto. done.
  - rewrite decide_False by tauto. done.
Qed.

Lemma filter_key_fresh key (s : list (string * JsVal)) :
  key ∉ s.*1 → filter (λ entry, entry.1 = key) s = [].
Proof.
  induction s as [| [k v] s IH]; [done |].
  rewrite fmap_cons, not_elem_of_cons. cbn [fst]. intros [Hne Hk].
  rewrite filter_cons, decide_False by (cbn; congruence). by apply IH.
Qed.

(** With distinct keys, the last property under a key is the one read. *)
Lemma last_filter_obj_get key (s : list (string * JsVal)) :
  NoDup s.*1 → snd <$> last (filter (λ entry, entry.1 = key) s) = obj_get key s.
Proof.
  induction s as [| [k v] s IH]; [done |].
  rewrite fmap_cons, NoDup_cons. cbn [fst]. intros [Hk Hnd].
  rewrite filter_cons. cbn [fst obj_get].
  destruct (String.eqb_spec k key) as [-> | Hne].
  - rewrite decide_True by done. by rewrite filter_key_fresh.
  - rewrite decide_False by done. by apply IH.
Qed.

Lemma obj_set_keys key k v a :
  key ∈ (obj_set k v a).*1 → key = k ∨ key ∈ a.*1.
Proof.
  induction a as [| [k' w] a IH]; cbn.
  - rewrite list_elem_of_singleton. auto.
  - destruct (String.eqb k' k); cbn; rewrite !elem_of_cons; [auto |].
    intros [-> | Hin]; [auto |]. destruct (IH Hin); auto.
Qed.

Lemma obj_set_NoDup k v a : NoDup a.*1 → NoDup (obj_set k v a).*1.
Proof.
  induction a as [| [k' w] a IH]; cbn.
  - intros _. apply NoDup_singleton.
  - rewrite NoDup_cons. intros [Hk' Ha].
    destruct (String.eqb_spec k' k) as [-> | Hne]; cbn.
    + by apply NoDup_cons.
    + apply NoDup_cons. split; [| by apply IH].
      intros Hin. apply obj_set_keys in Hin as [-> | Hin]; done.
Qed.

Lemma obj_spread_NoDup a l : NoDup a.*1 → NoDup (obj_spread a l).*1.
Proof.
  revert a. induction l as [| [k v] l IH]; intros a Ha; [done |].
  change (obj_spread a ((k, v) :: l)) with (obj_spread (obj_set k v a) l).
  by apply IH, obj_set_NoDup.
Qed.

(** X26: how the limits of a validation are chosen.  Every limit is a
    number.  A property of the normalized limits is the last finite number
    the caller gave under its key, and otherwise the default — so a limit
    of zero or below is taken as given, a value that is not a finite number
    is ignored, and other numeric properties of the caller pass through.
    Limits that are absent, or falsy, give the defaults. *)
Theorem normalizeLimits_lookup limits key :
  obj_get key (normalizeLimits limits)
  = match (if truthy_val limits then given key limits else None) with
    | Some v => Some v
    | None => obj_get key DEFAULT_LIMITS
    end
  ∧ Forall (λ entry, ∃ q, entry.2 = VNum q) (normalizeLimits limits).
Proof.
  assert (Hdefault : Forall (λ entry : string * JsVal, ∃ q, entry.2 = VNum q)
                       DEFAULT_LIMITS).
  { unfold DEFAULT_LIMITS. repeat constructor; by eexists. }
  unfold normalizeLimits, given. destruct (truthy_val limits); cbn [negb]; [| done].
  set (filtered := filter (λ entry, finite_number entry.2) (entries limits)).
  split.
  - rewrite obj_get_obj_spread.
    rewrite last_filter_obj_get by (apply obj_spread_NoDup; constructor).
    rewrite obj_get_obj_spread. cbn [obj_get]. unfold filtered.
    rewrite (last_filter_filter (λ entry : string * JsVal, entry.1 = key)
               (λ entry, finite_number entry.2)).
    replace (filter (λ x : string * JsVal, x.1 = key ∧ finite_number x.2) (entries limits))
      with (filter (λ entry : string * JsVal, entry.1 = key ∧ finite_number entry.2 = true)
                   (entries limits)).
    + by destruct (snd <$> last _).
    + apply list_filter_iff. intros [k v]. cbn.
      destruct (finite_number v); cbn; split; intros [? ?]; by split.
  - apply (obj_spread_values (λ v, ∃ q, v = VNum q)); [done |].
    apply (obj_spread_values (λ v, ∃ q, v = VNum q)); [done |].
    unfold filtered. apply Forall_forall. intros [k v] Hin.
    apply list_elem_of_filter in Hin as [Hfin _]. cbn in *.
    destruct v; try done. by eexists.
Qed.

(** The sample document: three draw calls; the second mesh has no name, and
    its second primitive no positions. *)
Example demo_document_report :
  let report := validateGltf (H := demo_engine) demo_document "demo.glb" 100
                  (VObj [("maxDrawCalls", VNum 2); ("maxTriangles", VStr "1")]) in
  valid report = false
  ∧ errors report = ["Missing POSITION attribute in 1 primitive(s)."]
  ∧ warnings report = ["High draw call count (0). Target <= 0."]
  ∧ issues_missingPosition report = ["mesh_1:primitive_1"]
  ∧ drawCalls (metrics report) = 3%N
  ∧ estimatedVertices (metrics report) = 8%N
  ∧ estimatedTriangles (metrics report) = 4%N
  ∧ obj_get "maxTriangles" (limits report) = Some (VNum 200000).
Proof. vm_compute. repeat split. Qed.

End GltfFacts.

Module WaitingFacts.
Import Js BridgeServer Waiting.

(** With both timers disarmed nothing happens to the wait any more. *)
Lemma tick_frozen s w ticks :
  timeout_armed w = false → interval_armed w = false →
  (foldl tick (s, w) ticks).2 = w.
Proof.
  intros Ht Hi. revert s. induction ticks as [| t ticks IH]; intros s; [done |].
  destruct t; cbn [foldl tick]; rewrite ?Ht, ?Hi; cbn [andb]; apply IH.
Qed.

(** After the deadline the interval goes on until a poll sees a client;
    the promise stays rejected. *)
Lemma tick_timed_out s w ticks first others :
  timeout_armed w = false → interval_armed w = true → decided w = first :: others →
  let w' := (foldl tick (s, w) ticks).2 in
  interval_armed w' = negb (sees_client s ticks)
  ∧ timeout_armed w' = false
  ∧ verdict w' = Some first.
Proof.
  intros Ht Hi Hd. revert s. induction ticks as [| t ticks IH]; intros s.
  { cbn. unfold verdict. by rewrite Hi, Ht, Hd. }
  destruct t; cbn [foldl tick sees_client]; rewrite ?Ht, ?Hi; cbn [andb].
  - apply IH.
  - apply IH.
  - destruct (isConnected s); cbn [orb negb]; [| apply IH].
    rewrite tick_frozen by done. cbn. unfold verdict. cbn. by rewrite Hd.
Qed.

Lemma tick_waiting s ticks :
  let w' := (foldl tick (s, mkWait true true []) ticks).2 in
  interval_armed w' = negb (sees_client s ticks)
  ∧ timeout_armed w' = negb (sees_client s ticks) && negb (deadline_passed ticks)
  ∧ (sees_client s ticks = false →
     verdict w' = if deadline_passed ticks then Some (Rejected timeout_error) else None)
  ∧ (deadline_passed ticks = false →
     verdict w' = if sees_client s ticks then Some (Fulfilled VUndefined) else None).
Proof.
  revert s. induction ticks as [| t ticks IH]; intros s; [done |].
  destruct t; cbn [foldl tick sees_client deadline_passed existsb timeout_armed
                   interval_armed decided app orb andb].
  - apply IH.
  - destruct (tick_timed_out s (mkWait false true [Rejected timeout_error])
                ticks (Rejected timeout_error) [] eq_refl eq_refl eq_refl)
      as (Hi & Ht & Hv).
    rewrite Hi, Ht, Hv. rewrite andb_false_r. repeat split; done.
  - destruct (isConnected s); cbn [orb negb andb]; [| apply IH].
    rewrite tick_frozen by done. repeat split; done.
Qed.

(** X27: a wait that timed out keeps polling.  A call of
    [waitForConnection] made without a client polls every time its
    interval fires, until a poll finds a client; the deadline rejects the
    promise but does not stop the interval.  So after a timeout the
    interval is still armed, and it stays armed as long as no client
    connects.  A poll that finds a client before the deadline fulfils the
    promise and disarms both. *)
Theorem timed_out_wait_keeps_polling s ticks :
  isConnected s = false →
  let w := (wait_run s ticks).2 in
  interval_armed w = negb (sees_client s ticks)
  ∧ timeout_armed w = negb (sees_client s ticks) && negb (deadline_passed ticks)
  ∧ (sees_client s ticks = false →
     verdict w = if deadline_passed ticks then Some (Rejected timeout_error) else None)
  ∧ (deadline_passed ticks = false →
     verdict w = if sees_client s ticks then Some (Fulfilled VUndefined) else None).
Proof.
  intros Hc. unfold wait_run, waitForConnection. rewrite Hc. apply tick_waiting.
Qed.

Lemma timed_out_wait_keeps_polling_witness :
  let w := (wait_run initial [Poll; Deadline; Poll; Poll]).2 in
  interval_armed w = true
  ∧ timeout_armed w = false
  ∧ verdict w = Some (Rejected timeout_error).
Proof.
  destruct (timed_out_wait_keeps_polling initial [Poll; Deadline; Poll; Poll] eq_refl)
    as (Hi & Ht & Hv & _).
  split; [exact Hi |]. split; [exact Ht |]. exact (Hv eq_refl).
Defined.

End WaitingFacts.

Module ConnectionFacts.
Import Js Connection.

Lemma link_initial : Inv initial.
Proof. split; cbn; intros h; try done; rewrite ?lookup_empty; by intros [? ?]. Qed.

Lemma link_scheduleReconnect b : Inv b → Inv (scheduleReconnect b).
Proof.
  intros [Ht Hh Hs Hw]. split; cbn.
  - intros h. rewrite elem_of_union, elem_of_singleton. intros [Hin | ->]; [| done].
    exfalso. destruct (reconnectTimeout b) as [h' |] eqn:Hr.
    + apply elem_of_difference in Hin as [Hin Hne].
      apply Ht in Hin. injection Hin as ->. apply Hne. by apply elem_of_singleton.
    + by apply Ht in Hin.
  - intros h [= <-]. lia.
  - intros socket Hin. apply Hs in Hin. lia.
  - done.
Qed.

Lemma link_connect created b : Inv b → Inv (connect created b).
Proof.
  destruct created; [| apply link_scheduleReconnect].
  intros [Ht Hh Hs Hw]. split; cbn.
  - done.
  - intros h Hr. apply Hh in Hr. lia.
  - intros socket. rewrite lookup_insert_is_Some. intros [<- | [_ Hin]]; [lia |].
    apply Hs in Hin. lia.
  - intros socket [= <-]. rewrite lookup_insert_eq. by eexists.
Qed.

Lemma close_socket_is_Some socket sockets other :
  is_Some (close_socket socket sockets !! other) ↔ is_Some (sockets !! other).
Proof.
  unfold close_socket. destruct (sockets !! socket) as [[] |] eqn:Hs; try done.
  all: rewrite lookup_insert_is_Some; split;
    [intros [<- | [_ ?]]; [by eexists | done] |].
  all: intros Hin; destruct (decide (socket = other)); auto.
Qed.

Lemma link_disconnect b : Inv b → Inv (disconnect b).
Proof.
  intros [Ht Hh Hs Hw].
  assert (Hnone : ∀ h, h ∉ match reconnectTimeout b with
                           | Some h' => timers b ∖ {[h']}
                           | None => timers b
                           end).
  { intros h Hin. destruct (reconnectTimeout b) as [h' |] eqn:Hr.
    - apply elem_of_difference in Hin as [Hin Hne].
      apply Ht in Hin. injection Hin as ->. apply Hne. by apply elem_of_singleton.
    - by apply Ht in Hin. }
  unfold disconnect. destruct (ws b) as [socket |]; split; cbn; try done.
  - intros h Hin. by apply Hnone in Hin.
  - intros other. rewrite close_socket_is_Some. apply Hs.
  - intros h Hin. by apply Hnone in Hin.
Qed.

Lemma link_set_socket socket rs b :
  is_Some (sockets b !! socket) → Inv b → Inv (set_socket socket rs b).
Proof.
  intros Hin [Ht Hh Hs Hw]. split; cbn; try done.
  - intros other. rewrite lookup_insert_is_Some. intros [<- | [_ ?]]; by apply Hs.
  - intros other Hws. rewrite lookup_insert_is_Some.
    destruct (decide (socket = other)); [by left | right]. split; [done |]. by apply Hw.
Qed.

Lemma link_sendSceneState b : Inv b → Inv (sendSceneState b).
Proof.
  intros HI. unfold sendSceneState. destruct (ws b) as [socket |] eqn:Hws; [| done].
  destruct (is_open _); [| done].
  destruct HI as [Ht Hh Hs Hw]. split; cbn; try done.
  intros other [= <-]. by apply Hw.
Qed.

Lemma link_step b e : Inv b → Inv (step b e).
Proof.
  intros HI. destruct e as [created | | socket | socket | timer created]; cbn [step].
  - by apply link_connect.
  - by apply link_disconnect.
  - destruct (sockets b !! socket) as [[] |] eqn:Hs; try done.
    apply link_sendSceneState, link_set_socket; [by eexists | done].
  - destruct (sockets b !! socket) as [[] |] eqn:Hs; try done.
    all: apply link_scheduleReconnect, link_set_socket; [by eexists | done].
  - destruct (bool_decide (timer ∈ timers b)); [| done].
    apply link_connect. destruct HI as [Ht Hh Hs Hw]. split; cbn; try done.
    intros h Hin. apply elem_of_difference in Hin as [Hin _]. by apply Ht.
Qed.

Lemma link_reachable b : reachable b → Inv b.
Proof.
  intros [events ->]. unfold run.
  induction events as [| e events IH] using rev_ind; [apply link_initial |].
  rewrite foldl_app. by apply link_step.
Qed.

(** X28: at most one reconnect timer is armed.  In every state the bridge
    reaches — whatever the order of calls, socket events and timers — an
    armed timer is the one held in [reconnectTimeout]: no second attempt is
    pending, and a bridge that holds no timer has none armed. *)
Theorem at_most_one_reconnect_timer b :
  reachable b →
  (∀ h, h ∈ timers b → reconnectTimeout b = Some h)
  ∧ (∀ h h', h ∈ timers b → h' ∈ timers b → h = h')
  ∧ (reconnectTimeout b = None → timers b = ∅).
Proof.
  intros Hr. destruct (link_reachable b Hr) as [Ht _ _ _].
  split; [done |]. split.
  - intros h h' Hh Hh'. apply Ht in Hh, Hh'. congruence.
  - intros Hnone. apply set_eq. intros h. split; [| by intros ?%elem_of_empty].
    intros Hin. apply Ht in Hin. congruence.
Qed.

Lemma at_most_one_reconnect_timer_witness :
  let b := run [Connect true; Closes 0; Closes 0; Connect false] in
  reconnectTimeout b = Some 2 ∧ (∀ h, h ∈ timers b → reconnectTimeout b = Some h).
Proof.
  split; [reflexivity |].
  apply (at_most_one_reconnect_timer
           (run [Connect true; Closes 0; Closes 0; Connect false])).
  by eexists.
Defined.

(** X29: [disconnect()] is followed by a reconnect.  The socket that
    [disconnect] closes still has its [onclose] handler, and the handler
    schedules a reconnect: when the browser reports the socket closed, a
    timer is armed although the bridge was disconnected on purpose, and
    when that timer fires the bridge has a socket again. *)
Theorem disconnect_is_followed_by_reconnect b socket rs :
  reachable b →
  ws b = Some socket →
  sockets b !! socket = Some rs →
  rs ≠ CLOSED →
  let b1 := step b Disconnect in
  let b2 := step b1 (Closes socket) in
  let b3 := step b2 (Fires (next b) true) in
  (ws b1 = None ∧ reconnectTimeout b1 = None ∧ timers b1 = ∅
   ∧ sockets b1 !! socket = Some CLOSING)
  ∧ (ws b2 = None ∧ reconnectTimeout b2 = Some (next b) ∧ timers b2 = {[next b]})
  ∧ (ws b3 = Some (S (next b)) ∧ sockets b3 !! S (next b) = Some CONNECTING
     ∧ timers b3 = ∅).
Proof.
  intros Hr Hws Hs Hrs. cbn zeta.
  pose proof (link_reachable b Hr) as HI.
  pose proof (link_disconnect b HI) as HI1.
  assert (H1 : ws (disconnect b) = None ∧ reconnectTimeout (disconnect b) = None
               ∧ sockets (disconnect b) !! socket = Some CLOSING
               ∧ next (disconnect b) = next b).
  { unfold disconnect. rewrite Hws. cbn. repeat split; try done.
    unfold close_socket. rewrite Hs. destruct rs; try done; apply lookup_insert_eq. }
  destruct H1 as (W1 & R1 & S1 & N1).
  assert (T1 : timers (disconnect b) = ∅).
  { apply set_eq. intros h. split; [| by intros ?%elem_of_empty].
    intros Hin. apply (inv_timers _ HI1) in Hin. congruence. }
  cbn [step]. split; [done |].
  rewrite S1. unfold scheduleReconnect at 1 2 3. cbn [ws reconnectTimeout timers set_socket next].
  rewrite R1, T1, N1, W1.
  assert (T2 : (∅ ∪ {[next b]} : gset nat) = {[next b]}) by apply union_empty_l_L.
  split; [by rewrite T2 |].
  unfold scheduleReconnect. cbn [timers set_socket next reconnectTimeout ws sockets].
  rewrite R1, T1, N1, T2.
  rewrite bool_decide_eq_true_2 by (by apply elem_of_singleton).
  unfold connect. cbn. split; [done |].
  split; [apply lookup_insert_eq | apply difference_diag_L].
Qed.

Lemma disconnect_is_followed_by_reconnect_witness :
  let b := run [Connect true; Opens 0] in
  let b3 := step (step (step b Disconnect) (Closes 0)) (Fires 1 true) in
  ws b3 = Some 2 ∧ sockets b3 !! 2 = Some CONNECTING ∧ timers b3 = ∅.
Proof.
  apply (disconnect_is_followed_by_reconnect (run [Connect true; Opens 0]) 0 OPEN).
  - by eexists.
  - reflexivity.
  - reflexivity.
  - done.
Defined.

End ConnectionFacts.
